(** * The xv6 file-system core: buffer cache, log and inode layer

    A shallow embedding of [kernel/bio.c] (module [Bio]), of the log
    ([initlog] .. [log_write]) and of the inode layer ([balloc] .. [namex]),
    followed by the properties the specification states about them. *)

From Stdlib Require Import ZArith List Lia Bool String.
Import ListNotations.
Open Scope Z_scope.

(** ** Machine integers *)

(** [uint] arithmetic wraps modulo 2^32. *)
Definition u32 (z : Z) : Z := z mod 4294967296.

(** A [uint] read back as an [int]. *)
Definition s32 (z : Z) : Z :=
  if u32 z <? 2147483648 then u32 z else u32 z - 4294967296.

(** ** Outcomes of a kernel routine

    A routine returns, calls [panic] (which never returns), sleeps on a
    lock that nobody will release ([Blocked]), or, for the two loops whose
    trip count is not fixed in advance, exhausts the iteration budget of
    the model ([OutOfFuel]; shown unreachable below). *)
Inductive outcome (A : Type) : Type :=
| Ret (a : A)
| Panic (msg : string)
| Blocked
| OutOfFuel.
Arguments Ret {A} a.
Arguments Panic {A} msg.
Arguments Blocked {A}.
Arguments OutOfFuel {A}.

(** ** Arrays updated by index *)

Fixpoint set_nth {A} (i : nat) (x : A) (l : list A) : list A :=
  match l, i with
  | [], _ => []
  | _ :: t, O => x :: t
  | h :: t, S i' => h :: set_nth i' x t
  end.

Fixpoint remove_nth {A} (i : nat) (l : list A) : list A :=
  match l, i with
  | [], _ => []
  | _ :: t, O => t
  | h :: t, S i' => h :: remove_nth i' t
  end.

(** ** bio.c: the bucketed buffer cache *)
Module Bio.

Definition NBUFMAP_BUCKET : Z := 13.

(** [#define BUFMAP_HASH(dev, blockno) ((((dev)<<27)|(blockno))%NBUFMAP_BUCKET)] *)
Definition BUFMAP_HASH (dev blockno : Z) : Z :=
  Z.lor (u32 (Z.shiftl dev 27)) blockno mod NBUFMAP_BUCKET.

(** [struct buf], without the payload; [bid] is the slot's index in
    [bcache.buf], that is the identity of the pointer. *)
Record buf : Type := mkbuf {
  bid : nat;
  valid : Z;
  dev : Z;
  blockno : Z;
  refcnt : Z;
  lastuse : Z
}.

(** A bucket: the dummy head [bcache.bufmap[i]] (itself a [struct buf]) and
    the chain hanging from its [next] field, in link order. *)
Record bucket : Type := mkbucket {
  head : buf;
  chain : list buf
}.

(** What [bget] hands to [acquire]/[release]. [BucketHead i] is
    [&bcache.bufmap[i]], a dummy head where a spinlock is expected;
    [&bcache.bufmap_locks] and [&bcache.bufeviction_locks] (the arrays) are
    the addresses of their element 0. *)
Inductive lockref : Type :=
| BufmapLock (i : Z)
| EvictionLock (i : Z)
| BucketHead (i : Z).

Inductive event : Type :=
| Acquire (l : lockref)
| Release (l : lockref)
| AcquireSleep (b : nat).

Record bcache : Type := mkbcache {
  bufmap : list bucket;
  trace : list event
}.

Definition nobuf : buf := mkbuf 0 0 0 0 0 0.
Definition nobucket : bucket := mkbucket nobuf [].

Definition bucket_at (bc : bcache) (i : nat) : bucket := nth i (bufmap bc) nobucket.

Definition set_chain (bc : bcache) (i : nat) (c : list buf) : bcache :=
  mkbcache (set_nth i (mkbucket (head (bucket_at bc i)) c) (bufmap bc)) (trace bc).

Definition emit (bc : bcache) (ev : list event) : bcache :=
  mkbcache (bufmap bc) (trace bc ++ ev).

Definition is_block (d b : Z) (x : buf) : bool := (dev x =? d) && (blockno x =? b).

Definition bump (x : buf) : buf :=
  mkbuf (bid x) (valid x) (dev x) (blockno x) (u32 (refcnt x + 1)) (lastuse x).

(** The first scan of bucket [key] (bio.c:94-100). The body of the [if]
    does not leave the loop: every matching node of the chain is visited. *)
Fixpoint scan_fast (d b key : Z) (l : list buf) : list buf * list event :=
  match l with
  | [] => ([], [])
  | x :: rest =>
      let (rest', ev) := scan_fast d b key rest in
      if is_block d b x
      then (bump x :: rest', Release (BucketHead key) :: AcquireSleep (bid x) :: ev)
      else (x :: rest', ev)
  end.

(** The second scan, under the eviction lock (bio.c:105-113). *)
Fixpoint scan_again (d b key : Z) (l : list buf) : list buf * list event :=
  match l with
  | [] => ([], [])
  | x :: rest =>
      let (rest', ev) := scan_again d b key rest in
      if is_block d b x
      then (bump x :: rest',
            Acquire (BufmapLock 0) :: Release (BufmapLock key)
              :: Release (EvictionLock key) :: AcquireSleep (bid x) :: ev)
      else (x :: rest', ev)
  end.

(** [before_last] is a pointer to the node in front of the candidate: here
    the bucket and the position of the candidate in its chain. *)
Definition candidate : Type := (nat * nat)%type.

Definition cand_buf (bc : bcache) (c : candidate) : buf :=
  nth (snd c) (chain (bucket_at bc (fst c))) nobuf.

(** The inner loop of the eviction scan (bio.c:122-127) over bucket [i]:
    [pred] is [b], [x] is [b->next], [j] the position of [x]. *)
Fixpoint scan_bucket (bc : bcache) (i : nat) (pred : buf) (l : list buf) (j : nat)
    (before_last : option candidate) (new_buf : bool) : option candidate * bool :=
  match l with
  | [] => (before_last, new_buf)
  | x :: rest =>
      if (refcnt x =? 0)
         && match before_last with
            | None => true
            | Some c => lastuse pred <? lastuse (cand_buf bc c)
            end
      then scan_bucket bc i x rest (S j) (Some (i, j)) true
      else scan_bucket bc i x rest (S j) before_last new_buf
  end.

(** The outer loop (bio.c:118-136), buckets [i], [i+1], ... for [k] rounds. *)
Fixpoint scan_all (bc : bcache) (k : nat) (i : nat)
    (before_last : option candidate) (holding_bucket : Z) (ev : list event)
    : option candidate * Z * list event :=
  match k with
  | O => (before_last, holding_bucket, ev)
  | S k' =>
      let ev1 := ev ++ [Acquire (BufmapLock (Z.of_nat i))] in
      let bk := bucket_at bc i in
      let (bl, new_buf) := scan_bucket bc i (head bk) (chain bk) 0 before_last false in
      if negb new_buf
      then scan_all bc k' (S i) bl holding_bucket
             (ev1 ++ [Release (BufmapLock (Z.of_nat i))])
      else scan_all bc k' (S i) bl (Z.of_nat i)
             (if holding_bucket =? u32 (-1) then ev1
              else ev1 ++ [Release (BufmapLock holding_bucket)])
  end.

Definition recycle (d b : Z) (x : buf) : buf :=
  mkbuf (bid x) 0 d b 1 (lastuse x).

(** [bget(dev, blockno)]: the identity of the buffer it returns, and the
    cache afterwards. *)
Definition bget (bc : bcache) (d b : Z) : outcome (nat * bcache) :=
  let key := BUFMAP_HASH d b in
  let k := Z.to_nat key in
  let bc := emit bc [Acquire (BufmapLock key)] in
  let (c1, ev1) := scan_fast d b key (chain (bucket_at bc k)) in
  let bc := emit (set_chain bc k c1) ev1 in
  let bc := emit bc [Release (BufmapLock key); Acquire (EvictionLock 0)] in
  let (c2, ev2) := scan_again d b key (chain (bucket_at bc k)) in
  let bc := emit (set_chain bc k c2) ev2 in
  let '(before_last, holding_bucket, ev3) :=
    scan_all bc (Z.to_nat NBUFMAP_BUCKET) 0 None (u32 (-1)) [] in
  let bc := emit bc ev3 in
  match before_last with
  | None => Panic "bget: no buffers"
  | Some c =>
      let x := recycle d b (cand_buf bc c) in
      let bc :=
        if negb (holding_bucket =? key)
        then
          let bc := set_chain bc (fst c) (remove_nth (snd c) (chain (bucket_at bc (fst c)))) in
          let bc := emit bc [Release (BufmapLock holding_bucket); Acquire (BufmapLock key)] in
          set_chain bc k (x :: chain (bucket_at bc k))
        else set_chain bc (fst c) (set_nth (snd c) x (chain (bucket_at bc (fst c)))) in
      let bc := emit bc [Release (BufmapLock key); Release (EvictionLock key);
                         AcquireSleep (bid x)] in
      Ret (bid x, bc)
  end.

(** A cache of [NBUFMAP_BUCKET] buckets with the given chains. *)
Definition cache_of (chains : list (list buf)) : bcache :=
  mkbcache (map (mkbucket nobuf) chains) [].

Definition all_bufs (bc : bcache) : list buf := flat_map chain (bufmap bc).

Definition find_buf (bc : bcache) (i : nat) : option buf :=
  find (fun x => Nat.eqb (bid x) i) (all_bufs bc).

End Bio.

(** ** Disk blocks

    [uchar data[BSIZE]]: a block maps a byte offset to a byte. Multi-byte
    fields are little-endian, as on RISC-V. *)
Definition BSIZE : Z := 1024.

Definition block : Type := Z -> Z.

Definition zero_block : block := fun _ => 0.

Definition put8 (d : block) (off v : Z) : block :=
  fun o => if o =? off then v mod 256 else d o.

Definition get16 (d : block) (off : Z) : Z := d off + 256 * d (off + 1).

Definition put16 (d : block) (off v : Z) : block :=
  put8 (put8 d off v) (off + 1) (v / 256).

Definition get32 (d : block) (off : Z) : Z :=
  d off + 256 * d (off + 1) + 65536 * d (off + 2) + 16777216 * d (off + 3).

Definition put32 (d : block) (off v : Z) : block :=
  put8 (put8 (put8 (put8 d off v) (off + 1) (v / 256)) (off + 2) (v / 65536))
       (off + 3) (v / 16777216).

(** A [short] read from two bytes. *)
Definition s16 (z : Z) : Z := if z <? 32768 then z else z - 65536.

(** ** Kernel data structures *)

(** [struct logheader] and [struct log]. *)
Module Lg.

Record logheader : Type := mkheader {
  n : Z;
  block : list Z
}.

Record log : Type := mklog {
  start : Z;
  size : Z;
  outstanding : Z;
  committing : Z;
  dev : Z;
  lh : logheader
}.

End Lg.

(** Modelled from the spec: [struct superblock] of fs.h (not in the
    repository's sources), with the fields section 3 lists. *)
Module Sb.

Record superblock : Type := mksb {
  magic : Z;
  size : Z;
  nblocks : Z;
  ninodes : Z;
  nlog : Z;
  logstart : Z;
  inodestart : Z;
  bmapstart : Z
}.

End Sb.

(** Modelled from the spec: the in-memory [struct inode] of file.h (not in
    the sources), with the fields section 3 lists; [lock] is whether the
    sleep-lock is held. *)
Module Ino.

Record inode : Type := mkinode {
  dev : Z;
  inum : Z;
  ref : Z;
  valid : Z;
  lock : bool;
  type : Z;
  major : Z;
  minor : Z;
  nlink : Z;
  size : Z;
  addrs : list Z
}.

End Ino.

(** The kernel's global state, as far as the log and the inode layer see it.

    The buffer cache appears through the contract of section 4.1: one buffer
    per block number ([bvalid], [bdata], [brefcnt] and [bheld], the
    buffer's sleep-lock), never evicted. [writes] records every
    [virtio_disk_rw(b, 1)], oldest first. [user_ok dst len] tells whether a
    copy to or from the user range succeeds; [cwd] is [myproc()->cwd]. *)
Record kstate : Type := mkstate {
  disk : Z -> block;
  bvalid : Z -> bool;
  bdata : Z -> block;
  brefcnt : Z -> Z;
  bheld : Z -> bool;
  writes : list (Z * block);
  log : Lg.log;
  sb : Sb.superblock;
  icache : nat -> Ino.inode;
  user_ok : Z -> Z -> bool;
  cwd : nat
}.

Definition upd {A} (f : Z -> A) (k : Z) (v : A) : Z -> A :=
  fun x => if x =? k then v else f x.

Definition updn {A} (f : nat -> A) (k : nat) (v : A) : nat -> A :=
  fun x => if Nat.eqb x k then v else f x.

(** ** The monad of kernel routines *)

Definition M (A : Type) : Type := kstate -> outcome (A * kstate).

Definition ret {A} (a : A) : M A := fun st => Ret (a, st).

Definition bind {A B} (m : M A) (f : A -> M B) : M B :=
  fun st =>
    match m st with
    | Ret (a, st') => f a st'
    | Panic msg => Panic msg
    | Blocked => Blocked
    | OutOfFuel => OutOfFuel
    end.

Definition panic {A} (msg : string) : M A := fun _ => Panic msg.

Definition sleep_forever {A} : M A := fun _ => Blocked.

Definition get_state : M kstate := fun st => Ret (st, st).

Definition modify (f : kstate -> kstate) : M unit := fun st => Ret (tt, f st).

Declare Scope kernel_scope.
Delimit Scope kernel_scope with kernel.
Notation "x <- c ;; k" := (bind c (fun x => k))
  (at level 61, c at next level, right associativity) : kernel_scope.
Notation "c ;; k" := (bind c (fun _ => k))
  (at level 61, right associativity) : kernel_scope.
Open Scope kernel_scope.

(** [for (i = lo; i < lo + k; i++) body(i)], for a bound the body leaves alone. *)
Fixpoint for_range (k : nat) (i : Z) (body : Z -> M unit) : M unit :=
  match k with
  | O => ret tt
  | S k' => body i ;; for_range k' (i + 1) body
  end.

(** ** The buffer cache, as its clients use it *)

Definition set_buf (st : kstate) (valid : Z -> bool) (data : Z -> block)
    (refcnt : Z -> Z) (held : Z -> bool) : kstate :=
  mkstate (disk st) valid data refcnt held (writes st) (log st) (sb st)
          (icache st) (user_ok st) (cwd st).

(** Modelled from the spec: [bget] as section 4.1 describes its result, the
    buffer of the block with one more reference and its sleep-lock taken
    (the caller sleeps for ever on a lock it holds itself). The [bget] of
    bio.c is the subject of module [Bio]. *)
Definition bget (dev blockno : Z) : M Z := fun st =>
  if bheld st blockno then Blocked
  else Ret (blockno,
            set_buf st (bvalid st) (bdata st)
                    (upd (brefcnt st) blockno (u32 (brefcnt st blockno + 1)))
                    (upd (bheld st) blockno true)).

(** [virtio_disk_rw(b, 0)]. *)
Definition disk_read (b : Z) : M unit :=
  modify (fun st => set_buf st (bvalid st) (upd (bdata st) b (disk st b))
                            (brefcnt st) (bheld st)).

(** [virtio_disk_rw(b, 1)]. *)
Definition disk_write (b : Z) : M unit :=
  modify (fun st =>
    mkstate (upd (disk st) b (bdata st b)) (bvalid st) (bdata st) (brefcnt st)
            (bheld st) (writes st ++ [(b, bdata st b)]) (log st) (sb st)
            (icache st) (user_ok st) (cwd st)).

Definition bread (dev blockno : Z) : M Z :=
  b <- bget dev blockno ;;
  st <- get_state ;;
  (if negb (bvalid st b)
   then disk_read b ;;
        modify (fun st => set_buf st (upd (bvalid st) b true) (bdata st)
                                  (brefcnt st) (bheld st))
   else ret tt) ;;
  ret b.

Definition bwrite (b : Z) : M unit :=
  st <- get_state ;;
  if negb (bheld st b) then panic "bwrite"
  else disk_write b.

(** [brelse]; the [lastuse] stamp only matters to eviction. *)
Definition brelse (b : Z) : M unit :=
  st <- get_state ;;
  if negb (bheld st b) then panic "brelse"
  else modify (fun st => set_buf st (bvalid st) (bdata st)
                                 (upd (brefcnt st) b (u32 (brefcnt st b - 1)))
                                 (upd (bheld st) b false)).

Definition bpin (b : Z) : M unit :=
  modify (fun st => set_buf st (bvalid st) (bdata st)
                            (upd (brefcnt st) b (u32 (brefcnt st b + 1))) (bheld st)).

Definition bunpin (b : Z) : M unit :=
  modify (fun st => set_buf st (bvalid st) (bdata st)
                            (upd (brefcnt st) b (u32 (brefcnt st b - 1))) (bheld st)).

(** An assignment through [b->data]. *)
Definition set_data (b : Z) (f : block -> block) : M unit :=
  modify (fun st => set_buf st (bvalid st) (upd (bdata st) b (f (bdata st b)))
                            (brefcnt st) (bheld st)).

(** The contents of a block as the next [bread] will see them. *)
Definition view (st : kstate) (b : Z) : block :=
  if bvalid st b then bdata st b else disk st b.

(** ** The log *)

(** Modelled from the spec: [LOGSIZE] of param.h (not in the sources); 30
    is the value the source notes beside [logheader.block]. *)
Definition LOGSIZE : Z := 30.

Definition set_log (st : kstate) (l : Lg.log) : kstate :=
  mkstate (disk st) (bvalid st) (bdata st) (brefcnt st) (bheld st) (writes st)
          l (sb st) (icache st) (user_ok st) (cwd st).

Definition set_lh (l : Lg.log) (h : Lg.logheader) : Lg.log :=
  Lg.mklog (Lg.start l) (Lg.size l) (Lg.outstanding l) (Lg.committing l) (Lg.dev l) h.

Definition set_n (l : Lg.log) (n : Z) : Lg.log :=
  set_lh l (Lg.mkheader n (Lg.block (Lg.lh l))).

Definition set_outstanding (l : Lg.log) (o : Z) : Lg.log :=
  Lg.mklog (Lg.start l) (Lg.size l) o (Lg.committing l) (Lg.dev l) (Lg.lh l).

Definition set_committing (l : Lg.log) (c : Z) : Lg.log :=
  Lg.mklog (Lg.start l) (Lg.size l) (Lg.outstanding l) c (Lg.dev l) (Lg.lh l).

(** [log.lh.block[i]]. *)
Definition lh_block (l : Lg.log) (i : Z) : Z := nth (Z.to_nat i) (Lg.block (Lg.lh l)) 0.

(** The header block seen as a [struct logheader]: [n] at offset 0,
    [block[i]] at offset [4 + 4 i]. *)
Definition hdr_n (d : block) : Z := s32 (get32 d 0).
Definition hdr_block (d : block) (i : Z) : Z := s32 (get32 d (4 + 4 * i)).
Definition hdr_set_n (d : block) (v : Z) : block := put32 d 0 v.
Definition hdr_set_block (d : block) (i v : Z) : block := put32 d (4 + 4 * i) v.

(** [install_trans(recovering)]: copy committed blocks from the log to
    their home location. *)
Definition install_trans (recovering : Z) : M unit :=
  st0 <- get_state ;;
  for_range (Z.to_nat (Lg.n (Lg.lh (log st0)))) 0 (fun tail =>
    st <- get_state ;;
    lbuf <- bread (Lg.dev (log st)) (Lg.start (log st) + tail + 1) ;;
    dbuf <- bread (Lg.dev (log st)) (lh_block (log st) tail) ;;
    st1 <- get_state ;;
    set_data dbuf (fun _ => bdata st1 lbuf) ;;
    bwrite dbuf ;;
    (if recovering =? 0 then bunpin dbuf else ret tt) ;;
    brelse lbuf ;;
    brelse dbuf).

(** [read_head]: the on-disk header into the in-memory one. *)
Definition read_head : M unit :=
  st <- get_state ;;
  buf <- bread (Lg.dev (log st)) (Lg.start (log st)) ;;
  st1 <- get_state ;;
  let d := bdata st1 buf in
  modify (fun st => set_log st (set_n (log st) (hdr_n d))) ;;
  for_range (Z.to_nat (hdr_n d)) 0 (fun i =>
    modify (fun st =>
      set_log st (set_lh (log st)
        (Lg.mkheader (Lg.n (Lg.lh (log st)))
           (set_nth (Z.to_nat i) (hdr_block d i) (Lg.block (Lg.lh (log st)))))))) ;;
  brelse buf.

(** [write_head]: the in-memory header to disk, the commit point. *)
Definition write_head : M unit :=
  st <- get_state ;;
  buf <- bread (Lg.dev (log st)) (Lg.start (log st)) ;;
  set_data buf (fun d => hdr_set_n d (Lg.n (Lg.lh (log st)))) ;;
  for_range (Z.to_nat (Lg.n (Lg.lh (log st)))) 0 (fun i =>
    set_data buf (fun d => hdr_set_block d i (lh_block (log st) i))) ;;
  bwrite buf ;;
  brelse buf.

Definition recover_from_log : M unit :=
  read_head ;;
  install_trans 1 ;;
  modify (fun st => set_log st (set_n (log st) 0)) ;;
  write_head.

(** [initlog]; [sizeof(struct logheader)] is [4 + 4 * LOGSIZE]. *)
Definition initlog (dev : Z) (s : Sb.superblock) : M unit :=
  if 4 + 4 * LOGSIZE >=? BSIZE then panic "initlog: too big logheader"
  else
    modify (fun st =>
      set_log st (Lg.mklog (Sb.logstart s) (Sb.nlog s) (Lg.outstanding (log st))
                           (Lg.committing (log st)) dev (Lg.lh (log st)))) ;;
    recover_from_log.

(** [write_log]: copy modified blocks from the cache to the log. *)
Definition write_log : M unit :=
  st0 <- get_state ;;
  for_range (Z.to_nat (Lg.n (Lg.lh (log st0)))) 0 (fun tail =>
    st <- get_state ;;
    to <- bread (Lg.dev (log st)) (Lg.start (log st) + tail + 1) ;;
    from <- bread (Lg.dev (log st)) (lh_block (log st) tail) ;;
    st1 <- get_state ;;
    set_data to (fun _ => bdata st1 from) ;;
    bwrite to ;;
    brelse from ;;
    brelse to).

Definition commit : M unit :=
  st <- get_state ;;
  if Lg.n (Lg.lh (log st)) >? 0 then
    write_log ;;
    write_head ;;
    install_trans 0 ;;
    modify (fun st => set_log st (set_n (log st) 0)) ;;
    write_head
  else ret tt.

(** *** Admission: [begin_op] and [end_op]

    Each critical section under [log.lock] is one atomic step on
    [struct log]. *)
Section Admission.

(** [MAXOPBLOCKS] of param.h (not in the sources) is a parameter. *)
Variable MAXOPBLOCKS : Z.

(** One turn of the loop of [begin_op]: [None] when the caller sleeps. *)
Definition begin_op_try (l : Lg.log) : option Lg.log :=
  if negb (Lg.committing l =? 0) then None
  else if Lg.n (Lg.lh l) + (Lg.outstanding l + 1) * MAXOPBLOCKS >? LOGSIZE then None
  else Some (set_outstanding l (Lg.outstanding l + 1)).

(** [begin_op] run by the only thread: a sleep is never ended. *)
Definition begin_op : M unit := fun st =>
  match begin_op_try (log st) with
  | None => Blocked
  | Some l => Ret (tt, set_log st l)
  end.

End Admission.

(** The first critical section of [end_op]: the new log and [do_commit]. *)
Definition end_op_enter (l : Lg.log) : outcome (Z * Lg.log) :=
  let l1 := set_outstanding l (Lg.outstanding l - 1) in
  if negb (Lg.committing l1 =? 0) then Panic "log.committing"
  else if Lg.outstanding l1 =? 0 then Ret (1, set_committing l1 1)
  else Ret (0, l1).

(** The second critical section of [end_op], after [commit]. *)
Definition end_op_exit (l : Lg.log) : Lg.log := set_committing l 0.

Definition end_op : M unit := fun st =>
  match end_op_enter (log st) with
  | Ret (do_commit, l) =>
      if negb (do_commit =? 0)
      then (commit ;; modify (fun st => set_log st (end_op_exit (log st)))) (set_log st l)
      else Ret (tt, set_log st l)
  | Panic msg => Panic msg
  | Blocked => Blocked
  | OutOfFuel => OutOfFuel
  end.

(** *** [log_write] *)

(** The scan [for (i = 0; i < log.lh.n; i++) if (block[i] == blockno) break;]:
    the value of [i] after it, from position [i] with [k] entries to go. *)
Fixpoint log_scan (blk : list Z) (b : Z) (k : nat) (i : Z) : Z :=
  match k with
  | O => i
  | S k' => if nth (Z.to_nat i) blk 0 =? b then i else log_scan blk b k' (i + 1)
  end.

(** [log_write(b)]; the buffer is named by its block number. *)
Definition log_write (b : Z) : M unit :=
  st <- get_state ;;
  let l := log st in
  if (Lg.n (Lg.lh l) >=? LOGSIZE) || (Lg.n (Lg.lh l) >=? Lg.size l - 1)
  then panic "too big a transaction"
  else if Lg.outstanding l <? 1 then panic "log_write outside of trans"
  else
    let i := log_scan (Lg.block (Lg.lh l)) b (Z.to_nat (Lg.n (Lg.lh l))) 0 in
    modify (fun st =>
      set_log st (set_lh (log st)
        (Lg.mkheader (Lg.n (Lg.lh (log st)))
           (set_nth (Z.to_nat i) b (Lg.block (Lg.lh (log st))))))) ;;
    if i =? Lg.n (Lg.lh l)
    then bpin b ;;
         modify (fun st => set_log st (set_n (log st) (Lg.n (Lg.lh (log st)) + 1)))
    else ret tt.

(** ** The inode layer *)

(** Modelled from the spec: the constants and layout macros of fs.h,
    param.h and stat.h (not in the sources), with the canonical values of
    sections 3 and 6. *)
Definition NDIRECT : Z := 11.
Definition NINDIRECT : Z := BSIZE / 4.
Definition MAXFILE : Z := NDIRECT + NINDIRECT + NINDIRECT * NINDIRECT.
Definition DINODE_SIZE : Z := 8 + 4 + 4 * (NDIRECT + 2).
Definition IPB : Z := BSIZE / DINODE_SIZE.
Definition BPB : Z := BSIZE * 8.
Definition DIRSIZ : Z := 14.
Definition DIRENT_SIZE : Z := 2 + DIRSIZ.
Definition NINODE : nat := 50.
Definition ROOTDEV : Z := 1.
Definition ROOTINO : Z := 1.
Definition T_DIR : Z := 1.

Definition IBLOCK (i : Z) (s : Sb.superblock) : Z := u32 (i / IPB + Sb.inodestart s).
Definition BBLOCK (b : Z) (s : Sb.superblock) : Z := u32 (b / BPB + Sb.bmapstart s).

(** The slot of inode [inum] in its block, and the fields of the
    [struct dinode] stored there. *)
Definition dslot (inum : Z) : Z := DINODE_SIZE * (inum mod IPB).
Definition d_type (d : block) (inum : Z) : Z := s16 (get16 d (dslot inum)).
Definition d_major (d : block) (inum : Z) : Z := s16 (get16 d (dslot inum + 2)).
Definition d_minor (d : block) (inum : Z) : Z := s16 (get16 d (dslot inum + 4)).
Definition d_nlink (d : block) (inum : Z) : Z := s16 (get16 d (dslot inum + 6)).
Definition d_size (d : block) (inum : Z) : Z := get32 d (dslot inum + 8).
Definition d_addr (d : block) (inum i : Z) : Z := get32 d (dslot inum + 12 + 4 * i).

Fixpoint d_addrs (d : block) (inum : Z) (k : nat) (i : Z) : list Z :=
  match k with
  | O => []
  | S k' => d_addr d inum i :: d_addrs d inum k' (i + 1)
  end.

Fixpoint put_addrs (d : block) (off : Z) (l : list Z) : block :=
  match l with
  | [] => d
  | a :: t => put_addrs (put32 d off a) (off + 4) t
  end.

(** The stores of [iupdate] into the slot. *)
Definition put_dinode (d : block) (ip : Ino.inode) : block :=
  let o := dslot (Ino.inum ip) in
  put_addrs
    (put32 (put16 (put16 (put16 (put16 d o (Ino.type ip)) (o + 2) (Ino.major ip))
                         (o + 4) (Ino.minor ip)) (o + 6) (Ino.nlink ip))
           (o + 8) (Ino.size ip))
    (o + 12) (firstn (Z.to_nat (NDIRECT + 2)) (Ino.addrs ip)).

Definition set_icache (st : kstate) (c : nat -> Ino.inode) : kstate :=
  mkstate (disk st) (bvalid st) (bdata st) (brefcnt st) (bheld st) (writes st)
          (log st) (sb st) c (user_ok st) (cwd st).

(** An assignment to fields of [*ip]. *)
Definition set_ino (ip : nat) (f : Ino.inode -> Ino.inode) : M unit :=
  modify (fun st => set_icache st (updn (icache st) ip (f (icache st ip)))).

Definition with_ref (v : Z) (i : Ino.inode) : Ino.inode :=
  Ino.mkinode (Ino.dev i) (Ino.inum i) v (Ino.valid i) (Ino.lock i) (Ino.type i)
    (Ino.major i) (Ino.minor i) (Ino.nlink i) (Ino.size i) (Ino.addrs i).
Definition with_valid (v : Z) (i : Ino.inode) : Ino.inode :=
  Ino.mkinode (Ino.dev i) (Ino.inum i) (Ino.ref i) v (Ino.lock i) (Ino.type i)
    (Ino.major i) (Ino.minor i) (Ino.nlink i) (Ino.size i) (Ino.addrs i).
Definition with_lock (v : bool) (i : Ino.inode) : Ino.inode :=
  Ino.mkinode (Ino.dev i) (Ino.inum i) (Ino.ref i) (Ino.valid i) v (Ino.type i)
    (Ino.major i) (Ino.minor i) (Ino.nlink i) (Ino.size i) (Ino.addrs i).
Definition with_type (v : Z) (i : Ino.inode) : Ino.inode :=
  Ino.mkinode (Ino.dev i) (Ino.inum i) (Ino.ref i) (Ino.valid i) (Ino.lock i) v
    (Ino.major i) (Ino.minor i) (Ino.nlink i) (Ino.size i) (Ino.addrs i).
Definition with_size (v : Z) (i : Ino.inode) : Ino.inode :=
  Ino.mkinode (Ino.dev i) (Ino.inum i) (Ino.ref i) (Ino.valid i) (Ino.lock i) (Ino.type i)
    (Ino.major i) (Ino.minor i) (Ino.nlink i) v (Ino.addrs i).
Definition with_addrs (v : list Z) (i : Ino.inode) : Ino.inode :=
  Ino.mkinode (Ino.dev i) (Ino.inum i) (Ino.ref i) (Ino.valid i) (Ino.lock i) (Ino.type i)
    (Ino.major i) (Ino.minor i) (Ino.nlink i) (Ino.size i) v.

(** [ip->addrs[i]] and [ip->addrs[i] = v]. *)
Definition addr_of (i : Ino.inode) (k : Z) : Z := nth (Z.to_nat k) (Ino.addrs i) 0.
Definition set_addr (ip : nat) (k v : Z) : M unit :=
  set_ino ip (fun i => with_addrs (set_nth (Z.to_nat k) v (Ino.addrs i)) i).

(** *** Blocks *)

(** [bzero]: zero a block. *)
Definition bzero (dev bno : Z) : M unit :=
  bp <- bread dev bno ;;
  set_data bp (fun _ => zero_block) ;;
  log_write bp ;;
  brelse bp.

(** The mask [1 << (bi % 8)] and the byte [bi/8] of a bitmap block. *)
Definition bit_mask (bi : Z) : Z := Z.shiftl 1 (bi mod 8).
Definition bit_free (d : block) (bi : Z) : bool := Z.land (d (bi / 8)) (bit_mask bi) =? 0.
Definition bit_set (d : block) (bi : Z) : block :=
  put8 d (bi / 8) (Z.lor (d (bi / 8)) (bit_mask bi)).
Definition bit_clear (d : block) (bi : Z) : block :=
  put8 d (bi / 8) (Z.land (d (bi / 8)) (Z.lnot (bit_mask bi))).

(** The inner loop of [balloc] over one bitmap block: the first free [bi],
    searching from [bi] for [k] rounds while [b + bi < sb.size]. *)
Fixpoint balloc_scan (d : block) (b size : Z) (k : nat) (bi : Z) : option Z :=
  match k with
  | O => None
  | S k' =>
      if b + bi <? size
      then if bit_free d bi then Some bi else balloc_scan d b size k' (bi + 1)
      else None
  end.

(** The outer loop of [balloc], from bit [b], for at most [k] bitmap blocks. *)
Fixpoint balloc_loop (k : nat) (dev b : Z) : M Z :=
  st <- get_state ;;
  if b <? Sb.size (sb st) then
    match k with
    | O => fun _ => OutOfFuel
    | S k' =>
        bp <- bread dev (BBLOCK b (sb st)) ;;
        st1 <- get_state ;;
        match balloc_scan (bdata st1 bp) b (Sb.size (sb st)) (Z.to_nat BPB) 0 with
        | Some bi =>
            set_data bp (fun d => bit_set d bi) ;;
            log_write bp ;;
            brelse bp ;;
            bzero dev (b + bi) ;;
            ret (b + bi)
        | None =>
            brelse bp ;;
            balloc_loop k' dev (b + BPB)
        end
    end
  else panic "balloc: out of blocks".

(** [balloc]: allocate a zeroed disk block. *)
Definition balloc (dev : Z) : M Z :=
  st <- get_state ;;
  balloc_loop (S (Z.to_nat (Sb.size (sb st) / BPB))) dev 0.

(** [bfree]: free a disk block. *)
Definition bfree (dev b : Z) : M unit :=
  st <- get_state ;;
  bp <- bread dev (BBLOCK b (sb st)) ;;
  let bi := b mod BPB in
  st1 <- get_state ;;
  if bit_free (bdata st1 bp) bi then panic "freeing free block"
  else
    set_data bp (fun d => bit_clear d bi) ;;
    log_write bp ;;
    brelse bp.

(** *** Inodes *)

(** [iupdate]: copy a modified in-memory inode to its slot. *)
Definition iupdate (ip : nat) : M unit :=
  st <- get_state ;;
  let i := icache st ip in
  bp <- bread (Ino.dev i) (IBLOCK (Ino.inum i) (sb st)) ;;
  set_data bp (fun d => put_dinode d i) ;;
  log_write bp ;;
  brelse bp.

(** The scan of [iget] over [icache.inode[i ..]]: the entry that holds the
    inode, if any, and the first empty one. *)
Fixpoint iget_scan (c : nat -> Ino.inode) (dev inum : Z) (k i : nat) (empty : option nat)
    : option nat * option nat :=
  match k with
  | O => (None, empty)
  | S k' =>
      let e := c i in
      if (Ino.ref e >? 0) && (Ino.dev e =? dev) && (Ino.inum e =? inum)
      then (Some i, empty)
      else iget_scan c dev inum k' (S i)
             (match empty with
              | None => if Ino.ref e =? 0 then Some i else None
              | Some _ => empty
              end)
  end.

Definition iget (dev inum : Z) : M nat :=
  st <- get_state ;;
  match iget_scan (icache st) dev inum NINODE 0%nat None with
  | (Some ip, _) => set_ino ip (fun i => with_ref (Ino.ref i + 1) i) ;; ret ip
  | (None, None) => panic "iget: no inodes"
  | (None, Some ip) =>
      set_ino ip (fun i =>
        Ino.mkinode dev inum 1 0 (Ino.lock i) (Ino.type i) (Ino.major i) (Ino.minor i)
                    (Ino.nlink i) (Ino.size i) (Ino.addrs i)) ;;
      ret ip
  end.

Definition idup (ip : nat) : M nat :=
  set_ino ip (fun i => with_ref (Ino.ref i + 1) i) ;; ret ip.

(** [acquiresleep(&ip->lock)]. *)
Definition acquire_ilock (ip : nat) : M unit :=
  st <- get_state ;;
  if Ino.lock (icache st ip) then sleep_forever
  else set_ino ip (with_lock true).

(** [ilock]: lock the inode, reading it from disk if necessary. *)
Definition ilock (ip : nat) : M unit :=
  st <- get_state ;;
  if Ino.ref (icache st ip) <? 1 then panic "ilock"
  else
    acquire_ilock ip ;;
    if Ino.valid (icache st ip) =? 0 then
      let i := icache st ip in
      bp <- bread (Ino.dev i) (IBLOCK (Ino.inum i) (sb st)) ;;
      st1 <- get_state ;;
      let d := bdata st1 bp in
      let n := Ino.inum i in
      set_ino ip (fun i =>
        Ino.mkinode (Ino.dev i) (Ino.inum i) (Ino.ref i) (Ino.valid i) (Ino.lock i)
          (d_type d n) (d_major d n) (d_minor d n) (d_nlink d n) (d_size d n)
          (d_addrs d n (Z.to_nat (NDIRECT + 2)) 0)) ;;
      brelse bp ;;
      set_ino ip (with_valid 1) ;;
      if d_type d n =? 0 then panic "ilock: no type" else ret tt
    else ret tt.

Definition iunlock (ip : nat) : M unit :=
  st <- get_state ;;
  if negb (Ino.lock (icache st ip)) || (Ino.ref (icache st ip) <? 1)
  then panic "iunlock"
  else set_ino ip (with_lock false).

(** [bmap]: the disk block address of the [bn]th block of the inode,
    allocated if there is none. *)
Definition bmap (ip : nat) (bn : Z) : M Z :=
  st <- get_state ;;
  let dev := Ino.dev (icache st ip) in
  if bn <? NDIRECT then
    let addr := addr_of (icache st ip) bn in
    if addr =? 0
    then addr <- balloc dev ;; set_addr ip bn addr ;; ret addr
    else ret addr
  else
    let bn := bn - NDIRECT in
    if bn <? NINDIRECT then
      addr <- (let addr := addr_of (icache st ip) NDIRECT in
               if addr =? 0
               then addr <- balloc dev ;; set_addr ip NDIRECT addr ;; ret addr
               else ret addr) ;;
      bp <- bread dev addr ;;
      st1 <- get_state ;;
      addr <- (let addr := get32 (bdata st1 bp) (4 * bn) in
               if addr =? 0
               then addr <- balloc dev ;;
                    set_data bp (fun d => put32 d (4 * bn) addr) ;;
                    log_write bp ;;
                    ret addr
               else ret addr) ;;
      brelse bp ;;
      ret addr
    else
      let bn := bn - NINDIRECT in
      if bn <? NINDIRECT * NINDIRECT then
        addr <- (let addr := addr_of (icache st ip) (NDIRECT + 1) in
                 if addr =? 0
                 then addr <- balloc dev ;; set_addr ip (NDIRECT + 1) addr ;; ret addr
                 else ret addr) ;;
        bp <- bread dev addr ;;
        let level_1 := bn / NINDIRECT in
        let level_2 := bn mod NINDIRECT in
        st1 <- get_state ;;
        addr <- (let addr := get32 (bdata st1 bp) (4 * level_1) in
                 if addr =? 0
                 then addr <- balloc dev ;;
                      set_data bp (fun d => put32 d (4 * level_1) addr) ;;
                      log_write bp ;;
                      ret addr
                 else ret addr) ;;
        brelse bp ;;
        bp_2 <- bread dev addr ;;
        st2 <- get_state ;;
        addr <- (let addr := get32 (bdata st2 bp_2) (4 * level_2) in
                 if addr =? 0
                 then addr <- balloc dev ;;
                      set_data bp_2 (fun d => put32 d (4 * level_2) addr) ;;
                      log_write bp_2 ;;
                      ret addr
                 else ret addr) ;;
        brelse bp_2 ;;
        ret addr
      else panic "bmap: out of range".

(** [if (a[j]) bfree(dev, a[j])] for the entries [j] of the held buffer [bp]. *)
Definition free_entries (dev bp : Z) : M unit :=
  for_range (Z.to_nat NINDIRECT) 0 (fun j =>
    st <- get_state ;;
    let a := get32 (bdata st bp) (4 * j) in
    if negb (a =? 0) then bfree dev a else ret tt).

(** [itrunc]: truncate the inode (discard its contents). *)
Definition itrunc (ip : nat) : M unit :=
  st0 <- get_state ;;
  let dev := Ino.dev (icache st0 ip) in
  for_range (Z.to_nat NDIRECT) 0 (fun i =>
    st <- get_state ;;
    let a := addr_of (icache st ip) i in
    if negb (a =? 0) then bfree dev a ;; set_addr ip i 0 else ret tt) ;;
  st <- get_state ;;
  (let a := addr_of (icache st ip) NDIRECT in
   if negb (a =? 0) then
     bp <- bread dev a ;;
     free_entries dev bp ;;
     brelse bp ;;
     bfree dev a ;;
     set_addr ip NDIRECT 0
   else ret tt) ;;
  st <- get_state ;;
  (let a := addr_of (icache st ip) (NDIRECT + 1) in
   if negb (a =? 0) then
     bp <- bread dev a ;;
     for_range (Z.to_nat NINDIRECT) 0 (fun j =>
       st <- get_state ;;
       let aj := get32 (bdata st bp) (4 * j) in
       if negb (aj =? 0) then
         bp_2 <- bread dev aj ;;
         free_entries dev bp_2 ;;
         brelse bp_2 ;;
         st' <- get_state ;;
         bfree dev (get32 (bdata st' bp) (4 * j))
       else ret tt) ;;
     brelse bp ;;
     bfree dev a ;;
     set_addr ip (NDIRECT + 1) 0
   else ret tt) ;;
  set_ino ip (with_size 0) ;;
  iupdate ip.

(** [iput]: drop a reference to an in-memory inode. *)
Definition iput (ip : nat) : M unit :=
  st <- get_state ;;
  let i := icache st ip in
  (if (Ino.ref i =? 1) && negb (Ino.valid i =? 0) && (Ino.nlink i =? 0) then
     acquire_ilock ip ;;
     itrunc ip ;;
     set_ino ip (with_type 0) ;;
     iupdate ip ;;
     set_ino ip (with_valid 0) ;;
     set_ino ip (with_lock false)
   else ret tt) ;;
  set_ino ip (fun i => with_ref (Ino.ref i - 1) i).

Definition iunlockput (ip : nat) : M unit :=
  iunlock ip ;; iput ip.

(** *** Inode content *)

(** Modelled from the spec: [either_copyout] and [either_copyin] of proc.c
    (not in the sources). A kernel address is copied with [memmove]; a
    user address fails as [user_ok] says. *)
Definition either_copy_ok (st : kstate) (user : Z) (addr len : Z) : bool :=
  if user =? 0 then true else user_ok st addr len.

(** [len] bytes of a block from offset [off]. *)
Fixpoint bytes_from (d : block) (off : Z) (len : nat) : list Z :=
  match len with
  | O => []
  | S k => d off :: bytes_from d (off + 1) k
  end.

(** Bytes stored into a block from offset [off]. *)
Fixpoint store_bytes (d : block) (off : Z) (l : list Z) : block :=
  match l with
  | [] => d
  | x :: t => store_bytes (put8 d off x) (off + 1) t
  end.

(** The loop of [readi]; [acc] collects the bytes handed to
    [either_copyout], in order of destination address. *)
Fixpoint readi_loop (fuel : nat) (ip : nat) (user_dst n tot off dst : Z) (acc : list Z)
    : M (Z * list Z) :=
  if tot <? n then
    match fuel with
    | O => fun _ => OutOfFuel
    | S fuel' =>
        st <- get_state ;;
        addr <- bmap ip (off / BSIZE) ;;
        bp <- bread (Ino.dev (icache st ip)) addr ;;
        let m := Z.min (n - tot) (BSIZE - off mod BSIZE) in
        st1 <- get_state ;;
        if negb (either_copy_ok st1 user_dst dst m)
        then brelse bp ;; ret (u32 (-1), acc)
        else brelse bp ;;
             readi_loop fuel' ip user_dst n (tot + m) (off + m) (dst + m)
               (acc ++ bytes_from (bdata st1 bp) (off mod BSIZE) (Z.to_nat m))
    end
  else ret (tot, acc).

(** [readi]: the value returned and the bytes copied out. *)
Definition readi (ip : nat) (user_dst dst off n : Z) : M (Z * list Z) :=
  st <- get_state ;;
  let size := Ino.size (icache st ip) in
  if (off >? size) || (u32 (off + n) <? off) then ret (0, [])
  else
    let n := if u32 (off + n) >? size then size - off else n in
    r <- readi_loop (Z.to_nat n) ip user_dst n 0 off dst [] ;;
    ret (s32 (fst r), snd r).

(** The loop of [writei]; [data] holds the bytes at [src], [src + 1], ...
    The loop leaves [tot] and [off]. *)
Fixpoint writei_loop (fuel : nat) (ip : nat) (user_src n tot off src : Z) (data : list Z)
    : M (Z * Z) :=
  if tot <? n then
    match fuel with
    | O => fun _ => OutOfFuel
    | S fuel' =>
        st <- get_state ;;
        addr <- bmap ip (off / BSIZE) ;;
        bp <- bread (Ino.dev (icache st ip)) addr ;;
        let m := Z.min (n - tot) (BSIZE - off mod BSIZE) in
        st1 <- get_state ;;
        if negb (either_copy_ok st1 user_src src m)
        then brelse bp ;; ret (tot, off)
        else set_data bp (fun d =>
               store_bytes d (off mod BSIZE) (firstn (Z.to_nat m) (skipn (Z.to_nat tot) data))) ;;
             log_write bp ;;
             brelse bp ;;
             writei_loop fuel' ip user_src n (tot + m) (off + m) (src + m) data
    end
  else ret (tot, off).

(** [writei]. *)
Definition writei (ip : nat) (user_src src : Z) (data : list Z) (off n : Z) : M Z :=
  st <- get_state ;;
  if (off >? Ino.size (icache st ip)) || (u32 (off + n) <? off) then ret (-1)
  else if u32 (off + n) >? MAXFILE * BSIZE then ret (-1)
  else
    r <- writei_loop (Z.to_nat n) ip user_src n 0 off src data ;;
    st1 <- get_state ;;
    (if snd r >? Ino.size (icache st1 ip) then set_ino ip (with_size (snd r)) else ret tt) ;;
    iupdate ip ;;
    ret (s32 (fst r)).

(** *** Directories *)

(** Modelled from the spec: [strncmp] of string.c (not in the sources),
    the C comparison of at most [n] bytes that stops at a null byte. A
    list shorter than the bytes read is followed by nulls. *)
Fixpoint strncmp (p q : list Z) (n : nat) : Z :=
  match n with
  | O => 0
  | S n' =>
      let a := hd 0 p in
      let b := hd 0 q in
      if negb (a =? 0) && (a =? b) then strncmp (tl p) (tl q) n'
      else a mod 256 - b mod 256
  end.

Definition namecmp (s t : list Z) : Z := strncmp s t (Z.to_nat DIRSIZ).

(** The fields of a [struct dirent] read into 16 bytes. *)
Definition de_inum (de : list Z) : Z := nth 0 de 0 + 256 * nth 1 de 0.
Definition de_name (de : list Z) : list Z := firstn (Z.to_nat DIRSIZ) (skipn 2 de).

(** The loop of [dirlookup] from offset [off]. *)
Fixpoint dirlookup_loop (k : nat) (dp : nat) (name : list Z) (off : Z)
    : M (option (nat * Z)) :=
  st <- get_state ;;
  if off <? Ino.size (icache st dp) then
    match k with
    | O => fun _ => OutOfFuel
    | S k' =>
        r <- readi dp 0 0 off DIRENT_SIZE ;;
        if negb (fst r =? DIRENT_SIZE) then panic "dirlookup read"
        else
          let de := snd r in
          if de_inum de =? 0 then dirlookup_loop k' dp name (u32 (off + DIRENT_SIZE))
          else if namecmp name (de_name de) =? 0
          then ip <- iget (Ino.dev (icache st dp)) (de_inum de) ;; ret (Some (ip, off))
          else dirlookup_loop k' dp name (u32 (off + DIRENT_SIZE))
    end
  else ret None.

(** [dirlookup]: the entry's inode and its byte offset ([*poff]), or
    [None] for the null pointer. *)
Definition dirlookup (dp : nat) (name : list Z) : M (option (nat * Z)) :=
  st <- get_state ;;
  if negb (Ino.type (icache st dp) =? T_DIR) then panic "dirlookup not DIR"
  else dirlookup_loop (S (Z.to_nat (Ino.size (icache st dp) / DIRENT_SIZE))) dp name 0.

(** *** Paths

    A path is the list of the bytes of a C string; it ends where the list
    ends or at a null byte. *)

Definition SLASH : Z := 47.

(** [while ( *path == '/') path++;] *)
Fixpoint skip_slashes (path : list Z) : list Z :=
  match path with
  | c :: t => if c =? SLASH then skip_slashes t else path
  | [] => []
  end.

(** [*path == 0] *)
Definition at_end (path : list Z) : bool :=
  match path with
  | [] => true
  | c :: _ => c =? 0
  end.

(** [while ( *path != '/' && *path != 0) path++;]: the bytes passed over
    and the path left. *)
Fixpoint elem_end (path : list Z) : list Z * list Z :=
  match path with
  | [] => ([], [])
  | c :: t =>
      if (c =? SLASH) || (c =? 0) then ([], path)
      else let (e, r) := elem_end t in (c :: e, r)
  end.

(** [skipelem(path, name)]: [None] for the null pointer, otherwise the
    path returned and the buffer [name] afterwards. *)
Definition skipelem (path name : list Z) : option (list Z * list Z) :=
  let path := skip_slashes path in
  if at_end path then None
  else
    let (s, path) := elem_end path in
    let len := Z.of_nat (List.length s) in
    let name :=
      if len >=? DIRSIZ
      then firstn (Z.to_nat DIRSIZ) s ++ skipn (Z.to_nat DIRSIZ) name
      else s ++ 0 :: skipn (Z.to_nat (len + 1)) name in
    Some (skip_slashes path, name).

(** The loop of [namex]. *)
Fixpoint namex_loop (fuel : nat) (ip : nat) (path : list Z) (nameiparent : Z)
    (name : list Z) : M (option nat * list Z) :=
  match skipelem path name with
  | Some (path, name) =>
      match fuel with
      | O => fun _ => OutOfFuel
      | S fuel' =>
          ilock ip ;;
          st <- get_state ;;
          if negb (Ino.type (icache st ip) =? T_DIR)
          then iunlockput ip ;; ret (None, name)
          else if negb (nameiparent =? 0) && at_end path
          then iunlock ip ;; ret (Some ip, name)
          else
            next <- dirlookup ip name ;;
            match next with
            | None => iunlockput ip ;; ret (None, name)
            | Some (next, _) =>
                iunlockput ip ;;
                namex_loop fuel' next path nameiparent name
            end
      end
  | None =>
      if negb (nameiparent =? 0) then iput ip ;; ret (None, name)
      else ret (Some ip, name)
  end.

(** [namex]: the inode found ([None] for the null pointer) and the buffer
    [name] afterwards. *)
Definition namex (path : list Z) (nameiparent : Z) (name : list Z)
    : M (option nat * list Z) :=
  ip <- (if hd 0 path =? SLASH then iget ROOTDEV ROOTINO
         else st <- get_state ;; idup (cwd st)) ;;
  namex_loop (List.length path) ip path nameiparent name.

(** [namei]; [name] is the caller's uninitialised [char name[DIRSIZ]]. *)
Definition namei (path name : list Z) : M (option nat) :=
  r <- namex path 0 name ;; ret (fst r).

Definition nameiparent (path name : list Z) : M (option nat * list Z) :=
  namex path 1 name.

(** * Properties *)

(** ** The bucketed [bget] *)
Module BioFacts.
Import Bio.

(** Thirteen buckets: buffer 1 is free in bucket 0, buffer 0 caches block
    (1, 1) in its bucket 9, referenced once. *)
Definition hit_cache : bcache :=
  cache_of [[mkbuf 1 1 1 5 0 3]; []; []; []; []; []; []; []; []; [mkbuf 0 1 1 1 1 7];
            []; []; []].

(** The same with no free buffer anywhere. *)
Definition hit_cache_full : bcache :=
  cache_of [[mkbuf 1 1 1 5 1 3]; []; []; []; []; []; []; []; []; [mkbuf 0 1 1 1 1 7];
            []; []; []].

(** Two free buffers in bucket 0; the one further down the chain was
    released earlier ([lastuse] 3 against 5). *)
Definition lru_cache : bcache :=
  cache_of [[mkbuf 0 1 1 5 0 5; mkbuf 1 1 1 18 0 3]; []; []; []; []; []; []; []; [];
            []; []; []; []].

(** C2, at the failing input: block (1, 1) is cached in bucket
    [BUFMAP_HASH 1 1 = 9], yet [bget 1 1] does not return buffer 0. Both
    scans raise its [refcnt] (1 becomes 3), neither returns, and the
    eviction path recycles buffer 1 into a second buffer for the block;
    with no free buffer the call panics. *)
Example bget_hit_falls_through :
  BUFMAP_HASH 1 1 = 9 /\
  (exists bc',
     bget hit_cache 1 1 = Ret (1%nat, bc') /\
     find_buf bc' 0 = Some (mkbuf 0 1 1 1 3 7) /\
     find_buf bc' 1 = Some (mkbuf 1 0 1 1 1 3) /\
     chain (bucket_at bc' 9) = [mkbuf 1 0 1 1 1 3; mkbuf 0 1 1 1 3 7]) /\
  bget hit_cache_full 1 1 = Panic "bget: no buffers".
Proof.
  split; [reflexivity|]. split; [|reflexivity].
  eexists. split; [vm_compute; reflexivity|].
  repeat split; reflexivity.
Qed.

(** C3, at the failing input: block (1, 1) is absent, buffers 0 and 1 are
    both free, buffer 1 has the smaller [lastuse], and [bget] recycles
    buffer 0: the scan compares the [lastuse] of the node in front of the
    candidate ([b->lastuse]), not the candidate's. *)
Example bget_victim_not_lru :
  exists bc',
    bget lru_cache 1 1 = Ret (0%nat, bc') /\
    option_map lastuse (find_buf lru_cache 0) = Some 5 /\
    option_map lastuse (find_buf lru_cache 1) = Some 3 /\
    option_map refcnt (find_buf lru_cache 1) = Some 0 /\
    find_buf bc' 1 = Some (mkbuf 1 1 1 18 0 3).
Proof.
  eexists. split; [vm_compute; reflexivity|].
  repeat split; reflexivity.
Qed.

End BioFacts.

(** ** Basic facts *)

Lemma upd_same {A} (f : Z -> A) k v : upd f k v k = v.
Proof. unfold upd. now rewrite Z.eqb_refl. Qed.

Lemma upd_other {A} (f : Z -> A) k v x : x <> k -> upd f k v x = f x.
Proof. unfold upd. intros H. apply Z.eqb_neq in H. now rewrite H. Qed.

Lemma updn_same {A} (f : nat -> A) k v : updn f k v k = v.
Proof. unfold updn. now rewrite Nat.eqb_refl. Qed.

Lemma updn_other {A} (f : nat -> A) k v x : x <> k -> updn f k v x = f x.
Proof. unfold updn. intros H. apply Nat.eqb_neq in H. now rewrite H. Qed.

Lemma u32_idem z : u32 (u32 z) = u32 z.
Proof. unfold u32. apply Z.mod_mod. lia. Qed.

Lemma u32_add_l a b : u32 (u32 a + b) = u32 (a + b).
Proof. unfold u32. apply Zplus_mod_idemp_l. Qed.

Lemma u32_small z : 0 <= z < 4294967296 -> u32 z = z.
Proof. unfold u32. intros. now apply Z.mod_small. Qed.

Lemma set_nth_same {A} (l : list A) i d : set_nth i (nth i l d) l = l.
Proof.
  revert i. induction l as [|h t IH]; intros [|i]; simpl; try reflexivity.
  now rewrite IH.
Qed.

Lemma nth_set_nth {A} (l : list A) i x d :
  (i < List.length l)%nat -> nth i (set_nth i x l) d = x.
Proof.
  revert i. induction l as [|h t IH]; intros [|i]; simpl; intros H; try lia.
  - reflexivity.
  - apply IH. lia.
Qed.

Lemma nth_set_nth_other {A} (l : list A) i j x d :
  i <> j -> nth j (set_nth i x l) d = nth j l d.
Proof.
  revert i j. induction l as [|h t IH]; intros [|i] [|j]; simpl; intros H;
    try reflexivity; try congruence.
  apply IH. congruence.
Qed.

Lemma length_set_nth {A} (l : list A) i x : List.length (set_nth i x l) = List.length l.
Proof.
  revert i. induction l as [|h t IH]; intros [|i]; simpl; try reflexivity.
  now rewrite IH.
Qed.

Lemma bind_ret {A B} (m : M A) (f : A -> M B) st a st' :
  m st = Ret (a, st') -> bind m f st = f a st'.
Proof. unfold bind. now intros ->. Qed.

Lemma bind_inv {A B} (m : M A) (f : A -> M B) st b st' :
  bind m f st = Ret (b, st') ->
  exists a s1, m st = Ret (a, s1) /\ f a s1 = Ret (b, st').
Proof.
  unfold bind. destruct (m st) as [[a s1]| | |]; try discriminate.
  intros H. now exists a, s1.
Qed.

(** A loop with a fixed trip count keeps an invariant its body keeps. *)
Lemma for_range_inv (P : Z -> kstate -> Prop) k i body st :
  P i st ->
  (forall j s, i <= j < i + Z.of_nat k -> P j s ->
     exists s', body j s = Ret (tt, s') /\ P (j + 1) s') ->
  exists s', for_range k i body st = Ret (tt, s') /\ P (i + Z.of_nat k) s'.
Proof.
  revert i st. induction k as [|k IH]; intros i st H0 Hb.
  - exists st. split; [reflexivity|]. now replace (i + Z.of_nat 0) with i by lia.
  - destruct (Hb i st) as (s1 & E1 & P1); [lia|assumption|].
    destruct (IH (i + 1) s1 P1) as (s2 & E2 & P2).
    + intros j s Hj. apply Hb. lia.
    + exists s2. split.
      * cbn [for_range]. now rewrite (bind_ret _ _ _ _ _ E1).
      * now replace (i + Z.of_nat (S k)) with (i + 1 + Z.of_nat k) by lia.
Qed.

(** ** The log *)

(** *** Admission and the states of the log *)

Definition IDLE (l : Lg.log) : Prop := Lg.outstanding l = 0 /\ Lg.committing l = 0.
Definition ACTIVE (l : Lg.log) : Prop := Lg.outstanding l > 0 /\ Lg.committing l = 0.
Definition COMMITTING (l : Lg.log) : Prop := Lg.outstanding l = 0 /\ Lg.committing l = 1.

(** What [commit] leaves in [struct log]. *)
Definition commit_log (l : Lg.log) : Lg.log :=
  if Lg.n (Lg.lh l) >? 0 then set_n l 0 else l.

(** The steps of the log, one per critical section: a [begin_op] that is
    admitted, a [log_write] or the first half of an [end_op] by an
    operation that is open, and the second half of the [end_op] that
    commits. *)
Inductive log_step (MAXOPBLOCKS : Z) : Lg.log -> Lg.log -> Prop :=
| step_begin l l' :
    begin_op_try MAXOPBLOCKS l = Some l' ->
    log_step MAXOPBLOCKS l l'
| step_write l h :
    1 <= Lg.outstanding l -> Lg.committing l = 0 ->
    log_step MAXOPBLOCKS l (set_lh l h)
| step_end_enter l l' do_commit :
    1 <= Lg.outstanding l ->
    end_op_enter l = Ret (do_commit, l') ->
    log_step MAXOPBLOCKS l l'
| step_end_exit l :
    Lg.committing l <> 0 ->
    log_step MAXOPBLOCKS l (end_op_exit (commit_log l)).

Inductive log_reach (MAXOPBLOCKS : Z) (l0 : Lg.log) : Lg.log -> Prop :=
| reach_here : log_reach MAXOPBLOCKS l0 l0
| reach_step l l' :
    log_reach MAXOPBLOCKS l0 l -> log_step MAXOPBLOCKS l l' ->
    log_reach MAXOPBLOCKS l0 l'.

Lemma begin_op_try_spec M l l' :
  begin_op_try M l = Some l' <->
  Lg.committing l = 0 /\ Lg.n (Lg.lh l) + (Lg.outstanding l + 1) * M <= LOGSIZE /\
  l' = set_outstanding l (Lg.outstanding l + 1).
Proof.
  unfold begin_op_try.
  destruct (Lg.committing l =? 0) eqn:Ec; cbn [negb].
  - apply Z.eqb_eq in Ec.
    destruct (Lg.n (Lg.lh l) + (Lg.outstanding l + 1) * M >? LOGSIZE) eqn:Eg.
    + split; [discriminate|]. intros (_ & H & _).
      apply Z.gtb_lt in Eg. lia.
    + split.
      * intros [= <-]. repeat split; try assumption.
        rewrite Z.gtb_ltb in Eg. apply Z.ltb_ge in Eg. exact Eg.
      * intros (_ & _ & ->). reflexivity.
  - apply Z.eqb_neq in Ec. split; [discriminate|]. intros (H & _). contradiction.
Qed.

Lemma end_op_enter_spec l do_commit l' :
  Lg.committing l = 0 ->
  end_op_enter l = Ret (do_commit, l') ->
  Lg.outstanding l' = Lg.outstanding l - 1 /\
  (Lg.committing l' <> 0 <-> Lg.outstanding l - 1 = 0) /\
  (do_commit <> 0 <-> Lg.outstanding l - 1 = 0) /\
  (Lg.committing l' = 0 \/ Lg.committing l' = 1).
Proof.
  intros Hc. unfold end_op_enter. cbn. rewrite Hc. cbn.
  destruct (Lg.outstanding l - 1 =? 0) eqn:E; intros [= <- <-]; cbn.
  - apply Z.eqb_eq in E. repeat split; auto; try lia; intros; lia.
  - apply Z.eqb_neq in E. rewrite Hc. repeat split; auto; try lia; intros; lia.
Qed.

Lemma log_step_keeps M l l' :
  IDLE l \/ ACTIVE l \/ COMMITTING l ->
  log_step M l l' ->
  IDLE l' \/ ACTIVE l' \/ COMMITTING l'.
Proof.
  unfold IDLE, ACTIVE, COMMITTING. intros Hs Hstep. destruct Hstep.
  - apply begin_op_try_spec in H. destruct H as (Hc & _ & ->). cbn.
    right. left. lia.
  - cbn. lia.
  - assert (Hc : Lg.committing l = 0) by lia.
    destruct (end_op_enter_spec _ _ _ Hc H0) as (Ho & Hcm & _ & Hv).
    destruct (Z.eq_dec (Lg.outstanding l - 1) 0) as [E|E].
    + right. right. split; [lia|]. apply Hcm in E. lia.
    + right. left. split; [lia|].
      destruct Hv as [Hv|Hv]; [assumption|]. exfalso. apply E. apply Hcm. lia.
  - left. unfold end_op_exit, commit_log.
    destruct (Lg.n (Lg.lh l) >? 0); cbn; lia.
Qed.

(** *** Absorption in [log_write] *)

(** The block numbers the open transaction has logged. *)
Definition logged (l : Lg.log) : list Z :=
  firstn (Z.to_nat (Lg.n (Lg.lh l))) (Lg.block (Lg.lh l)).

(** [log_write] passes its checks. *)
Definition log_has_room (l : Lg.log) : Prop :=
  0 <= Lg.n (Lg.lh l) < LOGSIZE /\ Lg.n (Lg.lh l) < Lg.size l - 1 /\
  1 <= Lg.outstanding l /\ List.length (Lg.block (Lg.lh l)) = Z.to_nat LOGSIZE.

Lemma log_scan_range blk b k i :
  0 <= i -> i <= log_scan blk b k i <= i + Z.of_nat k.
Proof.
  revert i. induction k as [|k IH]; intros i Hi; cbn [log_scan]; [lia|].
  destruct (nth (Z.to_nat i) blk 0 =? b); [lia|].
  specialize (IH (i + 1)). lia.
Qed.

Lemma log_scan_hit blk b k i :
  0 <= i -> log_scan blk b k i < i + Z.of_nat k ->
  nth (Z.to_nat (log_scan blk b k i)) blk 0 = b.
Proof.
  revert i. induction k as [|k IH]; intros i Hi; cbn [log_scan]; [lia|].
  destruct (nth (Z.to_nat i) blk 0 =? b) eqn:E.
  - intros _. now apply Z.eqb_eq.
  - intros H. apply IH; lia.
Qed.

Lemma log_scan_miss blk b k i :
  0 <= i -> log_scan blk b k i = i + Z.of_nat k ->
  forall j, i <= j < i + Z.of_nat k -> nth (Z.to_nat j) blk 0 <> b.
Proof.
  revert i. induction k as [|k IH]; intros i Hi; cbn [log_scan]; [lia|].
  destruct (nth (Z.to_nat i) blk 0 =? b) eqn:E.
  - lia.
  - intros H j Hj. apply Z.eqb_neq in E.
    destruct (Z.eq_dec j i) as [->|Hne]; [assumption|].
    apply (IH (i + 1)); lia.
Qed.

Lemma in_firstn_nth (l : list Z) k x :
  In x (firstn k l) -> exists j, (j < k)%nat /\ (j < List.length l)%nat /\ nth j l 0 = x.
Proof.
  revert k. induction l as [|h t IH]; intros [|k]; simpl; try tauto.
  intros [->|H].
  - exists 0%nat. repeat split; lia.
  - destruct (IH _ H) as (j & Hj & Hl & E). exists (S j). repeat split; try lia.
Qed.

Lemma nth_in_firstn (l : list Z) k j :
  (j < k)%nat -> (j < List.length l)%nat -> In (nth j l 0) (firstn k l).
Proof.
  revert k j. induction l as [|h t IH]; intros [|k] [|j]; simpl; intros; simpl in *; try lia.
  right. apply IH; lia.
Qed.

Lemma log_scan_present l b :
  0 <= Lg.n (Lg.lh l) ->
  In b (logged l) ->
  log_scan (Lg.block (Lg.lh l)) b (Z.to_nat (Lg.n (Lg.lh l))) 0 < Lg.n (Lg.lh l).
Proof.
  intros Hn Hin. apply in_firstn_nth in Hin. destruct Hin as (j & Hj & _ & E).
  pose proof (log_scan_range (Lg.block (Lg.lh l)) b (Z.to_nat (Lg.n (Lg.lh l))) 0) as R.
  destruct (Z.eq_dec (log_scan (Lg.block (Lg.lh l)) b (Z.to_nat (Lg.n (Lg.lh l))) 0)
                     (0 + Z.of_nat (Z.to_nat (Lg.n (Lg.lh l))))) as [Heq|Hne]; [|lia].
  exfalso.
  apply (log_scan_miss _ _ _ _ (Z.le_refl 0) Heq (Z.of_nat j)); [lia|].
  now rewrite Nat2Z.id.
Qed.

Lemma log_scan_absent l b :
  0 <= Lg.n (Lg.lh l) ->
  (Z.to_nat (Lg.n (Lg.lh l)) <= List.length (Lg.block (Lg.lh l)))%nat ->
  ~ In b (logged l) ->
  log_scan (Lg.block (Lg.lh l)) b (Z.to_nat (Lg.n (Lg.lh l))) 0 = Lg.n (Lg.lh l).
Proof.
  intros Hn Hlen Hnot.
  pose proof (log_scan_range (Lg.block (Lg.lh l)) b (Z.to_nat (Lg.n (Lg.lh l))) 0) as R.
  destruct (Z_lt_le_dec (log_scan (Lg.block (Lg.lh l)) b (Z.to_nat (Lg.n (Lg.lh l))) 0)
                        (Lg.n (Lg.lh l))) as [Hlt|Hge]; [|lia].
  exfalso. apply Hnot.
  rewrite <- (log_scan_hit (Lg.block (Lg.lh l)) b (Z.to_nat (Lg.n (Lg.lh l))) 0) by lia.
  apply nth_in_firstn; lia.
Qed.

Lemma log_write_absorbs st b :
  log_has_room (log st) -> In b (logged (log st)) -> log_write b st = Ret (tt, st).
Proof.
  intros (Hn & Hs & Ho & Hlen) Hin.
  pose proof (log_scan_present _ _ (proj1 Hn) Hin) as Hlt.
  pose proof (log_scan_range (Lg.block (Lg.lh (log st))) b
                (Z.to_nat (Lg.n (Lg.lh (log st)))) 0 (Z.le_refl 0)) as R.
  pose proof (log_scan_hit (Lg.block (Lg.lh (log st))) b
                (Z.to_nat (Lg.n (Lg.lh (log st)))) 0 (Z.le_refl 0)) as Hhit.
  unfold log_write, bind, get_state, modify, ret, panic.
  replace (Lg.n (Lg.lh (log st)) >=? LOGSIZE) with false by (symmetry; rewrite Z.geb_leb; apply Z.leb_gt; lia).
  replace (Lg.n (Lg.lh (log st)) >=? Lg.size (log st) - 1) with false
    by (symmetry; rewrite Z.geb_leb; apply Z.leb_gt; lia).
  replace (Lg.outstanding (log st) <? 1) with false by (symmetry; apply Z.ltb_ge; lia).
  cbn [orb].
  set (i := log_scan _ _ _ _) in *.
  replace (i =? Lg.n (Lg.lh (log st))) with false by (symmetry; apply Z.eqb_neq; lia).
  pose proof (set_nth_same (Lg.block (Lg.lh (log st))) (Z.to_nat i) 0) as Hsame.
  rewrite (Hhit ltac:(lia)) in Hsame. rewrite Hsame.
  destruct st as [d v da r h w [s sz o c dv [n blk]] sb0 ic u cw]. reflexivity.
Qed.

Lemma log_write_appends st b :
  log_has_room (log st) -> ~ In b (logged (log st)) ->
  exists st',
    log_write b st = Ret (tt, st') /\
    Lg.n (Lg.lh (log st')) = Lg.n (Lg.lh (log st)) + 1 /\
    logged (log st') = logged (log st) ++ [b] /\
    brefcnt st' b = u32 (brefcnt st b + 1) /\
    (forall k, k <> b -> brefcnt st' k = brefcnt st k) /\
    Lg.outstanding (log st') = Lg.outstanding (log st) /\
    Lg.size (log st') = Lg.size (log st) /\
    List.length (Lg.block (Lg.lh (log st'))) = Z.to_nat LOGSIZE /\
    bdata st' = bdata st /\ bvalid st' = bvalid st /\ bheld st' = bheld st /\
    disk st' = disk st /\ writes st' = writes st /\ icache st' = icache st /\
    sb st' = sb st.
Proof.
  intros (Hn & Hs & Ho & Hlen) Hnot.
  assert (Hi : log_scan (Lg.block (Lg.lh (log st))) b (Z.to_nat (Lg.n (Lg.lh (log st)))) 0
               = Lg.n (Lg.lh (log st))).
  { apply log_scan_absent; try lia; try assumption. }
  unfold log_write, bind, get_state, modify, ret, panic, bpin.
  replace (Lg.n (Lg.lh (log st)) >=? LOGSIZE) with false by (symmetry; rewrite Z.geb_leb; apply Z.leb_gt; lia).
  replace (Lg.n (Lg.lh (log st)) >=? Lg.size (log st) - 1) with false
    by (symmetry; rewrite Z.geb_leb; apply Z.leb_gt; lia).
  replace (Lg.outstanding (log st) <? 1) with false by (symmetry; apply Z.ltb_ge; lia).
  cbn [orb]. rewrite Hi, Z.eqb_refl.
  eexists. split; [reflexivity|]. cbn.
  repeat split; try reflexivity.
  - unfold logged. cbn.
    set (n := Lg.n (Lg.lh (log st))) in *. set (blk := Lg.block (Lg.lh (log st))) in *.
    assert (Hk : (Z.to_nat n < List.length blk)%nat) by (rewrite Hlen; unfold LOGSIZE in *; lia).
    replace (Z.to_nat (n + 1)) with (S (Z.to_nat n)) by lia.
    clearbody blk. clear - Hk. revert blk Hk.
    induction (Z.to_nat n) as [|k IH]; intros [|h t] Hk; simpl in *; try lia.
    + reflexivity.
    + f_equal. apply IH. lia.
  - apply upd_same.
  - intros k Hk. now apply upd_other.
  - rewrite length_set_nth. exact Hlen.
Qed.


(** ** The buffer cache seen by its clients *)

(** Everything but the buffers and the disk is as before. *)
Definition same_env (s s' : kstate) : Prop :=
  log s' = log s /\ sb s' = sb s /\ icache s' = icache s /\
  user_ok s' = user_ok s /\ cwd s' = cwd s.

Lemma same_env_refl s : same_env s s.
Proof. repeat split. Qed.

Lemma same_env_trans s1 s2 s3 : same_env s1 s2 -> same_env s2 s3 -> same_env s1 s3.
Proof. unfold same_env. intuition congruence. Qed.

Lemma bind_get {B} (f : kstate -> M B) s : bind get_state f s = f s s.
Proof. reflexivity. Qed.

Lemma bind_modify {B} (g : kstate -> kstate) (f : unit -> M B) s :
  bind (modify g) f s = f tt (g s).
Proof. reflexivity. Qed.

Lemma bind_ret_l {A B} (a : A) (f : A -> M B) s : bind (ret a) f s = f a s.
Proof. reflexivity. Qed.

Lemma bread_spec s dev b :
  bheld s b = false ->
  exists s',
    bread dev b s = Ret (b, s') /\
    (forall k, bheld s' k = if k =? b then true else bheld s k) /\
    (forall k, bvalid s' k = if k =? b then true else bvalid s k) /\
    (forall k, bdata s' k = if k =? b then view s b else bdata s k) /\
    (forall k, brefcnt s' k = if k =? b then u32 (brefcnt s b + 1) else brefcnt s k) /\
    disk s' = disk s /\ writes s' = writes s /\ same_env s s'.
Proof.
  intros Hh. unfold bread, bget, bind, get_state, disk_read, modify, ret. rewrite Hh. cbn.
  unfold view. destruct (bvalid s b) eqn:Ev; cbn; eexists; (split; [reflexivity|]); cbn;
    repeat split; intros k; unfold upd; destruct (Z.eqb_spec k b); subst;
    try reflexivity; try assumption.
Qed.

Lemma bwrite_spec s b :
  bheld s b = true ->
  exists s',
    bwrite b s = Ret (tt, s') /\
    bheld s' = bheld s /\ bvalid s' = bvalid s /\ bdata s' = bdata s /\
    brefcnt s' = brefcnt s /\
    (forall k, disk s' k = if k =? b then bdata s b else disk s k) /\
    writes s' = writes s ++ [(b, bdata s b)] /\ same_env s s'.
Proof.
  intros Hh. unfold bwrite, bind, get_state, disk_write, modify. rewrite Hh. cbn.
  eexists. split; [reflexivity|]. cbn. repeat split. 
Qed.

Lemma brelse_spec s b :
  bheld s b = true ->
  exists s',
    brelse b s = Ret (tt, s') /\
    (forall k, bheld s' k = if k =? b then false else bheld s k) /\
    bvalid s' = bvalid s /\ bdata s' = bdata s /\
    (forall k, brefcnt s' k = if k =? b then u32 (brefcnt s b - 1) else brefcnt s k) /\
    disk s' = disk s /\ writes s' = writes s /\ same_env s s'.
Proof.
  intros Hh. unfold brelse, bind, get_state, modify. rewrite Hh. cbn.
  eexists. split; [reflexivity|]. cbn. repeat split.
Qed.

Lemma set_data_spec s b f :
  exists s',
    set_data b f s = Ret (tt, s') /\
    bheld s' = bheld s /\ bvalid s' = bvalid s /\
    (forall k, bdata s' k = if k =? b then f (bdata s b) else bdata s k) /\
    brefcnt s' = brefcnt s /\ disk s' = disk s /\ writes s' = writes s /\ same_env s s'.
Proof.
  unfold set_data, modify. eexists. split; [reflexivity|]. cbn. repeat split.
Qed.
(** The integers [i], [i + 1], ... ([k] of them). *)
Fixpoint zrange (i : Z) (k : nat) : list Z :=
  match k with
  | O => []
  | S k' => i :: zrange (i + 1) k'
  end.

Definition zseq (n : Z) : list Z := zrange 0 (Z.to_nat n).

Lemma zrange_snoc i k : zrange i (S k) = zrange i k ++ [i + Z.of_nat k].
Proof.
  revert i. induction k as [|k IH]; intros i.
  - cbn. now rewrite Z.add_0_r.
  - change (zrange i (S (S k))) with (i :: zrange (i + 1) (S k)).
    rewrite IH. cbn [zrange app]. do 2 f_equal. f_equal. lia.
Qed.

Lemma zseq_succ j : 0 <= j -> zseq (j + 1) = zseq j ++ [j].
Proof.
  intros Hj. unfold zseq. replace (Z.to_nat (j + 1)) with (S (Z.to_nat j)) by lia.
  rewrite zrange_snoc. do 2 f_equal. lia.
Qed.

Lemma in_zrange i k x : In x (zrange i k) <-> i <= x < i + Z.of_nat k.
Proof.
  revert i. induction k as [|k IH]; intros i; cbn [zrange In]; [lia|].
  rewrite IH. lia.
Qed.

(** *** Proof automation for straight-line buffer code *)

Ltac eqb_cases :=
  repeat match goal with
         | |- context [?x =? ?y] => destruct (Z.eqb_spec x y)
         end.

Ltac push_step :=
  match goal with
  | H : forall k, bheld ?s k = _ |- context [bheld ?s _] => rewrite H
  | H : bheld ?s = _ |- context [bheld ?s] => rewrite H
  | H : forall k, bvalid ?s k = _ |- context [bvalid ?s _] => rewrite H
  | H : bvalid ?s = _ |- context [bvalid ?s] => rewrite H
  | H : forall k, bdata ?s k = _ |- context [bdata ?s _] => rewrite H
  | H : bdata ?s = _ |- context [bdata ?s] => rewrite H
  | H : forall k, brefcnt ?s k = _ |- context [brefcnt ?s _] => rewrite H
  | H : brefcnt ?s = _ |- context [brefcnt ?s] => rewrite H
  | H : forall k, disk ?s k = _ |- context [disk ?s _] => rewrite H
  | H : disk ?s = _ |- context [disk ?s] => rewrite H
  | H : writes ?s = _ |- context [writes ?s] => rewrite H
  | H : log ?s = _ |- context [log ?s] => rewrite H
  | H : sb ?s = _ |- context [sb ?s] => rewrite H
  | H : icache ?s = _ |- context [icache ?s] => rewrite H
  | H : user_ok ?s = _ |- context [user_ok ?s] => rewrite H
  | H : cwd ?s = _ |- context [cwd ?s] => rewrite H
  end.
Ltac push := repeat push_step.
Ltac norm := repeat first [push_step | progress unfold view].

Ltac split_env :=
  repeat match goal with
         | H : same_env _ _ |- _ => destruct H as (? & ? & ? & ? & ?)
         end.

(* run the next primitive of the goal's program *)
Ltac run_bread :=
  match goal with
  | |- context [bind (bread ?d ?b) ?f ?s] =>
      let H := fresh "Hnh" in
      assert (H : bheld s b = false);
      [ | let s1 := fresh "s" in
          destruct (bread_spec s d b H) as (s1 & ?E & ?Hh & ?Hv & ?Hd & ?Hr & ?Hk & ?Hw & ?He);
          rewrite (bind_ret _ _ _ _ _ E); clear E ]
  end.
Ltac run_brelse :=
  match goal with
  | |- context [bind (brelse ?b) ?f ?s] =>
      let H := fresh "Hhd" in
      assert (H : bheld s b = true);
      [ | let s1 := fresh "s" in
          destruct (brelse_spec s b H) as (s1 & ?E & ?Hh & ?Hv & ?Hd & ?Hr & ?Hk & ?Hw & ?He);
          rewrite (bind_ret _ _ _ _ _ E); clear E ]
  | |- context [brelse ?b ?s] =>
      let H := fresh "Hhd" in
      assert (H : bheld s b = true);
      [ | let s1 := fresh "s" in
          destruct (brelse_spec s b H) as (s1 & ?E & ?Hh & ?Hv & ?Hd & ?Hr & ?Hk & ?Hw & ?He);
          rewrite E; clear E ]
  end.
Ltac run_bwrite :=
  match goal with
  | |- context [bind (bwrite ?b) ?f ?s] =>
      let H := fresh "Hhd" in
      assert (H : bheld s b = true);
      [ | let s1 := fresh "s" in
          destruct (bwrite_spec s b H) as (s1 & ?E & ?Hh & ?Hv & ?Hd & ?Hr & ?Hk & ?Hw & ?He);
          rewrite (bind_ret _ _ _ _ _ E); clear E ]
  end.
Lemma bunpin_spec s b :
  exists s',
    bunpin b s = Ret (tt, s') /\
    bheld s' = bheld s /\ bvalid s' = bvalid s /\ bdata s' = bdata s /\
    (forall k, brefcnt s' k = if k =? b then u32 (brefcnt s b - 1) else brefcnt s k) /\
    disk s' = disk s /\ writes s' = writes s /\ same_env s s'.
Proof.
  unfold bunpin, modify. eexists. split; [reflexivity|]. cbn. repeat split.
Qed.

Ltac run_bunpin :=
  match goal with
  | |- context [bind (bunpin ?b) ?f ?s] =>
      let s1 := fresh "s" in
      destruct (bunpin_spec s b) as (s1 & ?E & ?Hh & ?Hv & ?Hd & ?Hr & ?Hk & ?Hw & ?He);
      rewrite (bind_ret _ _ _ _ _ E); clear E
  end.
Ltac run_set_data :=
  match goal with
  | |- context [bind (set_data ?b ?g) ?f ?s] =>
      let s1 := fresh "s" in
      destruct (set_data_spec s b g) as (s1 & ?E & ?Hh & ?Hv & ?Hd & ?Hr & ?Hk & ?Hw & ?He);
      rewrite (bind_ret _ _ _ _ _ E); clear E
  end.

Ltac u32_norm :=
  unfold u32;
  repeat first [ rewrite Z.mod_mod by lia | rewrite Zplus_mod_idemp_l | rewrite Zminus_mod_idemp_l
               | rewrite Zplus_mod_idemp_r | rewrite Zminus_mod_idemp_r ];
  try (f_equal; lia).


(** The header block after [write_head]: [n] and [block[0..n)] stored
    over the block's previous contents. *)
Definition hdr_image (d : block) (l : Lg.log) : block :=
  fold_left (fun d i => hdr_set_block d i (lh_block l i)) (zseq (Lg.n (Lg.lh l)))
            (hdr_set_n d (Lg.n (Lg.lh l))).

Lemma set_data_loop b (g : Z -> block -> block) k i s :
  exists s',
    for_range k i (fun j => set_data b (g j)) s = Ret (tt, s') /\
    bheld s' = bheld s /\ bvalid s' = bvalid s /\
    (forall x, bdata s' x =
               if x =? b then fold_left (fun d j => g j d) (zrange i k) (bdata s b)
               else bdata s x) /\
    brefcnt s' = brefcnt s /\ disk s' = disk s /\ writes s' = writes s /\ same_env s s'.
Proof.
  revert i s. induction k as [|k IH]; intros i s.
  - exists s. cbn. repeat split. intros x. now destruct (Z.eqb_spec x b); subst.
  - cbn [for_range zrange fold_left].
    run_set_data.
    destruct (IH (i + 1) s0) as (s1 & E1 & Hh1 & Hv1 & Hd1 & Hr1 & Hk1 & Hw1 & He1).
    exists s1. split; [exact E1|]. split_env.
    repeat split; try congruence.
    intros x. push. rewrite Z.eqb_refl. now destruct (Z.eqb_spec x b); subst.
Qed.

Lemma write_head_spec s :
  bheld s (Lg.start (log s)) = false ->
  exists s',
    write_head s = Ret (tt, s') /\ log s' = log s /\
    (forall k, bheld s' k = bheld s k) /\
    writes s' = writes s ++ [(Lg.start (log s), hdr_image (view s (Lg.start (log s))) (log s))] /\
    (forall k, view s' k =
               if k =? Lg.start (log s)
               then hdr_image (view s (Lg.start (log s))) (log s) else view s k) /\
    (forall k, u32 (brefcnt s' k) = u32 (brefcnt s k)).
Proof.
  intros Hnh. unfold write_head. rewrite bind_get.
  run_bread; [exact Hnh|].
  run_set_data.
  match goal with
  | |- context [bind (for_range ?k ?i (fun j => set_data ?b (@?g j))) ?f ?s] =>
      destruct (set_data_loop b g k i s) as (s2 & E2 & Hh2 & Hv2 & Hd2 & Hr2 & Hk2 & Hw2 & He2);
      rewrite (bind_ret _ _ _ _ _ E2); clear E2
  end.
  run_bwrite; [push; now rewrite Z.eqb_refl|].
  run_brelse; [push; now rewrite Z.eqb_refl|].
  eexists. split; [reflexivity|]. split_env.
  assert (Hdat : bdata s2 (Lg.start (log s)) = hdr_image (view s (Lg.start (log s))) (log s)).
  { push. rewrite !Z.eqb_refl. reflexivity. }
  repeat split.
  - congruence.
  - intros k. push. eqb_cases; subst; auto.
  - push. rewrite !Z.eqb_refl. reflexivity.
  - intros k. unfold view at 1. push. 
    eqb_cases; subst; try reflexivity; try contradiction.
  - intros k. repeat (push; eqb_cases; subst; try contradiction; try lia). 
    all: u32_norm.
Qed.

Ltac u32_solve :=
  unfold u32; intros; Z.div_mod_to_equations; lia.

(** *** The commit sequence *)

Section Commit.

Variable st : kstate.
Let l := log st.
Let S0 := Lg.start l.
Let n := Lg.n (Lg.lh l).
Let B := lh_block l.
Let V := view st.

Hypothesis no_held : forall k, bheld st k = false.
Hypothesis homes : forall j, 0 <= j < n -> B j < S0 \/ S0 + n < B j.

(** The invariant of the loop of [write_log]. *)
Definition P1 (i : Z) (s : kstate) : Prop :=
  log s = l /\ (forall k, bheld s k = false) /\
  writes s = writes st ++ map (fun j => (S0 + j + 1, V (B j))) (zseq i) /\
  (forall k, k <= S0 \/ S0 + i < k -> view s k = V k) /\
  (forall j, 0 <= j < i -> view s (S0 + j + 1) = V (B j)) /\
  (forall k, u32 (brefcnt s k) = u32 (brefcnt st k)).

Lemma write_log_ok :
  0 <= n -> exists s', write_log st = Ret (tt, s') /\ P1 n s'.
Proof.
  intros Hn. unfold write_log. rewrite bind_get.
  fold l. fold n.
  destruct (for_range_inv P1 (Z.to_nat n) 0
              (fun tail =>
                 st <- get_state ;;
                 to <- bread (Lg.dev (log st)) (Lg.start (log st) + tail + 1) ;;
                 from <- bread (Lg.dev (log st)) (lh_block (log st) tail) ;;
                 st1 <- get_state ;;
                 set_data to (fun _ => bdata st1 from) ;;
                 bwrite to ;; brelse from ;; brelse to) st) as (s' & E & HP).
  - unfold P1. repeat split; auto.
    + cbn. now rewrite app_nil_r.
    + intros; lia.
  - intros j s Hj (Hl & Hh & Hw & Hout & Hin & Hr).
    rewrite bind_get. rewrite Hl. fold S0. fold B.
    assert (HB : B j < S0 \/ S0 + n < B j) by (apply homes; lia).
    run_bread; [apply Hh|].
    run_bread; [push; eqb_cases; auto; lia|].
    rewrite bind_get.
    run_set_data.
    run_bwrite; [push; eqb_cases; auto; lia|].
    run_brelse; [push; eqb_cases; auto; lia|].
    run_brelse; [push; eqb_cases; auto; lia|].
    eexists. split; [reflexivity|]. split_env.
    assert (HVs : view s (B j) = V (B j)) by (apply Hout; lia).
    match goal with |- P1 _ ?sf =>
      assert (Hview : forall k, view sf k = if k =? S0 + j + 1 then V (B j) else view s k) end.
    { intros k. rewrite <- HVs. norm.
      eqb_cases; subst; try lia; try reflexivity; try (exfalso; lia).
      all: now destruct (bvalid s (B j)). }
    unfold P1. repeat split.
    + congruence.
    + intros k. push. eqb_cases; auto.
    + push. rewrite Z.eqb_refl. rewrite zseq_succ by lia.
      rewrite map_app, <- app_assoc. cbn [map]. do 3 f_equal.
      rewrite <- HVs. norm. eqb_cases; try lia. reflexivity.
    + intros k Hkk. rewrite Hview. destruct (Z.eqb_spec k (S0 + j + 1)); [lia|].
      apply Hout. lia.
    + intros i Hi. rewrite Hview. destruct (Z.eqb_spec (S0 + i + 1) (S0 + j + 1)) as [e|ne].
      * replace i with j by lia. reflexivity.
      * apply Hin. lia.
    + intros k. rewrite <- Hr. push. eqb_cases; subst; try lia; try reflexivity.
      all: try (push; eqb_cases; try lia); u32_norm.
  - exists s'. split; [exact E|]. rewrite Z.add_0_l, Z2Nat.id in HP by lia. exact HP.
Qed.

(** The invariant of the loop of [install_trans]. *)
Definition P3 (W0 : list (Z * block)) (Hd : block) (i : Z) (s : kstate) : Prop :=
  log s = l /\ (forall k, bheld s k = false) /\
  writes s = W0 ++ map (fun j => (B j, V (B j))) (zseq i) /\
  (forall j, 0 <= j < n -> view s (S0 + j + 1) = V (B j)) /\
  (forall j, 0 <= j < n -> view s (B j) = V (B j)) /\
  view s S0 = Hd /\
  (forall k, u32 (brefcnt s k) =
             u32 (brefcnt st k - Z.of_nat (count_occ Z.eq_dec (map B (zseq i)) k))).

Lemma install_trans_ok W0 Hd s :
  0 <= n -> P3 W0 Hd 0 s ->
  exists s', install_trans 0 s = Ret (tt, s') /\ P3 W0 Hd n s'.
Proof.
  intros Hn HP0. unfold install_trans. rewrite bind_get.
  replace (log s) with l by (symmetry; apply HP0). fold n.
  destruct (for_range_inv (P3 W0 Hd) (Z.to_nat n) 0
              (fun tail =>
                 st <- get_state ;;
                 lbuf <- bread (Lg.dev (log st)) (Lg.start (log st) + tail + 1) ;;
                 dbuf <- bread (Lg.dev (log st)) (lh_block (log st) tail) ;;
                 st1 <- get_state ;;
                 set_data dbuf (fun _ => bdata st1 lbuf) ;;
                 bwrite dbuf ;;
                 (if 0 =? 0 then bunpin dbuf else ret tt) ;;
                 brelse lbuf ;; brelse dbuf) s HP0) as (s' & E & HP).
  - intros j s1 Hj (Hl & Hh & Hw & Hlog & Hhome & Hhdr & Hr).
    rewrite bind_get. rewrite Hl. fold S0. fold B.
    assert (HB : B j < S0 \/ S0 + n < B j) by (apply homes; lia).
    run_bread; [apply Hh|].
    run_bread; [push; eqb_cases; auto; lia|].
    rewrite bind_get.
    run_set_data.
    run_bwrite; [push; eqb_cases; auto; lia|].
    cbn [Z.eqb].
    run_bunpin.
    run_brelse; [push; eqb_cases; auto; lia|].
    run_brelse; [push; eqb_cases; auto; lia|].
    eexists. split; [reflexivity|]. split_env.
    assert (HVl : view s1 (S0 + j + 1) = V (B j)) by (apply Hlog; lia).
    assert (HVh : view s1 (B j) = V (B j)) by (apply Hhome; lia).
    match goal with |- P3 _ _ _ ?sf =>
      assert (Hview : forall k, view sf k = view s1 k) end.
    { intros k. destruct (Z.eq_dec k (B j)) as [->|Hne].
      - rewrite HVh, <- HVl. norm. eqb_cases; subst; try lia; reflexivity.
      - norm. eqb_cases; subst; try lia; try contradiction; try reflexivity.
        all: now destruct (bvalid s1 (S0 + j + 1)). }
    unfold P3. repeat split.
    + congruence.
    + intros k. push. eqb_cases; auto.
    + push. rewrite !Z.eqb_refl. rewrite zseq_succ by lia.
      rewrite map_app, <- app_assoc. cbn [map]. do 3 f_equal.
      rewrite <- HVl. norm. eqb_cases; try lia. reflexivity.
    + intros i Hi. rewrite Hview. now apply Hlog.
    + intros i Hi. rewrite Hview. now apply Hhome.
    + now rewrite Hview.
    + intros k. rewrite zseq_succ by lia. rewrite map_app, count_occ_app. cbn [map count_occ].
      specialize (Hr k).
      destruct (Z.eq_dec (B j) k) as [e|ne].
      * subst k. push. eqb_cases; subst; try lia; try contradiction.
        push. eqb_cases; try lia; try contradiction.
        revert Hr. u32_solve.
      * push. eqb_cases; subst; try lia; try contradiction.
        -- push. revert Hr. u32_solve.
        -- rewrite Hr. f_equal. lia.
  - exists s'. split; [exact E|]. rewrite Z.add_0_l, Z2Nat.id in HP by lia. exact HP.
Qed.

(** The disk writes of a commit, in order: the payloads into the log, the
    header, the payloads to their home blocks, the cleared header. *)
Definition payload_writes : list (Z * block) :=
  map (fun j => (S0 + j + 1, V (B j))) (zseq n).

Definition committed_header : block := hdr_image (V S0) l.

Definition home_writes : list (Z * block) :=
  map (fun j => (B j, V (B j))) (zseq n).

Definition commit_writes : list (Z * block) :=
  payload_writes ++ [(S0, committed_header)] ++ home_writes
    ++ [(S0, hdr_set_n committed_header 0)].

(** How many times [install_trans] unpins the buffer of block [k]. *)
Definition unpins (k : Z) : Z :=
  Z.of_nat (count_occ Z.eq_dec (map B (zseq n)) k).

End Commit.

(** ** Sample configurations

    A device formatted as in scenario S1: 200 blocks, the log in blocks
    2..31, inodes from block 32, the bitmap in block 58. *)

Definition sample_sb : Sb.superblock := Sb.mksb 270544960 200 141 200 30 2 32 58.

Definition free_inode : Ino.inode :=
  Ino.mkinode 0 0 0 0 false 0 0 0 0 0 (repeat 0 13).

(** A log over blocks 2..31 with [o] operations open and the block numbers
    [bs] recorded. *)
Definition sample_log (o : Z) (bs : list Z) : Lg.log :=
  Lg.mklog 2 30 o 0 1
    (Lg.mkheader (Z.of_nat (List.length bs)) (bs ++ repeat 0 (30 - List.length bs))).

(** Nothing cached, nothing locked. *)
Definition sample_state (l : Lg.log) (d : Z -> block) (ic : nat -> Ino.inode) : kstate :=
  mkstate d (fun _ => false) (fun _ => zero_block) (fun _ => 0) (fun _ => false) []
          l sample_sb ic (fun _ _ => true) 0%nat.

(** A transaction that logged blocks 60 and 61 and has ended. *)
Definition commit_sample : kstate :=
  sample_state (sample_log 0 [60; 61]) (fun _ => zero_block) (fun _ => free_inode).


(** One operation open, block 60 logged. *)
Definition absorb_sample : kstate :=
  sample_state (sample_log 1 [60]) (fun _ => zero_block) (fun _ => free_inode).


(** ** Path elements *)

(** A run of slashes. *)
Definition all_slashes (l : list Z) : bool := forallb (fun c => c =? SLASH) l.

(** The bytes of one path element: no slash, no null. *)
Definition is_elem (l : list Z) : bool :=
  forallb (fun c => negb ((c =? SLASH) || (c =? 0))) l.

(** What may follow an element: the end of the string or a slash. *)
Definition at_stop (l : list Z) : bool :=
  match l with
  | [] => true
  | c :: _ => (c =? SLASH) || (c =? 0)
  end.

Lemma skip_slashes_app sl p : all_slashes sl = true -> skip_slashes (sl ++ p) = skip_slashes p.
Proof.
  induction sl as [|c t IH]; cbn [all_slashes forallb app]; [reflexivity|].
  intros H. apply andb_true_iff in H. destruct H as (Hc & Ht).
  cbn [skip_slashes]. rewrite Hc. now apply IH.
Qed.

Lemma skip_slashes_elem c t p :
  is_elem (c :: t) = true -> skip_slashes ((c :: t) ++ p) = (c :: t) ++ p.
Proof.
  cbn [is_elem forallb app skip_slashes]. intros H.
  apply andb_true_iff in H. destruct H as (Hc & _).
  apply negb_true_iff, orb_false_iff in Hc. destruct Hc as (Hc & _). now rewrite Hc.
Qed.

Lemma at_end_elem c t p : is_elem (c :: t) = true -> at_end ((c :: t) ++ p) = false.
Proof.
  cbn [is_elem forallb app at_end]. intros H.
  apply andb_true_iff in H. destruct H as (Hc & _).
  apply negb_true_iff, orb_false_iff in Hc. now destruct Hc.
Qed.

Lemma elem_end_app e p :
  is_elem e = true -> at_stop p = true -> elem_end (e ++ p) = (e, p).
Proof.
  intros He Hp. induction e as [|c t IH]; cbn [app].
  - destruct p as [|c p]; [reflexivity|]. cbn [elem_end]. cbn [at_stop] in Hp. now rewrite Hp.
  - cbn [is_elem forallb] in He. apply andb_true_iff in He. destruct He as (Hc & Ht).
    cbn [elem_end]. apply negb_true_iff in Hc. rewrite Hc. now rewrite (IH Ht).
Qed.

Lemma skipelem_elem sl e p name :
  all_slashes sl = true -> is_elem e = true -> e <> [] -> at_stop p = true ->
  skipelem (sl ++ e ++ p) name =
  Some (skip_slashes p,
        if Z.of_nat (List.length e) >=? DIRSIZ
        then firstn (Z.to_nat DIRSIZ) e ++ skipn (Z.to_nat DIRSIZ) name
        else e ++ 0 :: skipn (Z.to_nat (Z.of_nat (List.length e) + 1)) name).
Proof.
  intros Hs He Hne Hp. destruct e as [|c t]; [contradiction|].
  unfold skipelem. rewrite (skip_slashes_app _ _ Hs), (skip_slashes_elem _ _ _ He).
  rewrite (at_end_elem _ _ _ He), (elem_end_app _ _ He Hp). reflexivity.
Qed.

Lemma skip_slashes_length l : (List.length (skip_slashes l) <= List.length l)%nat.
Proof.
  induction l as [|c t IH]; cbn [skip_slashes]; [lia|].
  destruct (c =? SLASH); cbn [List.length]; lia.
Qed.

Lemma skip_slashes_head l c t : skip_slashes l = c :: t -> (c =? SLASH) = false.
Proof.
  induction l as [|x l IH]; cbn [skip_slashes]; [discriminate|].
  destruct (x =? SLASH) eqn:E; [exact IH|]. intros [= <- _]. exact E.
Qed.

Lemma elem_end_length l : (List.length (snd (elem_end l)) <= List.length l)%nat.
Proof.
  induction l as [|c t IH]; cbn [elem_end]; [cbn; lia|].
  destruct ((c =? SLASH) || (c =? 0)); [cbn; lia|].
  destruct (elem_end t) as [e r]. cbn [snd List.length] in *. lia.
Qed.

Lemma skipelem_shorter path name p nm :
  skipelem path name = Some (p, nm) -> (List.length p < List.length path)%nat.
Proof.
  unfold skipelem. pose proof (skip_slashes_length path) as Hlen.
  destruct (skip_slashes path) as [|c t] eqn:Ep; cbn [at_end]; [discriminate|].
  destruct (c =? 0) eqn:E0; [discriminate|].
  cbn [elem_end].
  rewrite (skip_slashes_head _ _ _ Ep), E0. cbn [orb].
  pose proof (elem_end_length t) as Hr. destruct (elem_end t) as [e r].
  intros [= <- _]. pose proof (skip_slashes_length r). cbn [snd List.length] in *. lia.
Qed.

Lemma bind_ext {A B} (m : M A) (f g : A -> M B) st :
  (forall a s, f a s = g a s) -> bind m f st = bind m g st.
Proof. intros H. unfold bind. destruct (m st) as [[a s]| | |]; auto. Qed.

(** The loop of [namex] does not depend on its budget once the budget
    covers the path. *)
Lemma namex_loop_fuel f1 f2 ip path nameiparent name st :
  (List.length path <= f1)%nat -> (List.length path <= f2)%nat ->
  namex_loop f1 ip path nameiparent name st = namex_loop f2 ip path nameiparent name st.
Proof.
  revert f2 ip path name st. induction f1 as [|f1 IH]; intros f2 ip path name st H1 H2.
  - destruct path; [|cbn in H1; lia]. destruct f2; reflexivity.
  - destruct f2 as [|f2].
    + destruct path; [|cbn in H2; lia]. reflexivity.
    + cbn [namex_loop]. destruct (skipelem path name) as [[p nm]|] eqn:Es; [|reflexivity].
      apply skipelem_shorter in Es.
      apply bind_ext. intros _ s1. apply bind_ext. intros s2 s3.
      destruct (negb (Ino.type (icache s2 ip) =? T_DIR)); [reflexivity|].
      destruct (negb (nameiparent =? 0) && at_end p); [reflexivity|].
      apply bind_ext. intros [[next off]|] s4; [|reflexivity].
      apply bind_ext. intros _ s5. apply IH; lia.
Qed.

(** C10: for a path whose next element [e] (after the slashes [sl], before
    the rest [p]) is shorter than [DIRSIZ], [skipelem] stores [e] and a null
    byte in [name]; when [e] has [DIRSIZ] bytes or more it stores exactly the
    first [DIRSIZ] bytes, with no null byte, and in both cases it returns
    what follows the whole element, slashes skipped. So [namex] gives on an
    over-long element the result it gives on the element cut to [DIRSIZ]
    bytes. *)
Theorem skipelem_truncates (sl e p name : list Z) (nameiparent : Z) (st : kstate) :
  all_slashes sl = true -> is_elem e = true -> e <> [] -> at_stop p = true ->
  List.length name = Z.to_nat DIRSIZ ->
  (Z.of_nat (List.length e) < DIRSIZ ->
   skipelem (sl ++ e ++ p) name =
     Some (skip_slashes p, e ++ 0 :: skipn (S (List.length e)) name)) /\
  (DIRSIZ <= Z.of_nat (List.length e) ->
   skipelem (sl ++ e ++ p) name = Some (skip_slashes p, firstn (Z.to_nat DIRSIZ) e) /\
   List.length (firstn (Z.to_nat DIRSIZ) e) = Z.to_nat DIRSIZ /\
   ~ In 0 (firstn (Z.to_nat DIRSIZ) e) /\
   namex (sl ++ e ++ p) nameiparent name st =
     namex (sl ++ firstn (Z.to_nat DIRSIZ) e ++ p) nameiparent name st).
Proof.
  intros Hs He Hne Hp Hname.
  pose proof (skipelem_elem sl e p name Hs He Hne Hp) as Hsk.
  split.
  - intros Hlt. rewrite Hsk.
    replace (Z.of_nat (List.length e) >=? DIRSIZ) with false
      by (symmetry; rewrite Z.geb_leb; apply Z.leb_gt; lia).
    replace (Z.to_nat (Z.of_nat (List.length e) + 1)) with (S (List.length e)) by lia.
    reflexivity.
  - intros Hge.
    assert (Hskip : skipn (Z.to_nat DIRSIZ) name = []).
    { apply skipn_all2. lia. }
    assert (Hlen : List.length (firstn (Z.to_nat DIRSIZ) e) = Z.to_nat DIRSIZ).
    { rewrite length_firstn. lia. }
    assert (Hlong : skipelem (sl ++ e ++ p) name = Some (skip_slashes p, firstn (Z.to_nat DIRSIZ) e)).
    { rewrite Hsk.
      replace (Z.of_nat (List.length e) >=? DIRSIZ) with true
        by (symmetry; rewrite Z.geb_leb; apply Z.leb_le; lia).
      now rewrite Hskip, app_nil_r. }
    assert (He' : is_elem (firstn (Z.to_nat DIRSIZ) e) = true).
    { unfold is_elem in *. rewrite forallb_forall in *. intros x Hx. apply He.
      revert Hx. generalize (Z.to_nat DIRSIZ). clear. induction e as [|c t IH]; intros [|k]; cbn; try tauto.
      intros [->|H]; [now left|right; eauto]. }
    assert (Hne' : firstn (Z.to_nat DIRSIZ) e <> []).
    { intros E. rewrite E in Hlen. cbn in Hlen. unfold DIRSIZ in Hlen. lia. }
    pose proof (skipelem_elem sl _ p name Hs He' Hne' Hp) as Hsk'.
    rewrite Hlen in Hsk'.
    replace (Z.of_nat (Z.to_nat DIRSIZ) >=? DIRSIZ) with true in Hsk' by reflexivity.
    rewrite firstn_firstn, Nat.min_id, Hskip, app_nil_r in Hsk'.
    repeat split; try assumption.
    + intros Hin. unfold is_elem in He'. rewrite forallb_forall in He'.
      specialize (He' 0 Hin). discriminate.
    + unfold namex.
      assert (Hhd : hd 0 (sl ++ e ++ p) = hd 0 (sl ++ firstn (Z.to_nat DIRSIZ) e ++ p)).
      { destruct sl as [|c sl]; [|reflexivity]. destruct e as [|c e]; [contradiction|].
        reflexivity. }
      rewrite Hhd. apply bind_ext. intros ip s.
      destruct (List.length (sl ++ e ++ p)) as [|f1] eqn:E1;
        [rewrite !length_app in E1; destruct e; [contradiction|cbn in E1; lia]|].
      destruct (List.length (sl ++ firstn (Z.to_nat DIRSIZ) e ++ p)) as [|f2] eqn:E2;
        [rewrite !length_app, Hlen in E2; change (Z.to_nat DIRSIZ) with 14%nat in E2; lia|].
      cbn [namex_loop]. rewrite Hlong, Hsk'.
      pose proof (skip_slashes_length p) as Hp'.
      assert (Hf1 : (List.length (skip_slashes p) <= f1)%nat).
      { rewrite !length_app in E1. unfold DIRSIZ in Hge. lia. }
      assert (Hf2 : (List.length (skip_slashes p) <= f2)%nat).
      { rewrite !length_app, Hlen in E2. change (Z.to_nat DIRSIZ) with 14%nat in E2. lia. }
      apply bind_ext. intros _ s1. apply bind_ext. intros s2 s3.
      destruct (negb (Ino.type (icache s2 ip) =? T_DIR)); [reflexivity|].
      destruct (negb (nameiparent =? 0) && at_end (skip_slashes p)); [reflexivity|].
      apply bind_ext. intros [[next off]|] s4; [|reflexivity].
      apply bind_ext. intros _ s5. apply namex_loop_fuel; assumption.
Qed.

(** A root directory (inode 1, one data block, 59) with the single entry
    "aaaaaaaaaaaaaa" for inode 2, a file. *)
Fixpoint mark_used (d : block) (k : nat) (b : Z) : block :=
  match k with
  | O => d
  | S k' => mark_used (bit_set d b) k' (b + 1)
  end.

Definition dir_disk : Z -> block :=
  upd (upd (upd (fun _ => zero_block) 58 (mark_used zero_block 60 0))
           32 (put_dinode
                 (put_dinode zero_block
                    (Ino.mkinode 1 1 0 0 false T_DIR 0 0 1 16 (59 :: repeat 0 12)))
                 (Ino.mkinode 1 2 0 0 false 2 0 0 1 0 (repeat 0 13))))
      59 (store_bytes zero_block 0 ([2; 0] ++ repeat 97 14)).

Definition dir_sample : kstate :=
  sample_state (sample_log 1 []) dir_disk (fun _ => free_inode).

Lemma skipelem_truncates_witness :
  let long := [SLASH] ++ repeat 97 14 ++ [88; 89; 90] in
  let name := repeat 0 14 in
  skipelem long name = Some ([], repeat 97 14) /\
  namex long 0 name dir_sample = namex ([SLASH] ++ repeat 97 14) 0 name dir_sample /\
  exists ip st',
    namex long 0 name dir_sample = Ret ((Some ip, repeat 97 14), st') /\
    Ino.inum (icache st' ip) = 2.
Proof.
  pose proof (skipelem_truncates [SLASH] (repeat 97 14 ++ [88; 89; 90]) [] (repeat 0 14) 0
                dir_sample eq_refl eq_refl ltac:(discriminate) eq_refl eq_refl) as H.
  destruct H as (_ & H). destruct H as (Hs & _ & _ & Hn); [vm_compute; discriminate|].
  split; [exact Hs|]. split; [exact Hn|].
  eexists. eexists. split; [vm_compute; reflexivity|]. reflexivity.
Defined.

(** ** Frames: what a routine leaves alone *)

(** Every return of [m] relates the state before to the state after. *)
Definition preserves {A} (R : kstate -> kstate -> Prop) (m : M A) : Prop :=
  forall st a st', m st = Ret (a, st') -> R st st'.

(** A frame is a preorder on states. *)
Class Frame (R : kstate -> kstate -> Prop) : Prop := {
  frame_refl : forall s, R s s;
  frame_trans : forall s1 s2 s3, R s1 s2 -> R s2 s3 -> R s1 s3
}.

Section Frames.
Context {R : kstate -> kstate -> Prop} {HR : Frame R}.

Lemma preserves_ret {A} (a : A) : preserves R (ret a).
Proof. intros st x st' [= _ <-]. apply frame_refl. Qed.

Lemma preserves_get : preserves R get_state.
Proof. intros st x st' [= _ <-]. apply frame_refl. Qed.

Lemma preserves_panic {A} msg : preserves R (@panic A msg).
Proof. intros st x st' [=]. Qed.

Lemma preserves_sleep {A} : preserves R (@sleep_forever A).
Proof. intros st x st' [=]. Qed.

Lemma preserves_fuel {A} : preserves R (fun _ : kstate => @OutOfFuel (A * kstate)).
Proof. intros st x st' [=]. Qed.

Lemma preserves_modify g : (forall s, R s (g s)) -> preserves R (modify g).
Proof. intros H st x st' [= _ <-]. apply H. Qed.

Lemma preserves_bind {A B} (m : M A) (f : A -> M B) :
  preserves R m -> (forall a, preserves R (f a)) -> preserves R (bind m f).
Proof.
  intros Hm Hf st b st' H. apply bind_inv in H. destruct H as (a & s1 & H1 & H2).
  eapply frame_trans; [eapply Hm|eapply Hf]; eassumption.
Qed.

Lemma preserves_for_range k i body :
  (forall j, preserves R (body j)) -> preserves R (for_range k i body).
Proof.
  intros Hb. revert i. induction k as [|k IH]; intros i; cbn [for_range].
  - apply preserves_ret.
  - apply preserves_bind; [apply Hb|intros _; apply IH].
Qed.

End Frames.

Ltac frame_step :=
  first
    [ solve [eauto with frames]
    | apply preserves_ret | apply preserves_get | apply preserves_panic
    | apply preserves_sleep | apply preserves_fuel
    | apply preserves_for_range; intros ?
    | apply preserves_bind; [|intros ?]
    | match goal with
      | |- preserves _ (if ?c then _ else _) => destruct c
      | |- preserves _ (match ?x with _ => _ end) => destruct x
      | |- preserves _ (let (_, _) := ?x in _) => destruct x
      end
    | progress cbv zeta ].
Ltac frame := repeat frame_step.

Create HintDb frames.

(** The superblock, the user ranges and the working directory. *)
Definition keeps_env (s s' : kstate) : Prop :=
  sb s' = sb s /\ user_ok s' = user_ok s /\ cwd s' = cwd s.

#[export] Instance keeps_env_frame : Frame keeps_env.
Proof. split; unfold keeps_env; intuition congruence. Qed.

Ltac frame_modify := apply preserves_modify; intros ?; repeat split.

Lemma bget_env d b : preserves keeps_env (bget d b).
Proof. intros st x st'. unfold bget. destruct (bheld st b); [discriminate|]. intros [= _ <-]. repeat split. Qed.
#[export] Hint Resolve bget_env : frames.

Lemma bread_env d b : preserves keeps_env (bread d b).
Proof. unfold bread, disk_read. frame; frame_modify. Qed.
#[export] Hint Resolve bread_env : frames.

Lemma brelse_env b : preserves keeps_env (brelse b).
Proof. unfold brelse. frame; frame_modify. Qed.
#[export] Hint Resolve brelse_env : frames.

Lemma set_data_env b f : preserves keeps_env (set_data b f).
Proof. unfold set_data. frame_modify. Qed.
#[export] Hint Resolve set_data_env : frames.

Lemma log_write_env b : preserves keeps_env (log_write b).
Proof. unfold log_write, bpin. frame; frame_modify. Qed.
#[export] Hint Resolve log_write_env : frames.

Lemma bzero_env d b : preserves keeps_env (bzero d b).
Proof. unfold bzero. frame. Qed.
#[export] Hint Resolve bzero_env : frames.

Lemma balloc_loop_env k d b : preserves keeps_env (balloc_loop k d b).
Proof.
  revert b. induction k as [|k IH]; intros b; cbn [balloc_loop]; frame.
Qed.
#[export] Hint Resolve balloc_loop_env : frames.

Lemma balloc_env d : preserves keeps_env (balloc d).
Proof. unfold balloc. frame. Qed.
#[export] Hint Resolve balloc_env : frames.

Lemma set_ino_env ip f : preserves keeps_env (set_ino ip f).
Proof. unfold set_ino. frame_modify. Qed.
#[export] Hint Resolve set_ino_env : frames.

Lemma bmap_env ip bn : preserves keeps_env (bmap ip bn).
Proof. unfold bmap, set_addr. frame. Qed.
#[export] Hint Resolve bmap_env : frames.

(** ** Termination: the iteration budgets are never exhausted *)

Definition total {A} (m : M A) : Prop := forall st, m st <> OutOfFuel.

Lemma bind_no_fuel {A B} (m : M A) (f : A -> M B) st :
  m st <> OutOfFuel ->
  (forall a s1, m st = Ret (a, s1) -> f a s1 <> OutOfFuel) ->
  bind m f st <> OutOfFuel.
Proof.
  unfold bind. intros Hm Hf. destruct (m st) as [[a s1]| | |]; try discriminate.
  - now apply Hf.
  - contradiction.
Qed.

Lemma total_bind {A B} (m : M A) (f : A -> M B) :
  total m -> (forall a, total (f a)) -> total (bind m f).
Proof. intros Hm Hf st. apply bind_no_fuel; [apply Hm|intros a s1 _; apply Hf]. Qed.

Lemma total_ret {A} (a : A) : total (ret a).
Proof. intros st. discriminate. Qed.

Lemma total_get : total get_state.
Proof. intros st. discriminate. Qed.

Lemma total_panic {A} msg : total (@panic A msg).
Proof. intros st. discriminate. Qed.

Lemma total_sleep {A} : total (@sleep_forever A).
Proof. intros st. discriminate. Qed.

Lemma total_modify g : total (modify g).
Proof. intros st. discriminate. Qed.

Lemma total_for_range k i body : (forall j, total (body j)) -> total (for_range k i body).
Proof.
  intros Hb. revert i. induction k as [|k IH]; intros i; cbn [for_range].
  - apply total_ret.
  - apply total_bind; [apply Hb|intros _; apply IH].
Qed.

Create HintDb totals.

Ltac total_step :=
  first
    [ solve [eauto with totals]
    | apply total_ret | apply total_get | apply total_panic | apply total_sleep
    | apply total_modify
    | apply total_for_range; intros ?
    | apply total_bind; [|intros ?]
    | match goal with
      | |- total (if ?c then _ else _) => destruct c
      | |- total (match ?x with _ => _ end) => destruct x
      end
    | progress cbv zeta ].
Ltac totality := repeat total_step.

Lemma bget_total d b : total (bget d b).
Proof. intros st. unfold bget. destruct (bheld st b); discriminate. Qed.
#[export] Hint Resolve bget_total : totals.

Lemma bread_total d b : total (bread d b).
Proof. unfold bread, disk_read. totality. Qed.
#[export] Hint Resolve bread_total : totals.

Lemma brelse_total b : total (brelse b).
Proof. unfold brelse. totality. Qed.
#[export] Hint Resolve brelse_total : totals.

Lemma set_data_total b f : total (set_data b f).
Proof. unfold set_data. totality. Qed.
#[export] Hint Resolve set_data_total : totals.

Lemma log_write_total b : total (log_write b).
Proof. unfold log_write, bpin. totality. Qed.
#[export] Hint Resolve log_write_total : totals.

Lemma bzero_total d b : total (bzero d b).
Proof. unfold bzero. totality. Qed.
#[export] Hint Resolve bzero_total : totals.

Lemma balloc_loop_no_fuel k d b st :
  Sb.size (sb st) <= b + Z.of_nat k * BPB -> balloc_loop k d b st <> OutOfFuel.
Proof.
  revert b st. induction k as [|k IH]; intros b st Hk; cbn [balloc_loop];
    rewrite bind_get; destruct (b <? Sb.size (sb st)) eqn:Eb; try discriminate.
  - apply Z.ltb_lt in Eb. lia.
  - apply bind_no_fuel; [apply bread_total|]. intros bp s1 E1.
    rewrite bind_get.
    destruct (balloc_scan _ _ _ _ _).
    + clear E1. revert s1.
      change (total (set_data bp (fun d0 => bit_set d0 z) ;; log_write bp ;; brelse bp ;;
                     bzero d (b + z) ;; ret (b + z))).
      totality.
    + apply bind_no_fuel; [apply brelse_total|]. intros u s2 E2.
      apply IH. apply bread_env in E1. apply brelse_env in E2.
      destruct E1 as (H1 & _). destruct E2 as (H2 & _). rewrite H2, H1. lia.
Qed.

Lemma balloc_total d : total (balloc d).
Proof.
  intros st. unfold balloc. rewrite bind_get. apply balloc_loop_no_fuel.
  assert (H : 0 < BPB) by reflexivity.
  destruct (Z_lt_le_dec (Sb.size (sb st)) 0) as [Hneg|Hpos]; [lia|].
  rewrite Nat2Z.inj_succ, Z2Nat.id by (apply Z.div_pos; lia).
  pose proof (Z.mod_pos_bound (Sb.size (sb st)) BPB H).
  pose proof (Z.div_mod (Sb.size (sb st)) BPB ltac:(lia)). lia.
Qed.
#[export] Hint Resolve balloc_total : totals.

Lemma set_ino_total ip f : total (set_ino ip f).
Proof. unfold set_ino. totality. Qed.
#[export] Hint Resolve set_ino_total : totals.

Lemma bmap_total ip bn : total (bmap ip bn).
Proof. unfold bmap, set_addr. totality. Qed.
#[export] Hint Resolve bmap_total : totals.

(** ** [readi] and [writei] *)

(** The bytes the loop of [readi] or [writei] gets through before the first
    chunk whose copy fails: the chunks are those of the loop, [ok addr m]
    tells whether the copy of [m] bytes at [addr] succeeds. *)
Fixpoint copied (fuel : nat) (ok : Z -> Z -> bool) (n tot off addr : Z) : Z :=
  if tot <? n then
    match fuel with
    | O => tot
    | S fuel' =>
        let m := Z.min (n - tot) (BSIZE - off mod BSIZE) in
        if ok addr m then copied fuel' ok n (tot + m) (off + m) (addr + m) else tot
    end
  else tot.

Lemma chunk_pos n tot off : tot < n -> 1 <= Z.min (n - tot) (BSIZE - off mod BSIZE).
Proof.
  intros H. pose proof (Z.mod_pos_bound off BSIZE ltac:(reflexivity)). lia.
Qed.

Lemma copied_range fuel ok n tot off addr :
  tot <= n -> tot <= copied fuel ok n tot off addr <= n.
Proof.
  revert tot off addr. induction fuel as [|f IH]; intros tot off addr H; cbn [copied];
    destruct (tot <? n) eqn:E; try lia.
  apply Z.ltb_lt in E. pose proof (chunk_pos n tot off E). cbv zeta.
  destruct (ok addr _); [|lia].
  specialize (IH (tot + Z.min (n - tot) (BSIZE - off mod BSIZE))
                 (off + Z.min (n - tot) (BSIZE - off mod BSIZE))
                 (addr + Z.min (n - tot) (BSIZE - off mod BSIZE))). lia.
Qed.

Lemma copied_all fuel ok n tot off addr :
  (forall a l, ok a l = true) -> tot <= n -> n - tot <= Z.of_nat fuel ->
  copied fuel ok n tot off addr = n.
Proof.
  intros Hok. revert tot off addr. induction fuel as [|f IH]; intros tot off addr H Hf;
    cbn [copied]; destruct (tot <? n) eqn:E; try (apply Z.ltb_ge in E; lia).
  - apply Z.ltb_lt in E. lia.
  - apply Z.ltb_lt in E. pose proof (chunk_pos n tot off E). cbv zeta. rewrite Hok.
    apply IH; lia.
Qed.

Lemma length_bytes_from d off k : List.length (bytes_from d off k) = k.
Proof. revert off. induction k as [|k IH]; intros off; cbn; [reflexivity|]. now rewrite IH. Qed.

Lemma either_copy_ok_env s s' u : keeps_env s s' -> either_copy_ok s' u = either_copy_ok s u.
Proof. intros (_ & H & _). unfold either_copy_ok. now rewrite H. Qed.

Lemma readi_loop_ret fuel ip u n tot off dst acc st r bytes st' :
  readi_loop fuel ip u n tot off dst acc st = Ret ((r, bytes), st') ->
  0 <= tot <= n -> n - tot <= Z.of_nat fuel -> Z.of_nat (List.length acc) = tot ->
  let c := copied fuel (either_copy_ok st u) n tot off dst in
  Z.of_nat (List.length bytes) = c /\ (c = n -> r = n) /\ (c < n -> r = u32 (-1)) /\
  keeps_env st st'.
Proof.
  revert tot off dst acc st. induction fuel as [|f IH]; intros tot off dst acc st;
    cbn [readi_loop copied]; destruct (tot <? n) eqn:E.
  - intros [=].
  - intros [= <- <- <-] Ht Hf Hacc. apply Z.ltb_ge in E. cbv zeta.
    repeat split; try lia.
  - apply Z.ltb_lt in E. intros H Ht Hf Hacc. cbv zeta.
    rewrite bind_get in H.
    apply bind_inv in H. destruct H as (addr & s1 & E1 & H).
    apply bind_inv in H. destruct H as (bp & s2 & E2 & H).
    rewrite bind_get in H.
    assert (Henv : keeps_env st s2).
    { eapply frame_trans; [eapply bmap_env|eapply bread_env]; eassumption. }
    rewrite (either_copy_ok_env _ _ u Henv) in H.
    pose proof (chunk_pos n tot off E) as Hm.
    destruct (either_copy_ok st u dst (Z.min (n - tot) (BSIZE - off mod BSIZE))) eqn:Eok;
      cbn [negb] in H.
    + apply bind_inv in H. destruct H as (u0 & s3 & E3 & H).
      assert (Henv3 : keeps_env st s3).
      { eapply frame_trans; [exact Henv|eapply brelse_env; eassumption]. }
      apply IH in H; try lia.
      * rewrite (either_copy_ok_env _ _ u Henv3) in H.
        destruct H as (Hl & H1 & H2 & H3).
        split; [exact Hl|]. split; [exact H1|]. split; [exact H2|].
        eapply frame_trans; eassumption.
      * rewrite length_app, length_bytes_from. lia.
    + apply bind_inv in H. destruct H as (u0 & s3 & E3 & H).
      injection H as <- <- <-.
      split; [lia|]. split; [lia|]. split; [reflexivity|].
      eapply frame_trans; [exact Henv|eapply brelse_env; eassumption].
  - intros [= <- <- <-] Ht Hf Hacc. apply Z.ltb_ge in E. cbv zeta.
    repeat split; try lia.
Qed.

Lemma readi_loop_no_fuel fuel ip u n tot off dst acc st :
  n - tot <= Z.of_nat fuel ->
  readi_loop fuel ip u n tot off dst acc st <> OutOfFuel.
Proof.
  revert tot off dst acc st. induction fuel as [|f IH]; intros tot off dst acc st Hf;
    cbn [readi_loop]; destruct (tot <? n) eqn:E; try discriminate.
  - apply Z.ltb_lt in E. lia.
  - apply Z.ltb_lt in E. pose proof (chunk_pos n tot off E) as Hm.
    rewrite bind_get.
    apply bind_no_fuel; [apply bmap_total|]. intros addr s1 _.
    apply bind_no_fuel; [apply bread_total|]. intros bp s2 _.
    rewrite bind_get.
    destruct (negb _).
    + apply bind_no_fuel; [apply brelse_total|]. intros; discriminate.
    + apply bind_no_fuel; [apply brelse_total|]. intros. apply IH. lia.
Qed.

Lemma u32_overflow off n :
  0 <= off < 4294967296 -> 0 <= n < 4294967296 ->
  (u32 (off + n) <? off) = (4294967296 <=? off + n).
Proof.
  intros Ho Hn. unfold u32.
  destruct (Z.leb_spec 4294967296 (off + n)) as [H|H].
  - apply Z.ltb_lt. replace (off + n) with (off + n - 4294967296 + 1 * 4294967296) by lia.
    rewrite Z.mod_add by lia. rewrite Z.mod_small by lia. lia.
  - apply Z.ltb_ge. rewrite Z.mod_small by lia. lia.
Qed.

Lemma s32_minus_one : s32 (u32 (-1)) = -1.
Proof. reflexivity. Qed.


(** A file of two blocks (59 and 60), locked by the caller; only the first
    1024 bytes of the user's buffer are mapped. *)
Definition read_sample : kstate :=
  mkstate (fun _ => zero_block) (fun _ => false) (fun _ => zero_block) (fun _ => 0)
          (fun _ => false) [] (sample_log 1 []) sample_sb
          (fun i => match i with
                    | O => Ino.mkinode 1 2 1 1 true 2 0 0 1 2048 (59 :: 60 :: repeat 0 11)
                    | _ => free_inode
                    end)
          (fun a l => a + l <=? 1024) 0%nat.



(** ** Bytes and fields *)

Ltac bytes_cases :=
  unfold get32, get16, put32, put16, put8;
  repeat match goal with
         | |- context [?x =? ?y] => destruct (Z.eqb_spec x y); try lia
         end.

Lemma get32_put32 d off v : get32 (put32 d off v) off = u32 v.
Proof.
  bytes_cases; unfold u32; Z.div_mod_to_equations; lia.
Qed.

Lemma get16_put16 d off v : get16 (put16 d off v) off = v mod 65536.
Proof.
  bytes_cases; Z.div_mod_to_equations; lia.
Qed.

Lemma get32_put32_other d off v o :
  o + 4 <= off \/ off + 4 <= o -> get32 (put32 d off v) o = get32 d o.
Proof. intros H. bytes_cases; try reflexivity. Qed.

Lemma get32_put16_other d off v o :
  o + 4 <= off \/ off + 2 <= o -> get32 (put16 d off v) o = get32 d o.
Proof. intros H. bytes_cases; try reflexivity. Qed.

Lemma get16_put16_other d off v o :
  o + 2 <= off \/ off + 2 <= o -> get16 (put16 d off v) o = get16 d o.
Proof. intros H. bytes_cases; try reflexivity. Qed.

Lemma get16_put32_other d off v o :
  o + 2 <= off \/ off + 4 <= o -> get16 (put32 d off v) o = get16 d o.
Proof. intros H. bytes_cases; try reflexivity. Qed.

Lemma put_addrs_below l d off o : o < off -> put_addrs d off l o = d o.
Proof.
  revert d off. induction l as [|a t IH]; intros d off H; cbn [put_addrs]; [reflexivity|].
  rewrite IH by lia. unfold put32, put8.
  repeat match goal with
         | |- context [?x =? ?y] => destruct (Z.eqb_spec x y); try lia
         end; try reflexivity.
Qed.

Lemma get32_put_addrs_below l d off o :
  o + 4 <= off -> get32 (put_addrs d off l) o = get32 d o.
Proof. intros H. unfold get32. now rewrite !put_addrs_below by lia. Qed.

Lemma get16_put_addrs_below l d off o :
  o + 2 <= off -> get16 (put_addrs d off l) o = get16 d o.
Proof. intros H. unfold get16. now rewrite !put_addrs_below by lia. Qed.

(** The slot written by [iupdate] reads back as the inode's fields. *)
Lemma d_size_put_dinode d i : d_size (put_dinode d i) (Ino.inum i) = u32 (Ino.size i).
Proof.
  unfold d_size, put_dinode. rewrite get32_put_addrs_below by lia.
  apply get32_put32.
Qed.

Lemma d_type_put_dinode d i :
  d_type (put_dinode d i) (Ino.inum i) = s16 (Ino.type i mod 65536).
Proof.
  unfold d_type, put_dinode. rewrite get16_put_addrs_below by lia.
  rewrite get16_put32_other by lia. rewrite !get16_put16_other by lia.
  now rewrite get16_put16.
Qed.

Lemma d_nlink_put_dinode d i :
  d_nlink (put_dinode d i) (Ino.inum i) = s16 (Ino.nlink i mod 65536).
Proof.
  unfold d_nlink, put_dinode. rewrite get16_put_addrs_below by lia.
  rewrite get16_put32_other by lia. now rewrite get16_put16.
Qed.

(** ** More frames *)

(** The inode cache is untouched. *)
Definition keeps_icache (s s' : kstate) : Prop := icache s' = icache s.

#[export] Instance keeps_icache_frame : Frame keeps_icache.
Proof. split; unfold keeps_icache; intuition congruence. Qed.

(** An inode without its block addresses. *)
Definition meta (i : Ino.inode) : Ino.inode := with_addrs [] i.

(** Only block addresses of inodes change. *)
Definition keeps_meta (s s' : kstate) : Prop :=
  forall j, meta (icache s' j) = meta (icache s j).

#[export] Instance keeps_meta_frame : Frame keeps_meta.
Proof. split; unfold keeps_meta; intros; congruence. Qed.

Lemma icache_meta {A} (m : M A) : preserves keeps_icache m -> preserves keeps_meta m.
Proof. intros H st a st' E j. now rewrite (H _ _ _ E). Qed.

(** The in-memory header is an array of [LOGSIZE] entries, [n] of them used. *)
Definition log_wf (l : Lg.log) : Prop :=
  List.length (Lg.block (Lg.lh l)) = Z.to_nat LOGSIZE /\ 0 <= Lg.n (Lg.lh l) <= LOGSIZE.

(** The transaction only grows. *)
Definition log_grows (s s' : kstate) : Prop :=
  Lg.outstanding (log s') = Lg.outstanding (log s) /\
  Lg.size (log s') = Lg.size (log s) /\
  (log_wf (log s) ->
   log_wf (log s') /\ incl (logged (log s)) (logged (log s'))).

#[export] Instance log_grows_frame : Frame log_grows.
Proof.
  split; unfold log_grows.
  - intros s. split; [reflexivity|]. split; [reflexivity|].
    intros H. split; [exact H|apply incl_refl].
  - intros s1 s2 s3 (Ho1 & Hs1 & H1) (Ho2 & Hs2 & H2).
    split; [congruence|]. split; [congruence|]. intros H.
    destruct (H1 H) as (Hw2 & Hi2). destruct (H2 Hw2) as (Hw3 & Hi3).
    split; [exact Hw3|]. eapply incl_tran; eassumption.
Qed.

(** The buffers and the disk are untouched. *)
Definition keeps_bufs (s s' : kstate) : Prop :=
  bvalid s' = bvalid s /\ bdata s' = bdata s /\ bheld s' = bheld s /\
  disk s' = disk s /\ writes s' = writes s.

#[export] Instance keeps_bufs_frame : Frame keeps_bufs.
Proof. split; unfold keeps_bufs; intuition congruence. Qed.

Lemma firstn_set_nth_snoc (l : list Z) k x :
  (k < List.length l)%nat -> firstn (S k) (set_nth k x l) = firstn k l ++ [x].
Proof.
  revert l. induction k as [|k IH]; intros [|h t] H; cbn in *; try lia.
  - reflexivity.
  - f_equal. apply IH. lia.
Qed.

(** What a [log_write] that returns has done. *)
Lemma log_write_inv b s u s' :
  log_write b s = Ret (u, s') ->
  keeps_bufs s s' /\ keeps_env s s' /\ keeps_icache s s' /\ log_grows s s' /\
  (forall k, k <> b -> brefcnt s' k = brefcnt s k) /\
  (log_wf (log s) -> In b (logged (log s'))).
Proof.
  unfold log_write. rewrite bind_get.
  destruct ((Lg.n (Lg.lh (log s)) >=? LOGSIZE) || (Lg.n (Lg.lh (log s)) >=? Lg.size (log s) - 1))
    eqn:Eg; [discriminate|].
  destruct (Lg.outstanding (log s) <? 1) eqn:Eo; [discriminate|].
  apply orb_false_iff in Eg. destruct Eg as (Eg1 & Eg2).
  rewrite Z.geb_leb in Eg1. apply Z.leb_gt in Eg1.
  set (blk := Lg.block (Lg.lh (log s))). set (n := Lg.n (Lg.lh (log s))) in *.
  pose proof (log_scan_range blk b (Z.to_nat n) 0 (Z.le_refl 0)) as Hrange.
  pose proof (log_scan_hit blk b (Z.to_nat n) 0 (Z.le_refl 0)) as Hhit.
  set (i := log_scan blk b (Z.to_nat n) 0) in *.
  rewrite bind_modify.
  destruct (i =? n) eqn:Ei.
  - apply Z.eqb_eq in Ei. unfold bpin. rewrite !bind_modify. unfold modify.
    intros [= _ <-].
    split; [repeat split|]. split; [repeat split|]. split; [reflexivity|].
    split; [|split].
    + split; [reflexivity|]. split; [reflexivity|]. intros (Hlen & Hn).
      fold blk in Hlen. fold n in Hn.
      assert (Hk : (Z.to_nat n < List.length blk)%nat)
        by (rewrite Hlen; unfold LOGSIZE in *; lia).
      cbn. fold blk. fold n.
      split.
      * unfold log_wf. cbn. rewrite length_set_nth. fold blk. fold n.
        unfold LOGSIZE in *. split; [exact Hlen|lia].
      * unfold logged. cbn. fold blk. fold n.
        replace (Z.to_nat (n + 1)) with (S (Z.to_nat n)) by lia.
        rewrite Ei, firstn_set_nth_snoc by exact Hk. apply incl_appl, incl_refl.
    + intros k Hk. cbn. now apply upd_other.
    + intros (Hlen & Hn). fold blk in Hlen. fold n in Hn.
      assert (Hk : (Z.to_nat n < List.length blk)%nat)
        by (rewrite Hlen; unfold LOGSIZE in *; lia).
      unfold logged. cbn. fold blk. fold n.
      replace (Z.to_nat (n + 1)) with (S (Z.to_nat n)) by lia.
      rewrite Ei, firstn_set_nth_snoc by exact Hk. apply in_or_app. right. now left.
  - apply Z.eqb_neq in Ei. unfold ret. intros [= _ <-].
    assert (Hsame : 0 <= n -> set_nth (Z.to_nat i) b blk = blk).
    { intros Hn. assert (Hlt : i < 0 + Z.of_nat (Z.to_nat n)) by lia.
      specialize (Hhit Hlt).
      pose proof (set_nth_same blk (Z.to_nat i) 0) as Hsame. now rewrite Hhit in Hsame. }
    split; [repeat split|]. split; [repeat split|]. split; [reflexivity|].
    split; [|split].
    + split; [reflexivity|]. split; [reflexivity|]. intros (Hlen & Hn).
      cbn. fold blk. fold n. rewrite Hsame by apply Hn.
      split; [split; assumption|]. unfold logged. cbn. fold blk. fold n. apply incl_refl.
    + intros k Hk. reflexivity.
    + intros (Hlen & Hn). fold blk in Hlen. fold n in Hn.
      unfold logged. cbn. fold blk. fold n. rewrite Hsame by apply Hn.
      rewrite <- Hhit by lia.
      apply nth_in_firstn; unfold LOGSIZE in *; lia.
Qed.

(** The inode cache is untouched and the transaction only grows. *)
Definition quiet (s s' : kstate) : Prop := keeps_icache s s' /\ log_grows s s'.

#[export] Instance quiet_frame : Frame quiet.
Proof.
  split; unfold quiet.
  - intros s. split; apply frame_refl.
  - intros s1 s2 s3 (A1 & B1) (A2 & B2). split; eapply frame_trans; eassumption.
Qed.

(** Only block addresses of inodes change and the transaction only grows. *)
Definition steady (s s' : kstate) : Prop := keeps_meta s s' /\ log_grows s s'.

#[export] Instance steady_frame : Frame steady.
Proof.
  split; unfold steady.
  - intros s. split; apply frame_refl.
  - intros s1 s2 s3 (A1 & B1) (A2 & B2). split; eapply frame_trans; eassumption.
Qed.

Lemma quiet_steady {A} (m : M A) : preserves quiet m -> preserves steady m.
Proof.
  intros H st a st' E. destruct (H _ _ _ E) as (Hi & Hg). split; [|exact Hg].
  intros j. now rewrite Hi.
Qed.

Ltac grows_refl :=
  unfold log_grows; cbn;
  split; [reflexivity|split; [reflexivity|intros H; split; [exact H|apply incl_refl]]].

Ltac quiet_refl :=
  unfold quiet, steady, keeps_icache, keeps_meta; cbn;
  split; [first [reflexivity | intros; reflexivity]|grows_refl].

Ltac quiet_modify := apply preserves_modify; intros ?; quiet_refl.

Lemma bget_quiet d b : preserves quiet (bget d b).
Proof.
  intros st x st'. unfold bget. destruct (bheld st b); [discriminate|].
  intros [= _ <-]. quiet_refl.
Qed.
#[export] Hint Resolve bget_quiet : frames.

Lemma bread_quiet d b : preserves quiet (bread d b).
Proof. unfold bread, disk_read. frame; quiet_modify. Qed.
#[export] Hint Resolve bread_quiet : frames.

Lemma brelse_quiet b : preserves quiet (brelse b).
Proof. unfold brelse. frame; quiet_modify. Qed.
#[export] Hint Resolve brelse_quiet : frames.

Lemma set_data_quiet b f : preserves quiet (set_data b f).
Proof. unfold set_data. quiet_modify. Qed.
#[export] Hint Resolve set_data_quiet : frames.

Lemma log_write_quiet b : preserves quiet (log_write b).
Proof. intros st u st' E. apply log_write_inv in E. split; apply E. Qed.
#[export] Hint Resolve log_write_quiet : frames.

Lemma bzero_quiet d b : preserves quiet (bzero d b).
Proof. unfold bzero. frame. Qed.
#[export] Hint Resolve bzero_quiet : frames.

Lemma balloc_loop_quiet k d b : preserves quiet (balloc_loop k d b).
Proof. revert b. induction k as [|k IH]; intros b; cbn [balloc_loop]; frame. Qed.
#[export] Hint Resolve balloc_loop_quiet : frames.

Lemma balloc_quiet d : preserves quiet (balloc d).
Proof. unfold balloc. frame. Qed.
#[export] Hint Resolve balloc_quiet : frames.

Lemma bfree_quiet d b : preserves quiet (bfree d b).
Proof. unfold bfree. frame. Qed.
#[export] Hint Resolve bfree_quiet : frames.

Lemma bfree_env d b : preserves keeps_env (bfree d b).
Proof. unfold bfree. frame. Qed.
#[export] Hint Resolve bfree_env : frames.

Lemma iupdate_quiet ip : preserves quiet (iupdate ip).
Proof. unfold iupdate. frame. Qed.
#[export] Hint Resolve iupdate_quiet : frames.

Lemma iupdate_env ip : preserves keeps_env (iupdate ip).
Proof. unfold iupdate. frame. Qed.
#[export] Hint Resolve iupdate_env : frames.

#[export] Hint Resolve quiet_steady : frames.

Lemma set_addr_steady ip k v : preserves steady (set_addr ip k v).
Proof.
  unfold set_addr, set_ino. apply preserves_modify. intros s.
  split; [|grows_refl]. intros j. cbn. unfold updn.
  destruct (Nat.eqb j ip) eqn:E; [|reflexivity]. apply Nat.eqb_eq in E. now subst.
Qed.
#[export] Hint Resolve set_addr_steady : frames.

Lemma bmap_steady ip bn : preserves steady (bmap ip bn).
Proof. unfold bmap. frame. Qed.
#[export] Hint Resolve bmap_steady : frames.

(** ** Returns of the buffer routines, read backwards *)

Lemma bread_inv d b s x s' :
  bread d b s = Ret (x, s') ->
  x = b /\ bheld s b = false /\
  (forall k, bheld s' k = if k =? b then true else bheld s k) /\
  (forall k, bvalid s' k = if k =? b then true else bvalid s k) /\
  (forall k, bdata s' k = if k =? b then view s b else bdata s k) /\
  (forall k, brefcnt s' k = if k =? b then u32 (brefcnt s b + 1) else brefcnt s k) /\
  disk s' = disk s /\ writes s' = writes s /\ same_env s s'.
Proof.
  intros H. destruct (bheld s b) eqn:Eh.
  - unfold bread, bget, bind in H. rewrite Eh in H. discriminate.
  - destruct (bread_spec s d b Eh) as (s1 & E1 & Hrest). rewrite E1 in H.
    injection H as <- <-. split; [reflexivity|]. split; [reflexivity|]. exact Hrest.
Qed.

Lemma brelse_inv b s u s' :
  brelse b s = Ret (u, s') ->
  bheld s b = true /\
  (forall k, bheld s' k = if k =? b then false else bheld s k) /\
  bvalid s' = bvalid s /\ bdata s' = bdata s /\
  (forall k, brefcnt s' k = if k =? b then u32 (brefcnt s b - 1) else brefcnt s k) /\
  disk s' = disk s /\ writes s' = writes s /\ same_env s s'.
Proof.
  intros H. destruct (bheld s b) eqn:Eh.
  - destruct (brelse_spec s b Eh) as (s1 & E1 & Hrest). rewrite E1 in H.
    assert (s1 = s') by congruence. subst s1. split; [reflexivity|]. exact Hrest.
  - unfold brelse, bind, get_state in H. rewrite Eh in H. discriminate.
Qed.

Ltac inv_bread H :=
  match type of H with
  | bind (bread _ _) _ _ = _ =>
      let E := fresh "E" in
      apply bind_inv in H; destruct H as (?x & ?s & E & H);
      apply bread_inv in E;
      destruct E as (? & ?Hnh & ?Hh & ?Hv & ?Hd & ?Hr & ?Hk & ?Hw & ?He); subst
  end.

Ltac inv_brelse H :=
  match type of H with
  | bind (brelse _) _ _ = _ =>
      let E := fresh "E" in
      apply bind_inv in H; destruct H as (?x & ?s & E & H);
      apply brelse_inv in E;
      destruct E as (?Hhd & ?Hh & ?Hv & ?Hd & ?Hr & ?Hk & ?Hw & ?He)
  | brelse _ _ = _ =>
      apply brelse_inv in H;
      destruct H as (?Hhd & ?Hh & ?Hv & ?Hd & ?Hr & ?Hk & ?Hw & ?He)
  end.

Ltac inv_set_data H :=
  match type of H with
  | bind (set_data ?b ?g) ?f ?s = _ =>
      let s1 := fresh "s" in
      destruct (set_data_spec s b g) as (s1 & ?E & ?Hh & ?Hv & ?Hd & ?Hr & ?Hk & ?Hw & ?He);
      rewrite (bind_ret _ _ _ _ _ E) in H; clear E
  end.

Ltac inv_log_write H :=
  match type of H with
  | bind (log_write _) _ _ = _ =>
      let E := fresh "E" in
      apply bind_inv in H; destruct H as (?x & ?s & E & H);
      apply log_write_inv in E;
      destruct E as ((?Hv & ?Hd & ?Hh & ?Hk & ?Hw) & ?He & ?Hic & ?Hg & ?Hr & ?Hin)
  end.

(** What an [iupdate] that returns has done. *)
Lemma iupdate_inv ip s u s' :
  iupdate ip s = Ret (u, s') ->
  let i := icache s ip in
  let blk := IBLOCK (Ino.inum i) (sb s) in
  view s' blk = put_dinode (view s blk) i /\
  (forall k, k <> blk -> view s' k = view s k) /\
  (forall k, bheld s' k = bheld s k) /\
  bheld s blk = false /\
  (log_wf (log s) -> In blk (logged (log s'))).
Proof.
  intros H i blk. unfold iupdate in H. rewrite bind_get in H. fold i in H. fold blk in H.
  inv_bread H. inv_set_data H. inv_log_write H. inv_brelse H.
  split_env. unfold keeps_icache in *.
  repeat split.
  - norm. rewrite !Z.eqb_refl. reflexivity.
  - intros k Hne. norm. eqb_cases; try contradiction. reflexivity.
  - intros k. push. eqb_cases; subst; auto.
  - assumption.
  - intros Hwf. push. apply Hin. push. exact Hwf.
Qed.

Lemma writei_loop_env fuel ip u n tot off src data :
  preserves keeps_env (writei_loop fuel ip u n tot off src data).
Proof.
  revert tot off src. induction fuel as [|f IH]; intros tot off src; cbn [writei_loop]; frame.
Qed.

Lemma writei_loop_steady fuel ip u n tot off src data :
  preserves steady (writei_loop fuel ip u n tot off src data).
Proof.
  revert tot off src. induction fuel as [|f IH]; intros tot off src; cbn [writei_loop]; frame.
Qed.

Lemma writei_loop_ret fuel ip u n tot off src data st tot' off' st' :
  writei_loop fuel ip u n tot off src data st = Ret ((tot', off'), st') ->
  0 <= tot <= n -> n - tot <= Z.of_nat fuel ->
  let c := copied fuel (either_copy_ok st u) n tot off src in
  tot' = c /\ off' = off + (c - tot).
Proof.
  revert tot off src st. induction fuel as [|f IH]; intros tot off src st;
    cbn [writei_loop copied]; destruct (tot <? n) eqn:E.
  - intros [=].
  - intros [= <- <- <-] Ht Hf. cbv zeta. lia.
  - apply Z.ltb_lt in E. intros H Ht Hf. cbv zeta.
    rewrite bind_get in H.
    apply bind_inv in H. destruct H as (addr & s1 & E1 & H).
    apply bind_inv in H. destruct H as (bp & s2 & E2 & H).
    rewrite bind_get in H.
    assert (Henv : keeps_env st s2).
    { eapply frame_trans; [eapply bmap_env|eapply bread_env]; eassumption. }
    rewrite (either_copy_ok_env _ _ u Henv) in H.
    pose proof (chunk_pos n tot off E) as Hm.
    destruct (either_copy_ok st u src (Z.min (n - tot) (BSIZE - off mod BSIZE))) eqn:Eok;
      cbn [negb] in H.
    + apply bind_inv in H. destruct H as (u0 & s3 & E3 & H).
      apply bind_inv in H. destruct H as (u1 & s4 & E4 & H).
      apply bind_inv in H. destruct H as (u2 & s5 & E5 & H).
      assert (Henv5 : keeps_env st s5).
      { eapply frame_trans; [exact Henv|].
        eapply frame_trans; [eapply set_data_env; eassumption|].
        eapply frame_trans; [eapply log_write_env|eapply brelse_env]; eassumption. }
      apply IH in H; try lia.
      rewrite (either_copy_ok_env _ _ u Henv5) in H. cbv zeta in H. lia.
    + apply bind_inv in H. destruct H as (u0 & s3 & E3 & H).
      injection H as <- <- <-. lia.
  - intros [= <- <- <-] Ht Hf. cbv zeta. lia.
Qed.

Lemma writei_loop_no_fuel fuel ip u n tot off src data st :
  n - tot <= Z.of_nat fuel ->
  writei_loop fuel ip u n tot off src data st <> OutOfFuel.
Proof.
  revert tot off src st. induction fuel as [|f IH]; intros tot off src st Hf;
    cbn [writei_loop]; destruct (tot <? n) eqn:E; try discriminate.
  - apply Z.ltb_lt in E. lia.
  - apply Z.ltb_lt in E. pose proof (chunk_pos n tot off E) as Hm.
    rewrite bind_get.
    apply bind_no_fuel; [apply bmap_total|]. intros addr s1 _.
    apply bind_no_fuel; [apply bread_total|]. intros bp s2 _.
    rewrite bind_get.
    destruct (negb _).
    + apply bind_no_fuel; [apply brelse_total|]. intros; discriminate.
    + apply bind_no_fuel; [apply set_data_total|]. intros.
      apply bind_no_fuel; [apply log_write_total|]. intros.
      apply bind_no_fuel; [apply brelse_total|]. intros. apply IH. lia.
Qed.

Lemma iupdate_total ip : total (iupdate ip).
Proof. unfold iupdate. totality. Qed.

Lemma s32_small z : 0 <= z < 2147483648 -> s32 z = z.
Proof.
  intros H. unfold s32. rewrite u32_small by lia.
  destruct (Z.ltb_spec z 2147483648); lia.
Qed.

Lemma max_file_bytes : MAXFILE * BSIZE = 67382272.
Proof. reflexivity. Qed.


(** An empty file (inode 2), locked by the caller inside a transaction. *)
Definition write_sample : kstate :=
  sample_state (sample_log 1 []) dir_disk
    (fun i => match i with
              | O => Ino.mkinode 1 2 1 1 true 2 0 0 1 0 (repeat 0 13)
              | _ => free_inode
              end).


(** ** [bmap] *)

(** The specification's reading of [bmap], region by region and level by
    level, to be compared with the [bmap] of fs.c above.

    [alloc_if_zero dev addr store]: the address [addr] found on the path,
    or, when it is zero, a block from [balloc] that [store] records. *)
Definition alloc_if_zero (dev addr : Z) (store : Z -> M unit) : M Z :=
  if addr =? 0 then a <- balloc dev ;; store a ;; ret a else ret addr.

(** Entry [slot] of the indirect block [blk]; an entry allocated on the way
    is written to the block's buffer, which is then logged. *)
Definition slot_lookup (dev blk slot : Z) : M Z :=
  bp <- bread dev blk ;;
  st <- get_state ;;
  a <- alloc_if_zero dev (get32 (bdata st bp) (4 * slot))
         (fun a => set_data bp (fun d => put32 d (4 * slot) a) ;; log_write bp) ;;
  brelse bp ;;
  ret a.

Definition bmap_by_levels (ip : nat) (bn : Z) : M Z :=
  st <- get_state ;;
  let i := icache st ip in
  let dev := Ino.dev i in
  if bn <? NDIRECT then
    alloc_if_zero dev (addr_of i bn) (set_addr ip bn)
  else if bn <? NDIRECT + NINDIRECT then
    ind <- alloc_if_zero dev (addr_of i NDIRECT) (set_addr ip NDIRECT) ;;
    slot_lookup dev ind (bn - NDIRECT)
  else if bn <? NDIRECT + NINDIRECT + NINDIRECT * NINDIRECT then
    dbl <- alloc_if_zero dev (addr_of i (NDIRECT + 1)) (set_addr ip (NDIRECT + 1)) ;;
    ind <- slot_lookup dev dbl ((bn - NDIRECT - NINDIRECT) / NINDIRECT) ;;
    slot_lookup dev ind ((bn - NDIRECT - NINDIRECT) mod NINDIRECT)
  else panic "bmap: out of range".

Lemma bind_assoc {A B C} (m : M A) (f : A -> M B) (g : B -> M C) st :
  bind (bind m f) g st = bind m (fun a => bind (f a) g) st.
Proof. unfold bind. destruct (m st) as [[a s]| | |]; reflexivity. Qed.

Lemma bind_ret_r {A} (m : M A) st : bind m ret st = m st.
Proof. unfold bind, ret. destruct (m st) as [[a s]| | |]; reflexivity. Qed.

Lemma bmap_refines ip bn st : bmap ip bn st = bmap_by_levels ip bn st.
Proof.
  unfold bmap, bmap_by_levels. rewrite !bind_get. cbv zeta.
  destruct (bn <? NDIRECT) eqn:E1.
  - reflexivity.
  - apply Z.ltb_ge in E1.
    destruct (bn - NDIRECT <? NINDIRECT) eqn:E2.
    + replace (bn <? NDIRECT + NINDIRECT) with true
        by (symmetry; apply Z.ltb_lt; apply Z.ltb_lt in E2; lia).
      reflexivity.
    + apply Z.ltb_ge in E2.
      replace (bn <? NDIRECT + NINDIRECT) with false by (symmetry; apply Z.ltb_ge; lia).
      destruct (bn - NDIRECT - NINDIRECT <? NINDIRECT * NINDIRECT) eqn:E3.
      * replace (bn <? NDIRECT + NINDIRECT + NINDIRECT * NINDIRECT) with true
          by (symmetry; apply Z.ltb_lt; apply Z.ltb_lt in E3; lia).
        apply bind_ext. intros dbl s1. unfold slot_lookup at 1.
        rewrite bind_assoc. apply bind_ext. intros bp s2.
        rewrite bind_assoc. apply bind_ext. intros st1 s3.
        rewrite bind_assoc. apply bind_ext. intros addr s4.
        rewrite bind_assoc. apply bind_ext. intros u s5.
        reflexivity.
      * replace (bn <? NDIRECT + NINDIRECT + NINDIRECT * NINDIRECT) with false
          by (symmetry; apply Z.ltb_ge; apply Z.ltb_ge in E3; lia).
        reflexivity.
Qed.

(** Buffers that are locked stay locked, with their contents. *)
Definition keeps_held (s s' : kstate) : Prop :=
  forall k, bheld s k = true ->
    bheld s' k = true /\ bvalid s' k = bvalid s k /\ bdata s' k = bdata s k.

#[export] Instance keeps_held_frame : Frame keeps_held.
Proof.
  split; unfold keeps_held.
  - intros s k H. auto.
  - intros s1 s2 s3 H1 H2 k Hk. destruct (H1 k Hk) as (A & B & C).
    destruct (H2 k A) as (A' & B' & C'). repeat split; congruence.
Qed.

Lemma log_write_held b : preserves keeps_held (log_write b).
Proof.
  intros s u s' E. apply log_write_inv in E. destruct E as ((Hv & Hd & Hh & _) & _).
  intros k Hk. rewrite Hv, Hd, Hh. auto.
Qed.

Lemma bzero_held d b : preserves keeps_held (bzero d b).
Proof.
  intros s u s' H. unfold bzero in H.
  inv_bread H. inv_set_data H. inv_log_write H. inv_brelse H.
  intros k Hheld. assert (k <> b) by congruence.
  repeat split; push; eqb_cases; try contradiction; auto.
Qed.

Lemma balloc_loop_held n d b : preserves keeps_held (balloc_loop n d b).
Proof.
  revert b. induction n as [|n IH]; intros b s a s' H; cbn [balloc_loop] in H;
    rewrite bind_get in H; destruct (b <? Sb.size (sb s)); try discriminate.
  inv_bread H. rewrite bind_get in H.
  destruct (balloc_scan _ _ _ _ _) as [bi|].
  - inv_set_data H. inv_log_write H. inv_brelse H.
    apply bind_inv in H. destruct H as (u & s4 & E4 & H). injection H as _ <-.
    apply bzero_held in E4.
    intros k Hheld. assert (k <> BBLOCK b (sb s)) by congruence.
    assert (Hh3 : bheld s3 k = true) by (push; eqb_cases; try contradiction; auto).
    destruct (E4 k Hh3) as (A & B & C). rewrite A, B, C.
    repeat split; push; eqb_cases; try contradiction; auto.
  - inv_brelse H. apply IH in H.
    intros k Hheld. assert (k <> BBLOCK b (sb s)) by congruence.
    assert (Hh1 : bheld s1 k = true) by (push; eqb_cases; try contradiction; auto).
    destruct (H k Hh1) as (A & B & C). rewrite A, B, C.
    repeat split; push; eqb_cases; try contradiction; auto.
Qed.

Lemma balloc_held d : preserves keeps_held (balloc d).
Proof. intros s a s' H. unfold balloc in H. rewrite bind_get in H. eapply balloc_loop_held; eauto. Qed.

(** Nothing a later [bread] could see, and no lock, has changed. *)
Definition unchanged (s s' : kstate) : Prop :=
  (forall k, view s' k = view s k) /\ (forall k, bheld s' k = bheld s k) /\
  (forall k, u32 (brefcnt s' k) = u32 (brefcnt s k)) /\
  disk s' = disk s /\ writes s' = writes s /\ same_env s s'.

#[export] Instance unchanged_frame : Frame unchanged.
Proof.
  split; unfold unchanged.
  - intros s. repeat split.
  - intros s1 s2 s3 (A1 & B1 & C1 & D1 & E1 & F1) (A2 & B2 & C2 & D2 & E2 & F2).
    repeat split; try congruence; try (eapply same_env_trans; eassumption).
    all: destruct F1 as (? & ? & ? & ? & ?), F2 as (? & ? & ? & ? & ?); congruence.
Qed.

Lemma slot_lookup_mapped dev blk slot s :
  bheld s blk = false -> get32 (view s blk) (4 * slot) <> 0 ->
  exists s',
    slot_lookup dev blk slot s = Ret (get32 (view s blk) (4 * slot), s') /\
    unchanged s s'.
Proof.
  intros Hnh Hnz. unfold slot_lookup.
  run_bread; [exact Hnh|]. rewrite bind_get. unfold alloc_if_zero.
  assert (Hd0 : bdata s0 blk = view s blk) by (push; now rewrite Z.eqb_refl).
  rewrite Hd0. apply Z.eqb_neq in Hnz. rewrite Hnz. rewrite bind_ret_l.
  run_brelse; [push; now rewrite Z.eqb_refl|].
  unfold ret. eexists. split; [reflexivity|]. split_env.
  repeat split; try congruence.
  - intros k. norm. eqb_cases; subst; try reflexivity; now destruct (bvalid s blk).
  - intros k. push. eqb_cases; subst; auto.
  - intros k. repeat (push; eqb_cases; subst; try contradiction; try lia). all: u32_solve.
Qed.

Lemma slot_lookup_allocates dev blk slot s a s' :
  slot_lookup dev blk slot s = Ret (a, s') ->
  get32 (view s blk) (4 * slot) = 0 ->
  (exists s1 s2, balloc dev s1 = Ret (a, s2)) /\
  view s' blk = put32 (view s blk) (4 * slot) a /\
  (log_wf (log s) -> In blk (logged (log s'))).
Proof.
  intros H Hz. unfold slot_lookup in H.
  inv_bread H. rewrite bind_get in H.
  assert (Hd0 : bdata s0 blk = view s blk) by (push; now rewrite Z.eqb_refl).
  rewrite Hd0, Hz in H. unfold alloc_if_zero in H. cbn [Z.eqb] in H.
  apply bind_inv in H. destruct H as (a' & s4 & Ha & H).
  apply bind_inv in Ha. destruct Ha as (a1 & s1 & Eb & Ha).
  cbv beta in Ha. rewrite bind_assoc in Ha.
  inv_set_data Ha. inv_log_write Ha. injection Ha as <- <-.
  inv_brelse H. injection H as <- <-.
  assert (Hheld : bheld s0 blk = true) by (push; now rewrite Z.eqb_refl).
  destruct (balloc_held _ _ _ _ Eb blk Hheld) as (A & B & C).
  split; [eauto|]. split.
  - unfold view at 1. push. rewrite Z.eqb_refl, C, B. push. now rewrite Z.eqb_refl.
  - intros Hwf. split_env. push. apply Hin. push.
    destruct (balloc_quiet _ _ _ _ Eb) as (_ & _ & _ & Hg'). apply Hg'.
    congruence.
Qed.

Lemma bmap_out_of_range ip bn st :
  NDIRECT + NINDIRECT + NINDIRECT * NINDIRECT <= bn ->
  bmap ip bn st = Panic "bmap: out of range".
Proof.
  intros H. unfold bmap. rewrite bind_get.
  destruct (Z.ltb_spec bn NDIRECT); [change NINDIRECT with 256 in *; change NDIRECT with 11 in *; lia|].
  destruct (Z.ltb_spec (bn - NDIRECT) NINDIRECT); [change NINDIRECT with 256 in *; change NDIRECT with 11 in *; lia|].
  destruct (Z.ltb_spec (bn - NDIRECT - NINDIRECT) (NINDIRECT * NINDIRECT));
    [change NINDIRECT with 256 in *; change NDIRECT with 11 in *; lia|].
  reflexivity.
Qed.


(** An inode with one direct block, an indirect block (70) and a
    doubly-indirect block (71, whose first slot names block 72). *)
Definition map_sample : kstate :=
  sample_state (sample_log 1 [])
    (upd (upd (upd (fun _ => zero_block) 70 (put32 zero_block 12 80))
              71 (put32 zero_block 0 72))
         72 (put32 zero_block 20 81))
    (fun i => match i with
              | O => Ino.mkinode 1 2 1 1 true 2 0 0 1 0 (59 :: repeat 0 10 ++ [70; 71])
              | _ => free_inode
              end).


(** ** Destroying an inode *)

(** *** Bits of the bitmap *)

Lemma land_bit x k :
  0 <= k -> (Z.land x (Z.shiftl 1 k) =? 0) = negb (Z.testbit x k).
Proof.
  intros Hk. rewrite Z.shiftl_1_l. destruct (Z.testbit x k) eqn:E; cbn [negb].
  - apply Z.eqb_neq. intros H0.
    assert (H : Z.testbit (Z.land x (2 ^ k)) k = true)
      by (rewrite Z.land_spec, E, Z.pow2_bits_true by lia; reflexivity).
    rewrite H0, Z.bits_0 in H. discriminate.
  - apply Z.eqb_eq. apply Z.bits_inj'. intros n Hn.
    rewrite Z.land_spec, Z.bits_0, Z.pow2_bits_eqb by lia.
    destruct (Z.eqb_spec k n); subst; [rewrite E|rewrite andb_false_r]; reflexivity.
Qed.

Lemma bit_free_testbit d bi :
  bit_free d bi = negb (Z.testbit (d (bi / 8)) (bi mod 8)).
Proof.
  unfold bit_free, bit_mask. apply land_bit.
  pose proof (Z.mod_pos_bound bi 8). lia.
Qed.

(** Clearing a bit frees it and leaves every other bit as it was. *)
Lemma bit_free_clear d bi bi' :
  bit_free (bit_clear d bi) bi' =
  bit_free d bi' || ((bi' / 8 =? bi / 8) && (bi' mod 8 =? bi mod 8)).
Proof.
  rewrite !bit_free_testbit. unfold bit_clear, put8, bit_mask.
  pose proof (Z.mod_pos_bound bi 8 ltac:(lia)) as Hm.
  pose proof (Z.mod_pos_bound bi' 8 ltac:(lia)) as Hm'.
  destruct (Z.eqb_spec (bi' / 8) (bi / 8)) as [He|Hne]; cbn [andb].
  - rewrite He. change 256 with (2 ^ 8).
    rewrite Z.mod_pow2_bits_low by lia.
    rewrite Z.land_spec, Z.lnot_spec, Z.shiftl_1_l, Z.pow2_bits_eqb by lia.
    rewrite (Z.eqb_sym (bi mod 8)).
    destruct (Z.testbit (d (bi / 8)) (bi' mod 8)), (bi' mod 8 =? bi mod 8); reflexivity.
  - now rewrite orb_false_r.
Qed.

(** *** The log during the transaction *)

(** The log is well formed, holds no block twice and only blocks of [U],
    and the transaction is open. *)
Definition log_inv (U : list Z) (size : Z) (l : Lg.log) : Prop :=
  log_wf l /\ NoDup (logged l) /\ incl (logged l) U /\
  1 <= Lg.outstanding l /\ Lg.size l = size.

Lemma length_logged l : log_wf l -> Z.of_nat (List.length (logged l)) = Lg.n (Lg.lh l).
Proof.
  intros (Hlen & Hn). unfold logged. rewrite length_firstn, Hlen. lia.
Qed.

Lemma log_inv_room U size l :
  log_inv U size l ->
  Z.of_nat (List.length (nodup Z.eq_dec U)) < LOGSIZE ->
  Z.of_nat (List.length (nodup Z.eq_dec U)) < size - 1 ->
  log_has_room l.
Proof.
  intros (Hwf & Hnd & Hin & Ho & Hs) H1 H2.
  assert (Hle : (List.length (logged l) <= List.length (nodup Z.eq_dec U))%nat).
  { apply NoDup_incl_length; [exact Hnd|]. intros x Hx. apply nodup_In. now apply Hin. }
  pose proof (length_logged l Hwf) as Hn. destruct Hwf as (Hlen & Hr).
  unfold log_has_room. repeat split; first [lia | exact Hlen].
Qed.

(** [log_write] of a block of [U]. *)
Lemma log_write_run U size s b :
  log_inv U size (log s) ->
  Z.of_nat (List.length (nodup Z.eq_dec U)) < LOGSIZE ->
  Z.of_nat (List.length (nodup Z.eq_dec U)) < size - 1 ->
  In b U ->
  exists s',
    log_write b s = Ret (tt, s') /\
    log_inv U size (log s') /\ In b (logged (log s')) /\
    bdata s' = bdata s /\ bvalid s' = bvalid s /\ bheld s' = bheld s /\
    disk s' = disk s /\ icache s' = icache s /\ sb s' = sb s.
Proof.
  intros Hinv H1 H2 Hb.
  pose proof (log_inv_room _ _ _ Hinv H1 H2) as Hroom.
  destruct Hinv as (Hwf & Hnd & Hin & Ho & Hs).
  destruct (in_dec Z.eq_dec b (logged (log s))) as [Hyes|Hno].
  - exists s. split; [now apply log_write_absorbs|].
    repeat split; try assumption; try apply Hwf.
  - destruct (log_write_appends s b Hroom Hno)
      as (s' & E & Hn' & Hl' & _ & _ & Ho' & Hs' & Hlen' & Hd & Hv & Hh & Hk & _ & Hic & Hsb).
    exists s'. split; [exact E|].
    repeat split; try assumption; try congruence.
    + destruct Hwf as (_ & Hr). destruct Hroom as (Hr' & _). lia.
    + destruct Hroom as (Hr' & _). unfold LOGSIZE in *. lia.
    + rewrite Hl'. apply NoDup_app; [exact Hnd|apply NoDup_cons; [intros []|apply NoDup_nil]|].
      intros x Hx [<-|[]]. contradiction.
    + rewrite Hl'. apply incl_app; [exact Hin|]. intros x [<-|[]]. exact Hb.
    + rewrite Hl'. apply in_or_app. right. now left.
Qed.

(** *** The blocks of a file *)

(** The block an address names: none for 0. *)
Definition named (a : Z) : list Z := if a =? 0 then [] else [a].

(** The blocks the entries of an indirect block name. *)
Definition entries (d : block) : list Z :=
  flat_map (fun j => named (get32 d (4 * j))) (zseq NINDIRECT).

Definition direct_blocks (i : Ino.inode) : list Z :=
  flat_map (fun k => named (addr_of i k)) (zseq NDIRECT).

(** The blocks under the indirect block [a], then [a] itself. *)
Definition indirect_blocks (V : Z -> block) (a : Z) : list Z :=
  if a =? 0 then [] else entries (V a) ++ [a].

(** The blocks under the doubly-indirect block [a], then [a] itself. *)
Definition double_blocks (V : Z -> block) (a : Z) : list Z :=
  if a =? 0 then []
  else flat_map (fun j => indirect_blocks V (get32 (V a) (4 * j))) (zseq NINDIRECT) ++ [a].

(** Every block the inode refers to through its address array, in the
    order [itrunc] frees them. *)
Definition file_blocks (V : Z -> block) (i : Ino.inode) : list Z :=
  direct_blocks i ++ indirect_blocks V (addr_of i NDIRECT)
    ++ double_blocks V (addr_of i (NDIRECT + 1)).

Lemma zrange_app i a b : zrange i (a + b) = zrange i a ++ zrange (i + Z.of_nat a) b.
Proof.
  revert i. induction a as [|a IH]; intros i; cbn [zrange Nat.add app].
  - now rewrite Z.add_0_r.
  - rewrite IH. do 3 f_equal. lia.
Qed.

Lemma zseq_split n j :
  0 <= j < n -> zseq n = zseq j ++ j :: zrange (j + 1) (Z.to_nat (n - j - 1)).
Proof.
  intros H. unfold zseq.
  replace (Z.to_nat n) with (Z.to_nat j + S (Z.to_nat (n - j - 1)))%nat by lia.
  rewrite zrange_app. cbn [zrange]. do 2 f_equal; [lia|f_equal; lia].
Qed.

Lemma flat_map_zseq (g : Z -> list Z) n j :
  0 <= j < n ->
  exists R, flat_map g (zseq n) = flat_map g (zseq j) ++ g j ++ R.
Proof.
  intros H. rewrite (zseq_split n j H), flat_map_app. cbn [flat_map]. eauto.
Qed.

Lemma flat_map_zseq_succ (g : Z -> list Z) j :
  0 <= j -> flat_map g (zseq (j + 1)) = flat_map g (zseq j) ++ g j.
Proof.
  intros H. rewrite zseq_succ by lia. rewrite flat_map_app. cbn [flat_map].
  now rewrite app_nil_r.
Qed.

(** *** Freeing the blocks of a file *)

Section Destroy.

(** The superblock, the blocks the inode refers to in the order [itrunc]
    frees them, the blocks the transaction may log, the size of the log and
    the blocks as they were when [itrunc] began. *)
Variables (K : Sb.superblock) (All U : list Z) (size0 : Z) (V0 : Z -> block).

(** The bit of block [b]: its bitmap block and its index there. *)
Definition key (b : Z) : Z * Z := (BBLOCK b K, b mod BPB).

Let T := map (fun b => BBLOCK b K) All.

Hypothesis room1 : Z.of_nat (List.length (nodup Z.eq_dec U)) < LOGSIZE.
Hypothesis room2 : Z.of_nat (List.length (nodup Z.eq_dec U)) < size0 - 1.
Hypothesis bitmap_logged : incl T U.

(** The state of [itrunc] after it has freed the blocks [F], holding the
    buffers [hs]. *)
Definition Inv (F hs : list Z) (s : kstate) : Prop :=
  sb s = K /\
  (forall b, In b F -> bit_free (view s (BBLOCK b K)) (b mod BPB) = true) /\
  (forall b, In b All -> ~ In (key b) (map key F) ->
             bit_free (view s (BBLOCK b K)) (b mod BPB) = false) /\
  (forall k, ~ In k T -> view s k = V0 k) /\
  (forall k, bheld s k = true <-> In k hs) /\
  (forall k, In k hs -> bvalid s k = true) /\
  log_inv U size0 (log s).

Lemma bit_index bi bi' : bi' / 8 = bi / 8 -> bi' mod 8 = bi mod 8 -> bi' = bi.
Proof. intros H1 H2. rewrite (Z.div_mod bi 8), (Z.div_mod bi' 8) by lia. congruence. Qed.

Lemma bfree_run dev F hs s b :
  Inv F hs s -> In b All -> ~ In (key b) (map key F) -> ~ In (BBLOCK b K) hs ->
  exists s', bfree dev b s = Ret (tt, s') /\ Inv (F ++ [b]) hs s' /\ icache s' = icache s.
Proof.
  intros (Hsb & Hfreed & Hpend & Hstable & Hheld & Hvalid & Hlog) Hb Hfresh Hnot.
  unfold bfree. rewrite bind_get, Hsb. set (bp := BBLOCK b K) in *.
  run_bread.
  { destruct (bheld s bp) eqn:Eh; [|reflexivity]. exfalso. apply Hnot. now apply Hheld. }
  rewrite bind_get.
  assert (Hd0 : bdata s0 bp = view s bp) by (push; now rewrite Z.eqb_refl).
  pose proof (Hpend b Hb Hfresh) as Hbit. fold bp in Hbit. rewrite Hd0, Hbit.
  run_set_data. split_env.
  assert (HbU : In bp U) by (apply bitmap_logged; unfold T; exact (in_map (fun b => BBLOCK b K) All b Hb)).
  destruct (log_write_run U size0 s1 bp) as (s2 & E2 & Hlog2 & _ & Hd2 & Hv2 & Hh2 & Hk2 & Hi2 & Hs2);
    [congruence|exact room1|exact room2|exact HbU|].
  rewrite (bind_ret _ _ _ _ _ E2).
  run_brelse; [push; now rewrite Z.eqb_refl|]. split_env.
  eexists. split; [reflexivity|].
  assert (Hview : forall k, view s3 k =
                            if k =? bp then bit_clear (view s bp) (b mod BPB) else view s k).
  { intros k. unfold view at 1. push. rewrite Z.eqb_refl. eqb_cases; subst; reflexivity. }
  split; [|congruence].
  refine (conj _ (conj _ (conj _ (conj _ (conj _ (conj _ _)))))).
  - congruence.
  - intros b' Hb'. rewrite Hview. apply in_app_or in Hb'.
    destruct (Z.eqb_spec (BBLOCK b' K) bp) as [Heq|Hne].
    + rewrite bit_free_clear. destruct Hb' as [Hb'|[<-|[]]].
      * pose proof (Hfreed b' Hb') as Hf. rewrite Heq in Hf. now rewrite Hf.
      * rewrite !Z.eqb_refl. apply orb_true_r.
    + destruct Hb' as [Hb'|[<-|[]]]; [now apply Hfreed|]. now contradiction Hne.
  - intros b' Hb' Hk'. rewrite map_app, in_app_iff in Hk'. cbn [map In] in Hk'.
    assert (Hfr1 : ~ In (key b') (map key F)) by tauto.
    assert (Hfr2 : key b <> key b') by tauto.
    rewrite Hview. destruct (Z.eqb_spec (BBLOCK b' K) bp) as [Heq|Hne].
    + rewrite bit_free_clear. pose proof (Hpend b' Hb' Hfr1) as Hp. rewrite Heq in Hp.
      rewrite Hp. cbn [orb].
      apply andb_false_iff.
      destruct (Z.eqb_spec ((b' mod BPB) / 8) ((b mod BPB) / 8)) as [Hq|Hq]; [|now left].
      destruct (Z.eqb_spec ((b' mod BPB) mod 8) ((b mod BPB) mod 8)) as [Hm|Hm]; [|now right].
      exfalso. apply Hfr2. unfold key. fold bp. rewrite Heq. f_equal. symmetry.
      now apply bit_index.
    + now apply Hpend.
  - intros k Hx. rewrite Hview. destruct (Z.eqb_spec k bp) as [->|Hne]; [|now apply Hstable].
    exfalso. apply Hx. unfold T, bp. exact (in_map (fun b => BBLOCK b K) All b Hb).
  - intros k. rewrite <- Hheld. push. eqb_cases; subst; try tauto.
    destruct (bheld s bp) eqn:Eh; [|tauto]. exfalso. apply Hnot. now apply Hheld.
  - intros k Hx. push. eqb_cases; subst; auto.
  - replace (log s3) with (log s2) by congruence. exact Hlog2.
Qed.

Hypothesis keys_distinct : NoDup (map key All).
Hypothesis apart : forall b, In b All -> ~ In b T.

Lemma fresh_key F b R :
  All = F ++ b :: R -> In b All /\ ~ In (key b) (map key F).
Proof.
  intros H. split.
  - rewrite H. apply in_or_app. right. now left.
  - pose proof keys_distinct as Hnd. rewrite H, map_app in Hnd. cbn [map] in Hnd.
    apply NoDup_remove_2 in Hnd. intros Hin. apply Hnd. apply in_or_app. now left.
Qed.

Lemma bitmap_not_held hs b : incl hs All -> In b All -> ~ In (BBLOCK b K) hs.
Proof.
  intros Hhs Hb Hin. apply (apart _ (Hhs _ Hin)).
  unfold T. exact (in_map (fun b => BBLOCK b K) All b Hb).
Qed.

(** The invariant does not look at the inode cache. *)
Lemma Inv_set_ino F hs s ip f :
  Inv F hs s ->
  exists s', set_ino ip f s = Ret (tt, s') /\ Inv F hs s' /\
             icache s' = updn (icache s) ip (f (icache s ip)).
Proof. intros H. eexists. split; [reflexivity|]. split; [exact H|reflexivity]. Qed.

Lemma bread_Inv dev F hs s a :
  Inv F hs s -> ~ In a hs ->
  exists s', bread dev a s = Ret (a, s') /\ Inv F (a :: hs) s' /\ icache s' = icache s.
Proof.
  intros (Hsb & Hfreed & Hpend & Hstable & Hheld & Hvalid & Hlog) Hnot.
  destruct (bread_spec s dev a) as (s' & Er & Hh & Hv & Hd & Hr & Hk & Hw & He).
  { destruct (bheld s a) eqn:Eh; [|reflexivity]. exfalso. apply Hnot. now apply Hheld. }
  split_env. exists s'. split; [exact Er|]. split; [|assumption].
  assert (Hview : forall k, view s' k = view s k).
  { intros k. unfold view. push. eqb_cases; subst; try reflexivity;
      unfold view; now destruct (bvalid s a). }
  refine (conj _ (conj _ (conj _ (conj _ (conj _ (conj _ _)))))).
  - congruence.
  - intros b Hb. rewrite Hview. now apply Hfreed.
  - intros b Hb Hf. rewrite Hview. now apply Hpend.
  - intros k Hx. rewrite Hview. now apply Hstable.
  - intros k. cbn [In]. rewrite <- Hheld. push. eqb_cases; subst; intuition congruence.
  - intros k [<-|Hx]; push; eqb_cases; subst; auto; try contradiction.
  - congruence.
Qed.

Lemma brelse_Inv F hs s a :
  Inv F (a :: hs) s -> ~ In a hs ->
  exists s', brelse a s = Ret (tt, s') /\ Inv F hs s' /\ icache s' = icache s.
Proof.
  intros (Hsb & Hfreed & Hpend & Hstable & Hheld & Hvalid & Hlog) Hnot.
  destruct (brelse_spec s a) as (s' & Er & Hh & Hv & Hd & Hr & Hk & Hw & He).
  { apply Hheld. now left. }
  split_env. exists s'. split; [exact Er|]. split; [|assumption].
  assert (Hview : forall k, view s' k = view s k) by (intros k; unfold view; now push).
  refine (conj _ (conj _ (conj _ (conj _ (conj _ (conj _ _)))))).
  - congruence.
  - intros b Hb. rewrite Hview. now apply Hfreed.
  - intros b Hb Hf. rewrite Hview. now apply Hpend.
  - intros k Hx. rewrite Hview. now apply Hstable.
  - intros k. push. specialize (Hheld k). cbn [In] in Hheld.
    eqb_cases; subst; intuition congruence.
  - intros k Hx. push. apply Hvalid. now right.
  - congruence.
Qed.

(** [if (a) bfree(dev, a)]. *)
Lemma free_named dev F hs s a R :
  Inv F hs s -> All = F ++ named a ++ R -> incl hs All ->
  exists s',
    (if negb (a =? 0) then bfree dev a else ret tt) s = Ret (tt, s') /\
    Inv (F ++ named a) hs s' /\ icache s' = icache s.
Proof.
  intros HI Hall Hhs. unfold named in *. destruct (a =? 0); cbn [negb].
  - exists s. rewrite app_nil_r. split; [reflexivity|]. split; [exact HI|reflexivity].
  - cbn [app] in Hall. destruct (fresh_key _ _ _ Hall) as (Hin & Hfresh).
    apply bfree_run; try assumption. now apply bitmap_not_held.
Qed.

(** The loop of [itrunc] over the entries of the held buffer [blk]. *)
Lemma free_entries_run dev pre hs blk s post :
  Inv pre hs s -> In blk hs -> incl hs All ->
  All = pre ++ entries (V0 blk) ++ post ->
  exists s',
    free_entries dev blk s = Ret (tt, s') /\
    Inv (pre ++ entries (V0 blk)) hs s' /\ icache s' = icache s.
Proof.
  intros HI Hblk Hhs Hall. unfold free_entries, entries in *.
  set (g := fun j => named (get32 (V0 blk) (4 * j))) in *.
  destruct (for_range_inv
              (fun j s' => Inv (pre ++ flat_map g (zseq j)) hs s' /\ icache s' = icache s)
              (Z.to_nat NINDIRECT) 0
              (fun j => st <- get_state ;;
                        let a := get32 (bdata st blk) (4 * j) in
                        if negb (a =? 0) then bfree dev a else ret tt) s)
    as (s' & Er & HI' & Hic).
  - cbn [zseq zrange flat_map Z.to_nat]. rewrite app_nil_r. split; [exact HI|reflexivity].
  - intros j s1 Hj (HI1 & Hic1). rewrite bind_get. cbv zeta.
    assert (Hd : bdata s1 blk = V0 blk).
    { destruct HI1 as (_ & _ & _ & Hstable & _ & Hvalid & _).
      rewrite <- (Hstable blk) by (apply apart; now apply Hhs).
      unfold view. now rewrite (Hvalid blk Hblk). }
    rewrite Hd.
    destruct (flat_map_zseq g NINDIRECT j) as (R & HR); [change NINDIRECT with 256 in *; lia|].
    destruct (free_named dev (pre ++ flat_map g (zseq j)) hs s1 (get32 (V0 blk) (4 * j)) (R ++ post))
      as (s2 & E2 & HI2 & Hic2); [exact HI1| |exact Hhs|].
    + rewrite Hall, HR. rewrite <- !app_assoc. reflexivity.
    + exists s2. split; [exact E2|]. rewrite flat_map_zseq_succ by lia.
      rewrite app_assoc. split; [exact HI2|congruence].
  - exists s'. split; [exact Er|]. split; [|exact Hic].
    replace (0 + Z.of_nat (Z.to_nat NINDIRECT)) with NINDIRECT in HI' by reflexivity.
    exact HI'.
Qed.

Variable ip : nat.

Lemma set_addr_run F hs s j v :
  Inv F hs s -> 0 <= j ->
  exists s',
    set_addr ip j v s = Ret (tt, s') /\ Inv F hs s' /\ keeps_meta s s' /\
    (forall k, 0 <= k -> k <> j -> addr_of (icache s' ip) k = addr_of (icache s ip) k).
Proof.
  intros HI Hj. eexists. split; [reflexivity|]. split; [exact HI|]. split.
  - intros q. cbn. unfold updn. now destruct (Nat.eqb q ip) eqn:Eq; [apply Nat.eqb_eq in Eq; subst|].
  - intros k Hk Hne. cbn. rewrite updn_same. unfold addr_of. cbn.
    apply nth_set_nth_other. lia.
Qed.

(** The first loop of [itrunc], over the direct addresses. *)
Lemma direct_run s post :
  Inv [] [] s -> All = direct_blocks (icache s ip) ++ post ->
  exists s',
    for_range (Z.to_nat NDIRECT) 0 (fun i =>
      st <- get_state ;;
      let a := addr_of (icache st ip) i in
      if negb (a =? 0) then bfree (Ino.dev (icache s ip)) a ;; set_addr ip i 0 else ret tt) s
    = Ret (tt, s') /\
    Inv (direct_blocks (icache s ip)) [] s' /\ keeps_meta s s' /\
    (forall k, NDIRECT <= k -> addr_of (icache s' ip) k = addr_of (icache s ip) k).
Proof.
  intros HI Hall. unfold direct_blocks in *.
  set (i0 := icache s ip) in *. set (g := fun k => named (addr_of i0 k)) in *.
  match goal with
  | |- exists s', for_range ?n 0 ?body s = _ /\ _ =>
      destruct (for_range_inv
                  (fun j s' => Inv (flat_map g (zseq j)) [] s' /\ keeps_meta s s' /\
                               forall k, j <= k -> addr_of (icache s' ip) k = addr_of i0 k)
                  n 0 body s) as (s' & Er & HI' & Hm & Ha)
  end.
  - split; [exact HI|]. split; [apply frame_refl|]. intros k _. reflexivity.
  - intros j s1 Hj (HI1 & Hm1 & Ha1). rewrite bind_get. cbv zeta.
    rewrite (Ha1 j) by lia. rewrite flat_map_zseq_succ by lia.
    destruct (flat_map_zseq g NDIRECT j) as (R & HR); [change NDIRECT with 11 in *; lia|].
    destruct (addr_of i0 j =? 0) eqn:Ez; cbn [negb].
    + assert (Hg : g j = []) by (unfold g, named; now rewrite Ez).
      exists s1. rewrite Hg, app_nil_r. split; [reflexivity|]. split; [exact HI1|].
      split; [exact Hm1|]. intros k Hk. apply Ha1. lia.
    + assert (Hg : g j = [addr_of i0 j]) by (unfold g, named; now rewrite Ez).
      rewrite Hg in *.
      assert (Hall' : All = flat_map g (zseq j) ++ addr_of i0 j :: R ++ post).
      { rewrite Hall, HR. rewrite <- !app_assoc. reflexivity. }
      destruct (fresh_key _ _ _ Hall') as (Hin & Hfresh).
      destruct (bfree_run (Ino.dev i0) _ [] s1 _ HI1 Hin Hfresh) as (s2 & E2 & HI2 & Hic2);
        [intros []|].
      rewrite (bind_ret _ _ _ _ _ E2).
      destruct (set_addr_run _ _ s2 j 0 HI2) as (s3 & E3 & HI3 & Hm3 & Ha3); [lia|].
      exists s3. split; [exact E3|]. split; [exact HI3|]. split.
      * eapply frame_trans; [exact Hm1|]. eapply frame_trans; [|exact Hm3].
        intros q. now rewrite Hic2.
      * intros k Hk. rewrite Ha3 by lia. rewrite Hic2. apply Ha1. lia.
  - exists s'. split; [exact Er|].
    replace (0 + Z.of_nat (Z.to_nat NDIRECT)) with NDIRECT in * by reflexivity.
    split; [exact HI'|]. split; [exact Hm|exact Ha].
Qed.

(** [bread], the loop over the entries and [brelse], for an indirect block. *)
Lemma scan_indirect {B} dev pre hs s a post (k : unit -> M B) :
  Inv pre hs s -> incl hs All -> ~ In a hs ->
  All = pre ++ (entries (V0 a) ++ [a]) ++ post ->
  exists s',
    (bp <- bread dev a ;; free_entries dev bp ;; x <- brelse bp ;; k x) s = k tt s' /\
    Inv (pre ++ entries (V0 a)) hs s' /\ icache s' = icache s.
Proof.
  intros HI Hhs Hnot Hall.
  assert (Ha : In a All).
  { rewrite Hall. apply in_or_app. right. apply in_or_app. left. apply in_or_app. right. now left. }
  destruct (bread_Inv dev _ _ _ a HI Hnot) as (s1 & E1 & HI1 & Hic1).
  rewrite (bind_ret _ _ _ _ _ E1).
  destruct (free_entries_run dev pre (a :: hs) a s1 ([a] ++ post) HI1) as (s2 & E2 & HI2 & Hic2).
  - now left.
  - intros x [<-|Hx]; [exact Ha|now apply Hhs].
  - rewrite Hall. now rewrite <- !app_assoc.
  - rewrite (bind_ret _ _ _ _ _ E2).
    destruct (brelse_Inv _ _ _ a HI2 Hnot) as (s3 & E3 & HI3 & Hic3).
    rewrite (bind_ret _ _ _ _ _ E3).
    exists s3. split; [reflexivity|]. split; [exact HI3|congruence].
Qed.

Lemma held_data F hs s blk :
  Inv F hs s -> In blk hs -> incl hs All -> bdata s blk = V0 blk.
Proof.
  intros (_ & _ & _ & Hstable & _ & Hvalid & _) Hblk Hhs.
  rewrite <- (Hstable blk) by (apply apart; now apply Hhs).
  unfold view. now rewrite (Hvalid blk Hblk).
Qed.

(** The second part of [itrunc]: the indirect block. *)
Lemma indirect_run dev s pre post a :
  Inv pre [] s -> All = pre ++ indirect_blocks V0 a ++ post ->
  exists s',
    (if negb (a =? 0) then
       bp <- bread dev a ;;
       free_entries dev bp ;;
       brelse bp ;;
       bfree dev a ;;
       set_addr ip NDIRECT 0
     else ret tt) s = Ret (tt, s') /\
    Inv (pre ++ indirect_blocks V0 a) [] s' /\ keeps_meta s s' /\
    addr_of (icache s' ip) (NDIRECT + 1) = addr_of (icache s ip) (NDIRECT + 1).
Proof.
  intros HI Hall. unfold indirect_blocks in *. destruct (a =? 0); cbn [negb].
  - exists s. rewrite app_nil_r. split; [reflexivity|]. split; [exact HI|].
    split; [apply frame_refl|reflexivity].
  - destruct (scan_indirect dev pre [] s a post
                (fun _ => bfree dev a ;; set_addr ip NDIRECT 0) HI)
      as (s1 & E1 & HI1 & Hic1); [intros x []|intros []|exact Hall|].
    rewrite E1.
    assert (Hall' : All = (pre ++ entries (V0 a)) ++ a :: post).
    { rewrite Hall. now rewrite <- !app_assoc. }
    destruct (fresh_key _ _ _ Hall') as (Hin & Hfresh).
    destruct (bfree_run dev _ [] s1 _ HI1 Hin Hfresh) as (s2 & E2 & HI2 & Hic2); [intros []|].
    rewrite (bind_ret _ _ _ _ _ E2).
    destruct (set_addr_run _ _ s2 NDIRECT 0 HI2) as (s3 & E3 & HI3 & Hm3 & Ha3);
      [change NDIRECT with 11; lia|].
    exists s3. split; [exact E3|]. rewrite app_assoc. split; [exact HI3|]. split.
    + eapply frame_trans; [|exact Hm3]. intros q. now rewrite Hic2, Hic1.
    + rewrite Ha3 by (change NDIRECT with 11; lia). now rewrite Hic2, Hic1.
Qed.

(** The third part of [itrunc]: the doubly-indirect block. *)
Lemma double_run dev s pre post a :
  Inv pre [] s -> All = pre ++ double_blocks V0 a ++ post ->
  exists s',
    (if negb (a =? 0) then
       bp <- bread dev a ;;
       for_range (Z.to_nat NINDIRECT) 0 (fun j =>
         st <- get_state ;;
         let aj := get32 (bdata st bp) (4 * j) in
         if negb (aj =? 0) then
           bp_2 <- bread dev aj ;;
           free_entries dev bp_2 ;;
           brelse bp_2 ;;
           st' <- get_state ;;
           bfree dev (get32 (bdata st' bp) (4 * j))
         else ret tt) ;;
       brelse bp ;;
       bfree dev a ;;
       set_addr ip (NDIRECT + 1) 0
     else ret tt) s = Ret (tt, s') /\
    Inv (pre ++ double_blocks V0 a) [] s' /\ keeps_meta s s'.
Proof.
  intros HI Hall. unfold double_blocks in *. destruct (a =? 0); cbn [negb].
  - exists s. rewrite app_nil_r. split; [reflexivity|]. split; [exact HI|apply frame_refl].
  - set (g := fun j => indirect_blocks V0 (get32 (V0 a) (4 * j))) in *.
    assert (Ha : In a All).
    { rewrite Hall. apply in_or_app. right. apply in_or_app. left. apply in_or_app.
      right. now left. }
    assert (Hhs : incl [a] All) by (intros x [<-|[]]; exact Ha).
    destruct (bread_Inv dev _ _ _ a HI) as (s1 & E1 & HI1 & Hic1); [intros []|].
    rewrite (bind_ret _ _ _ _ _ E1).
    match goal with
    | |- exists s', bind (for_range ?n 0 ?body) _ s1 = _ /\ _ =>
        destruct (for_range_inv
                    (fun j s' => Inv (pre ++ flat_map g (zseq j)) [a] s' /\
                                 icache s' = icache s1)
                    n 0 body s1) as (s2 & E2 & HI2 & Hic2)
    end.
    + cbn [zseq zrange flat_map Z.to_nat]. rewrite app_nil_r. split; [exact HI1|reflexivity].
    + intros j s2 Hj (HI2 & Hic2). rewrite bind_get. cbv zeta.
      rewrite (held_data _ _ _ a HI2) by (try assumption; now left).
      rewrite flat_map_zseq_succ by lia.
      destruct (flat_map_zseq g NINDIRECT j) as (R & HR); [change NINDIRECT with 256 in *; lia|].
      assert (Hall2 : All = (pre ++ flat_map g (zseq j)) ++ g j ++ R ++ [a] ++ post).
      { rewrite Hall, HR. now rewrite <- !app_assoc. }
      unfold g at 2. unfold g at 2 in Hall2. unfold indirect_blocks in *.
      set (aj := get32 (V0 a) (4 * j)) in *.
      destruct (aj =? 0) eqn:Ez; cbn [negb].
      * exists s2. rewrite app_nil_r. split; [reflexivity|]. split; [exact HI2|exact Hic2].
      * assert (Hne : aj <> a).
        { intros Heq.
          assert (Hall3 : All = ((pre ++ flat_map g (zseq j)) ++ entries (V0 aj) ++ [aj] ++ R)
                                  ++ a :: post).
          { rewrite Hall2. now rewrite <- !app_assoc. }
          destruct (fresh_key _ _ _ Hall3) as (_ & Hfr). apply Hfr. rewrite <- Heq.
          apply in_map. apply in_or_app. right. apply in_or_app. right.
          apply in_or_app. left. now left. }
        destruct (scan_indirect dev (pre ++ flat_map g (zseq j)) [a] s2 aj (R ++ [a] ++ post)
                    (fun _ => st' <- get_state ;; bfree dev (get32 (bdata st' a) (4 * j))) HI2 Hhs)
          as (s3 & E3 & HI3 & Hic3).
        { intros [H|[]]. now apply Hne. }
        { exact Hall2. }
        rewrite E3, bind_get.
        rewrite (held_data _ _ _ a HI3) by (try assumption; now left). fold aj.
        assert (Hall4 : All = ((pre ++ flat_map g (zseq j)) ++ entries (V0 aj))
                                ++ aj :: R ++ [a] ++ post).
        { rewrite Hall2. now rewrite <- !app_assoc. }
        destruct (fresh_key _ _ _ Hall4) as (Hin & Hfresh).
        destruct (bfree_run dev _ [a] s3 _ HI3 Hin Hfresh) as (s4 & E4 & HI4 & Hic4).
        { now apply bitmap_not_held. }
        exists s4. split; [exact E4|]. rewrite <- !app_assoc in HI4. rewrite <- ?app_assoc.
        split; [exact HI4|congruence].
    + rewrite (bind_ret _ _ _ _ _ E2).
      replace (0 + Z.of_nat (Z.to_nat NINDIRECT)) with NINDIRECT in * by reflexivity.
      destruct (brelse_Inv _ _ _ a HI2) as (s3 & E3 & HI3 & Hic3); [intros []|].
      rewrite (bind_ret _ _ _ _ _ E3).
      assert (Hall' : All = (pre ++ flat_map g (zseq NINDIRECT)) ++ a :: post).
      { rewrite Hall. now rewrite <- !app_assoc. }
      destruct (fresh_key _ _ _ Hall') as (Hin & Hfresh).
      destruct (bfree_run dev _ [] s3 _ HI3 Hin Hfresh) as (s4 & E4 & HI4 & Hic4); [intros []|].
      rewrite (bind_ret _ _ _ _ _ E4).
      destruct (set_addr_run _ _ s4 (NDIRECT + 1) 0 HI4) as (s5 & E5 & HI5 & Hm5 & _);
        [change NDIRECT with 11; lia|].
      exists s5. split; [exact E5|]. rewrite app_assoc. split; [exact HI5|].
      eapply frame_trans; [|exact Hm5]. intros q. now rewrite Hic4, Hic3, Hic2, Hic1.
Qed.

(** The blocks [F] are free, no buffer is locked and the log has room. *)
Definition Done (F : list Z) (s : kstate) : Prop :=
  sb s = K /\
  (forall b, In b F -> bit_free (view s (BBLOCK b K)) (b mod BPB) = true) /\
  (forall k, bheld s k = false) /\
  log_inv U size0 (log s).

Lemma Inv_Done F s : Inv F [] s -> Done F s.
Proof.
  intros (Hsb & Hfreed & _ & _ & Hheld & _ & Hlog).
  split; [exact Hsb|]. split; [exact Hfreed|]. split; [|exact Hlog].
  intros k. destruct (bheld s k) eqn:Eh; [|reflexivity]. now apply Hheld in Eh.
Qed.

Lemma Done_set_ino F s f :
  Done F s ->
  exists s', set_ino ip f s = Ret (tt, s') /\ Done F s' /\
             icache s' = updn (icache s) ip (f (icache s ip)) /\
             (forall k, view s' k = view s k) /\ log s' = log s.
Proof. intros H. eexists. split; [reflexivity|]. repeat split; apply H. Qed.

Variable ib : Z.
Hypothesis inode_block_apart : ~ In ib T.
Hypothesis inode_block_logged : In ib U.

Lemma iupdate_run F s :
  Done F s -> incl F All -> IBLOCK (Ino.inum (icache s ip)) K = ib ->
  exists s',
    iupdate ip s = Ret (tt, s') /\ Done F s' /\ icache s' = icache s /\
    view s' ib = put_dinode (view s ib) (icache s ip) /\
    In ib (logged (log s')).
Proof.
  intros (Hsb & Hfreed & Hheld & Hlog) HF Hib.
  unfold iupdate. rewrite bind_get, Hsb, Hib.
  run_bread; [apply Hheld|].
  run_set_data. split_env.
  destruct (log_write_run U size0 s1 ib)
    as (s2 & E2 & Hlog2 & Hin2 & Hd2 & Hv2 & Hh2 & Hk2 & Hi2 & Hs2);
    [congruence|exact room1|exact room2|exact inode_block_logged|].
  rewrite (bind_ret _ _ _ _ _ E2).
  run_brelse; [push; now rewrite Z.eqb_refl|]. split_env.
  eexists. split; [reflexivity|].
  assert (Hview : forall k, view s3 k =
                            if k =? ib then put_dinode (view s ib) (icache s ip) else view s k).
  { intros k. unfold view at 1. push. rewrite Z.eqb_refl. eqb_cases; subst; reflexivity. }
  split; [|split; [congruence|split]].
  - split; [congruence|]. split; [|split].
    + intros b Hb. rewrite Hview.
      destruct (Z.eqb_spec (BBLOCK b K) ib) as [Heq|Hne]; [|now apply Hfreed].
      exfalso. apply inode_block_apart. rewrite <- Heq. unfold T.
      exact (in_map (fun b => BBLOCK b K) All b (HF b Hb)).
    + intros k. push. eqb_cases; subst; auto.
    + replace (log s3) with (log s2) by congruence. exact Hlog2.
  - rewrite Hview. now rewrite Z.eqb_refl.
  - replace (log s3) with (log s2) by congruence. exact Hin2.
Qed.

Lemma itrunc_run s :
  Inv [] [] s -> All = file_blocks V0 (icache s ip) ->
  IBLOCK (Ino.inum (icache s ip)) K = ib ->
  exists s',
    itrunc ip s = Ret (tt, s') /\ Done All s' /\
    meta (icache s' ip) = with_size 0 (meta (icache s ip)).
Proof.
  intros HI Hall Hib. unfold file_blocks in Hall. unfold itrunc.
  rewrite bind_get. cbv beta zeta.
  destruct (direct_run s _ HI Hall) as (s1 & E1 & HI1 & Hm1 & Ha1).
  rewrite (bind_ret _ _ s tt s1); [|exact E1].
  rewrite bind_get. cbv beta.
  rewrite (Ha1 NDIRECT) by lia.
  destruct (indirect_run (Ino.dev (icache s ip)) s1 _ _ _ HI1 Hall)
    as (s2 & E2 & HI2 & Hm2 & Ha2).
  rewrite (bind_ret _ _ s1 tt s2); [|exact E2].
  rewrite bind_get. cbv beta.
  rewrite Ha2, (Ha1 (NDIRECT + 1)) by lia.
  destruct (double_run (Ino.dev (icache s ip)) s2 _ [] (addr_of (icache s ip) (NDIRECT + 1)) HI2)
    as (s3 & E3 & HI3 & Hm3).
  { rewrite Hall. now rewrite app_nil_r, <- app_assoc. }
  rewrite (bind_ret _ _ s2 tt s3); [|exact E3].
  rewrite <- app_assoc, <- Hall in HI3.
  destruct (Done_set_ino All s3 (with_size 0) (Inv_Done _ _ HI3)) as (s4 & E4 & HD4 & Hic4 & _).
  rewrite (bind_ret _ _ s3 tt s4); [|exact E4].
  assert (Hmeta : meta (icache s4 ip) = with_size 0 (meta (icache s ip))).
  { rewrite Hic4, updn_same. rewrite <- (Hm1 ip), <- (Hm2 ip), <- (Hm3 ip). reflexivity. }
  destruct (iupdate_run All s4 HD4) as (s5 & E5 & HD5 & Hic5 & _).
  { apply incl_refl. }
  { rewrite <- Hib.
    change (Ino.inum (icache s4 ip)) with (Ino.inum (meta (icache s4 ip))).
    now rewrite Hmeta. }
  exists s5. split; [exact E5|]. split; [exact HD5|]. now rewrite Hic5.
Qed.

End Destroy.

Lemma set_ino_run ip f s :
  exists s',
    set_ino ip f s = Ret (tt, s') /\ icache s' ip = f (icache s ip) /\
    (forall k, view s' k = view s k) /\ log s' = log s.
Proof.
  eexists. split; [reflexivity|]. split; [apply updn_same|]. split; reflexivity.
Qed.


(** An unlinked file (inode 2) with one direct block (60), an indirect
    block (61, naming 62) and a doubly-indirect block (63, naming 64, which
    names 65), all marked in use in the bitmap block 58; the last reference
    is about to be dropped inside a transaction. *)
Definition destroy_sample : kstate :=
  sample_state (sample_log 1 [])
    (upd (upd (upd (upd (fun _ => zero_block)
                        58 (put8 (put8 zero_block 7 240) 8 3))
                   61 (put32 zero_block 0 62))
              63 (put32 zero_block 0 64))
         64 (put32 zero_block 0 65))
    (fun i => match i with
              | O => Ino.mkinode 1 2 1 1 false 2 0 0 0 3072 (60 :: repeat 0 10 ++ [61; 63])
              | _ => free_inode
              end).


(** ** The log under the operations of a transaction *)

(** [struct log] is as before. *)
Definition keeps_log (s s' : kstate) : Prop := log s' = log s.

#[export] Instance keeps_log_frame : Frame keeps_log.
Proof. split; unfold keeps_log; intros; congruence. Qed.

Lemma bget_log d b : preserves keeps_log (bget d b).
Proof.
  intros st x st'. unfold bget. destruct (bheld st b); [discriminate|].
  intros [= _ <-]. reflexivity.
Qed.
#[export] Hint Resolve bget_log : frames.

Lemma bread_log d b : preserves keeps_log (bread d b).
Proof. unfold bread, disk_read. frame; frame_modify. Qed.
#[export] Hint Resolve bread_log : frames.

Lemma bwrite_log b : preserves keeps_log (bwrite b).
Proof. unfold bwrite, disk_write. frame; frame_modify. Qed.
#[export] Hint Resolve bwrite_log : frames.

Lemma brelse_log b : preserves keeps_log (brelse b).
Proof. unfold brelse. frame; frame_modify. Qed.
#[export] Hint Resolve brelse_log : frames.

Lemma set_data_log b f : preserves keeps_log (set_data b f).
Proof. unfold set_data. frame_modify. Qed.
#[export] Hint Resolve set_data_log : frames.

Lemma bunpin_log b : preserves keeps_log (bunpin b).
Proof. unfold bunpin. frame_modify. Qed.
#[export] Hint Resolve bunpin_log : frames.

Lemma write_head_log : preserves keeps_log write_head.
Proof. unfold write_head. frame. Qed.
#[export] Hint Resolve write_head_log : frames.

Lemma write_log_log : preserves keeps_log write_log.
Proof. unfold write_log. frame. Qed.
#[export] Hint Resolve write_log_log : frames.

Lemma install_trans_log r : preserves keeps_log (install_trans r).
Proof. unfold install_trans. frame. Qed.
#[export] Hint Resolve install_trans_log : frames.

(** What a [commit] that returns leaves in [struct log]. *)
Lemma commit_leaves st st' :
  commit st = Ret (tt, st') -> log st' = commit_log (log st).
Proof.
  unfold commit, commit_log. rewrite bind_get.
  destruct (Lg.n (Lg.lh (log st)) >? 0).
  - intros H.
    apply bind_inv in H. destruct H as (u1 & s1 & H1 & H).
    apply bind_inv in H. destruct H as (u2 & s2 & H2 & H).
    apply bind_inv in H. destruct H as (u3 & s3 & H3 & H).
    rewrite bind_modify in H.
    apply write_head_log in H. apply write_log_log in H1. apply write_head_log in H2.
    apply install_trans_log in H3. unfold keeps_log in *.
    rewrite H. cbn. congruence.
  - intros [= <-]. reflexivity.
Qed.

(** The operations of the log, run on a state, are steps of the log. *)
Lemma begin_op_is_step M st st' :
  begin_op M st = Ret (tt, st') -> log_step M (log st) (log st').
Proof.
  unfold begin_op. destruct (begin_op_try M (log st)) as [l|] eqn:E; [|discriminate].
  intros [= <-]. now apply step_begin.
Qed.

Lemma log_write_is_step M b st st' :
  (1 <= Lg.outstanding (log st) -> Lg.committing (log st) = 0) ->
  log_write b st = Ret (tt, st') -> log_step M (log st) (log st').
Proof.
  intros Hc. unfold log_write. rewrite bind_get.
  destruct (_ || _); [discriminate|].
  destruct (Lg.outstanding (log st) <? 1) eqn:Eo; [discriminate|].
  apply Z.ltb_ge in Eo. specialize (Hc Eo). rewrite bind_modify.
  destruct (_ =? _); unfold bpin; rewrite ?bind_modify; unfold modify, ret;
    intros [= <-]; cbn;
    match goal with
    | |- log_step _ _ ?l => change l with (set_lh (log st) (Lg.lh l))
    end; now apply step_write.
Qed.

Lemma end_op_is_steps M st st' :
  1 <= Lg.outstanding (log st) ->
  end_op st = Ret (tt, st') -> log_reach M (log st) (log st').
Proof.
  intros Ho. unfold end_op.
  destruct (end_op_enter (log st)) as [[dc l]| | |] eqn:E; try discriminate.
  assert (Hstep : log_step M (log st) l) by (eapply step_end_enter; eassumption).
  destruct (dc =? 0) eqn:Ed; cbn [negb].
  - intros [= <-]. eapply reach_step; [apply reach_here|exact Hstep].
  - intros H. apply bind_inv in H. destruct H as (u & s1 & Hc & H).
    destruct u. apply commit_leaves in Hc. cbn in Hc.
    unfold modify in H. injection H as <-. cbn. rewrite Hc.
    eapply reach_step; [eapply reach_step; [apply reach_here|exact Hstep]|].
    apply step_end_exit.
    unfold end_op_enter in E.
    destruct (negb _); [discriminate|].
    destruct (_ =? 0) in E; injection E as <- <-; cbn; [lia|discriminate].
Qed.

Lemma reach_trans M l0 l1 l2 :
  log_reach M l0 l1 -> log_reach M l1 l2 -> log_reach M l0 l2.
Proof.
  intros H1 H2. induction H2 as [|l l' _ IH Hstep]; [exact H1|].
  eapply reach_step; eassumption.
Qed.

(** C5: from IDLE, the steps of [begin_op], [log_write] and [end_op] keep
    the log in IDLE, ACTIVE or COMMITTING, and never in a state with
    [committing] set and operations outstanding; [begin_op] is admitted
    exactly when [committing] is clear and
    [lh.n + (outstanding+1)*MAXOPBLOCKS <= LOGSIZE], and then adds one to
    [outstanding]; [end_op] takes one from [outstanding] and sets
    [committing] exactly when that leaves zero. The states so reached are
    closed under the routines themselves: a [begin_op] or a [log_write]
    that returns, and an [end_op] of an open operation that returns, lead
    to a state reached by steps. *)
Theorem log_state_machine (MAXOPBLOCKS : Z) (l0 l : Lg.log) :
  IDLE l0 ->
  log_reach MAXOPBLOCKS l0 l ->
  (IDLE l \/ ACTIVE l \/ COMMITTING l) /\
  ~ (Lg.committing l <> 0 /\ Lg.outstanding l > 0) /\
  (forall l',
     begin_op_try MAXOPBLOCKS l = Some l' <->
     Lg.committing l = 0 /\
     Lg.n (Lg.lh l) + (Lg.outstanding l + 1) * MAXOPBLOCKS <= LOGSIZE /\
     l' = set_outstanding l (Lg.outstanding l + 1)) /\
  (1 <= Lg.outstanding l ->
   exists do_commit l',
     end_op_enter l = Ret (do_commit, l') /\
     Lg.outstanding l' = Lg.outstanding l - 1 /\
     (Lg.committing l' <> 0 <-> Lg.outstanding l' = 0) /\
     (do_commit <> 0 <-> Lg.outstanding l' = 0)) /\
  (forall st st',
     log st = l ->
     begin_op MAXOPBLOCKS st = Ret (tt, st') \/
     (exists b, log_write b st = Ret (tt, st')) \/
     (1 <= Lg.outstanding l /\ end_op st = Ret (tt, st')) ->
     log_reach MAXOPBLOCKS l0 (log st')).
Proof.
  intros H0 Hr.
  assert (Hs : IDLE l \/ ACTIVE l \/ COMMITTING l).
  { induction Hr as [|l l' _ IH Hstep]; [now left|].
    eapply log_step_keeps; eassumption. }
  split; [exact Hs|]. split; [|split; [|split]].
  - unfold IDLE, ACTIVE, COMMITTING in Hs. lia.
  - intros l'. apply begin_op_try_spec.
  - intros Ho.
    assert (Hc : Lg.committing l = 0) by (unfold IDLE, ACTIVE, COMMITTING in Hs; lia).
    destruct (end_op_enter l) as [[dc l']| | |] eqn:E.
    + destruct (end_op_enter_spec _ _ _ Hc E) as (Ho' & Hcm & Hdc & _).
      exists dc, l'. rewrite Ho'. tauto.
    + unfold end_op_enter in E. cbn in E. rewrite Hc in E. cbn in E.
      destruct (Lg.outstanding l - 1 =? 0); discriminate.
    + unfold end_op_enter in E. cbn in E. rewrite Hc in E. cbn in E.
      destruct (Lg.outstanding l - 1 =? 0); discriminate.
    + unfold end_op_enter in E. cbn in E. rewrite Hc in E. cbn in E.
      destruct (Lg.outstanding l - 1 =? 0); discriminate.
  - intros st st' <- [Hb|[(b & Hw)|(Ho & He)]].
    + eapply reach_step; [exact Hr|]. now apply begin_op_is_step.
    + eapply reach_step; [exact Hr|]. apply (log_write_is_step _ b); [|exact Hw].
      unfold IDLE, ACTIVE, COMMITTING in Hs. lia.
    + eapply reach_trans; [exact Hr|]. now apply end_op_is_steps.
Qed.

Lemma log_state_machine_witness :
  let l0 := sample_log 0 [] in
  let l := set_outstanding l0 1 in
  (IDLE l \/ ACTIVE l \/ COMMITTING l) /\
  ~ (Lg.committing l <> 0 /\ Lg.outstanding l > 0) /\
  (forall l',
     begin_op_try 10 l = Some l' <->
     Lg.committing l = 0 /\
     Lg.n (Lg.lh l) + (Lg.outstanding l + 1) * 10 <= LOGSIZE /\
     l' = set_outstanding l (Lg.outstanding l + 1)) /\
  (1 <= Lg.outstanding l ->
   exists do_commit l',
     end_op_enter l = Ret (do_commit, l') /\
     Lg.outstanding l' = Lg.outstanding l - 1 /\
     (Lg.committing l' <> 0 <-> Lg.outstanding l' = 0) /\
     (do_commit <> 0 <-> Lg.outstanding l' = 0)) /\
  (forall st st',
     log st = l ->
     begin_op 10 st = Ret (tt, st') \/
     (exists b, log_write b st = Ret (tt, st')) \/
     (1 <= Lg.outstanding l /\ end_op st = Ret (tt, st')) ->
     log_reach 10 l0 (log st')).
Proof.
  apply (log_state_machine 10 (sample_log 0 [])).
  - split; reflexivity.
  - eapply reach_step; [apply reach_here|].
    apply step_begin. reflexivity.
Defined.

(** * Further properties of the code *)

(** ** The block allocator *)

(** Setting a bit marks it and leaves every other bit as it was. *)
Lemma bit_free_set d bi bi' :
  bit_free (bit_set d bi) bi' =
  bit_free d bi' && negb ((bi' / 8 =? bi / 8) && (bi' mod 8 =? bi mod 8)).
Proof.
  rewrite !bit_free_testbit. unfold bit_set, put8, bit_mask.
  pose proof (Z.mod_pos_bound bi 8 ltac:(lia)) as Hm.
  pose proof (Z.mod_pos_bound bi' 8 ltac:(lia)) as Hm'.
  destruct (Z.eqb_spec (bi' / 8) (bi / 8)) as [He|Hne]; cbn [andb negb].
  - rewrite He. change 256 with (2 ^ 8).
    rewrite Z.mod_pow2_bits_low by lia.
    rewrite Z.lor_spec, Z.shiftl_1_l, Z.pow2_bits_eqb by lia.
    rewrite (Z.eqb_sym (bi mod 8)).
    destruct (Z.testbit (d (bi / 8)) (bi' mod 8)), (bi' mod 8 =? bi mod 8); reflexivity.
  - now rewrite andb_true_r.
Qed.

Lemma same_bit bi bi' : bi' / 8 = bi / 8 -> bi' mod 8 = bi mod 8 -> bi' = bi.
Proof. intros H1 H2. rewrite (Z.div_mod bi 8), (Z.div_mod bi' 8) by lia. congruence. Qed.

(** A transaction with room for [k] more blocks. *)
Definition log_fits (k : Z) (l : Lg.log) : Prop :=
  List.length (Lg.block (Lg.lh l)) = Z.to_nat LOGSIZE /\
  0 <= Lg.n (Lg.lh l) /\ Lg.n (Lg.lh l) + k <= LOGSIZE /\
  Lg.n (Lg.lh l) + k <= Lg.size l - 1 /\ 1 <= Lg.outstanding l.

Lemma log_fits_le k k' l : log_fits k l -> 0 <= k' <= k -> log_fits k' l.
Proof. unfold log_fits. intros (H1 & H2 & H3 & H4 & H5) Hk. repeat split; try assumption; lia. Qed.

Lemma log_fits_wf k l : log_fits k l -> 0 <= k -> log_wf l.
Proof. unfold log_fits, log_wf. intros (H1 & H2 & H3 & H4 & H5) Hk. split; [assumption|lia]. Qed.

(** [log_write] in a transaction with room. *)
Lemma log_write_fits k b s :
  log_fits k (log s) -> 1 <= k ->
  exists s',
    log_write b s = Ret (tt, s') /\ log_fits (k - 1) (log s') /\
    In b (logged (log s')) /\ incl (logged (log s)) (logged (log s')) /\
    incl (logged (log s')) (b :: logged (log s)) /\
    bdata s' = bdata s /\ bvalid s' = bvalid s /\ bheld s' = bheld s /\
    disk s' = disk s /\ writes s' = writes s /\ icache s' = icache s /\ sb s' = sb s.
Proof.
  intros (Hlen & Hn & H1 & H2 & Ho) Hk.
  assert (Hroom : log_has_room (log s)) by (unfold log_has_room; repeat split; first [lia|assumption]).
  destruct (in_dec Z.eq_dec b (logged (log s))) as [Hyes|Hno].
  - exists s. split; [now apply log_write_absorbs|].
    split; [unfold log_fits; repeat split; first [lia|assumption]|].
    split; [exact Hyes|]. split; [apply incl_refl|]. split; [apply incl_tl, incl_refl|].
    repeat split.
  - destruct (log_write_appends s b Hroom Hno)
      as (s' & E & Hn' & Hl' & _ & _ & Ho' & Hs' & Hlen' & Hd & Hv & Hh & Hk' & Hw & Hic & Hsb).
    exists s'. split; [exact E|].
    split; [unfold log_fits; repeat split; first [lia|assumption]|].
    rewrite Hl'. split; [apply in_or_app; right; now left|].
    split; [apply incl_appl, incl_refl|].
    split; [intros x Hx; apply in_app_or in Hx; destruct Hx as [Hx|[<-|[]]]; [now right|now left]|].
    repeat split; assumption.
Qed.

(** The state after block [a] was given the contents [d] through its
    buffer and logged, in a transaction that had room for [k] blocks. *)
Definition wrote (a : Z) (d : block) (k : Z) (s s' : kstate) : Prop :=
  (forall x, view s' x = if x =? a then d else view s x) /\
  (forall x, bheld s' x = bheld s x) /\
  log_fits (k - 1) (log s') /\ In a (logged (log s')) /\
  incl (logged (log s)) (logged (log s')) /\
  incl (logged (log s')) (a :: logged (log s)) /\
  disk s' = disk s /\ writes s' = writes s /\ icache s' = icache s /\ sb s' = sb s.

(** [bread], an assignment to the data, [log_write] and [brelse]. *)
Lemma update_block {B} dev a f k s (c : unit -> M B) :
  bheld s a = false -> log_fits k (log s) -> 1 <= k ->
  exists s',
    (bp <- bread dev a ;; set_data bp f ;; log_write bp ;; x <- brelse bp ;; c x) s = c tt s' /\
    wrote a (f (view s a)) k s s'.
Proof.
  intros Hnh Hfit Hk.
  run_bread; [exact Hnh|]. run_set_data. split_env.
  destruct (log_write_fits k a s1) as (s2 & E2 & Hfit2 & Hin2 & Hinc2 & Hinc2' & Hd2 & Hv2 & Hh2 & Hk2 & Hw2 & Hi2 & Hs2);
    [replace (log s1) with (log s) by congruence; exact Hfit|exact Hk|].
  rewrite (bind_ret _ _ _ _ _ E2).
  run_brelse; [push; now rewrite Z.eqb_refl|]. split_env.
  exists s3. split; [reflexivity|].
  unfold wrote.
  replace (log s3) with (log s2) by congruence.
  replace (log s) with (log s1) by congruence.
  refine (conj _ (conj _ (conj Hfit2 (conj Hin2 (conj Hinc2 (conj Hinc2' _)))))).
  - intros x. unfold view at 1. push. rewrite Z.eqb_refl. eqb_cases; subst; reflexivity.
  - intros x. push. eqb_cases; subst; auto.
  - repeat split; congruence.
Qed.

Lemma update_block_end dev a f k s :
  bheld s a = false -> log_fits k (log s) -> 1 <= k ->
  exists s',
    (bp <- bread dev a ;; set_data bp f ;; log_write bp ;; brelse bp) s = Ret (tt, s') /\
    wrote a (f (view s a)) k s s'.
Proof.
  intros Hnh Hfit Hk.
  destruct (update_block dev a f k s ret Hnh Hfit Hk) as (s' & E & H).
  exists s'. split; [|exact H]. etransitivity; [|exact E].
  apply bind_ext. intros bp s1. apply bind_ext. intros u1 s2. apply bind_ext. intros u2 s3.
  unfold bind, ret. destruct (brelse bp s3) as [[[] s4]| | |]; reflexivity.
Qed.

Lemma bzero_wrote dev a k s :
  bheld s a = false -> log_fits k (log s) -> 1 <= k ->
  exists s', bzero dev a s = Ret (tt, s') /\ wrote a zero_block k s s'.
Proof. intros. unfold bzero. now apply update_block_end. Qed.

(** [bfree] of a block in use clears its bit, through the log. *)
Lemma bfree_wrote dev b k s :
  let bm := BBLOCK b (sb s) in
  bheld s bm = false -> log_fits k (log s) -> 1 <= k ->
  bit_free (view s bm) (b mod BPB) = false ->
  exists s', bfree dev b s = Ret (tt, s') /\
             wrote bm (bit_clear (view s bm) (b mod BPB)) k s s'.
Proof.
  intros bm Hnh Hfit Hk Hbit. unfold bfree. rewrite bind_get. fold bm.
  destruct (update_block_end dev bm (fun d => bit_clear d (b mod BPB)) k s Hnh Hfit Hk)
    as (s' & Eu & H).
  exists s'. split; [|exact H]. rewrite <- Eu.
  destruct (bread_spec s dev bm Hnh) as (s0 & Eb & _ & _ & Hd & _).
  rewrite !(bind_ret _ _ _ _ _ Eb). rewrite bind_get.
  assert (Hd0 : bdata s0 bm = view s bm) by (rewrite Hd; now rewrite Z.eqb_refl).
  rewrite Hd0, Hbit. reflexivity.
Qed.

(** [bfree] of a block that is free. *)
Lemma bfree_free dev b s :
  let bm := BBLOCK b (sb s) in
  bheld s bm = false -> bit_free (view s bm) (b mod BPB) = true ->
  bfree dev b s = Panic "freeing free block".
Proof.
  intros bm Hnh Hbit. unfold bfree. rewrite bind_get. fold bm.
  run_bread; [exact Hnh|]. rewrite bind_get.
  assert (Hd0 : bdata s0 bm = view s bm) by (push; now rewrite Z.eqb_refl).
  rewrite Hd0, Hbit. reflexivity.
Qed.

(** The bit of block [x] in the bitmap, as the next [bread] sees it. *)
Definition free_at (s : kstate) (x : Z) : bool :=
  bit_free (view s (BBLOCK x (sb s))) (x mod BPB).

Lemma balloc_scan_finds d b size k bi0 bi :
  bi0 <= bi < bi0 + Z.of_nat k -> b + bi < size ->
  (forall j, bi0 <= j < bi -> bit_free d j = false) -> bit_free d bi = true ->
  balloc_scan d b size k bi0 = Some bi.
Proof.
  revert bi0. induction k as [|k IH]; intros bi0 Hr Hs Hbelow Hfree; [lia|].
  cbn [balloc_scan].
  replace (b + bi0 <? size) with true by (symmetry; apply Z.ltb_lt; lia).
  destruct (Z.eq_dec bi0 bi) as [->|Hne]; [now rewrite Hfree|].
  rewrite Hbelow by lia. apply IH; try assumption; try lia.
  intros j Hj. apply Hbelow. lia.
Qed.

Lemma balloc_scan_full d b size k bi0 :
  (forall j, bi0 <= j < bi0 + Z.of_nat k -> b + j < size -> bit_free d j = false) ->
  balloc_scan d b size k bi0 = None.
Proof.
  revert bi0. induction k as [|k IH]; intros bi0 H; [reflexivity|].
  cbn [balloc_scan]. destruct (Z.ltb_spec (b + bi0) size); [|reflexivity].
  rewrite H by lia. apply IH. intros j Hj. apply H. lia.
Qed.

(** A look at a block: [bread] then [brelse]. *)
Lemma look dev a s :
  bheld s a = false ->
  exists s0 s1,
    bread dev a s = Ret (a, s0) /\ bdata s0 a = view s a /\
    brelse a s0 = Ret (tt, s1) /\ unchanged s s1.
Proof.
  intros Hnh. destruct (bread_spec s dev a Hnh) as (s0 & Eb & Hh & Hv & Hd & Hr & Hk & Hw & He).
  destruct (brelse_spec s0 a) as (s1 & Er & Hh1 & Hv1 & Hd1 & Hr1 & Hk1 & Hw1 & He1).
  { now rewrite Hh, Z.eqb_refl. }
  exists s0, s1. split; [exact Eb|]. split; [now rewrite Hd, Z.eqb_refl|].
  split; [exact Er|]. split_env.
  repeat split; try congruence.
  - intros k. unfold view. push. eqb_cases; subst; try reflexivity;
      unfold view; now destruct (bvalid s a).
  - intros k. push. eqb_cases; subst; auto.
  - intros k. repeat (push; eqb_cases; subst; try contradiction; try lia). all: u32_solve.
Qed.

(** The state after [balloc] has returned block [x]. *)
Definition allocated (x k : Z) (s s' : kstate) : Prop :=
  let bm := BBLOCK x (sb s) in
  log_fits (k - 2) (log s') /\
  (forall k, view s' k =
             if k =? x then zero_block
             else if k =? bm then bit_set (view s bm) (x mod BPB)
             else view s k) /\
  (forall k, bheld s' k = bheld s k) /\
  In bm (logged (log s')) /\ In x (logged (log s')) /\
  incl (logged (log s)) (logged (log s')) /\
  incl (logged (log s')) (x :: bm :: logged (log s)) /\
  disk s' = disk s /\ writes s' = writes s /\ icache s' = icache s /\ sb s' = sb s.

Lemma allocated_unchanged x n s s1 s' :
  unchanged s s1 -> allocated x n s1 s' -> allocated x n s s'.
Proof.
  intros (Hv & Hh & _ & Hd & Hw & Hl & Hsb & Hic & _) H. unfold allocated in *.
  rewrite Hsb, Hl, Hd, Hw, Hic in H. cbv zeta in *.
  destruct H as (H0 & H1 & H2 & H3 & H4 & H5 & H6 & H7 & H8 & H9 & H10).
  split; [exact H0|].
  split; [|split; [|repeat split; assumption]].
  - intros k. rewrite H1, !Hv. reflexivity.
  - intros k. now rewrite H2, Hh.
Qed.

Lemma block_index j bi : 0 <= bi < BPB -> (j * BPB + bi) / BPB = j /\ (j * BPB + bi) mod BPB = bi.
Proof.
  intros H. change BPB with 8192 in *. split.
  - rewrite Z.add_comm, Z.div_add by lia. rewrite Z.div_small by lia. lia.
  - rewrite Z.add_comm, Z.mod_add by lia. apply Z.mod_small. lia.
Qed.

(** The outer loop of [balloc] from bitmap block [j], when [x] is the
    lowest free block from there on. *)
Lemma balloc_loop_run fuel dev j s x n :
  0 <= j -> j * BPB <= x < Sb.size (sb s) -> x < (j + Z.of_nat fuel) * BPB ->
  (forall k, bheld s k = false) ->
  (forall y, j * BPB <= y < x -> free_at s y = false) -> free_at s x = true ->
  log_fits n (log s) -> 2 <= n ->
  exists s', balloc_loop fuel dev (j * BPB) s = Ret (x, s') /\ allocated x n s s'.
Proof.
  revert j s. induction fuel as [|fuel IH]; intros j s Hj Hx Hfuel Hheld Hbelow Hfree Hfit Hn.
  - change BPB with 8192 in *. lia.
  - cbn [balloc_loop]. rewrite bind_get.
    replace (j * BPB <? Sb.size (sb s)) with true by (symmetry; apply Z.ltb_lt; lia).
    set (bm := BBLOCK (j * BPB) (sb s)).
    destruct (look dev bm s (Hheld bm)) as (s0 & s1 & Eb & Hd0 & Er & Hun).
    destruct (Z_lt_le_dec x ((j + 1) * BPB)) as [Hin|Hout].
    + (* the block of x *)
      set (bi := x - j * BPB).
      assert (Hbi : 0 <= bi < BPB) by (unfold bi; lia).
      assert (Hxe : x = j * BPB + bi) by (unfold bi; lia).
      clearbody bi. subst x.
      destruct (block_index j bi Hbi) as (Hq & Hm).
      assert (Hbm : BBLOCK (j * BPB + bi) (sb s) = bm).
      { unfold bm, BBLOCK. rewrite Hq. f_equal. f_equal.
        destruct (block_index j 0) as (Hq0 & _); [change BPB with 8192; lia|].
        now rewrite Z.add_0_r in Hq0. }
      assert (Hscan : balloc_scan (view s bm) (j * BPB) (Sb.size (sb s)) (Z.to_nat BPB) 0
                      = Some bi).
      { apply balloc_scan_finds.
        - change BPB with 8192 in *. lia.
        - lia.
        - intros y Hy. specialize (Hbelow (j * BPB + y) ltac:(lia)).
          unfold free_at in Hbelow.
          destruct (block_index j y ltac:(lia)) as (Hqy & Hmy).
          replace (BBLOCK (j * BPB + y) (sb s)) with bm in Hbelow.
          * now rewrite Hmy in Hbelow.
          * unfold bm, BBLOCK. rewrite Hqy. f_equal. f_equal.
            destruct (block_index j 0) as (Hq0 & _); [change BPB with 8192; lia|].
            now rewrite Z.add_0_r in Hq0.
        - unfold free_at in Hfree. now rewrite Hbm, Hm in Hfree. }
      destruct (update_block dev bm (fun d => bit_set d bi) n s
                  (fun _ => bzero dev (j * BPB + bi) ;; ret (j * BPB + bi))
                  (Hheld bm) Hfit ltac:(lia)) as (s2 & Eu & Hw2).
      rewrite (bind_ret _ _ _ _ _ Eb) in Eu.
      rewrite (bind_ret _ _ _ _ _ Eb), bind_get, Hd0, Hscan, Eu.
      destruct Hw2 as (Hv2 & Hh2 & Hfit2 & Hin2 & Hinc2 & Hinc2' & Hk2 & Hwr2 & Hic2 & Hsb2).
      destruct (bzero_wrote dev (j * BPB + bi) (n - 1) s2) as (s3 & Ez & Hw3);
        [now rewrite Hh2|exact Hfit2|lia|].
      rewrite (bind_ret _ _ _ _ _ Ez).
      exists s3. split; [reflexivity|].
      destruct Hw3 as (Hv3 & Hh3 & Hfit3 & Hin3 & Hinc3 & Hinc3' & Hk3 & Hwr3 & Hic3 & Hsb3).
      unfold allocated. rewrite Hbm.
      split; [replace (n - 2) with (n - 1 - 1) by lia; exact Hfit3|].
      split; [|split; [|split; [|split; [|split; [|split]]]]].
      * intros k. rewrite Hv3, Hv2, Hm. reflexivity.
      * intros k. now rewrite Hh3, Hh2.
      * now apply Hinc3.
      * exact Hin3.
      * eapply incl_tran; eassumption.
      * intros y Hy. apply Hinc3' in Hy. destruct Hy as [<-|Hy]; [now left|].
        right. now apply Hinc2'.
      * repeat split; congruence.
    + (* a later block *)
      assert (Hscan : balloc_scan (view s bm) (j * BPB) (Sb.size (sb s)) (Z.to_nat BPB) 0
                      = None).
      { apply balloc_scan_full. intros y Hy Hlt.
        assert (Hy' : 0 <= y < BPB) by (change BPB with 8192 in *; lia).
        specialize (Hbelow (j * BPB + y) ltac:(lia)).
        unfold free_at in Hbelow.
        destruct (block_index j y Hy') as (Hqy & Hmy).
        replace (BBLOCK (j * BPB + y) (sb s)) with bm in Hbelow.
        * now rewrite Hmy in Hbelow.
        * unfold bm, BBLOCK. rewrite Hqy. f_equal. f_equal.
          destruct (block_index j 0) as (Hq0 & _); [change BPB with 8192; lia|].
          now rewrite Z.add_0_r in Hq0. }
      rewrite (bind_ret _ _ _ _ _ Eb), bind_get, Hd0, Hscan.
      rewrite (bind_ret _ _ _ _ _ Er).
      replace (j * BPB + BPB) with ((j + 1) * BPB) by lia.
      pose proof Hun as (Hv1 & Hh1 & _ & _ & _ & Hl1 & Hsb1 & _).
      destruct (IH (j + 1) s1) as (s' & E' & Ha').
      * lia.
      * rewrite Hsb1. lia.
      * lia.
      * intros k. now rewrite Hh1.
      * intros y Hy. unfold free_at. rewrite Hsb1, Hv1. apply Hbelow.
        change BPB with 8192 in *. lia.
      * unfold free_at. rewrite Hsb1, Hv1. exact Hfree.
      * now rewrite Hl1.
      * exact Hn.
      * exists s'. split; [exact E'|]. eapply allocated_unchanged; eassumption.
Qed.

(** The outer loop of [balloc] when no block is free. *)
Lemma balloc_loop_full fuel dev j s :
  0 <= j -> Sb.size (sb s) <= (j + Z.of_nat fuel) * BPB ->
  (forall k, bheld s k = false) ->
  (forall y, j * BPB <= y < Sb.size (sb s) -> free_at s y = false) ->
  balloc_loop fuel dev (j * BPB) s = Panic "balloc: out of blocks".
Proof.
  revert j s. induction fuel as [|fuel IH]; intros j s Hj Hfuel Hheld Hfull.
  - cbn [balloc_loop]. rewrite bind_get.
    replace (j * BPB <? Sb.size (sb s)) with false; [reflexivity|].
    symmetry. apply Z.ltb_ge. change BPB with 8192 in *. lia.
  - cbn [balloc_loop]. rewrite bind_get.
    destruct (Z.ltb_spec (j * BPB) (Sb.size (sb s))) as [Hlt|Hge]; [|reflexivity].
    set (bm := BBLOCK (j * BPB) (sb s)).
    destruct (look dev bm s (Hheld bm)) as (s0 & s1 & Eb & Hd0 & Er & Hun).
    assert (Hscan : balloc_scan (view s bm) (j * BPB) (Sb.size (sb s)) (Z.to_nat BPB) 0
                    = None).
    { apply balloc_scan_full. intros y Hy Hlt'.
      assert (Hy' : 0 <= y < BPB) by (change BPB with 8192 in *; lia).
      specialize (Hfull (j * BPB + y) ltac:(lia)).
      unfold free_at in Hfull.
      destruct (block_index j y Hy') as (Hqy & Hmy).
      replace (BBLOCK (j * BPB + y) (sb s)) with bm in Hfull.
      * now rewrite Hmy in Hfull.
      * unfold bm, BBLOCK. rewrite Hqy. f_equal. f_equal.
        destruct (block_index j 0) as (Hq0 & _); [change BPB with 8192; lia|].
        now rewrite Z.add_0_r in Hq0. }
    rewrite (bind_ret _ _ _ _ _ Eb), bind_get, Hd0, Hscan.
    rewrite (bind_ret _ _ _ _ _ Er).
    replace (j * BPB + BPB) with ((j + 1) * BPB) by lia.
    pose proof Hun as (Hv1 & Hh1 & _ & _ & _ & Hl1 & Hsb1 & _).
    apply IH.
    + lia.
    + rewrite Hsb1. lia.
    + intros k. now rewrite Hh1.
    + intros y Hy. unfold free_at. rewrite Hsb1, Hv1. apply Hfull.
      rewrite Hsb1 in Hy. change BPB with 8192 in *. lia.
Qed.

Lemma forall_zseq (p : Z -> bool) n :
  forallb p (zseq n) = true -> forall y, 0 <= y < n -> p y = true.
Proof.
  intros H y Hy. rewrite forallb_forall in H. apply H. unfold zseq. apply in_zrange. lia.
Qed.





(** A file system of 200 blocks, all in use. *)
Definition full_sample : kstate :=
  sample_state (sample_log 1 [])
    (upd (fun _ => zero_block) 58 (mark_used zero_block 200 0)) (fun _ => free_inode).






(** ** Inodes on disk *)

Lemma s16_short v : -32768 <= v < 32768 -> s16 (v mod 65536) = v.
Proof.
  intros H. unfold s16. destruct (Z.ltb_spec (v mod 65536) 32768);
    Z.div_mod_to_equations; lia.
Qed.

Lemma put_addrs_above l d off o :
  off + 4 * Z.of_nat (List.length l) <= o -> put_addrs d off l o = d o.
Proof.
  revert d off. induction l as [|a t IH]; intros d off H; cbn [put_addrs]; [reflexivity|].
  cbn [List.length] in H. rewrite IH by lia. unfold put32, put8.
  repeat match goal with
         | |- context [?x =? ?y] => destruct (Z.eqb_spec x y); try lia
         end; try reflexivity.
Qed.

Lemma get32_put_addrs l d off k :
  (k < List.length l)%nat ->
  get32 (put_addrs d off l) (off + 4 * Z.of_nat k) = u32 (nth k l 0).
Proof.
  revert d off k. induction l as [|a t IH]; intros d off k H; cbn [List.length] in H; [lia|].
  cbn [put_addrs]. destruct k as [|k].
  - cbn [nth]. rewrite get32_put_addrs_below by lia.
    replace (off + 4 * Z.of_nat 0) with off by lia. apply get32_put32.
  - cbn [nth]. replace (off + 4 * Z.of_nat (S k)) with (off + 4 + 4 * Z.of_nat k) by lia.
    apply IH. lia.
Qed.

Lemma d_addrs_nth d n k i j :
  (j < k)%nat -> nth j (d_addrs d n k i) 0 = d_addr d n (i + Z.of_nat j).
Proof.
  revert i j. induction k as [|k IH]; intros i j H; [lia|].
  cbn [d_addrs]. destruct j as [|j]; cbn [nth].
  - f_equal. lia.
  - rewrite IH by lia. f_equal. lia.
Qed.

Lemma length_d_addrs d n k i : List.length (d_addrs d n k i) = k.
Proof. revert i. induction k as [|k IH]; intros i; cbn [d_addrs List.length]; [|rewrite IH]; reflexivity. Qed.

(** The fields of an inode fit their C types. *)
Definition fits_dinode (i : Ino.inode) : Prop :=
  -32768 <= Ino.type i < 32768 /\ -32768 <= Ino.major i < 32768 /\
  -32768 <= Ino.minor i < 32768 /\ -32768 <= Ino.nlink i < 32768 /\
  0 <= Ino.size i < 4294967296 /\
  List.length (Ino.addrs i) = Z.to_nat (NDIRECT + 2) /\
  Forall (fun a => 0 <= a < 4294967296) (Ino.addrs i).

(** Decoding the slot that [iupdate] has encoded. *)
Lemma decode_put_dinode d i :
  fits_dinode i ->
  let d' := put_dinode d i in
  let n := Ino.inum i in
  d_type d' n = Ino.type i /\ d_major d' n = Ino.major i /\ d_minor d' n = Ino.minor i /\
  d_nlink d' n = Ino.nlink i /\ d_size d' n = Ino.size i /\
  d_addrs d' n (Z.to_nat (NDIRECT + 2)) 0 = Ino.addrs i.
Proof.
  intros (Ht & Hma & Hmi & Hnl & Hsz & Hlen & Hall) d' n.
  split; [|split; [|split; [|split; [|split]]]].
  - unfold d', n. rewrite d_type_put_dinode. now apply s16_short.
  - unfold d', n, d_major, put_dinode. rewrite get16_put_addrs_below by lia.
    rewrite get16_put32_other by lia. rewrite !get16_put16_other by lia.
    rewrite get16_put16. now apply s16_short.
  - unfold d', n, d_minor, put_dinode. rewrite get16_put_addrs_below by lia.
    rewrite get16_put32_other by lia. rewrite !get16_put16_other by lia.
    rewrite get16_put16. now apply s16_short.
  - unfold d', n. rewrite d_nlink_put_dinode. now apply s16_short.
  - unfold d', n. rewrite d_size_put_dinode. now apply u32_small.
  - apply nth_ext with (d := 0) (d' := 0).
    + now rewrite length_d_addrs.
    + intros j Hj. rewrite length_d_addrs in Hj.
      rewrite d_addrs_nth by exact Hj. unfold d_addr, d', put_dinode. fold n.
      rewrite firstn_all2 by lia.
      replace (dslot n + 12 + 4 * (0 + Z.of_nat j)) with (dslot n + 12 + 4 * Z.of_nat j) by lia.
      rewrite get32_put_addrs by lia.
      apply u32_small. rewrite Forall_forall in Hall. apply Hall. apply nth_In. lia.
Qed.

Lemma put_dinode_outside d i x :
  x < dslot (Ino.inum i) \/ dslot (Ino.inum i) + DINODE_SIZE <= x ->
  put_dinode d i x = d x.
Proof.
  intros H. unfold put_dinode. change DINODE_SIZE with 64 in H.
  set (o := dslot (Ino.inum i)) in *.
  assert (Hl : (List.length (firstn (Z.to_nat (NDIRECT + 2)) (Ino.addrs i)) <= 13)%nat).
  { rewrite length_firstn. change (Z.to_nat (NDIRECT + 2)) with 13%nat. lia. }
  destruct H as [H|H].
  - rewrite put_addrs_below by lia. unfold put32, put16, put8.
    repeat match goal with
           | |- context [?x =? ?y] => destruct (Z.eqb_spec x y); try lia
           end; reflexivity.
  - rewrite put_addrs_above by lia. unfold put32, put16, put8.
    repeat match goal with
           | |- context [?x =? ?y] => destruct (Z.eqb_spec x y); try lia
           end; reflexivity.
Qed.

(** The inode stored in slot [n] of a block of inodes. *)
Definition slot_fields (d : block) (n : Z) : Z * Z * Z * Z * Z * list Z :=
  (d_type d n, d_major d n, d_minor d n, d_nlink d n, d_size d n,
   d_addrs d n (Z.to_nat (NDIRECT + 2)) 0).

Lemma dslot_apart n n' :
  n' mod IPB <> n mod IPB ->
  dslot n' + DINODE_SIZE <= dslot n \/ dslot n + DINODE_SIZE <= dslot n'.
Proof. unfold dslot. change DINODE_SIZE with 64. intros H. lia. Qed.

Lemma dslot_range n : 0 <= dslot n.
Proof.
  unfold dslot. change DINODE_SIZE with 64. change IPB with 16.
  pose proof (Z.mod_pos_bound n 16). lia.
Qed.

Lemma slot_fields_other d i n' :
  n' mod IPB <> Ino.inum i mod IPB ->
  slot_fields (put_dinode d i) n' = slot_fields d n'.
Proof.
  intros H. apply dslot_apart in H. change DINODE_SIZE with 64 in H.
  assert (Hb : forall x, dslot n' <= x < dslot n' + 64 -> put_dinode d i x = d x).
  { intros x Hx. apply put_dinode_outside. change DINODE_SIZE with 64. lia. }
  unfold slot_fields, d_type, d_major, d_minor, d_nlink, d_size.
  unfold get16, get32. rewrite !Hb by lia. f_equal.
  apply nth_ext with (d := 0) (d' := 0); [now rewrite !length_d_addrs|].
  intros j Hj. rewrite length_d_addrs in Hj. change (Z.to_nat (NDIRECT + 2)) with 13%nat in *.
  rewrite !d_addrs_nth by exact Hj. unfold d_addr, get32. rewrite !Hb by lia. reflexivity.
Qed.

(** [iupdate] in a transaction with room. *)
Lemma iupdate_wrote ip k s :
  let i := icache s ip in
  let blk := IBLOCK (Ino.inum i) (sb s) in
  bheld s blk = false -> log_fits k (log s) -> 1 <= k ->
  exists s', iupdate ip s = Ret (tt, s') /\ wrote blk (put_dinode (view s blk) i) k s s'.
Proof.
  intros i blk Hnh Hfit Hk. unfold iupdate. rewrite bind_get. fold i. fold blk.
  now apply update_block_end.
Qed.

(** [ilock] of an entry that has not been read yet. *)
Lemma ilock_loads ip s :
  let e := icache s ip in
  let blk := IBLOCK (Ino.inum e) (sb s) in
  let d := view s blk in
  let n := Ino.inum e in
  1 <= Ino.ref e -> Ino.lock e = false -> Ino.valid e = 0 -> bheld s blk = false ->
  d_type d n <> 0 ->
  exists s',
    ilock ip s = Ret (tt, s') /\
    icache s' ip = Ino.mkinode (Ino.dev e) n (Ino.ref e) 1 true (d_type d n) (d_major d n)
                     (d_minor d n) (d_nlink d n) (d_size d n)
                     (d_addrs d n (Z.to_nat (NDIRECT + 2)) 0) /\
    (forall j, j <> ip -> icache s' j = icache s j) /\
    (forall x, view s' x = view s x) /\ (forall x, bheld s' x = bheld s x) /\
    log s' = log s /\ writes s' = writes s.
Proof.
  intros e blk d n Href Hlock Hvalid Hnh Htype.
  unfold ilock. rewrite bind_get. fold e.
  replace (Ino.ref e <? 1) with false by (symmetry; apply Z.ltb_ge; lia).
  unfold acquire_ilock. rewrite !bind_assoc, bind_get. fold e. rewrite Hlock, Hvalid.
  cbn [Z.eqb].
  set (s1 := set_icache s (updn (icache s) ip (with_lock true e))).
  change (set_ino ip (with_lock true) s) with (Ret (tt, s1)).
  rewrite (bind_ret _ _ s tt s1) by reflexivity.
  fold blk.
  destruct (look (Ino.dev e) blk s1 Hnh) as (s2 & s3 & Eb & Hd2 & Er & Hun).
  rewrite (bind_ret _ _ _ _ _ Eb), bind_get.
  change (view s1 blk) with d in Hd2. rewrite Hd2. fold n.
  match goal with
  | |- context [bind (set_ino ip ?f) _ s2] =>
      set (s2' := set_icache s2 (updn (icache s2) ip (f (icache s2 ip))));
      change (set_ino ip f s2) with (Ret (tt, s2'))
  end.
  rewrite (bind_ret _ _ s2 tt s2') by reflexivity.
  assert (Er' : brelse blk s2' =
                Ret (tt, set_icache s3 (icache s2'))).
  { revert Er. unfold brelse, bind, get_state, modify. cbn.
    destruct (bheld s2 blk); cbn; [|discriminate]. intros [= <-]. reflexivity. }
  rewrite (bind_ret _ _ _ _ _ Er').
  match goal with
  | |- context [bind (set_ino ip ?f) _ ?s] =>
      set (s4 := set_icache s (updn (icache s) ip (f (icache s ip))));
      change (set_ino ip f s) with (Ret (tt, s4))
  end.
  rewrite (bind_ret _ _ _ tt s4) by reflexivity.
  apply Z.eqb_neq in Htype. rewrite Htype.
  exists s4. split; [reflexivity|].
  destruct Hun as (Hv & Hh & _ & _ & Hw & Hl & _).
  assert (Hi2 : icache s2 = icache s1).
  { destruct (bread_spec s1 (Ino.dev e) blk Hnh) as (s2b & Eb2 & _ & _ & _ & _ & _ & _ & He).
    rewrite Eb in Eb2. injection Eb2 as <-. apply He. }
  split; [|split; [|split; [|split; [|split]]]].
  - cbn. rewrite !updn_same. rewrite Hi2. cbn. rewrite updn_same. reflexivity.
  - intros j Hj. cbn. rewrite !updn_other by exact Hj. rewrite Hi2. cbn.
    now rewrite updn_other.
  - intros x. change (view s4 x) with (view s3 x). now rewrite Hv.
  - intros x. change (bheld s4 x) with (bheld s3 x). now rewrite Hh.
  - change (log s4) with (log s3). now rewrite Hl.
  - change (writes s4) with (writes s3). now rewrite Hw.
Qed.



Lemma with_lock_restore e : Ino.lock e = false -> with_lock false (with_lock true e) = e.
Proof. destruct e. cbn. now intros ->. Qed.

(** X7: [ilock] of an entry that is referenced, unlocked and already valid
    takes the sleep-lock and nothing else (no buffer is read); [iunlock]
    then gives every inode back as it was; a second [iunlock] panics and a
    second [ilock] of the locked entry sleeps. *)
Theorem ilock_iunlock (st : kstate) (ip : nat) :
  let e := icache st ip in
  1 <= Ino.ref e -> Ino.lock e = false -> Ino.valid e <> 0 ->
  exists st1 st2,
    ilock ip st = Ret (tt, st1) /\
    icache st1 ip = with_lock true e /\
    (forall j, j <> ip -> icache st1 j = icache st j) /\
    bvalid st1 = bvalid st /\ bdata st1 = bdata st /\ bheld st1 = bheld st /\
    ilock ip st1 = Blocked /\
    iunlock ip st1 = Ret (tt, st2) /\
    (forall j, icache st2 j = icache st j) /\
    bvalid st2 = bvalid st /\ bdata st2 = bdata st /\ bheld st2 = bheld st /\
    iunlock ip st2 = Panic "iunlock".
Proof.
  intros e Href Hlock Hvalid.
  assert (Hr : (Ino.ref e <? 1) = false) by (apply Z.ltb_ge; lia).
  apply Z.eqb_neq in Hvalid.
  set (s1 := set_icache st (updn (icache st) ip (with_lock true e))).
  set (s2 := set_icache s1 (updn (icache s1) ip (with_lock false (icache s1 ip)))).
  assert (H1 : icache s1 ip = with_lock true e) by apply updn_same.
  assert (H2 : icache s2 ip = with_lock false (with_lock true e)).
  { unfold s2. cbn [icache set_icache]. rewrite updn_same. now rewrite H1. }
  exists s1, s2.
  split.
  { unfold ilock. rewrite bind_get. fold e. rewrite Hr.
    unfold acquire_ilock. rewrite bind_assoc, bind_get. fold e. rewrite Hlock, Hvalid.
    reflexivity. }
  split; [exact H1|]. split; [intros j Hj; now apply updn_other|].
  split; [reflexivity|]. split; [reflexivity|]. split; [reflexivity|].
  split.
  { unfold ilock. rewrite bind_get, H1. cbn [Ino.ref with_lock]. rewrite Hr.
    unfold acquire_ilock. rewrite bind_assoc, bind_get, H1. reflexivity. }
  split.
  { unfold iunlock. rewrite bind_get, H1. cbn [Ino.ref Ino.lock with_lock negb orb].
    rewrite Hr. reflexivity. }
  split.
  { intros j. unfold s2. cbn [icache set_icache]. unfold updn at 1.
    destruct (Nat.eqb_spec j ip) as [->|Hne].
    - rewrite H1. now apply with_lock_restore.
    - now apply updn_other. }
  split; [reflexivity|]. split; [reflexivity|]. split; [reflexivity|].
  unfold iunlock. rewrite bind_get, H2. reflexivity.
Qed.



Lemma ilock_iunlock_witness :
  exists st1 st2,
    ilock 0 destroy_sample = Ret (tt, st1) /\
    icache st1 0%nat = with_lock true (icache destroy_sample 0) /\
    (forall j, j <> 0%nat -> icache st1 j = icache destroy_sample j) /\
    bvalid st1 = bvalid destroy_sample /\ bdata st1 = bdata destroy_sample /\
    bheld st1 = bheld destroy_sample /\
    ilock 0 st1 = Blocked /\
    iunlock 0 st1 = Ret (tt, st2) /\
    (forall j, icache st2 j = icache destroy_sample j) /\
    bvalid st2 = bvalid destroy_sample /\ bdata st2 = bdata destroy_sample /\
    bheld st2 = bheld destroy_sample /\
    iunlock 0 st2 = Panic "iunlock".
Proof.
  apply (ilock_iunlock destroy_sample 0).
  - cbn. lia.
  - reflexivity.
  - discriminate.
Defined.

(** ** The inode cache *)

(** Entry [a] is in use for inode [(dev, inum)]. *)
Definition caches (c : nat -> Ino.inode) (dev inum : Z) (a : nat) : Prop :=
  Ino.ref (c a) > 0 /\ Ino.dev (c a) = dev /\ Ino.inum (c a) = inum.

(** No inode has two entries in use. *)
Definition icache_unique (c : nat -> Ino.inode) : Prop :=
  forall a b, (a < NINODE)%nat -> (b < NINODE)%nat ->
    Ino.ref (c a) > 0 -> Ino.ref (c b) > 0 ->
    Ino.dev (c a) = Ino.dev (c b) -> Ino.inum (c a) = Ino.inum (c b) -> a = b.

Lemma caches_test c dev inum a :
  (Ino.ref (c a) >? 0) && (Ino.dev (c a) =? dev) && (Ino.inum (c a) =? inum) = true
  <-> caches c dev inum a.
Proof.
  unfold caches. rewrite !andb_true_iff, !Z.eqb_eq, Z.gtb_ltb, Z.ltb_lt. intuition lia.
Qed.

(** What the scan of [iget] returns. *)
Lemma iget_scan_spec c dev inum k i e :
  match iget_scan c dev inum k i e with
  | (Some a, _) =>
      (i <= a < i + k)%nat /\ caches c dev inum a /\
      forall j, (i <= j < a)%nat -> ~ caches c dev inum j
  | (None, e') =>
      (forall j, (i <= j < i + k)%nat -> ~ caches c dev inum j) /\
      match e with
      | Some _ => e' = e
      | None =>
          match e' with
          | Some a => (i <= a < i + k)%nat /\ Ino.ref (c a) = 0 /\
                      forall j, (i <= j < a)%nat -> Ino.ref (c j) <> 0
          | None => forall j, (i <= j < i + k)%nat -> Ino.ref (c j) <> 0
          end
      end
  end.
Proof.
  revert i e. induction k as [|k IH]; intros i e; cbn [iget_scan].
  - split; [intros; lia|]. destruct e; [reflexivity|]. intros; lia.
  - destruct ((Ino.ref (c i) >? 0) && (Ino.dev (c i) =? dev) && (Ino.inum (c i) =? inum))
      eqn:Et.
    + apply caches_test in Et. split; [lia|]. split; [exact Et|]. intros; lia.
    + assert (Hno : ~ caches c dev inum i).
      { intros H. apply caches_test in H. congruence. }
      set (e1 := match e with
                 | Some _ => e
                 | None => if Ino.ref (c i) =? 0 then Some i else None
                 end).
      specialize (IH (S i) e1).
      destruct (iget_scan c dev inum k (S i) e1) as [[a|] e'].
      * destruct IH as (Hr & Hc & Hb). split; [lia|]. split; [exact Hc|].
        intros j Hj. destruct (Nat.eq_dec j i) as [->|Hne]; [exact Hno|]. apply Hb. lia.
      * destruct IH as (Hb & He). split.
        { intros j Hj. destruct (Nat.eq_dec j i) as [->|Hne]; [exact Hno|]. apply Hb. lia. }
        unfold e1 in He. destruct e as [x|]; [exact He|].
        destruct (Z.eqb_spec (Ino.ref (c i)) 0) as [Hz|Hnz].
        { subst e'. split; [lia|]. split; [exact Hz|]. intros; lia. }
        destruct e' as [a|].
        { destruct He as (Hr & Hz & Hbelow). split; [lia|]. split; [exact Hz|].
          intros j Hj. destruct (Nat.eq_dec j i) as [->|Hne]; [exact Hnz|]. apply Hbelow. lia. }
        intros j Hj. destruct (Nat.eq_dec j i) as [->|Hne]; [exact Hnz|]. apply He. lia.
Qed.

(** [iget], case by case. *)
Lemma iget_cases dev inum st :
  match iget dev inum st with
  | Ret (ip, st') =>
      (ip < NINODE)%nat /\
      (forall j, (j < ip)%nat -> ~ caches (icache st) dev inum j) /\
      (forall j, j <> ip -> icache st' j = icache st j) /\
      ((caches (icache st) dev inum ip /\
        icache st' ip = with_ref (Ino.ref (icache st ip) + 1) (icache st ip)) \/
       ((forall j, (j < NINODE)%nat -> ~ caches (icache st) dev inum j) /\
        Ino.ref (icache st ip) = 0 /\
        (forall j, (j < ip)%nat -> Ino.ref (icache st j) <> 0) /\
        Ino.dev (icache st' ip) = dev /\ Ino.inum (icache st' ip) = inum /\
        Ino.ref (icache st' ip) = 1 /\ Ino.valid (icache st' ip) = 0)) /\
      bvalid st' = bvalid st /\ bdata st' = bdata st /\ bheld st' = bheld st /\
      disk st' = disk st /\ writes st' = writes st /\ log st' = log st /\ sb st' = sb st
  | Panic msg =>
      msg = "iget: no inodes"%string /\
      forall j, (j < NINODE)%nat ->
        ~ caches (icache st) dev inum j /\ Ino.ref (icache st j) <> 0
  | _ => False
  end.
Proof.
  unfold iget. rewrite bind_get.
  pose proof (iget_scan_spec (icache st) dev inum NINODE 0 None) as H.
  destruct (iget_scan (icache st) dev inum NINODE 0 None) as [[a|] [e|]].
  - destruct H as (Hr & Hc & Hb). cbn.
    split; [lia|]. split; [intros j Hj; apply Hb; lia|].
    split; [intros j Hj; now apply updn_other|].
    split; [left; split; [exact Hc|apply updn_same]|]. repeat split.
  - destruct H as (Hr & Hc & Hb). cbn.
    split; [lia|]. split; [intros j Hj; apply Hb; lia|].
    split; [intros j Hj; now apply updn_other|].
    split; [left; split; [exact Hc|apply updn_same]|]. repeat split.
  - destruct H as (Hno & Hr & Hz & Hbelow). cbn.
    split; [lia|]. split; [intros j Hj; apply Hno; lia|].
    split; [intros j Hj; now apply updn_other|].
    split; [|repeat split].
    right. rewrite updn_same. cbn. split; [intros j Hj; apply Hno; lia|].
    split; [exact Hz|]. split; [intros j Hj; apply Hbelow; lia|]. repeat split.
  - destruct H as (Hno & Hnz). cbn. split; [reflexivity|].
    intros j Hj. split; [apply Hno; lia|apply Hnz; lia].
Qed.

Lemma iget_result dev inum st ip st' :
  icache_unique (icache st) -> iget dev inum st = Ret (ip, st') ->
  icache_unique (icache st') /\ (ip < NINODE)%nat /\ caches (icache st') dev inum ip /\
  Ino.ref (icache st' ip) = Ino.ref (icache st ip) + 1 /\
  (forall j, j <> ip -> icache st' j = icache st j).
Proof.
  intros Hu E. pose proof (iget_cases dev inum st) as H. rewrite E in H.
  destruct H as (Hip & Hfirst & Hother & Hcase & _).
  assert (Hc' : caches (icache st') dev inum ip /\
                Ino.ref (icache st' ip) = Ino.ref (icache st ip) + 1).
  { destruct Hcase as [((Hr & Hd & Hi) & He)|(_ & Hz & _ & Hd & Hi & Hr & _)].
    - unfold caches. rewrite He. cbn. repeat split; try assumption. lia.
    - unfold caches. rewrite Hd, Hi, Hr, Hz. repeat split. }
  destruct Hc' as (Hc' & Hr').
  split; [|repeat split; try assumption; apply Hc'].
  intros a b Ha Hb Hra Hrb Hd Hi.
  destruct (Nat.eq_dec a ip) as [->|Ha'], (Nat.eq_dec b ip) as [->|Hb']; try reflexivity.
  - rewrite (Hother b Hb') in Hrb, Hd, Hi.
    destruct Hc' as (_ & Hd' & Hi').
    destruct Hcase as [((Hr & Hd0 & Hi0) & _)|(Hno & _)].
    + apply Hu; try assumption; congruence.
    + exfalso. apply (Hno b Hb). unfold caches. repeat split; congruence.
  - rewrite (Hother a Ha') in Hra, Hd, Hi.
    destruct Hc' as (_ & Hd' & Hi').
    destruct Hcase as [((Hr & Hd0 & Hi0) & _)|(Hno & _)].
    + apply Hu; try assumption; congruence.
    + exfalso. apply (Hno a Ha). unfold caches. repeat split; congruence.
  - rewrite (Hother a Ha') in Hra, Hd, Hi. rewrite (Hother b Hb') in Hrb, Hd, Hi.
    now apply Hu.
Qed.

(** X8: [iget] keeps the inode cache free of duplicates: if no inode has two
    entries in use before, none has after; the entry returned is in use for
    [(dev, inum)] with one reference more than it had, every other entry is
    as before, and no buffer, log or disk state is touched. *)
Theorem iget_keeps_unique (dev inum : Z) (st : kstate) (ip : nat) (st' : kstate) :
  icache_unique (icache st) ->
  iget dev inum st = Ret (ip, st') ->
  icache_unique (icache st') /\
  (ip < NINODE)%nat /\ caches (icache st') dev inum ip /\
  Ino.ref (icache st' ip) = Ino.ref (icache st ip) + 1 /\
  (forall j, j <> ip -> icache st' j = icache st j) /\
  bvalid st' = bvalid st /\ bdata st' = bdata st /\ bheld st' = bheld st /\
  disk st' = disk st /\ writes st' = writes st /\ log st' = log st.
Proof.
  intros Hu E.
  destruct (iget_result dev inum st ip st' Hu E) as (H1 & H2 & H3 & H4 & H5).
  pose proof (iget_cases dev inum st) as H. rewrite E in H.
  destruct H as (_ & _ & _ & _ & Hv & Hd & Hh & Hk & Hw & Hl & _).
  repeat split; try assumption; apply H3.
Qed.

(** X9: two [iget]s of the same inode share one cache entry: in a cache
    without duplicates, a second [iget] of [(dev, inum)] returns the entry
    the first returned, with one reference more. *)
Theorem iget_twice (dev inum : Z) (st : kstate) (ip : nat) (st1 : kstate) :
  icache_unique (icache st) ->
  iget dev inum st = Ret (ip, st1) ->
  exists st2,
    iget dev inum st1 = Ret (ip, st2) /\
    Ino.ref (icache st2 ip) = Ino.ref (icache st ip) + 2 /\
    Ino.valid (icache st2 ip) = Ino.valid (icache st1 ip).
Proof.
  intros Hu E.
  destruct (iget_result dev inum st ip st1 Hu E) as (Hu1 & Hip & Hc1 & Hr1 & _).
  pose proof (iget_cases dev inum st1) as H.
  destruct (iget dev inum st1) as [[ip2 st2]|msg| |] eqn:E2; try contradiction.
  - destruct H as (Hip2 & _ & _ & Hcase & _).
    destruct Hcase as [(Hc2 & He)|(Hno & _)].
    + assert (ip2 = ip).
      { destruct Hc1 as (R1 & D1 & I1), Hc2 as (R2 & D2 & I2).
        apply Hu1; try assumption; congruence. }
      subst ip2. exists st2. split; [reflexivity|]. rewrite He. cbn. split; [lia|reflexivity].
    + exfalso. exact (Hno ip Hip Hc1).
  - destruct H as (_ & Hno). exfalso. exact (proj1 (Hno ip Hip) Hc1).
Qed.

(** X10: [iget] panics [iget: no inodes] exactly when the inode has no entry
    in use and no entry of the cache is free ([ref] 0). *)
Theorem iget_no_inodes (dev inum : Z) (st : kstate) :
  iget dev inum st = Panic "iget: no inodes" <->
  forall j, (j < NINODE)%nat ->
    ~ caches (icache st) dev inum j /\ Ino.ref (icache st j) <> 0.
Proof.
  pose proof (iget_cases dev inum st) as H.
  destruct (iget dev inum st) as [[ip st']|msg| |] eqn:E; try contradiction.
  - destruct H as (Hip & _ & _ & Hcase & _). split; [discriminate|].
    intros Hall. exfalso. destruct (Hall ip Hip) as (Hno & Hnz).
    destruct Hcase as [(Hc & _)|(_ & Hz & _)]; [exact (Hno Hc)|exact (Hnz Hz)].
  - destruct H as (-> & Hall). split; [intros _; exact Hall|reflexivity].
Qed.

(** X11: [iput] of an inode that has another reference, or links, or was
    never read, only drops the reference: the entry keeps every other
    field, and no buffer, bitmap, log or disk state changes; the file is
    not truncated. *)
Theorem iput_keeps_file (st : kstate) (ip : nat) :
  let e := icache st ip in
  Ino.ref e <> 1 \/ Ino.valid e = 0 \/ Ino.nlink e <> 0 ->
  exists st',
    iput ip st = Ret (tt, st') /\
    icache st' ip = with_ref (Ino.ref e - 1) e /\
    (forall j, j <> ip -> icache st' j = icache st j) /\
    bvalid st' = bvalid st /\ bdata st' = bdata st /\ bheld st' = bheld st /\
    disk st' = disk st /\ writes st' = writes st /\ log st' = log st.
Proof.
  intros e H. unfold iput. rewrite bind_get. fold e.
  replace ((Ino.ref e =? 1) && negb (Ino.valid e =? 0) && (Ino.nlink e =? 0)) with false.
  - eexists. split; [reflexivity|]. cbn. rewrite updn_same.
    split; [reflexivity|]. split; [intros j Hj; now apply updn_other|]. repeat split.
  - symmetry. rewrite !andb_false_iff, negb_false_iff, !Z.eqb_neq, Z.eqb_eq. tauto.
Qed.

Lemma destroy_sample_unique : icache_unique (icache destroy_sample).
Proof.
  intros a b _ _ Ha Hb _ _. destruct a, b; cbn in Ha, Hb; lia.
Qed.

Lemma iget_keeps_unique_witness :
  exists ip st',
    iget 1 2 destroy_sample = Ret (ip, st') /\
    icache_unique (icache st') /\ caches (icache st') 1 2 ip /\
    Ino.ref (icache st' ip) = Ino.ref (icache destroy_sample ip) + 1.
Proof.
  destruct (iget 1 2 destroy_sample) as [[ip st']| | |] eqn:E; try (vm_compute in E; discriminate).
  exists ip, st'. split; [reflexivity|].
  destruct (iget_keeps_unique 1 2 destroy_sample ip st' destroy_sample_unique E)
    as (H1 & _ & H3 & H4 & _).
  split; [exact H1|]. split; [exact H3|exact H4].
Defined.

Lemma iget_twice_witness :
  exists ip st1 st2,
    iget 1 7 destroy_sample = Ret (ip, st1) /\
    iget 1 7 st1 = Ret (ip, st2) /\
    Ino.ref (icache st2 ip) = Ino.ref (icache destroy_sample ip) + 2.
Proof.
  destruct (iget 1 7 destroy_sample) as [[ip st1]| | |] eqn:E; try (vm_compute in E; discriminate).
  destruct (iget_twice 1 7 destroy_sample ip st1 destroy_sample_unique E) as (st2 & E2 & Hr & _).
  exists ip, st1, st2. split; [reflexivity|]. split; [exact E2|exact Hr].
Defined.

Lemma iput_keeps_file_witness :
  exists st',
    iput 0 read_sample = Ret (tt, st') /\
    icache st' 0%nat = with_ref 0 (icache read_sample 0) /\
    (forall j, j <> 0%nat -> icache st' j = icache read_sample j) /\
    bvalid st' = bvalid read_sample /\ bdata st' = bdata read_sample /\
    bheld st' = bheld read_sample /\
    disk st' = disk read_sample /\ writes st' = writes read_sample /\
    log st' = log read_sample.
Proof.
  apply (iput_keeps_file read_sample 0). right. right. discriminate.
Defined.

(** ** The log header on disk *)

Lemma s32_int v : -2147483648 <= v < 2147483648 -> s32 (u32 v) = v.
Proof.
  intros H. unfold s32. rewrite u32_idem.
  destruct (Z.ltb_spec (u32 v) 2147483648); unfold u32 in *; Z.div_mod_to_equations; lia.
Qed.

Lemma hdr_image_fold d l k :
  0 <= k ->
  let img := fold_left (fun d i => hdr_set_block d i (lh_block l i)) (zseq k)
                       (hdr_set_n d (Lg.n (Lg.lh l))) in
  get32 img 0 = u32 (Lg.n (Lg.lh l)) /\
  (forall i, 0 <= i < k -> get32 img (4 + 4 * i) = u32 (lh_block l i)) /\
  (forall o, 4 + 4 * k <= o -> img o = d o).
Proof.
  intros Hk. pattern k. apply natlike_ind; [| |exact Hk].
  - cbn. split; [apply get32_put32|]. split; [intros; lia|].
    intros o Ho. unfold hdr_set_n, put32, put8.
    repeat match goal with
           | |- context [?x =? ?y] => destruct (Z.eqb_spec x y); try lia
           end; reflexivity.
  - intros j Hj (IH0 & IHb & IHo). cbv zeta. unfold Z.succ.
    rewrite zseq_succ by lia. rewrite fold_left_app. cbn [fold_left].
    set (img := fold_left _ (zseq j) _) in *.
    split; [|split].
    + unfold hdr_set_block. rewrite get32_put32_other by lia. exact IH0.
    + intros i Hi. unfold hdr_set_block. destruct (Z.eq_dec i j) as [->|Hne].
      * apply get32_put32.
      * rewrite get32_put32_other by lia. apply IHb. lia.
    + intros o Ho. unfold hdr_set_block, put32, put8.
      repeat match goal with
             | |- context [?x =? ?y] => destruct (Z.eqb_spec x y); try lia
             end. apply IHo. lia.
Qed.

(** Decoding the header block that [write_head] has encoded. *)
Lemma decode_hdr_image d l :
  0 <= Lg.n (Lg.lh l) < 2147483648 ->
  (forall i, 0 <= i < Lg.n (Lg.lh l) -> -2147483648 <= lh_block l i < 2147483648) ->
  hdr_n (hdr_image d l) = Lg.n (Lg.lh l) /\
  forall i, 0 <= i < Lg.n (Lg.lh l) -> hdr_block (hdr_image d l) i = lh_block l i.
Proof.
  intros Hn Hb. destruct (hdr_image_fold d l (Lg.n (Lg.lh l)) ltac:(lia)) as (H0 & Hi & _).
  cbv zeta in H0, Hi. fold (hdr_image d l) in H0, Hi.
  split.
  - unfold hdr_n. rewrite H0. apply s32_int. lia.
  - intros i Hr. unfold hdr_block. rewrite Hi by exact Hr. apply s32_int. now apply Hb.
Qed.

(** The geometry and the counters of the log, without the header. *)
Definition log_frame (l : Lg.log) : Z * Z * Z * Z * Z :=
  (Lg.start l, Lg.size l, Lg.outstanding l, Lg.committing l, Lg.dev l).

(** [read_head] of a header block that holds [n] entries. *)
Lemma read_head_run s :
  let S := Lg.start (log s) in
  let d := view s S in
  let n := hdr_n d in
  bheld s S = false -> 0 <= n <= LOGSIZE ->
  List.length (Lg.block (Lg.lh (log s))) = Z.to_nat LOGSIZE ->
  exists s',
    read_head s = Ret (tt, s') /\
    Lg.n (Lg.lh (log s')) = n /\
    (forall i, 0 <= i < n -> lh_block (log s') i = hdr_block d i) /\
    List.length (Lg.block (Lg.lh (log s'))) = Z.to_nat LOGSIZE /\
    log_frame (log s') = log_frame (log s) /\
    (forall k, view s' k = view s k) /\ (forall k, bheld s' k = bheld s k) /\
    (forall k, u32 (brefcnt s' k) = u32 (brefcnt s k)) /\
    disk s' = disk s /\ writes s' = writes s /\ icache s' = icache s /\ sb s' = sb s.
Proof.
  intros S d n Hnh Hn Hlen. unfold read_head. rewrite bind_get. fold S.
  destruct (look (Lg.dev (log s)) S s Hnh) as (s0 & s1 & Eb & Hd0 & Er & Hun).
  rewrite (bind_ret _ _ _ _ _ Eb), bind_get. fold d in Hd0. rewrite Hd0. fold n.
  rewrite bind_modify.
  destruct (bread_spec s (Lg.dev (log s)) S Hnh) as (s0' & Eb' & _ & _ & _ & _ & _ & _ & He0).
  rewrite Eb in Eb'. injection Eb' as <-. destruct He0 as (Hl0 & _).
  set (J := fun (j : Z) (x : kstate) =>
              bvalid x = bvalid s0 /\ bdata x = bdata s0 /\ bheld x = bheld s0 /\
              brefcnt x = brefcnt s0 /\ disk x = disk s0 /\ writes x = writes s0 /\
              icache x = icache s0 /\ sb x = sb s0 /\ user_ok x = user_ok s0 /\
              cwd x = cwd s0 /\
              log_frame (log x) = log_frame (log s) /\ Lg.n (Lg.lh (log x)) = n /\
              List.length (Lg.block (Lg.lh (log x))) = Z.to_nat LOGSIZE /\
              forall i, 0 <= i < j -> lh_block (log x) i = hdr_block d i).
  match goal with
  | |- exists s', bind (for_range ?k 0 ?body) _ ?x = _ /\ _ =>
      destruct (for_range_inv J k 0 body x) as (s2 & E2 & HJ)
  end.
  - unfold J. cbn. rewrite Hl0. repeat split; try assumption. intros; lia.
  - intros j x Hj (H1 & H2 & H3 & H4 & H5 & H6 & H7 & H8 & H9 & H10 & H11 & H12 & H13 & H14).
    eexists. split; [reflexivity|]. unfold J. cbn.
    repeat split; try assumption.
    + rewrite length_set_nth. exact H13.
    + intros i Hi. unfold lh_block. cbn. destruct (Z.eq_dec i j) as [->|Hne].
      * apply nth_set_nth. rewrite H13. unfold LOGSIZE in *. lia.
      * rewrite nth_set_nth_other by lia. apply (H14 i). lia.
  - rewrite (bind_ret _ _ _ _ _ E2).
    destruct HJ as (H1 & H2 & H3 & H4 & H5 & H6 & H7 & H8 & H9 & H10 & H11 & H12 & H13 & H14).
    assert (Er' : brelse S s2 = Ret (tt, set_log s1 (log s2))).
    { revert Er. unfold brelse, bind, get_state, modify. rewrite H3.
      destruct (bheld s0 S); cbn; [|discriminate]. intros [= <-].
      unfold set_buf, set_log. cbn. rewrite H1, H2, H3, H4, H5, H6, H7, H8, H9, H10.
      reflexivity. }
    exists (set_log s1 (log s2)). split; [exact Er'|].
    destruct Hun as (Hv & Hh & Hr & Hk & Hw & _ & Hsb & Hic & _).
    split; [exact H12|]. split; [intros i Hi; apply H14; lia|]. split; [exact H13|].
    split; [exact H11|]. repeat split; assumption.
Qed.



(** ** Installing a committed transaction *)

Section Install.

(** The in-memory log, the blocks and the disk when [install_trans] starts. *)
Variables (L : Lg.log) (V D : Z -> block) (W0 : list (Z * block)) (R0 : Z -> Z).
Variable recovering : Z.
Let S0 := Lg.start L.
Let n := Lg.n (Lg.lh L).
Let B := lh_block L.

Hypothesis homes_outside : forall j, 0 <= j < n -> B j < S0 \/ S0 + n < B j.
Hypothesis homes_distinct : forall i j, 0 <= i < n -> 0 <= j < n -> B i = B j -> i = j.

(** The loop of [install_trans] after [j] entries. *)
Definition installed (j : Z) (s : kstate) : Prop :=
  log s = L /\ (forall k, bheld s k = false) /\
  (forall i, 0 <= i < j -> view s (B i) = V (S0 + i + 1) /\ disk s (B i) = V (S0 + i + 1)) /\
  (forall k, (forall i, 0 <= i < j -> k <> B i) -> view s k = V k /\ disk s k = D k) /\
  writes s = W0 ++ map (fun i => (B i, V (S0 + i + 1))) (zseq j) /\
  (recovering <> 0 -> forall k, u32 (brefcnt s k) = u32 (R0 k)).

Lemma install_trans_run s :
  0 <= n -> installed 0 s ->
  exists s', install_trans recovering s = Ret (tt, s') /\ installed n s'.
Proof.
  intros Hn H0. unfold install_trans. rewrite bind_get.
  replace (log s) with L by (symmetry; apply H0). fold n.
  match goal with
  | |- exists s', for_range ?k 0 ?body s = _ /\ _ =>
      destruct (for_range_inv installed k 0 body s H0) as (s' & E & HP)
  end.
  - intros j s1 Hj (Hl & Hh & Hdone & Hrest & Hw & Hr).
    rewrite bind_get. rewrite Hl. fold S0. fold B.
    assert (HB : B j < S0 \/ S0 + n < B j) by (apply homes_outside; lia).
    run_bread; [apply Hh|].
    run_bread; [push; eqb_cases; auto; lia|].
    rewrite bind_get.
    run_set_data.
    run_bwrite; [push; eqb_cases; auto; lia|].
    assert (Hlog_view : view s1 (S0 + j + 1) = V (S0 + j + 1)).
    { apply Hrest. intros i Hi Heq.
      assert (HBi : B i < S0 \/ S0 + n < B i) by (apply homes_outside; lia). lia. }
    assert (Hdata : bdata s3 (B j) = V (S0 + j + 1)).
    { push. rewrite !Z.eqb_refl. destruct (Z.eqb_spec (S0 + j + 1) (B j)); [lia|].
      exact Hlog_view. }
    match goal with
    | |- context [bind (if recovering =? 0 then bunpin ?b else ret tt) ?f ?x] =>
        assert (Hun : exists s5,
                   (if recovering =? 0 then bunpin b else ret tt) x = Ret (tt, s5) /\
                   bheld s5 = bheld x /\ bvalid s5 = bvalid x /\ bdata s5 = bdata x /\
                   disk s5 = disk x /\ writes s5 = writes x /\ same_env x s5 /\
                   (recovering <> 0 -> brefcnt s5 = brefcnt x))
    end.
    { destruct (Z.eqb_spec recovering 0) as [Hrec|Hrec].
      - destruct (bunpin_spec s4 (B j)) as (s5 & E5 & A1 & A2 & A3 & _ & A5 & A6 & A7).
        exists s5. repeat split; try assumption; try apply A7. intros; contradiction.
      - exists s4. repeat split. }
    destruct Hun as (s5 & E5 & Hh5 & Hv5 & Hd5 & Hk5 & Hw5 & He5 & Hr5).
    rewrite (bind_ret _ _ _ _ _ E5).
    run_brelse; [push; eqb_cases; auto; lia|].
    run_brelse; [push; eqb_cases; auto; lia|].
    eexists. split; [reflexivity|]. split_env.
    assert (Hviews : forall k, view s7 k = if k =? B j then V (S0 + j + 1) else view s1 k).
    { intros k. unfold view at 1. push.
      destruct (Z.eqb_spec k (B j)) as [->|Hne].
      - rewrite ?Z.eqb_refl. destruct (Z.eqb_spec (S0 + j + 1) (B j)); [lia|].
        rewrite ?Z.eqb_refl. exact Hlog_view.
      - destruct (Z.eqb_spec k (S0 + j + 1)) as [->|Hne2].
        + unfold view. now destruct (bvalid s1 (S0 + j + 1)).
        + reflexivity. }
    assert (Hdisk : forall k, disk s7 k = if k =? B j then V (S0 + j + 1) else disk s1 k).
    { intros k. push. destruct (Z.eqb_spec k (B j)) as [->|Hne]; [|reflexivity].
      rewrite ?Z.eqb_refl. destruct (Z.eqb_spec (S0 + j + 1) (B j)); [lia|].
      rewrite ?Z.eqb_refl. exact Hlog_view. }
    unfold installed.
    split; [congruence|]. split; [|split; [|split; [|split]]].
    + intros k. push. eqb_cases; subst; auto.
    + intros i Hi. rewrite Hviews, Hdisk.
      destruct (Z.eqb_spec (B i) (B j)) as [Heq|Hne].
      * apply homes_distinct in Heq; try lia. subst i. split; reflexivity.
      * apply Hdone. assert (i <> j) by (intros ->; now apply Hne). lia.
    + intros k Hother. rewrite Hviews, Hdisk.
      destruct (Z.eqb_spec k (B j)) as [Heq|Hne]; [exfalso; apply (Hother j); [lia|exact Heq]|].
      apply Hrest. intros i Hi. apply Hother. lia.
    + rewrite zseq_succ by lia. rewrite map_app, app_assoc. cbn [map].
      push. rewrite ?Z.eqb_refl. destruct (Z.eqb_spec (S0 + j + 1) (B j)); [lia|].
      rewrite ?Z.eqb_refl, Hlog_view. reflexivity.
    + intros Hrec k. specialize (Hr Hrec k). specialize (Hr5 Hrec).
      rewrite <- Hr.
      repeat (push; eqb_cases; subst; try contradiction; try lia). all: u32_solve.
  - exists s'. split; [exact E|].
    replace (0 + Z.of_nat (Z.to_nat n)) with n in HP by lia. exact HP.
Qed.

End Install.

(** [write_head], with what it leaves on the disk. *)
Lemma write_head_run s :
  let S := Lg.start (log s) in
  let img := hdr_image (view s S) (log s) in
  bheld s S = false ->
  exists s',
    write_head s = Ret (tt, s') /\ log s' = log s /\
    (forall k, bheld s' k = bheld s k) /\
    writes s' = writes s ++ [(S, img)] /\
    (forall k, view s' k = if k =? S then img else view s k) /\
    (forall k, disk s' k = if k =? S then img else disk s k) /\
    (forall k, u32 (brefcnt s' k) = u32 (brefcnt s k)) /\
    icache s' = icache s /\ sb s' = sb s.
Proof.
  intros S img Hnh. unfold write_head. rewrite bind_get. fold S.
  run_bread; [exact Hnh|].
  run_set_data.
  match goal with
  | |- context [bind (for_range ?k ?i (fun j => set_data ?b (@?g j))) ?f ?s] =>
      destruct (set_data_loop b g k i s) as (s2 & E2 & Hh2 & Hv2 & Hd2 & Hr2 & Hk2 & Hw2 & He2);
      rewrite (bind_ret _ _ _ _ _ E2); clear E2
  end.
  run_bwrite; [push; now rewrite Z.eqb_refl|].
  run_brelse; [push; now rewrite Z.eqb_refl|].
  eexists. split; [reflexivity|]. split_env.
  assert (Hdat : bdata s2 S = img).
  { push. rewrite !Z.eqb_refl. reflexivity. }
  split; [congruence|]. split; [|split; [|split; [|split; [|split]]]].
  - intros k. push. eqb_cases; subst; auto.
  - push. rewrite !Z.eqb_refl. reflexivity.
  - intros k. unfold view at 1. push.
    eqb_cases; subst; try reflexivity; try contradiction.
  - intros k. push. eqb_cases; subst; try reflexivity; try contradiction.
  - intros k. repeat (push; eqb_cases; subst; try contradiction; try lia).
    all: u32_norm.
  - split; congruence.
Qed.

(** [recover_from_log] on a header that holds a committed transaction. *)
Lemma recover_from_log_run (st : kstate) :
  let S := Lg.start (log st) in
  let d := view st S in
  let n := hdr_n d in
  let home := hdr_block d in
  (forall k, bheld st k = false) ->
  0 <= n <= LOGSIZE ->
  List.length (Lg.block (Lg.lh (log st))) = Z.to_nat LOGSIZE ->
  (forall i, 0 <= i < n -> home i < S \/ S + n < home i) ->
  (forall i j, 0 <= i < n -> 0 <= j < n -> home i = home j -> i = j) ->
  exists st',
    recover_from_log st = Ret (tt, st') /\
    (forall i, 0 <= i < n -> disk st' (home i) = view st (S + i + 1)) /\
    hdr_n (disk st' S) = 0 /\
    (forall k, k <> S -> (forall i, 0 <= i < n -> k <> home i) -> disk st' k = disk st k) /\
    Lg.n (Lg.lh (log st')) = 0 /\
    (forall k, bheld st' k = false) /\
    writes st' = writes st ++ map (fun i => (home i, view st (S + i + 1))) (zseq n)
                           ++ [(S, hdr_set_n d 0)] /\
    (forall k, u32 (brefcnt st' k) = u32 (brefcnt st k)).
Proof.
  intros S d n home Hheld Hn Hlen Hout Hdist.
  unfold recover_from_log.
  destruct (read_head_run st (Hheld _) Hn Hlen)
    as (s1 & E1 & Hn1 & Hb1 & Hlen1 & Hfr1 & Hv1 & Hh1 & Hr1 & Hk1 & Hw1 & Hic1 & Hsb1).
  fold S in Hn1, Hb1. fold d in Hn1, Hb1. fold n in Hn1, Hb1. fold home in Hb1.
  rewrite (bind_ret _ _ _ _ _ E1).
  assert (HS1 : Lg.start (log s1) = S) by (unfold log_frame in Hfr1; now inversion Hfr1).
  destruct (install_trans_run (log s1) (view s1) (disk s1) (writes s1) (brefcnt s1) 1) with (s := s1)
    as (s2 & E2 & Hl2 & Hh2 & Hdone2 & Hrest2 & Hw2 & Hr2).
  - intros j Hj. rewrite Hn1 in *. rewrite HS1, Hb1 by exact Hj. now apply Hout.
  - intros i j Hi Hj. rewrite Hn1 in *. rewrite !Hb1 by assumption. now apply Hdist.
  - rewrite Hn1. lia.
  - unfold installed. split; [reflexivity|]. split; [intros k; now rewrite Hh1|].
    split; [intros; lia|]. split; [intros; split; reflexivity|].
    split; [cbn; now rewrite app_nil_r|]. intros _ k. reflexivity.
  - rewrite (bind_ret _ _ _ _ _ E2), bind_modify.
    rewrite Hn1, HS1 in *.
    set (s3 := set_log s2 (set_n (log s2) 0)).
    destruct (write_head_run s3)
      as (s4 & E4 & Hl4 & Hh4 & Hw4 & Hv4 & Hd4 & Hr4 & _).
    { apply Hh2. }
    assert (HS3 : Lg.start (log s3) = S) by (unfold s3; cbn; now rewrite Hl2).
    assert (Himg : hdr_image (view s3 (Lg.start (log s3))) (log s3) = hdr_set_n d 0).
    { rewrite HS3. unfold hdr_image, s3. cbn.
      change (view (set_log s2 (set_n (log s2) 0)) S) with (view s2 S).
      destruct (Hrest2 S) as (HvS & _).
      - intros i Hi Heq. rewrite Hb1 in Heq by exact Hi.
        specialize (Hout i Hi). lia.
      - rewrite HvS, Hv1. reflexivity. }
    rewrite HS3, Himg in *.
    exists s4. split; [exact E4|].
    split; [|split; [|split; [|split; [|split; [|split]]]]].
    + intros i Hi. rewrite Hd4.
      destruct (Z.eqb_spec (home i) S) as [Heq|Hne]; [specialize (Hout i Hi); lia|].
      change (disk s3 (home i)) with (disk s2 (home i)).
      destruct (Hdone2 i Hi) as (_ & Hdk). rewrite Hb1 in Hdk by exact Hi.
      rewrite Hdk. apply Hv1.
    + rewrite Hd4, Z.eqb_refl. unfold hdr_n, hdr_set_n. rewrite get32_put32. reflexivity.
    + intros k HkS Hk. rewrite Hd4. destruct (Z.eqb_spec k S); [contradiction|].
      change (disk s3 k) with (disk s2 k).
      destruct (Hrest2 k) as (_ & Hdk).
      * intros i Hi. rewrite Hb1 by exact Hi. now apply Hk.
      * rewrite Hdk. now rewrite Hk1.
    + rewrite Hl4. reflexivity.
    + intros k. rewrite Hh4. apply Hh2.
    + rewrite Hw4. change (writes s3) with (writes s2). rewrite Hw2, Hw1, <- app_assoc.
      do 2 f_equal. apply map_ext_in. intros i Hi. unfold zseq in Hi. apply in_zrange in Hi.
      rewrite Hb1 by lia. now rewrite Hv1.
    + intros k. rewrite Hr4. change (brefcnt s3 k) with (brefcnt s2 k).
      rewrite Hr2 by discriminate. apply Hr1.
Qed.


(** A disk after a crash: the header (block 2) records a committed
    transaction of two blocks, 60 and 61, whose new contents are in the log
    blocks 3 and 4; nothing is cached. *)
Definition crash_sample : kstate :=
  sample_state (sample_log 0 [])
    (upd (upd (upd (fun _ => zero_block)
                   2 (hdr_image zero_block (sample_log 0 [60; 61])))
              3 (put8 zero_block 0 7))
         4 (put8 zero_block 0 9))
    (fun _ => free_inode).


(** ** The disk under a commit *)

(** The disk after the writes [w], in order, on the disk [D]. *)
Definition replay (w : list (Z * block)) (D : Z -> block) : Z -> block :=
  fold_left (fun d p => upd d (fst p) (snd p)) w D.

Lemma replay_app w1 w2 D : replay (w1 ++ w2) D = replay w2 (replay w1 D).
Proof. apply fold_left_app. Qed.

(** The disk changes by the recorded writes and by nothing else. *)
Definition tracks (s s' : kstate) : Prop :=
  exists w, writes s' = writes s ++ w /\ forall k, disk s' k = replay w (disk s) k.

#[export] Instance tracks_frame : Frame tracks.
Proof.
  split.
  - intros s. exists []. split; [now rewrite app_nil_r|reflexivity].
  - intros s1 s2 s3 (w1 & Hw1 & Hd1) (w2 & Hw2 & Hd2). exists (w1 ++ w2).
    split; [rewrite Hw2, Hw1; now rewrite app_assoc|].
    intros k. rewrite Hd2, replay_app. clear Hd2 Hw2.
    revert Hd1. generalize (disk s2) (replay w1 (disk s1)). clear.
    induction w2 as [|p w IH]; intros d1 d2 Hd; cbn; [apply Hd|].
    apply IH. intros x. unfold upd. now rewrite Hd.
Qed.

Ltac tracks_modify :=
  apply preserves_modify; intros ?; exists []; split; [now rewrite app_nil_r|reflexivity].

Lemma bget_tracks d b : preserves tracks (bget d b).
Proof.
  intros st x st'. unfold bget. destruct (bheld st b); [discriminate|].
  intros [= _ <-]. exists []. split; [now rewrite app_nil_r|reflexivity].
Qed.
#[export] Hint Resolve bget_tracks : frames.

Lemma bread_tracks d b : preserves tracks (bread d b).
Proof. unfold bread, disk_read. frame; tracks_modify. Qed.
#[export] Hint Resolve bread_tracks : frames.

Lemma bwrite_tracks b : preserves tracks (bwrite b).
Proof.
  unfold bwrite, disk_write. frame.
  apply preserves_modify. intros s. exists [(b, bdata s b)]. split; reflexivity.
Qed.
#[export] Hint Resolve bwrite_tracks : frames.

Lemma brelse_tracks b : preserves tracks (brelse b).
Proof. unfold brelse. frame; tracks_modify. Qed.
#[export] Hint Resolve brelse_tracks : frames.

Lemma set_data_tracks b f : preserves tracks (set_data b f).
Proof. unfold set_data. tracks_modify. Qed.
#[export] Hint Resolve set_data_tracks : frames.

Lemma bunpin_tracks b : preserves tracks (bunpin b).
Proof. unfold bunpin. tracks_modify. Qed.
#[export] Hint Resolve bunpin_tracks : frames.

Lemma write_head_tracks : preserves tracks write_head.
Proof. unfold write_head. frame. Qed.
#[export] Hint Resolve write_head_tracks : frames.

Lemma write_log_tracks : preserves tracks write_log.
Proof. unfold write_log. frame. Qed.
#[export] Hint Resolve write_log_tracks : frames.

Lemma install_trans_tracks r : preserves tracks (install_trans r).
Proof. unfold install_trans. frame. Qed.
#[export] Hint Resolve install_trans_tracks : frames.

Lemma commit_tracks : preserves tracks commit.
Proof. unfold commit. frame. tracks_modify. Qed.

(** Reading the disk after a list of writes. *)
Lemma replay_miss w D k :
  (forall p, In p w -> fst p <> k) -> replay w D k = D k.
Proof.
  revert D. induction w as [|p w IH]; intros D H; cbn; [reflexivity|].
  rewrite IH by (intros q Hq; apply H; now right).
  unfold upd. destruct (Z.eqb_spec k (fst p)) as [e|ne]; [|reflexivity].
  exfalso. apply (H p); [now left|now symmetry].
Qed.

Lemma replay_hit w D k v :
  In (k, v) w -> (forall v', In (k, v') w -> v' = v) -> replay w D k = v.
Proof.
  revert D. induction w as [|p w IH] using rev_ind; intros D Hin Hfun; [destruct Hin|].
  rewrite replay_app. cbn. unfold upd.
  destruct (Z.eqb_spec k (fst p)) as [e|ne].
  - apply Hfun. apply in_or_app. right. left. destruct p; cbn in *; now subst.
  - apply IH.
    + apply in_app_or in Hin. destruct Hin as [Hin|[Hin|[]]]; [exact Hin|].
      subst p. now contradiction ne.
    + intros v' Hv'. apply Hfun. apply in_or_app. now left.
Qed.

Lemma firstn_zrange m i k : firstn m (zrange i k) = zrange i (Nat.min m k).
Proof.
  revert i k. induction m as [|m IH]; intros i [|k]; cbn; try reflexivity.
  now rewrite IH.
Qed.

(** [commit] of a non-empty transaction: its return, its trace of writes
    and the disk it leaves. *)
Lemma commit_trace (st : kstate) :
  (forall k, bheld st k = false) ->
  (forall j, 0 <= j < Lg.n (Lg.lh (log st)) ->
     lh_block (log st) j < Lg.start (log st) \/
     Lg.start (log st) + Lg.n (Lg.lh (log st)) < lh_block (log st) j) ->
  0 < Lg.n (Lg.lh (log st)) ->
  exists st',
    commit st = Ret (tt, st') /\
    writes st' = writes st ++ commit_writes st /\
    log st' = set_n (log st) 0 /\
    (forall k, bheld st' k = false) /\
    (forall j, 0 <= j < Lg.n (Lg.lh (log st)) ->
       view st' (lh_block (log st) j) = view st (lh_block (log st) j)) /\
    (forall k, disk st' k = replay (commit_writes st) (disk st) k) /\
    (forall k, u32 (brefcnt st' k) = u32 (brefcnt st k - unpins st k)).
Proof.
  intros no_held homes Hn.
  assert (Hrun : exists st',
             commit st = Ret (tt, st') /\
             writes st' = writes st ++ commit_writes st /\
             log st' = set_n (log st) 0 /\
             (forall k, bheld st' k = false) /\
             (forall j, 0 <= j < Lg.n (Lg.lh (log st)) ->
                view st' (lh_block (log st) j) = view st (lh_block (log st) j)) /\
             (forall k, u32 (brefcnt st' k) = u32 (brefcnt st k - unpins st k))).
  { unfold commit. rewrite bind_get.
    replace (Lg.n (Lg.lh (log st)) >? 0) with true
      by (symmetry; rewrite Z.gtb_ltb; apply Z.ltb_lt; lia).
    destruct (write_log_ok st no_held homes) as (s1 & E1 & Hl1 & Hh1 & Hw1 & Hout1 & Hin1 & Hr1); [lia|].
    rewrite (bind_ret _ _ _ _ _ E1).
    destruct (write_head_spec s1) as (s2 & E2 & Hl2 & Hh2 & Hw2 & Hv2 & Hr2); [apply Hh1|].
    rewrite (bind_ret _ _ _ _ _ E2).
    rewrite Hl1 in Hw2, Hv2.
    rewrite (Hout1 (Lg.start (log st))) in Hw2, Hv2 by lia.
    fold (committed_header st) in Hw2, Hv2.
    destruct (install_trans_ok st homes (writes s2) (committed_header st) s2) as (s3 & E3 & HP3); [lia| |].
    { unfold P3. repeat split.
      - congruence.
      - intros k. rewrite Hh2. apply Hh1.
      - cbn. now rewrite app_nil_r.
      - intros j Hj. rewrite Hv2.
        destruct (Z.eqb_spec (Lg.start (log st) + j + 1) (Lg.start (log st))); [lia|]. now apply Hin1.
      - intros j Hj. pose proof (homes j Hj). rewrite Hv2.
        destruct (Z.eqb_spec (lh_block (log st) j) (Lg.start (log st))); [lia|]. apply Hout1. lia.
      - rewrite Hv2. now rewrite Z.eqb_refl.
      - intros k. cbn. rewrite Hr2, Hr1. f_equal. lia. }
    rewrite (bind_ret _ _ _ _ _ E3).
    destruct HP3 as (Hl3 & Hh3 & Hw3 & _ & Hhome3 & Hhdr3 & Hr3).
    rewrite bind_modify.
    destruct (write_head_spec (set_log s3 (set_n (log s3) 0)))
      as (s5 & E5 & Hl5 & Hh5 & Hw5 & Hv5 & Hr5); [apply Hh3|].
    exists s5. split; [exact E5|].
    split; [|split; [|split; [|split]]].
    - rewrite Hw5. cbn [writes set_log log set_n set_lh Lg.start].
      rewrite Hw3, Hw2, Hw1. unfold commit_writes, payload_writes, home_writes.
      rewrite <- !app_assoc. do 4 f_equal.
      rewrite Hl3. cbn [app]. do 2 f_equal.
      change (view (set_log s3 (set_n (log st) 0)) (Lg.start (log st)))
        with (view s3 (Lg.start (log st))).
      rewrite Hhdr3. reflexivity.
    - rewrite Hl5. cbn. now rewrite Hl3.
    - intros k. rewrite Hh5. apply Hh3.
    - intros j Hj. rewrite Hv5. cbn [log set_log set_n set_lh Lg.start]. rewrite Hl3.
      pose proof (homes j Hj).
      destruct (Z.eqb_spec (lh_block (log st) j) (Lg.start (log st))); [lia|].
      change (view (set_log s3 (set_n (log st) 0)) (lh_block (log st) j))
        with (view s3 (lh_block (log st) j)).
      now apply Hhome3.
    - intros k. rewrite Hr5. apply Hr3. }
  destruct Hrun as (st' & E & Hw & Hl & Hh & Hv & Hr).
  exists st'. split; [exact E|]. split; [exact Hw|]. split; [exact Hl|]. split; [exact Hh|].
  split; [exact Hv|]. split; [|exact Hr].
  destruct (commit_tracks st tt st' E) as (w & Hw' & Hd).
  rewrite Hw in Hw'. apply app_inv_head in Hw'. subst w. exact Hd.
Qed.

(** The disk after a prefix of the writes of a commit. *)
Section Prefix.

Variables (S0 n : Z) (B : Z -> Z) (V : Z -> block) (h z : block) (D : Z -> block).
Hypothesis n_pos : 0 <= n.
Hypothesis homes_outside : forall j, 0 <= j < n -> B j < S0 \/ S0 + n < B j.

Definition payloads (m : Z) : list (Z * block) :=
  map (fun j => (S0 + j + 1, V (B j))) (zseq m).

Definition homes (m : Z) : list (Z * block) :=
  map (fun j => (B j, V (B j))) (zseq m).

Lemma in_zseq m x : In x (zseq m) <-> 0 <= x < m.
Proof. unfold zseq. rewrite in_zrange. lia. Qed.

Lemma payloads_at m D' i :
  0 <= i < m -> replay (payloads m) D' (S0 + i + 1) = V (B i).
Proof.
  intros Hi. apply replay_hit.
  - apply in_map_iff. exists i. split; [reflexivity|]. apply in_zseq. lia.
  - intros v' Hv'. apply in_map_iff in Hv'. destruct Hv' as (j & [= Hj <-] & _).
    f_equal. f_equal. lia.
Qed.

Lemma payloads_off m D' k :
  k <= S0 \/ S0 + m < k -> replay (payloads m) D' k = D' k.
Proof.
  intros Hk. apply replay_miss. intros p Hp. apply in_map_iff in Hp.
  destruct Hp as (j & <- & Hj). apply in_zseq in Hj. cbn. lia.
Qed.

Lemma homes_at m D' i :
  0 <= i < m -> replay (homes m) D' (B i) = V (B i).
Proof.
  intros Hi. apply replay_hit.
  - apply in_map_iff. exists i. split; [reflexivity|]. apply in_zseq. lia.
  - intros v' Hv'. apply in_map_iff in Hv'. destruct Hv' as (j & [= Hj <-] & _).
    now rewrite Hj.
Qed.

Lemma homes_off m D' k :
  (forall i, 0 <= i < m -> k <> B i) -> replay (homes m) D' k = D' k.
Proof.
  intros Hk. apply replay_miss. intros p Hp. apply in_map_iff in Hp.
  destruct Hp as (j & <- & Hj). apply in_zseq in Hj. cbn. intros e. now apply (Hk j).
Qed.

Definition trace : list (Z * block) :=
  payloads n ++ [(S0, h)] ++ homes n ++ [(S0, z)].

Lemma firstn_zseq (m : nat) (k : Z) :
  0 <= k -> (m <= Z.to_nat k)%nat ->
  forall f : Z -> Z * block, firstn m (map f (zseq k)) = map f (zseq (Z.of_nat m)).
Proof.
  intros Hk Hm f. rewrite firstn_map. unfold zseq. rewrite firstn_zrange.
  rewrite Nat.min_l by exact Hm. now rewrite Nat2Z.id.
Qed.

Lemma length_zseq k : List.length (zseq k) = Z.to_nat k.
Proof.
  unfold zseq. generalize 0. induction (Z.to_nat k) as [|x IH]; intros i; cbn; [reflexivity|].
  now rewrite IH.
Qed.

(** The three kinds of prefix: before the header is written, after it, and
    the whole trace. *)
Lemma prefix_cases (m : nat) :
  let N := Z.to_nat n in
  ((m <= N)%nat /\ firstn m trace = payloads (Z.of_nat m)) \/
  ((N < m <= 2 * N + 1)%nat /\
   firstn m trace = payloads n ++ [(S0, h)] ++ homes (Z.of_nat (m - N - 1))) \/
  ((2 * N + 1 < m)%nat /\ firstn m trace = trace).
Proof.
  intros N.
  assert (HlA : List.length (payloads n) = N)
    by (unfold payloads; now rewrite length_map, length_zseq).
  assert (HlH : List.length (homes n) = N)
    by (unfold homes; now rewrite length_map, length_zseq).
  destruct (Nat.le_gt_cases m N) as [H1|H1]; [left|right].
  - split; [exact H1|]. unfold trace. rewrite firstn_app, HlA.
    replace (m - N)%nat with 0%nat by lia. cbn [firstn]. rewrite app_nil_r.
    unfold payloads. now apply firstn_zseq.
  - destruct (Nat.le_gt_cases m (2 * N + 1)) as [H2|H2]; [left|right].
    + split; [lia|]. unfold trace. rewrite firstn_app, HlA.
      rewrite firstn_all2 by lia. f_equal.
      destruct (m - N)%nat as [|q] eqn:Eq; [lia|]. cbn [app firstn]. f_equal.
      rewrite firstn_app, HlH. replace (q - N)%nat with 0%nat by lia.
      cbn [firstn]. rewrite app_nil_r.
      replace (S q - 1)%nat with q by lia.
      unfold homes. apply firstn_zseq; [exact n_pos|lia].
    + split; [exact H2|]. apply firstn_all2. unfold trace.
      rewrite !length_app, HlA, HlH. cbn. lia.
Qed.

(** The disk before the commit point: only log blocks differ. *)
Lemma before_commit_point m k :
  0 <= m <= n -> k <= S0 \/ S0 + n < k -> replay (payloads m) D k = D k.
Proof. intros Hm Hk. apply payloads_off. lia. Qed.

(** The disk past the commit point, with [m] home blocks installed. *)
Lemma past_commit_point m :
  let w := payloads n ++ [(S0, h)] ++ homes m in
  0 <= m <= n ->
  replay w D S0 = h /\
  (forall i, 0 <= i < n -> replay w D (S0 + i + 1) = V (B i)) /\
  (forall i, 0 <= i < m -> replay w D (B i) = V (B i)) /\
  (forall k, k < S0 \/ S0 + n < k -> (forall i, 0 <= i < n -> k <> B i) ->
     replay w D k = D k).
Proof.
  intros w Hm. unfold w. rewrite !replay_app.
  split; [|split; [|split]].
  - rewrite homes_off by (intros i Hi e; specialize (homes_outside i); lia).
    cbn. unfold upd. now rewrite Z.eqb_refl.
  - intros i Hi.
    rewrite homes_off by (intros j Hj e; specialize (homes_outside j); lia).
    cbn. unfold upd. destruct (Z.eqb_spec (S0 + i + 1) S0); [lia|].
    now apply payloads_at.
  - intros i Hi. now apply homes_at.
  - intros k Hk Hnot. rewrite homes_off by (intros i Hi; apply Hnot; lia).
    cbn. unfold upd. destruct (Z.eqb_spec k S0); [lia|].
    apply payloads_off. lia.
Qed.

(** The disk after the whole trace. *)
Lemma after_commit :
  replay trace D S0 = z /\
  (forall i, 0 <= i < n -> replay trace D (B i) = V (B i)) /\
  (forall k, k < S0 \/ S0 + n < k -> (forall i, 0 <= i < n -> k <> B i) ->
     replay trace D k = D k).
Proof.
  unfold trace.
  replace (payloads n ++ [(S0, h)] ++ homes n ++ [(S0, z)])
    with ((payloads n ++ [(S0, h)] ++ homes n) ++ [(S0, z)])
    by (now rewrite <- !app_assoc).
  destruct (past_commit_point n ltac:(lia)) as (_ & _ & Hhome & Hrest).
  split; [|split].
  - rewrite replay_app. cbn. unfold upd. now rewrite Z.eqb_refl.
  - intros i Hi. rewrite replay_app. cbn. unfold upd.
    destruct (Z.eqb_spec (B i) S0); [specialize (homes_outside i); lia|].
    now apply Hhome.
  - intros k Hk Hnot. rewrite replay_app. cbn. unfold upd.
    destruct (Z.eqb_spec k S0); [lia|]. now apply Hrest.
Qed.

End Prefix.

(** [recover_from_log] when the header on disk records no transaction. *)
Lemma recover_nothing (c : kstate) :
  let S := Lg.start (log c) in
  (forall k, bheld c k = false) -> hdr_n (view c S) = 0 ->
  List.length (Lg.block (Lg.lh (log c))) = Z.to_nat LOGSIZE ->
  exists c',
    recover_from_log c = Ret (tt, c') /\ hdr_n (disk c' S) = 0 /\
    Lg.n (Lg.lh (log c')) = 0 /\ forall k, k <> S -> disk c' k = disk c k.
Proof.
  intros S Hh Hn Hlen.
  pose proof (recover_from_log_run c) as Hrec. cbv zeta in Hrec. fold S in Hrec.
  rewrite Hn in Hrec.
  destruct Hrec as (c' & E & _ & Hhdr & Hrest & Hmem & _);
    [exact Hh|unfold LOGSIZE; lia|exact Hlen|intros; lia|intros; lia|].
  exists c'. split; [exact E|]. split; [exact Hhdr|]. split; [exact Hmem|].
  intros k Hk. apply Hrest; [exact Hk|intros; lia].
Qed.



(** The last operation of a transaction about to end: blocks 60 and 61 are
    logged, their buffers hold new contents, the disk is still blank. *)
Definition dirty_sample : kstate :=
  mkstate (fun _ => zero_block)
          (fun k => (k =? 60) || (k =? 61))
          (fun k => if k =? 60 then put8 zero_block 0 7
                    else if k =? 61 then put8 zero_block 0 9 else zero_block)
          (fun k => if (k =? 60) || (k =? 61) then 1 else 0)
          (fun _ => false) [] (sample_log 1 [60; 61]) sample_sb
          (fun _ => free_inode) (fun _ _ => true) 0%nat.

Lemma dirty_sample_homes j :
  0 <= j < 2 -> lh_block (log dirty_sample) j = 60 + j.
Proof.
  intros Hj. assert (Hc : j = 0 \/ j = 1) by lia. destruct Hc as [-> | ->]; reflexivity.
Qed.



(** ** The buffers of the bucketed cache *)

From Stdlib Require Import Permutation.

Module BioSafety.
Import Bio.

(** What either scan of bucket [key] does to a node: a node that caches the
    block gets one more reference. *)
Definition touch (d b : Z) (x : buf) : buf := if is_block d b x then bump x else x.

Lemma scan_fast_chain d b key l : fst (scan_fast d b key l) = map (touch d b) l.
Proof.
  induction l as [|x l IH]; [reflexivity|]. cbn [scan_fast map].
  destruct (scan_fast d b key l) as [r ev]. cbn [fst] in IH. subst r.
  change (touch d b x) with (if is_block d b x then bump x else x).
  now destruct (is_block d b x).
Qed.

Lemma scan_again_chain d b key l : fst (scan_again d b key l) = map (touch d b) l.
Proof.
  induction l as [|x l IH]; [reflexivity|]. cbn [scan_again map].
  destruct (scan_again d b key l) as [r ev]. cbn [fst] in IH. subst r.
  change (touch d b x) with (if is_block d b x then bump x else x).
  now destruct (is_block d b x).
Qed.

(** The chains of the buckets, in bucket order. *)
Definition chains (bc : bcache) : list (list buf) := map chain (bufmap bc).

Lemma all_bufs_chains bc : all_bufs bc = List.concat (chains bc).
Proof. unfold all_bufs, chains. apply flat_map_concat_map. Qed.

Lemma chain_at bc i : chain (bucket_at bc i) = nth i (chains bc) [].
Proof. unfold bucket_at, chains. now rewrite <- (map_nth chain). Qed.

Lemma map_set_nth {A B} (f : A -> B) i x l :
  map f (set_nth i x l) = set_nth i (f x) (map f l).
Proof.
  revert i. induction l as [|h t IH]; intros [|i]; cbn; try reflexivity.
  now rewrite IH.
Qed.

Lemma chains_set_chain bc i c : chains (set_chain bc i c) = set_nth i c (chains bc).
Proof. unfold chains, set_chain. cbn [bufmap]. now rewrite map_set_nth. Qed.

Lemma nth_set_nth_eq {A} i (x d : A) l :
  (i < List.length l)%nat -> nth i (set_nth i x l) d = x.
Proof.
  revert i. induction l as [|h t IH]; intros [|i] H; cbn in *; try lia; [reflexivity|].
  apply IH. lia.
Qed.

Lemma set_nth_twice {A} i (x y : A) l : set_nth i x (set_nth i y l) = set_nth i x l.
Proof.
  revert i. induction l as [|h t IH]; intros [|i]; cbn; try reflexivity.
  now rewrite IH.
Qed.

(** Taking one chain out of the cache. *)
Lemma perm_extract (L : list (list buf)) i :
  (i < List.length L)%nat ->
  Permutation (List.concat L) (nth i L [] ++ List.concat (set_nth i [] L)).
Proof.
  revert i. induction L as [|h t IH]; intros [|i] H; cbn in *; try lia.
  - reflexivity.
  - rewrite (IH i) at 1 by lia.
    rewrite !app_assoc. apply Permutation_app_tail. apply Permutation_app_comm.
Qed.

Lemma perm_set (L : list (list buf)) i c :
  (i < List.length L)%nat ->
  Permutation (List.concat (set_nth i c L)) (c ++ List.concat (set_nth i [] L)).
Proof.
  intros H. rewrite (perm_extract (set_nth i c L) i) by (now rewrite length_set_nth).
  rewrite nth_set_nth_eq by exact H. now rewrite set_nth_twice.
Qed.

Lemma perm_remove (l : list buf) j :
  (j < List.length l)%nat -> Permutation l (nth j l nobuf :: remove_nth j l).
Proof.
  revert j. induction l as [|h t IH]; intros [|j] H; cbn in *; try lia; [reflexivity|].
  rewrite (IH j) at 1 by lia. apply perm_swap.
Qed.

Lemma perm_replace (l : list buf) j x :
  (j < List.length l)%nat -> Permutation (set_nth j x l) (x :: remove_nth j l).
Proof.
  revert j. induction l as [|h t IH]; intros [|j] H; cbn in *; try lia; [reflexivity|].
  rewrite (IH j) by lia. apply perm_swap.
Qed.

(** A candidate the eviction scan may hold: a node of a chain whose
    [refcnt] is zero. *)
Definition free_node (bc : bcache) (c : candidate) : Prop :=
  (snd c < List.length (chain (bucket_at bc (fst c))))%nat /\ refcnt (cand_buf bc c) = 0.

Lemma scan_bucket_none bc i pred l j bl nb :
  fst (scan_bucket bc i pred l j bl nb) = None ->
  bl = None /\ forall x, In x l -> refcnt x <> 0.
Proof.
  revert pred j bl nb. induction l as [|x l IH]; intros pred j bl nb H; cbn in H.
  - split; [exact H|]. intros x [].
  - destruct (refcnt x =? 0) eqn:Ex; cbn [andb] in H.
    + destruct bl as [c|].
      * destruct (lastuse pred <? lastuse (cand_buf bc c)).
        -- apply IH in H. destruct H as [H _]. discriminate.
        -- apply IH in H. destruct H as [H _]. discriminate.
      * apply IH in H. destruct H as [H _]. discriminate.
    + apply IH in H. destruct H as [Hbl Hall]. split; [exact Hbl|].
      intros y [<-|Hy]; [|now apply Hall]. apply Z.eqb_neq. exact Ex.
Qed.

Lemma scan_bucket_some bc i pred l j bl nb c nb' :
  scan_bucket bc i pred l j bl nb = (Some c, nb') ->
  (bl = Some c /\ nb' = nb) \/
  (fst c = i /\ nb' = true /\ (j <= snd c < j + List.length l)%nat /\
   refcnt (nth (snd c - j) l nobuf) = 0).
Proof.
  revert pred j bl nb. induction l as [|x l IH]; intros pred j bl nb H; cbn in H.
  - injection H as -> ->. now left.
  - assert (Hnext : forall bl1 nb1,
               scan_bucket bc i x l (S j) bl1 nb1 = (Some c, nb') ->
               (bl1 = Some c /\ nb' = nb1) \/
               (fst c = i /\ nb' = true /\ (j <= snd c < j + List.length (x :: l))%nat /\
                refcnt (nth (snd c - j) (x :: l) nobuf) = 0)).
    { intros bl1 nb1 H1. apply IH in H1. destruct H1 as [H1|(H1 & H2 & H3 & H4)]; [now left|].
      right. split; [exact H1|]. split; [exact H2|]. cbn [List.length]. split; [lia|].
      replace (snd c - j)%nat with (S (snd c - S j)) by lia. exact H4. }
    destruct (refcnt x =? 0) eqn:Ex; cbn [andb] in H.
    + assert (Htake : scan_bucket bc i x l (S j) (Some (i, j)) true = (Some c, nb') ->
                      fst c = i /\ nb' = true /\ (j <= snd c < j + List.length (x :: l))%nat /\
                      refcnt (nth (snd c - j) (x :: l) nobuf) = 0).
      { intros H1. apply Hnext in H1. destruct H1 as [(H1 & H2)|H1]; [|exact H1].
        injection H1 as <-. cbn [fst snd List.length]. split; [reflexivity|].
        split; [exact H2|]. split; [lia|]. rewrite Nat.sub_diag. cbn. now apply Z.eqb_eq. }
      destruct bl as [c0|].
      * destruct (lastuse pred <? lastuse (cand_buf bc c0)).
        -- right. now apply Htake.
        -- now apply Hnext.
      * right. now apply Htake.
    + now apply Hnext.
Qed.

(** The outer loop: a candidate it returns is a free node of the bucket
    whose lock is held. *)
Lemma scan_all_some bc k i bl hb ev c hb' ev' :
  (forall c0, bl = Some c0 -> free_node bc c0 /\ hb = Z.of_nat (fst c0)) ->
  scan_all bc k i bl hb ev = (Some c, hb', ev') ->
  free_node bc c /\ hb' = Z.of_nat (fst c).
Proof.
  revert i bl hb ev. induction k as [|k IH]; intros i bl hb ev Hinv H; cbn [scan_all] in H.
  - injection H as -> -> _. now apply Hinv.
  - cbv zeta in H.
    destruct (scan_bucket bc i (head (bucket_at bc i)) (chain (bucket_at bc i)) 0 bl false)
      as [bl1 nb1] eqn:Es.
    assert (Hinv1 : forall hb1, (nb1 = false -> hb1 = hb) -> (nb1 = true -> hb1 = Z.of_nat i) ->
                    forall c0, bl1 = Some c0 -> free_node bc c0 /\ hb1 = Z.of_nat (fst c0)).
    { intros hb1 Hf Ht c0 ->. apply scan_bucket_some in Es.
      destruct Es as [(-> & ->)|(H1 & -> & H3 & H4)].
      - rewrite Hf by reflexivity. now apply Hinv.
      - rewrite Ht by reflexivity. subst i. split; [|reflexivity].
        rewrite Nat.sub_0_r in H4. split; [lia|exact H4]. }
    destruct nb1; cbn [negb] in H.
    + eapply IH; [|exact H]. apply Hinv1; [discriminate|reflexivity].
    + eapply IH; [|exact H]. apply Hinv1; [reflexivity|discriminate].
Qed.

Lemma scan_all_none bc k i bl hb ev hb' ev' :
  scan_all bc k i bl hb ev = (None, hb', ev') ->
  bl = None /\
  forall i', (i <= i' < i + k)%nat -> forall x, In x (chain (bucket_at bc i')) -> refcnt x <> 0.
Proof.
  revert i bl hb ev. induction k as [|k IH]; intros i bl hb ev H; cbn [scan_all] in H.
  - injection H as -> _ _. split; [reflexivity|]. intros; lia.
  - cbv zeta in H.
    destruct (scan_bucket bc i (head (bucket_at bc i)) (chain (bucket_at bc i)) 0 bl false)
      as [bl1 nb1] eqn:Es.
    assert (Hrec : bl1 = None /\
                   forall i', (S i <= i' < S i + k)%nat ->
                   forall x, In x (chain (bucket_at bc i')) -> refcnt x <> 0).
    { destruct nb1; cbn [negb] in H; eapply IH; exact H. }
    destruct Hrec as (-> & Hrest).
    pose proof (scan_bucket_none bc i (head (bucket_at bc i)) (chain (bucket_at bc i)) 0 bl false)
      as Hb. rewrite Es in Hb. destruct (Hb eq_refl) as (Hbl & Hhere).
    split; [exact Hbl|]. intros i' Hi'.
    destruct (Nat.eq_dec i' i) as [->|Hne]; [exact Hhere|]. apply Hrest. lia.
Qed.

Lemma chains_emit bc ev : chains (emit bc ev) = chains bc.
Proof. reflexivity. Qed.

Lemma touch_bid d b x : bid (touch d b x) = bid x.
Proof. unfold touch. now destruct (is_block d b x). Qed.

Lemma touch_other d b x : is_block d b x = false -> touch d b x = x.
Proof. unfold touch. now intros ->. Qed.

(** The chains on which the eviction scan runs: both scans have been over
    bucket [key]. *)
Definition scanned (bc : bcache) (d b : Z) : list (list buf) :=
  let k := Z.to_nat (BUFMAP_HASH d b) in
  set_nth k (map (touch d b) (map (touch d b) (nth k (chains bc) []))) (chains bc).

Lemma hash_range d b : 0 <= BUFMAP_HASH d b < NBUFMAP_BUCKET.
Proof. unfold BUFMAP_HASH. apply Z.mod_pos_bound. reflexivity. Qed.

(** The two ways [bget] ends: with no free node anywhere it panics;
    otherwise it recycles one free node [v] and keeps every other node. *)
Lemma bget_cases bc d b :
  List.length (bufmap bc) = Z.to_nat NBUFMAP_BUCKET ->
  (bget bc d b = Panic "bget: no buffers" /\
   forall x, In x (List.concat (scanned bc d b)) -> refcnt x <> 0) \/
  (exists v R bc',
     bget bc d b = Ret (bid v, bc') /\ refcnt v = 0 /\
     Permutation (List.concat (scanned bc d b)) (v :: R) /\
     Permutation (all_bufs bc') (recycle d b v :: R)).
Proof.
  intros Hlen.
  pose proof (hash_range d b) as Hkey.
  assert (HlenC : List.length (chains bc) = 13%nat)
    by (unfold chains; rewrite length_map; exact Hlen).
  unfold bget. cbv zeta.
  set (key := BUFMAP_HASH d b) in *. set (k := Z.to_nat key).
  assert (Hk : (k < 13)%nat) by (unfold k; change NBUFMAP_BUCKET with 13 in Hkey; lia).
  match goal with
  | |- context [scan_fast d b key ?l] =>
      pose proof (scan_fast_chain d b key l) as H1; destruct (scan_fast d b key l) as [c1 ev1]
  end.
  cbn [fst] in H1.
  match goal with
  | |- context [scan_again d b key ?l] =>
      pose proof (scan_again_chain d b key l) as H2; destruct (scan_again d b key l) as [c2 ev2]
  end.
  cbn [fst] in H2.
  match goal with
  | |- context [scan_all ?x _ _ _ _ _] => set (bcS := x)
  end.
  assert (HS : chains bcS = scanned bc d b).
  { unfold bcS. rewrite !chains_emit, chains_set_chain, !chains_emit, chains_set_chain, chains_emit.
    rewrite set_nth_twice. unfold scanned. fold key. fold k. f_equal.
    rewrite H2, !chain_at, !chains_emit, chains_set_chain, chains_emit.
    rewrite nth_set_nth_eq by lia. rewrite H1, chain_at, chains_emit. reflexivity. }
  assert (HlenS : List.length (chains bcS) = 13%nat).
  { rewrite HS. unfold scanned. now rewrite length_set_nth. }
  destruct (scan_all bcS (Z.to_nat NBUFMAP_BUCKET) 0 None (u32 (-1)) []) as [[bl hb] ev3] eqn:Es.
  destruct bl as [c|].
  - right. apply scan_all_some in Es; [|intros c0 [=]].
    destruct Es as ((Hj & Hfree) & Hhb).
    unfold cand_buf in Hfree. rewrite chain_at in Hj, Hfree.
    destruct c as [i j]. cbn [fst snd] in *.
    set (G := chains bcS) in *.
    assert (Hi : (i < 13)%nat).
    { destruct (Nat.lt_ge_cases i 13) as [Hlt|Hge]; [exact Hlt|].
      rewrite nth_overflow in Hj by lia. cbn in Hj. lia. }
    unfold cand_buf. cbn [fst snd]. rewrite !chain_at, !chains_emit. fold G.
    set (v := nth j (nth i G []) nobuf) in *.
    exists v, (remove_nth j (nth i G []) ++ List.concat (set_nth i [] G)).
    eexists. split; [reflexivity|]. split; [exact Hfree|].
    rewrite <- HS. fold G.
    split.
    + rewrite (perm_extract G i) by lia.
      rewrite (perm_remove (nth i G []) j Hj) at 1. reflexivity.
    + rewrite all_bufs_chains.
      destruct (hb =? key) eqn:Eh; cbn [negb].
      * repeat (rewrite ?chains_emit, ?chains_set_chain, ?chain_at). fold G.
        rewrite perm_set by lia. rewrite perm_replace by exact Hj. reflexivity.
      * apply Z.eqb_neq in Eh.
        assert (Hik : i <> k) by (intros ->; apply Eh; rewrite Hhb; unfold k; lia).
        repeat (rewrite ?chains_emit, ?chains_set_chain, ?chain_at). fold G.
        rewrite perm_set by (rewrite length_set_nth; lia).
        cbn [app]. apply perm_skip.
        rewrite <- (perm_extract (set_nth i (remove_nth j (nth i G [])) G) k)
          by (rewrite length_set_nth; lia).
        apply perm_set. lia.
  - left. split; [reflexivity|].
    apply scan_all_none in Es. destruct Es as (_ & Hall).
    rewrite <- HS. intros x Hx. apply in_concat in Hx. destruct Hx as (l & Hl & Hx).
    apply (In_nth _ _ []) in Hl. destruct Hl as (i & Hi & <-).
    apply (Hall i); [change (Z.to_nat NBUFMAP_BUCKET) with 13%nat; lia|].
    now rewrite chain_at.
Qed.

(** The nodes before and after the two scans of bucket [key]. *)
Lemma scanned_perm bc d b :
  List.length (bufmap bc) = Z.to_nat NBUFMAP_BUCKET ->
  exists Ck rest,
    Permutation (all_bufs bc) (Ck ++ rest) /\
    Permutation (List.concat (scanned bc d b))
                (map (touch d b) (map (touch d b) Ck) ++ rest).
Proof.
  intros Hlen. pose proof (hash_range d b) as Hkey.
  assert (Hk : (Z.to_nat (BUFMAP_HASH d b) < List.length (chains bc))%nat).
  { unfold chains. rewrite length_map, Hlen. change NBUFMAP_BUCKET with 13 in *. lia. }
  exists (nth (Z.to_nat (BUFMAP_HASH d b)) (chains bc) []),
         (List.concat (set_nth (Z.to_nat (BUFMAP_HASH d b)) [] (chains bc))).
  split.
  - rewrite all_bufs_chains. now apply perm_extract.
  - unfold scanned. cbv zeta. now apply perm_set.
Qed.

Lemma in_scanned bc d b y :
  List.length (bufmap bc) = Z.to_nat NBUFMAP_BUCKET ->
  In y (all_bufs bc) -> is_block d b y = false -> In y (List.concat (scanned bc d b)).
Proof.
  intros Hlen Hy Hno.
  destruct (scanned_perm bc d b Hlen) as (Ck & rest & P0 & P1).
  apply (Permutation_in _ P0) in Hy. apply (Permutation_in _ (Permutation_sym P1)).
  apply in_app_or in Hy. apply in_or_app. destruct Hy as [Hy|Hy]; [left|now right].
  apply in_map_iff. exists y. split; [now rewrite touch_other|].
  apply in_map_iff. exists y. split; [now rewrite touch_other|exact Hy].
Qed.

(** X16: [bget] never takes a buffer that is in use. When it returns buffer
    [i], the cache holds a buffer [i] assigned to the block with
    [refcnt = 1] and [valid = 0], and every buffer that had [refcnt != 0]
    and was not a buffer of the wanted block is still in the cache with all
    its fields as they were. *)
Theorem bget_spares_used bc d b i bc' :
  List.length (bufmap bc) = Z.to_nat NBUFMAP_BUCKET ->
  bget bc d b = Ret (i, bc') ->
  (exists x, In x (all_bufs bc') /\ bid x = i /\ dev x = d /\ blockno x = b /\
             refcnt x = 1 /\ valid x = 0) /\
  (forall y, In y (all_bufs bc) -> refcnt y <> 0 -> is_block d b y = false ->
             In y (all_bufs bc')).
Proof.
  intros Hlen Hget.
  destruct (bget_cases bc d b Hlen) as [(Hp & _)|(v & R & bc0 & Hr & Hfree & P0 & P1)];
    [rewrite Hp in Hget; discriminate|].
  rewrite Hr in Hget. injection Hget as <- <-.
  split.
  - exists (recycle d b v). split; [|now repeat split].
    apply (Permutation_in _ (Permutation_sym P1)). now left.
  - intros y Hy Hused Hno.
    apply (in_scanned bc d b y Hlen) in Hy; [|exact Hno].
    apply (Permutation_in _ P0) in Hy.
    apply (Permutation_in _ (Permutation_sym P1)).
    destruct Hy as [<-|Hy]; [contradiction|now right].
Qed.

(** X17: [bget] neither loses nor duplicates a buffer: the buffers linked
    into the buckets after a [bget] that returns are, as slots of
    [bcache.buf], the ones linked before. *)
Theorem bget_keeps_buffers bc d b i bc' :
  List.length (bufmap bc) = Z.to_nat NBUFMAP_BUCKET ->
  bget bc d b = Ret (i, bc') ->
  Permutation (map bid (all_bufs bc')) (map bid (all_bufs bc)).
Proof.
  intros Hlen Hget.
  destruct (bget_cases bc d b Hlen) as [(Hp & _)|(v & R & bc0 & Hr & Hfree & P0 & P1)];
    [rewrite Hp in Hget; discriminate|].
  rewrite Hr in Hget. injection Hget as _ <-.
  destruct (scanned_perm bc d b Hlen) as (Ck & rest & Q0 & Q1).
  rewrite (Permutation_map bid P1), (Permutation_map bid Q0).
  change (map bid (recycle d b v :: R)) with (map bid (v :: R)).
  rewrite <- (Permutation_map bid P0), (Permutation_map bid Q1).
  rewrite !map_app, !map_map.
  apply Permutation_app_tail.
  erewrite map_ext; [reflexivity|]. intros x. cbn. now rewrite !touch_bid.
Qed.

(** X18: on a miss, [bget] panics exactly when every buffer is in use: if
    no buffer caches the block, the call ends in [panic("bget: no
    buffers")] if and only if no buffer of the cache has [refcnt == 0]. *)
Theorem bget_no_buffers bc d b :
  List.length (bufmap bc) = Z.to_nat NBUFMAP_BUCKET ->
  (forall y, In y (all_bufs bc) -> is_block d b y = false) ->
  (bget bc d b = Panic "bget: no buffers" <->
   forall y, In y (all_bufs bc) -> refcnt y <> 0).
Proof.
  intros Hlen Hmiss.
  destruct (scanned_perm bc d b Hlen) as (Ck & rest & Q0 & Q1).
  assert (Hsame : Permutation (List.concat (scanned bc d b)) (all_bufs bc)).
  { rewrite Q1, Q0. apply Permutation_app_tail.
    rewrite map_map. erewrite map_ext_in; [rewrite map_id; reflexivity|].
    intros x Hx. cbn.
    assert (Hno : is_block d b x = false).
    { apply Hmiss. apply (Permutation_in _ (Permutation_sym Q0)). apply in_or_app. now left. }
    rewrite (touch_other d b x Hno). exact (touch_other d b x Hno). }
  destruct (bget_cases bc d b Hlen) as [(Hp & Hall)|(v & R & bc0 & Hr & Hfree & P0 & _)].
  - split; [|intros _; exact Hp].
    intros _ y Hy. apply Hall. apply (Permutation_in _ (Permutation_sym Hsame)). exact Hy.
  - split; [rewrite Hr; discriminate|].
    intros Hall. exfalso. apply (Hall v); [|exact Hfree].
    apply (Permutation_in _ Hsame). apply (Permutation_in _ (Permutation_sym P0)). now left.
Qed.

(** Buffer 0 caches block (1, 13) and is in use; buffer 1 is free. *)
Definition busy_cache : bcache :=
  cache_of [[mkbuf 0 1 1 13 2 5; mkbuf 1 1 1 26 0 3]; []; []; []; []; []; []; []; [];
            []; []; []; []].

Lemma bget_spares_used_witness :
  exists bc',
    bget busy_cache 1 7 = Ret (1%nat, bc') /\
    (exists x, In x (all_bufs bc') /\ bid x = 1%nat /\ dev x = 1 /\ blockno x = 7 /\
               refcnt x = 1 /\ valid x = 0) /\
    (forall y, In y (all_bufs busy_cache) -> refcnt y <> 0 -> is_block 1 7 y = false ->
               In y (all_bufs bc')).
Proof.
  eexists. split; [vm_compute; reflexivity|].
  apply (bget_spares_used busy_cache 1 7 1); [reflexivity|vm_compute; reflexivity].
Defined.

Lemma bget_keeps_buffers_witness :
  exists bc',
    bget busy_cache 1 7 = Ret (1%nat, bc') /\
    Permutation (map bid (all_bufs bc')) (map bid (all_bufs busy_cache)).
Proof.
  eexists. split; [vm_compute; reflexivity|].
  apply (bget_keeps_buffers busy_cache 1 7 1); [reflexivity|vm_compute; reflexivity].
Defined.

Lemma bget_no_buffers_witness :
  bget busy_cache 1 7 = Panic "bget: no buffers" <->
  forall y, In y (all_bufs busy_cache) -> refcnt y <> 0.
Proof.
  apply (bget_no_buffers busy_cache 1 7); [reflexivity|].
  intros y [<-|[<-|[]]]; reflexivity.
Defined.

End BioSafety.

(** ** Path lookup at its edges *)

(** [iput] of an entry that is not the last reference to an unlinked,
    loaded inode: one reference less, nothing else. *)
Lemma iput_drops st ip :
  Ino.ref (icache st ip) <> 1 \/ Ino.valid (icache st ip) = 0 \/ Ino.nlink (icache st ip) <> 0 ->
  iput ip st =
  Ret (tt, set_icache st (updn (icache st) ip
                            (with_ref (Ino.ref (icache st ip) - 1) (icache st ip)))).
Proof.
  intros H. unfold iput. rewrite bind_get.
  replace ((Ino.ref (icache st ip) =? 1) && negb (Ino.valid (icache st ip) =? 0)
           && (Ino.nlink (icache st ip) =? 0)) with false; [reflexivity|].
  symmetry. rewrite !andb_false_iff, negb_false_iff, !Z.eqb_neq, Z.eqb_eq. tauto.
Qed.

Lemma iget_lock dev inum st ip st' :
  iget dev inum st = Ret (ip, st') ->
  forall j, Ino.lock (icache st' j) = Ino.lock (icache st j).
Proof.
  unfold iget. rewrite bind_get.
  destruct (iget_scan (icache st) dev inum NINODE 0 None) as [[a|] [e|]];
    cbn; intros [= <- <-] j; cbn; try discriminate;
    (destruct (Nat.eq_dec j a) as [->|Hne] || destruct (Nat.eq_dec j e) as [->|Hne]);
    rewrite ?updn_same, ?updn_other by assumption; reflexivity.
Qed.

Lemma namex_loop_end fuel ip path np name :
  skipelem path name = None ->
  namex_loop fuel ip path np name =
  if negb (np =? 0) then iput ip ;; ret (None, name) else ret (Some ip, name).
Proof. intros H. destruct fuel; cbn [namex_loop]; now rewrite H. Qed.

(** X19: a path that is only slashes names the root. If an entry of the
    inode cache holds the root inode or is free, [namei] of such a path
    returns an entry for inode [(ROOTDEV, ROOTINO)] with one reference more
    than the entry had, without locking it or reading the disk, and leaves
    every other entry alone; [nameiparent] of the same path returns 0, leaves
    [name] untouched and every reference count and lock as it was. *)
Theorem namex_bare_root (path name : list Z) (st : kstate) :
  hd 0 path = SLASH -> skipelem path name = None ->
  (exists j, (j < NINODE)%nat /\
             (caches (icache st) ROOTDEV ROOTINO j \/ Ino.ref (icache st j) = 0)) ->
  (exists ip st',
     namei path name st = Ret (Some ip, st') /\ (ip < NINODE)%nat /\
     Ino.dev (icache st' ip) = ROOTDEV /\ Ino.inum (icache st' ip) = ROOTINO /\
     Ino.ref (icache st' ip) = Ino.ref (icache st ip) + 1 /\
     Ino.lock (icache st' ip) = Ino.lock (icache st ip) /\
     (forall j, j <> ip -> icache st' j = icache st j) /\
     writes st' = writes st /\ bheld st' = bheld st) /\
  (exists st',
     nameiparent path name st = Ret ((None, name), st') /\
     (forall j, Ino.ref (icache st' j) = Ino.ref (icache st j)) /\
     (forall j, Ino.lock (icache st' j) = Ino.lock (icache st j)) /\
     writes st' = writes st /\ bheld st' = bheld st).
Proof.
  intros Hroot Hskip (j0 & Hj0 & Hslot).
  pose proof (iget_cases ROOTDEV ROOTINO st) as Hget.
  destruct (iget ROOTDEV ROOTINO st) as [[ip s1]|msg| |] eqn:Eg; try contradiction.
  2:{ destruct Hget as (_ & Hfull). destruct (Hfull j0 Hj0) as (Hno & Hnz).
      destruct Hslot as [Hc|Hz]; [now apply Hno in Hc|contradiction]. }
  destruct Hget as (Hip & _ & Hother & Hcase & _ & _ & Hh & _ & Hw & _).
  assert (Hfacts : Ino.dev (icache s1 ip) = ROOTDEV /\ Ino.inum (icache s1 ip) = ROOTINO /\
                   Ino.ref (icache s1 ip) = Ino.ref (icache st ip) + 1 /\
                   Ino.lock (icache s1 ip) = Ino.lock (icache st ip) /\
                   (Ino.ref (icache s1 ip) <> 1 \/ Ino.valid (icache s1 ip) = 0)).
  { destruct Hcase as [((Hr & Hd & Hi) & He)|(_ & Hz & _ & Hd & Hi & Hr & Hv)].
    - rewrite He. cbn. repeat split; try assumption. left. lia.
    - pose proof (iget_lock ROOTDEV ROOTINO st ip s1 Eg ip) as Hl.
      repeat split; try assumption; [lia|now right]. }
  destruct Hfacts as (Hd & Hi & Hr & Hl & Hkeep).
  assert (Hstart : forall np,
             namex path np name st = namex_loop (List.length path) ip path np name s1).
  { intros np. unfold namex. rewrite Hroot, Z.eqb_refl. now rewrite (bind_ret _ _ _ _ _ Eg). }
  split.
  - exists ip, s1. unfold namei, bind. rewrite Hstart, namex_loop_end by exact Hskip.
    cbn. repeat split; assumption.
  - unfold nameiparent. rewrite Hstart, namex_loop_end by exact Hskip. cbn [Z.eqb negb].
    rewrite (bind_ret _ _ _ _ _ (iput_drops s1 ip ltac:(tauto))).
    eexists. split; [reflexivity|]. cbn.
    split; [|split; [|split; assumption]].
    + intros j. destruct (Nat.eq_dec j ip) as [->|Hne].
      * rewrite updn_same. cbn. lia.
      * rewrite updn_other by exact Hne. now rewrite Hother.
    + intros j. destruct (Nat.eq_dec j ip) as [->|Hne].
      * rewrite updn_same. cbn. exact Hl.
      * rewrite updn_other by exact Hne. now rewrite Hother.
Qed.

Lemma namex_bare_root_witness :
  (exists ip st',
     namei [SLASH; SLASH] (repeat 0 14) dir_sample = Ret (Some ip, st') /\
     Ino.inum (icache st' ip) = ROOTINO /\
     Ino.ref (icache st' ip) = Ino.ref (icache dir_sample ip) + 1) /\
  (exists st',
     nameiparent [SLASH; SLASH] (repeat 0 14) dir_sample = Ret ((None, repeat 0 14), st') /\
     forall j, Ino.ref (icache st' j) = Ino.ref (icache dir_sample j)).
Proof.
  destruct (namex_bare_root [SLASH; SLASH] (repeat 0 14) dir_sample) as (Hi & Hp).
  - reflexivity.
  - reflexivity.
  - exists 0%nat. split; [unfold NINODE; lia|]. right. reflexivity.
  - split.
    + destruct Hi as (ip & st' & E & _ & _ & Hino & Hr & _).
      exists ip, st'. split; [exact E|]. split; [exact Hino|exact Hr].
    + destruct Hp as (st' & E & Hr & _). exists st'. split; [exact E|exact Hr].
Defined.

(** ** Directory lookup *)

(** The entry at byte offset [off] of a directory, read through the cache. *)
Definition dirent_at (st : kstate) (dp : nat) (off : Z) : list Z :=
  bytes_from (view st (addr_of (icache st dp) (off / BSIZE))) (off mod BSIZE)
             (Z.to_nat DIRENT_SIZE).

(** The test of [dirlookup] on an entry: in use, and the name compares equal. *)
Definition entry_matches (name de : list Z) : bool :=
  negb (de_inum de =? 0) && (namecmp name (de_name de) =? 0).

(** A directory of whole entries whose data is in its direct blocks, all
    mapped, none of them locked. *)
Definition small_dir (st : kstate) (dp : nat) : Prop :=
  let e := icache st dp in
  0 <= Ino.size e <= NDIRECT * BSIZE /\ Ino.size e mod DIRENT_SIZE = 0 /\
  forall bn, 0 <= bn -> bn * BSIZE < Ino.size e ->
    addr_of e bn <> 0 /\ bheld st (addr_of e bn) = false.

Lemma small_dir_unchanged st s' dp : unchanged st s' -> small_dir st dp -> small_dir s' dp.
Proof.
  intros (_ & Hh & _ & _ & _ & _ & _ & Hic & _) (Hs & Hm & Hb). unfold small_dir.
  rewrite Hic. split; [exact Hs|]. split; [exact Hm|].
  intros bn H0 H1. rewrite Hh. now apply Hb.
Qed.

Lemma dirent_at_unchanged st s' dp off :
  unchanged st s' -> dirent_at s' dp off = dirent_at st dp off.
Proof.
  intros (Hv & _ & _ & _ & _ & _ & _ & Hic & _). unfold dirent_at. now rewrite Hic, Hv.
Qed.

Lemma readi_loop_step fuel ip u n tot off dst acc :
  (tot <? n) = true ->
  readi_loop (S fuel) ip u n tot off dst acc =
  (st <- get_state ;;
   addr <- bmap ip (off / BSIZE) ;;
   bp <- bread (Ino.dev (icache st ip)) addr ;;
   let m := Z.min (n - tot) (BSIZE - off mod BSIZE) in
   st1 <- get_state ;;
   if negb (either_copy_ok st1 u dst m)
   then brelse bp ;; ret (u32 (-1), acc)
   else brelse bp ;;
        readi_loop fuel ip u n (tot + m) (off + m) (dst + m)
          (acc ++ bytes_from (bdata st1 bp) (off mod BSIZE) (Z.to_nat m))).
Proof. intros H. cbn [readi_loop]. now rewrite H. Qed.

Lemma readi_loop_done fuel ip u n tot off dst acc :
  (tot <? n) = false -> readi_loop fuel ip u n tot off dst acc = ret (tot, acc).
Proof. intros H. destruct fuel; cbn [readi_loop]; now rewrite H. Qed.

(** [readi] of one entry. *)
Lemma readi_dirent st dp dst off :
  small_dir st dp -> 0 <= off < Ino.size (icache st dp) -> off mod DIRENT_SIZE = 0 ->
  exists s',
    readi dp 0 dst off DIRENT_SIZE st = Ret ((DIRENT_SIZE, dirent_at st dp off), s') /\
    unchanged st s'.
Proof.
  intros (Hs & Hm & Hb) Hoff Ha.
  change DIRENT_SIZE with 16 in *. change (NDIRECT * BSIZE) with 11264 in Hs.
  set (size := Ino.size (icache st dp)) in *.
  assert (Hend : off + 16 <= size).
  { apply Z.mod_divide in Ha, Hm; try lia. destruct Ha as (x & ->), Hm as (y & Hy).
    rewrite Hy in *. lia. }
  assert (Hbn : 0 <= off / BSIZE < NDIRECT).
  { change BSIZE with 1024. change NDIRECT with 11. split; [apply Z.div_pos; lia|].
    apply Z.div_lt_upper_bound; lia. }
  assert (Hin : off mod BSIZE <= 1008).
  { change BSIZE with 1024. apply Z.mod_divide in Ha; try lia. destruct Ha as (x & ->).
    replace 1024 with (16 * 64) by reflexivity.
    rewrite Z.mul_comm, Zmult_mod_distr_l.
    pose proof (Z.mod_pos_bound x 64 ltac:(lia)). lia. }
  destruct (Hb (off / BSIZE)) as (Hnz & Hfree); [lia| |].
  { change BSIZE with 1024. pose proof (Z.mul_div_le off 1024 ltac:(lia)). lia. }
  unfold readi. rewrite bind_get. fold size.
  replace (off >? size) with false by (symmetry; rewrite Z.gtb_ltb; apply Z.ltb_ge; lia).
  rewrite (u32_small (off + 16)) by lia.
  replace (off + 16 <? off) with false by (symmetry; apply Z.ltb_ge; lia).
  replace (off + 16 >? size) with false by (symmetry; rewrite Z.gtb_ltb; apply Z.ltb_ge; lia).
  cbn [orb]. change (Z.to_nat 16) with (S 15).
  assert (Hmap : bmap dp (off / BSIZE) st = Ret (addr_of (icache st dp) (off / BSIZE), st)).
  { unfold bmap. rewrite bind_get.
    replace (off / BSIZE <? NDIRECT) with true by (symmetry; apply Z.ltb_lt; lia).
    apply Z.eqb_neq in Hnz. now rewrite Hnz. }
  destruct (look (Ino.dev (icache st dp)) _ st Hfree) as (s0 & s1 & Eb & Hd0 & Er & Hun).
  assert (Hloop : readi_loop (S 15) dp 0 16 0 off dst [] st
                  = Ret ((16, dirent_at st dp off), s1)).
  { rewrite readi_loop_step by reflexivity. cbv zeta. rewrite bind_get.
    rewrite (bind_ret _ _ _ _ _ Hmap).
    rewrite (bind_ret _ _ _ _ _ Eb). rewrite bind_get.
    unfold either_copy_ok. cbn [Z.eqb negb].
    rewrite (bind_ret _ _ _ _ _ Er).
    replace (Z.min (16 - 0) (BSIZE - off mod BSIZE)) with 16
      by (change BSIZE with 1024 in *; lia).
    rewrite readi_loop_done by reflexivity.
    unfold ret. cbn [app]. rewrite Hd0. reflexivity. }
  rewrite (bind_ret _ _ _ _ _ Hloop).
  exists s1. split; [reflexivity|exact Hun].
Qed.

Lemma dirlookup_loop_step k dp name off st :
  (off <? Ino.size (icache st dp)) = true ->
  dirlookup_loop (S k) dp name off st =
  (r <- readi dp 0 0 off DIRENT_SIZE ;;
   if negb (fst r =? DIRENT_SIZE) then panic "dirlookup read"
   else
     let de := snd r in
     if de_inum de =? 0 then dirlookup_loop k dp name (u32 (off + DIRENT_SIZE))
     else if namecmp name (de_name de) =? 0
     then ip <- iget (Ino.dev (icache st dp)) (de_inum de) ;; ret (Some (ip, off))
     else dirlookup_loop k dp name (u32 (off + DIRENT_SIZE))) st.
Proof. intros H. cbn [dirlookup_loop]. rewrite bind_get. now rewrite H. Qed.

Lemma dirlookup_loop_done k dp name off st :
  (off <? Ino.size (icache st dp)) = false ->
  dirlookup_loop k dp name off st = Ret (None, st).
Proof. intros H. destruct k; cbn [dirlookup_loop]; rewrite bind_get; now rewrite H. Qed.

(** The loop of [dirlookup] from [off], when the first matching entry at or
    after [off] is the one at [t]. *)
Lemma dirlookup_loop_finds name dp t k : forall off st,
  small_dir st dp -> 0 <= off <= t -> t < Ino.size (icache st dp) ->
  off mod DIRENT_SIZE = 0 -> t mod DIRENT_SIZE = 0 ->
  t - off < DIRENT_SIZE * Z.of_nat k ->
  entry_matches name (dirent_at st dp t) = true ->
  (forall o, off <= o < t -> o mod DIRENT_SIZE = 0 ->
     entry_matches name (dirent_at st dp o) = false) ->
  exists s1,
    unchanged st s1 /\
    dirlookup_loop k dp name off st =
    (ip <- iget (Ino.dev (icache st dp)) (de_inum (dirent_at st dp t)) ;;
     ret (Some (ip, t))) s1.
Proof.
  induction k as [|k IH]; intros off st Hdir Hoff Ht Ha Hta Hfuel Hhit Hmiss.
  - change DIRENT_SIZE with 16 in *. lia.
  - rewrite dirlookup_loop_step by (apply Z.ltb_lt; lia).
    destruct (readi_dirent st dp 0 off Hdir ltac:(lia) Ha) as (s1 & Er & Hun).
    rewrite (bind_ret _ _ _ _ _ Er). cbn [fst snd]. rewrite Z.eqb_refl. cbn [negb]. cbv zeta.
    destruct (Z.eq_dec off t) as [->|Hne].
    + unfold entry_matches in Hhit. apply andb_true_iff in Hhit. destruct Hhit as (Hi & Hn).
      apply negb_true_iff in Hi. rewrite Hi, Hn. exists s1. split; [exact Hun|reflexivity].
    + assert (Hnext : off + DIRENT_SIZE <= t).
      { change DIRENT_SIZE with 16 in *. apply Z.mod_divide in Ha, Hta; try lia.
        destruct Ha as (x & ->), Hta as (y & ->). lia. }
      assert (Hu : u32 (off + DIRENT_SIZE) = off + DIRENT_SIZE).
      { apply u32_small. destruct Hdir as (Hs & _).
        change (NDIRECT * BSIZE) with 11264 in Hs. change DIRENT_SIZE with 16 in *. lia. }
      assert (Hgo : dirlookup_loop k dp name (off + DIRENT_SIZE) s1 =
                    (if de_inum (dirent_at st dp off) =? 0
                     then dirlookup_loop k dp name (u32 (off + DIRENT_SIZE))
                     else if namecmp name (de_name (dirent_at st dp off)) =? 0
                          then ip <- iget (Ino.dev (icache st dp)) (de_inum (dirent_at st dp off)) ;;
                               ret (Some (ip, off))
                          else dirlookup_loop k dp name (u32 (off + DIRENT_SIZE))) s1).
      { specialize (Hmiss off ltac:(lia) Ha). unfold entry_matches in Hmiss.
        rewrite Hu. destruct (de_inum (dirent_at st dp off) =? 0); [reflexivity|].
        cbn [negb andb] in Hmiss. now rewrite Hmiss. }
      rewrite <- Hgo.
      assert (Hic : icache s1 = icache st) by apply Hun.
      destruct (IH (off + DIRENT_SIZE) s1) as (s2 & Hun2 & E2).
      * now apply (small_dir_unchanged st).
      * change DIRENT_SIZE with 16 in *. lia.
      * now rewrite Hic.
      * change DIRENT_SIZE with 16 in *. rewrite <- Zplus_mod_idemp_l, Ha. reflexivity.
      * exact Hta.
      * change DIRENT_SIZE with 16 in *. lia.
      * now rewrite (dirent_at_unchanged st).
      * intros o Ho Hoa. rewrite (dirent_at_unchanged st) by exact Hun.
        apply Hmiss; [change DIRENT_SIZE with 16 in *; lia|exact Hoa].
      * exists s2. split; [eapply frame_trans; eassumption|].
        rewrite E2, Hic. now rewrite (dirent_at_unchanged st s1).
Qed.

(** The loop when no entry at or after [off] matches. *)
Lemma dirlookup_loop_absent name dp k : forall off st,
  small_dir st dp -> 0 <= off -> off mod DIRENT_SIZE = 0 ->
  Ino.size (icache st dp) - off <= DIRENT_SIZE * Z.of_nat k ->
  (forall o, off <= o < Ino.size (icache st dp) -> o mod DIRENT_SIZE = 0 ->
     entry_matches name (dirent_at st dp o) = false) ->
  exists s1, dirlookup_loop k dp name off st = Ret (None, s1) /\ unchanged st s1.
Proof.
  induction k as [|k IH]; intros off st Hdir Hoff Ha Hfuel Hmiss.
  - rewrite dirlookup_loop_done by (apply Z.ltb_ge; lia).
    exists st. split; [reflexivity|apply frame_refl].
  - destruct (Z.ltb_spec off (Ino.size (icache st dp))) as [Hlt|Hge].
    2:{ rewrite dirlookup_loop_done by (apply Z.ltb_ge; lia).
        exists st. split; [reflexivity|apply frame_refl]. }
    rewrite dirlookup_loop_step by (apply Z.ltb_lt; lia).
    destruct (readi_dirent st dp 0 off Hdir ltac:(lia) Ha) as (s1 & Er & Hun).
    rewrite (bind_ret _ _ _ _ _ Er). cbn [fst snd]. rewrite Z.eqb_refl. cbn [negb]. cbv zeta.
    assert (Hu : u32 (off + DIRENT_SIZE) = off + DIRENT_SIZE).
    { apply u32_small. destruct Hdir as (Hs & _).
      change (NDIRECT * BSIZE) with 11264 in Hs. change DIRENT_SIZE with 16 in *. lia. }
    assert (Hic : icache s1 = icache st) by apply Hun.
    destruct (IH (off + DIRENT_SIZE) s1) as (s2 & E2 & Hun2).
    + now apply (small_dir_unchanged st).
    + change DIRENT_SIZE with 16 in *. lia.
    + change DIRENT_SIZE with 16 in *. rewrite <- Zplus_mod_idemp_l, Ha. reflexivity.
    + rewrite Hic. change DIRENT_SIZE with 16 in *. lia.
    + intros o Ho Hoa. rewrite (dirent_at_unchanged st) by exact Hun.
      rewrite Hic in Ho. apply Hmiss; [change DIRENT_SIZE with 16 in *; lia|exact Hoa].
    + exists s2. split; [|eapply frame_trans; eassumption].
      specialize (Hmiss off ltac:(lia) Ha). unfold entry_matches in Hmiss.
      rewrite Hu. destruct (de_inum (dirent_at st dp off) =? 0); [exact E2|].
      cbn [negb andb] in Hmiss. rewrite Hmiss. exact E2.
Qed.

Lemma dirlookup_fuel st dp :
  small_dir st dp ->
  Ino.size (icache st dp) =
  DIRENT_SIZE * (Z.of_nat (S (Z.to_nat (Ino.size (icache st dp) / DIRENT_SIZE))) - 1).
Proof.
  intros (Hs & Hm & _). change DIRENT_SIZE with 16 in *.
  apply Z.mod_divide in Hm; [|lia]. destruct Hm as (x & Hx). rewrite Hx.
  rewrite Z.div_mul by lia. lia.
Qed.



(** The root directory of [dir_sample], loaded and locked by the caller:
    one entry, "aaaaaaaaaaaaaa" for inode 2. *)
Definition lookup_sample : kstate :=
  set_icache dir_sample
    (fun i => match i with
              | O => Ino.mkinode 1 1 1 1 true T_DIR 0 0 1 16 (59 :: repeat 0 12)
              | _ => free_inode
              end).

Lemma lookup_sample_dir : small_dir lookup_sample 0.
Proof.
  split; [vm_compute; split; discriminate|]. split; [reflexivity|].
  intros bn H0 H1. change (Ino.size (icache lookup_sample 0)) with 16 in H1.
  change BSIZE with 1024 in H1. assert (bn = 0) by lia. subst bn.
  split; [discriminate|reflexivity].
Qed.

Lemma lookup_sample_entries o :
  0 <= o < Ino.size (icache lookup_sample 0) -> o mod DIRENT_SIZE = 0 -> o = 0.
Proof.
  change (Ino.size (icache lookup_sample 0)) with 16. change DIRENT_SIZE with 16.
  intros Ho Hm. apply Z.mod_divide in Hm; [|lia]. destruct Hm as (x & ->). lia.
Qed.



(** ** A path of one element *)

Lemma bind_cong {A B} (m m' : M A) (f : A -> M B) s s' :
  m s = m' s' -> bind m f s = bind m' f s'.
Proof. unfold bind. now intros ->. Qed.

Lemma ilock_loaded st ip :
  1 <= Ino.ref (icache st ip) -> Ino.lock (icache st ip) = false ->
  Ino.valid (icache st ip) <> 0 ->
  ilock ip st = Ret (tt, set_icache st (updn (icache st) ip (with_lock true (icache st ip)))).
Proof.
  intros Hr Hl Hv. unfold ilock. rewrite bind_get.
  replace (Ino.ref (icache st ip) <? 1) with false by (symmetry; apply Z.ltb_ge; lia).
  unfold acquire_ilock. rewrite bind_assoc, bind_get, Hl.
  apply Z.eqb_neq in Hv. rewrite Hv. reflexivity.
Qed.

Lemma iunlock_held st ip :
  1 <= Ino.ref (icache st ip) -> Ino.lock (icache st ip) = true ->
  iunlock ip st = Ret (tt, set_icache st (updn (icache st) ip (with_lock false (icache st ip)))).
Proof.
  intros Hr Hl. unfold iunlock. rewrite bind_get, Hl.
  replace (Ino.ref (icache st ip) <? 1) with false by (symmetry; apply Z.ltb_ge; lia).
  reflexivity.
Qed.

(** A directory seen from two states that agree on its size, its block
    addresses, the locks of the buffers and their contents. *)
Lemma dir_same s s' dp :
  Ino.size (icache s' dp) = Ino.size (icache s dp) ->
  Ino.addrs (icache s' dp) = Ino.addrs (icache s dp) ->
  (forall k, bheld s' k = bheld s k) -> (forall k, view s' k = view s k) ->
  (small_dir s dp -> small_dir s' dp) /\ forall o, dirent_at s' dp o = dirent_at s dp o.
Proof.
  intros Hs Ha Hh Hv. unfold small_dir, dirent_at, addr_of. rewrite Hs, Ha. split.
  - intros (H1 & H2 & H3). split; [exact H1|]. split; [exact H2|].
    intros bn Hb0 Hb1. rewrite Hh. now apply H3.
  - intros o. now rewrite Hv.
Qed.

Lemma unique_same c c' :
  (forall j, Ino.dev (c' j) = Ino.dev (c j) /\ Ino.inum (c' j) = Ino.inum (c j) /\
             (Ino.ref (c' j) > 0 <-> Ino.ref (c j) > 0)) ->
  icache_unique c -> icache_unique c'.
Proof.
  intros H Hu a b Ha Hb Hra Hrb Hd Hi.
  destruct (H a) as (Hda & Hia & Hrefa), (H b) as (Hdb & Hib & Hrefb).
  apply Hu; try assumption; try tauto; congruence.
Qed.


(** The same directory with the root inode cached but not locked. *)
Definition path_sample : kstate :=
  set_icache dir_sample
    (fun i => match i with
              | O => Ino.mkinode 1 1 1 1 false T_DIR 0 0 1 16 (59 :: repeat 0 12)
              | _ => free_inode
              end).


(** ** Inode allocation *)

(** [memset(dip, 0, sizeof( *dip))] on the slot of inode [inum]. *)
Definition zero_dinode (d : block) (inum : Z) : block :=
  fun o => if (dslot inum <=? o) && (o <? dslot inum + DINODE_SIZE) then 0 else d o.

(** The loop of [ialloc] from [inum], for at most [k] inodes. *)
Fixpoint ialloc_loop (k : nat) (dev type inum : Z) : M nat :=
  st <- get_state ;;
  if inum <? Sb.ninodes (sb st) then
    match k with
    | O => fun _ => OutOfFuel
    | S k' =>
        bp <- bread dev (IBLOCK inum (sb st)) ;;
        st1 <- get_state ;;
        if d_type (bdata st1 bp) inum =? 0 then
          set_data bp (fun d => put16 (zero_dinode d inum) (dslot inum) type) ;;
          log_write bp ;;
          brelse bp ;;
          iget dev inum
        else brelse bp ;; ialloc_loop k' dev type (inum + 1)
    end
  else panic "ialloc: no inodes".

(** [ialloc]: allocate an inode on device [dev], marked with [type]. *)
Definition ialloc (dev type : Z) : M nat :=
  st <- get_state ;;
  ialloc_loop (Z.to_nat (Sb.ninodes (sb st))) dev type 1.

(** The type of inode [x] on disk, as the next [bread] sees it. *)
Definition dtype_at (s : kstate) (x : Z) : Z := d_type (view s (IBLOCK x (sb s))) x.

(** The slot that [ialloc] leaves for inode [x]. *)
Definition fresh_dinode (d : block) (x type : Z) : block :=
  put16 (zero_dinode d x) (dslot x) type.

Lemma zero_dinode_in d x p :
  dslot x <= p < dslot x + DINODE_SIZE -> zero_dinode d x p = 0.
Proof.
  intros H. unfold zero_dinode.
  replace (dslot x <=? p) with true by (symmetry; apply Z.leb_le; lia).
  replace (p <? dslot x + DINODE_SIZE) with true by (symmetry; apply Z.ltb_lt; lia).
  reflexivity.
Qed.

Lemma fresh_dinode_out d x type p :
  p < dslot x \/ dslot x + DINODE_SIZE <= p -> fresh_dinode d x type p = d p.
Proof.
  intros H. unfold fresh_dinode, put16, put8, zero_dinode. change DINODE_SIZE with 64 in *.
  destruct (Z.eqb_spec p (dslot x + 1)); [lia|]. destruct (Z.eqb_spec p (dslot x)); [lia|].
  destruct (Z.leb_spec (dslot x) p), (Z.ltb_spec p (dslot x + 64)); cbn; try reflexivity; lia.
Qed.

(** The slot after [ialloc]: the type, and zero everywhere else. *)
Lemma fresh_dinode_decode d x type :
  -32768 <= type < 32768 ->
  let d' := fresh_dinode d x type in
  d_type d' x = type /\ d_major d' x = 0 /\ d_minor d' x = 0 /\ d_nlink d' x = 0 /\
  d_size d' x = 0 /\ d_addrs d' x (Z.to_nat (NDIRECT + 2)) 0 = repeat 0 13.
Proof.
  intros Ht d'. unfold d', fresh_dinode.
  assert (Hz : forall p, dslot x + 2 <= p < dslot x + 64 ->
                 put16 (zero_dinode d x) (dslot x) type p = 0).
  { intros p Hp. unfold put16, put8.
    destruct (Z.eqb_spec p (dslot x + 1)); [lia|]. destruct (Z.eqb_spec p (dslot x)); [lia|].
    apply zero_dinode_in. change DINODE_SIZE with 64. lia. }
  assert (H16 : forall p, dslot x + 2 <= p -> p + 2 <= dslot x + 64 ->
                  s16 (get16 (put16 (zero_dinode d x) (dslot x) type) p) = 0).
  { intros p H1 H2. unfold get16. rewrite !Hz by lia. reflexivity. }
  assert (H32 : forall p, dslot x + 2 <= p -> p + 4 <= dslot x + 64 ->
                  get32 (put16 (zero_dinode d x) (dslot x) type) p = 0).
  { intros p H1 H2. unfold get32. rewrite !Hz by lia. reflexivity. }
  unfold d_type, d_major, d_minor, d_nlink, d_size.
  rewrite get16_put16, s16_short by exact Ht.
  rewrite !H16, H32 by lia. repeat split.
  apply nth_ext with (d := 0) (d' := 0); [now rewrite length_d_addrs, repeat_length|].
  intros j Hj. rewrite length_d_addrs in Hj. change (Z.to_nat (NDIRECT + 2)) with 13%nat in *.
  rewrite d_addrs_nth by exact Hj. unfold d_addr. rewrite H32 by lia.
  symmetry. apply nth_repeat.
Qed.

Lemma fresh_dinode_fields d x type :
  -32768 <= type < 32768 ->
  slot_fields (fresh_dinode d x type) x = (type, 0, 0, 0, 0, repeat 0 13).
Proof.
  intros Ht. destruct (fresh_dinode_decode d x type Ht) as (H1 & H2 & H3 & H4 & H5 & H6).
  unfold slot_fields. now rewrite H1, H2, H3, H4, H5, H6.
Qed.

Lemma fresh_dinode_other d x type y :
  y mod IPB <> x mod IPB ->
  slot_fields (fresh_dinode d x type) y = slot_fields d y.
Proof.
  intros H. apply dslot_apart in H. change DINODE_SIZE with 64 in H.
  assert (Hb : forall p, dslot y <= p < dslot y + 64 -> fresh_dinode d x type p = d p).
  { intros p Hp. apply fresh_dinode_out. change DINODE_SIZE with 64. lia. }
  unfold slot_fields, d_type, d_major, d_minor, d_nlink, d_size.
  unfold get16, get32. rewrite !Hb by lia. f_equal.
  apply nth_ext with (d := 0) (d' := 0); [now rewrite !length_d_addrs|].
  intros j Hj. rewrite length_d_addrs in Hj. change (Z.to_nat (NDIRECT + 2)) with 13%nat in *.
  rewrite !d_addrs_nth by exact Hj. unfold d_addr, get32. rewrite !Hb by lia. reflexivity.
Qed.

(** The loop of [ialloc] from [j], when [x] is the lowest free inode from
    there on. *)
Lemma ialloc_loop_run fuel dev type j s x n :
  j <= x < Sb.ninodes (sb s) -> x - j < Z.of_nat fuel ->
  (forall k, bheld s k = false) ->
  (forall y, j <= y < x -> dtype_at s y <> 0) -> dtype_at s x = 0 ->
  log_fits n (log s) -> 1 <= n ->
  exists s1,
    ialloc_loop fuel dev type j s = iget dev x s1 /\
    wrote (IBLOCK x (sb s)) (fresh_dinode (view s (IBLOCK x (sb s))) x type) n s s1.
Proof.
  revert j s. induction fuel as [|fuel IH]; intros j s Hx Hfuel Hheld Hbelow Hfree Hfit Hn;
    [lia|].
  cbn [ialloc_loop]. rewrite bind_get.
  replace (j <? Sb.ninodes (sb s)) with true by (symmetry; apply Z.ltb_lt; lia).
  set (blk := IBLOCK j (sb s)).
  destruct (look dev blk s (Hheld blk)) as (s0 & s1 & Eb & Hd0 & Er & Hun).
  destruct (Z.eq_dec j x) as [->|Hne].
  - destruct (update_block dev blk (fun d => fresh_dinode d x type) n s
                (fun _ => iget dev x) (Hheld blk) Hfit Hn) as (s2 & Eu & Hw2).
    rewrite (bind_ret _ _ _ _ _ Eb) in Eu.
    rewrite (bind_ret _ _ _ _ _ Eb), bind_get, Hd0.
    unfold dtype_at in Hfree. fold blk in Hfree. rewrite Hfree. cbn [Z.eqb].
    exists s2. split; [exact Eu|exact Hw2].
  - rewrite (bind_ret _ _ _ _ _ Eb), bind_get, Hd0.
    specialize (Hbelow j ltac:(lia)) as Hj. unfold dtype_at in Hj. fold blk in Hj.
    apply Z.eqb_neq in Hj. rewrite Hj.
    rewrite (bind_ret _ _ _ _ _ Er).
    pose proof Hun as (Hv1 & Hh1 & _ & _ & _ & Hl1 & Hsb1 & _).
    destruct (IH (j + 1) s1) as (s2 & E2 & Hw2).
    + rewrite Hsb1. lia.
    + lia.
    + intros k. now rewrite Hh1.
    + intros y Hy. unfold dtype_at. rewrite Hsb1, Hv1. apply Hbelow. lia.
    + unfold dtype_at. rewrite Hsb1, Hv1. exact Hfree.
    + now rewrite Hl1.
    + exact Hn.
    + exists s2. split; [exact E2|].
      rewrite Hsb1 in Hw2. rewrite Hv1 in Hw2.
      destruct Hun as (_ & Hh & _ & Hd & Hw & Hl & Hsb & Hic & _).
      unfold wrote in *. rewrite Hl, Hd, Hw, Hic, Hsb1 in Hw2.
      destruct Hw2 as (A1 & A2 & A3 & A4 & A5 & A6 & A7 & A8 & A9 & A10).
      split; [intros k; rewrite A1, Hv1; reflexivity|].
      split; [intros k; now rewrite A2, Hh|].
      exact (conj A3 (conj A4 (conj A5 (conj A6 (conj A7 (conj A8 (conj A9 A10))))))).
Qed.

(** The loop of [ialloc] when no inode is free. *)
Lemma ialloc_loop_full fuel dev type j s :
  Sb.ninodes (sb s) - j <= Z.of_nat fuel ->
  (forall k, bheld s k = false) ->
  (forall y, j <= y < Sb.ninodes (sb s) -> dtype_at s y <> 0) ->
  ialloc_loop fuel dev type j s = Panic "ialloc: no inodes".
Proof.
  revert j s. induction fuel as [|fuel IH]; intros j s Hfuel Hheld Hfull.
  - cbn [ialloc_loop]. rewrite bind_get.
    replace (j <? Sb.ninodes (sb s)) with false; [reflexivity|].
    symmetry. apply Z.ltb_ge. lia.
  - cbn [ialloc_loop]. rewrite bind_get.
    destruct (Z.ltb_spec j (Sb.ninodes (sb s))) as [Hlt|Hge]; [|reflexivity].
    set (blk := IBLOCK j (sb s)).
    destruct (look dev blk s (Hheld blk)) as (s0 & s1 & Eb & Hd0 & Er & Hun).
    rewrite (bind_ret _ _ _ _ _ Eb), bind_get, Hd0.
    specialize (Hfull j ltac:(lia)) as Hj. unfold dtype_at in Hj. fold blk in Hj.
    apply Z.eqb_neq in Hj. rewrite Hj.
    rewrite (bind_ret _ _ _ _ _ Er).
    destruct Hun as (Hv1 & Hh1 & _ & _ & _ & _ & Hsb1 & _).
    apply IH.
    + rewrite Hsb1. lia.
    + intros k. now rewrite Hh1.
    + intros y Hy. unfold dtype_at. rewrite Hsb1, Hv1. apply Hfull. rewrite Hsb1 in Hy. lia.
Qed.




Lemma dir_sample_inodes y : 1 <= y < 3 -> dtype_at dir_sample y <> 0.
Proof.
  intros Hy. assert (Hc : y = 1 \/ y = 2) by lia. destruct Hc as [-> | ->]; vm_compute; discriminate.
Qed.

Lemma dir_sample_fits : log_fits 1 (log dir_sample).
Proof. vm_compute. repeat split; discriminate. Qed.


(** The same disk with a superblock of three inodes: 1 and 2 are in use. *)
Definition no_inode_sample : kstate :=
  mkstate (disk dir_sample) (bvalid dir_sample) (bdata dir_sample) (brefcnt dir_sample)
          (bheld dir_sample) (writes dir_sample) (log dir_sample)
          (Sb.mksb 270544960 200 141 3 30 2 32 58)
          (icache dir_sample) (user_ok dir_sample) (cwd dir_sample).



(** ** A whole transaction *)


(** A quiet file system: nothing cached, the log idle and empty. *)
Definition idle_sample : kstate :=
  sample_state (sample_log 0 []) (fun _ => zero_block) (fun _ => free_inode).


(** ** The bytes of a file *)

(** Byte [o] of the file, for a file held in its direct blocks. *)
Definition file_byte (st : kstate) (ip : nat) (o : Z) : Z :=
  view st (addr_of (icache st ip) (o / BSIZE)) (o mod BSIZE).

(** A file whose data is in its direct blocks, all mapped, none locked. *)
Definition direct_file (st : kstate) (ip : nat) : Prop :=
  let e := icache st ip in
  0 <= Ino.size e <= NDIRECT * BSIZE /\
  forall bn, 0 <= bn -> bn * BSIZE < Ino.size e ->
    addr_of e bn <> 0 /\ bheld st (addr_of e bn) = false.

Lemma direct_file_unchanged st s' ip :
  unchanged st s' -> direct_file st ip -> direct_file s' ip.
Proof.
  intros (_ & Hh & _ & _ & _ & _ & _ & Hic & _) (Hs & Hb). unfold direct_file.
  rewrite Hic. split; [exact Hs|].
  intros bn H0 H1. rewrite Hh. now apply Hb.
Qed.

Lemma file_byte_unchanged st s' ip o :
  unchanged st s' -> file_byte s' ip o = file_byte st ip o.
Proof.
  intros (Hv & _ & _ & _ & _ & _ & _ & Hic & _). unfold file_byte. now rewrite Hic, Hv.
Qed.

Lemma bytes_from_map (d : block) (g : Z -> Z) (k : nat) : forall a off,
  (forall j, 0 <= j < Z.of_nat k -> d (a + j) = g (off + j)) ->
  bytes_from d a k = map g (zrange off k).
Proof.
  induction k as [|k IH]; intros a off H; cbn [bytes_from zrange map]; [reflexivity|].
  f_equal.
  - specialize (H 0 ltac:(lia)). now rewrite !Z.add_0_r in H.
  - apply IH. intros j Hj. specialize (H (j + 1) ltac:(lia)).
    now replace (a + 1 + j) with (a + (j + 1)) by lia;
        replace (off + 1 + j) with (off + (j + 1)) by lia.
Qed.

(** The loop of [readi] over a file in its direct blocks, when no copy
    fails. *)
Lemma readi_loop_bytes ip u n fuel : forall tot off dst acc st,
  direct_file st ip ->
  (forall a l, either_copy_ok st u a l = true) ->
  0 <= tot <= n -> 0 <= off -> off + (n - tot) <= Ino.size (icache st ip) ->
  n - tot <= Z.of_nat fuel ->
  exists st',
    readi_loop fuel ip u n tot off dst acc st =
    Ret ((n, acc ++ map (file_byte st ip) (zrange off (Z.to_nat (n - tot)))), st') /\
    unchanged st st'.
Proof.
  induction fuel as [|fuel IH]; intros tot off dst acc st Hdir Hok Htot Hoff Hend Hfuel.
  - assert (tot = n) by lia. subst tot.
    rewrite readi_loop_done by (apply Z.ltb_irrefl).
    rewrite Z.sub_diag. cbn. rewrite app_nil_r.
    exists st. split; [reflexivity|apply frame_refl].
  - destruct (Z.ltb_spec tot n) as [Hlt|Hge].
    2:{ assert (tot = n) by lia. subst tot.
        rewrite readi_loop_done by (apply Z.ltb_irrefl).
        rewrite Z.sub_diag. cbn. rewrite app_nil_r.
        exists st. split; [reflexivity|apply frame_refl]. }
    rewrite readi_loop_step by (apply Z.ltb_lt; exact Hlt).
    cbv zeta. rewrite bind_get.
    destruct Hdir as (Hs & Hb).
    change (NDIRECT * BSIZE) with 11264 in Hs.
    pose proof (Z.mod_pos_bound off BSIZE ltac:(reflexivity)) as Hmod.
    pose proof (Z.div_mod off BSIZE ltac:(discriminate)) as Hdm.
    assert (Hbn : 0 <= off / BSIZE < NDIRECT).
    { change BSIZE with 1024 in *. change NDIRECT with 11. split; [apply Z.div_pos; lia|].
      apply Z.div_lt_upper_bound; lia. }
    destruct (Hb (off / BSIZE)) as (Hnz & Hfree); [lia|change BSIZE with 1024 in *; lia|].
    assert (Hmap : bmap ip (off / BSIZE) st = Ret (addr_of (icache st ip) (off / BSIZE), st)).
    { unfold bmap. rewrite bind_get.
      replace (off / BSIZE <? NDIRECT) with true by (symmetry; apply Z.ltb_lt; lia).
      apply Z.eqb_neq in Hnz. now rewrite Hnz. }
    rewrite (bind_ret _ _ _ _ _ Hmap).
    destruct (look (Ino.dev (icache st ip)) _ st Hfree) as (s0 & s1 & Eb & Hd0 & Er & Hun).
    rewrite (bind_ret _ _ _ _ _ Eb), bind_get.
    set (m := Z.min (n - tot) (BSIZE - off mod BSIZE)).
    assert (Hm : 1 <= m <= n - tot) by (unfold m; lia).
    assert (Hok0 : either_copy_ok s0 u dst m = true).
    { destruct (bread_spec st (Ino.dev (icache st ip)) _ Hfree) as (s0' & Eb' & _ & _ & _ & _ & _ & _ & He0).
      rewrite Eb in Eb'. injection Eb' as <-. destruct He0 as (_ & _ & _ & Hu & _).
      unfold either_copy_ok. rewrite Hu. apply Hok. }
    rewrite Hok0. cbn [negb]. rewrite (bind_ret _ _ _ _ _ Er).
    destruct (IH (tot + m) (off + m) (dst + m)
                (acc ++ bytes_from (bdata s0 (addr_of (icache st ip) (off / BSIZE)))
                          (off mod BSIZE) (Z.to_nat m)) s1) as (s2 & E2 & Hun2).
    + apply (direct_file_unchanged st); [exact Hun|]. split; assumption.
    + intros a l0. unfold either_copy_ok.
      destruct Hun as (_ & _ & _ & _ & _ & _ & _ & _ & Hu & _). rewrite Hu. apply Hok.
    + lia.
    + lia.
    + destruct Hun as (_ & _ & _ & _ & _ & _ & _ & Hic & _). rewrite Hic. lia.
    + lia.
    + exists s2. split; [|eapply frame_trans; eassumption].
      rewrite E2. f_equal. f_equal. f_equal.
      rewrite <- app_assoc. f_equal.
      replace (Z.to_nat (n - tot)) with (Z.to_nat m + Z.to_nat (n - (tot + m)))%nat by lia.
      rewrite zrange_app, map_app, Z2Nat.id by lia. f_equal.
      * rewrite Hd0. apply bytes_from_map. intros j Hj. unfold file_byte.
        assert (Hq : (off + j) / BSIZE = off / BSIZE /\ (off + j) mod BSIZE = off mod BSIZE + j).
        { assert (Hj' : off mod BSIZE + j < BSIZE) by (unfold m in Hj; lia).
          rewrite Hdm at 1 3. rewrite <- Z.add_assoc.
          rewrite (Z.mul_comm BSIZE). split.
          - rewrite Z.add_comm, Z.div_add by discriminate. rewrite Z.div_small by lia. lia.
          - rewrite Z.add_comm, Z.mod_add by discriminate. apply Z.mod_small. lia. }
        destruct Hq as (-> & ->). reflexivity.
      * apply map_ext. intros o. now apply file_byte_unchanged.
Qed.


Lemma read_sample_direct : direct_file read_sample 0.
Proof.
  split; [vm_compute; split; discriminate|].
  intros bn H0 H1. change (Ino.size (icache read_sample 0)) with 2048 in H1.
  change BSIZE with 1024 in H1. assert (Hc : bn = 0 \/ bn = 1) by lia.
  destruct Hc as [-> | ->]; split; first [discriminate|reflexivity].
Qed.


(** ** Writing a file in place *)

(** The byte that [writei] stores for position [j] of the source. *)
Definition new_byte (data : list Z) (j : Z) : Z := nth (Z.to_nat j) data 0 mod 256.

Lemma store_bytes_spec l : forall d a p,
  store_bytes d a l p =
  if (a <=? p) && (p <? a + Z.of_nat (List.length l))
  then nth (Z.to_nat (p - a)) l 0 mod 256 else d p.
Proof.
  induction l as [|x t IH]; intros d a p; cbn [store_bytes List.length].
  - destruct (Z.leb_spec a p), (Z.ltb_spec p (a + Z.of_nat 0)); cbn; try reflexivity; lia.
  - rewrite IH. unfold put8.
    destruct (Z.leb_spec (a + 1) p), (Z.ltb_spec p (a + 1 + Z.of_nat (List.length t))),
             (Z.leb_spec a p), (Z.ltb_spec p (a + Z.of_nat (S (List.length t))));
      cbn [andb]; try lia.
    all: destruct (Z.eqb_spec p a) as [->|Hne]; try lia; try reflexivity.
    + replace (Z.to_nat (p - a)) with (S (Z.to_nat (p - (a + 1)))) by lia. reflexivity.
    + rewrite Z.sub_diag. reflexivity.
Qed.

(** A file in its direct blocks whose blocks are distinct and are not the
    block of its inode, which is not locked either. *)
Definition sound_file (st : kstate) (ip : nat) : Prop :=
  let e := icache st ip in
  direct_file st ip /\
  (forall b1 b2, 0 <= b1 -> b1 * BSIZE < Ino.size e -> 0 <= b2 -> b2 * BSIZE < Ino.size e ->
     addr_of e b1 = addr_of e b2 -> b1 = b2) /\
  (forall bn, 0 <= bn -> bn * BSIZE < Ino.size e ->
     addr_of e bn <> IBLOCK (Ino.inum e) (sb st)) /\
  bheld st (IBLOCK (Ino.inum e) (sb st)) = false.

(** [update_block], with the user ranges. *)
Lemma update_block_user {B} dev a f k s (c : unit -> M B) :
  bheld s a = false -> log_fits k (log s) -> 1 <= k ->
  exists s',
    (bp <- bread dev a ;; set_data bp f ;; log_write bp ;; x <- brelse bp ;; c x) s = c tt s' /\
    wrote a (f (view s a)) k s s' /\ user_ok s' = user_ok s.
Proof.
  intros Hnh Hfit Hk.
  destruct (bread_spec s dev a Hnh) as (s1 & E1 & Hh1 & Hv1 & Hd1 & Hr1 & Hk1 & Hw1 & He1).
  rewrite (bind_ret _ _ _ _ _ E1).
  destruct (set_data_spec s1 a f) as (s2 & E2 & Hh2 & Hv2 & Hd2 & Hr2 & Hk2 & Hw2 & He2).
  rewrite (bind_ret _ _ _ _ _ E2).
  destruct He1 as (Hl1 & Hsb1 & Hic1 & Hu1 & _), He2 as (Hl2 & Hsb2 & Hic2 & Hu2 & _).
  destruct (log_write_fits k a s2)
    as (s3 & E3 & Hfit3 & Hin3 & Hinc3 & Hinc3' & Hd3 & Hv3 & Hh3 & Hk3 & Hw3 & Hi3 & Hs3);
    [rewrite Hl2, Hl1; exact Hfit|exact Hk|].
  pose proof (log_write_env a s2 tt s3 E3) as (_ & Hu3 & _).
  rewrite (bind_ret _ _ _ _ _ E3).
  destruct (brelse_spec s3 a) as (s4 & E4 & Hh4 & Hv4 & Hd4 & Hr4 & Hk4 & Hw4 & He4).
  { rewrite Hh3, Hh2, Hh1. now rewrite Z.eqb_refl. }
  rewrite (bind_ret _ _ _ _ _ E4).
  destruct He4 as (Hl4 & Hsb4 & Hic4 & Hu4 & _).
  exists s4. split; [reflexivity|]. split; [|congruence].
  unfold wrote. rewrite Hl4.
  replace (log s) with (log s2) by congruence.
  refine (conj _ (conj _ (conj Hfit3 (conj Hin3 (conj Hinc3 (conj Hinc3' _)))))).
  - intros x. unfold view. rewrite Hv4, Hd4, Hk4, Hv3, Hd3, Hk3, Hv2, Hd2, Hk2, Hv1, !Hd1, Hk1.
    destruct (Z.eqb_spec x a) as [->|Hne]; rewrite ?Z.eqb_refl; reflexivity.
  - intros x. rewrite Hh4, Hh3, Hh2, Hh1. destruct (Z.eqb_spec x a) as [->|Hne]; auto.
  - repeat split; congruence.
Qed.

Lemma writei_loop_step fuel ip u n tot off src data :
  (tot <? n) = true ->
  writei_loop (S fuel) ip u n tot off src data =
  (st <- get_state ;;
   addr <- bmap ip (off / BSIZE) ;;
   bp <- bread (Ino.dev (icache st ip)) addr ;;
   let m := Z.min (n - tot) (BSIZE - off mod BSIZE) in
   st1 <- get_state ;;
   if negb (either_copy_ok st1 u src m)
   then brelse bp ;; ret (tot, off)
   else set_data bp (fun d =>
          store_bytes d (off mod BSIZE) (firstn (Z.to_nat m) (skipn (Z.to_nat tot) data))) ;;
        log_write bp ;;
        brelse bp ;;
        writei_loop fuel ip u n (tot + m) (off + m) (src + m) data).
Proof. intros H. cbn [writei_loop]. now rewrite H. Qed.

Lemma writei_loop_done fuel ip u n tot off src data :
  (tot <? n) = false -> writei_loop fuel ip u n tot off src data = ret (tot, off).
Proof. intros H. destruct fuel; cbn [writei_loop]; now rewrite H. Qed.

(** Where the bytes of the file are, after one block was rewritten. *)
Lemma file_byte_chunk st s1 ip off m chunk :
  sound_file st ip ->
  0 <= off -> 1 <= m -> off + m <= Ino.size (icache st ip) ->
  off mod BSIZE + m <= BSIZE -> Z.of_nat (List.length chunk) = m ->
  icache s1 = icache st ->
  (forall x, view s1 x =
             if x =? addr_of (icache st ip) (off / BSIZE)
             then store_bytes (view st (addr_of (icache st ip) (off / BSIZE)))
                              (off mod BSIZE) chunk
             else view st x) ->
  forall o, 0 <= o < Ino.size (icache st ip) ->
    file_byte s1 ip o =
    if (off <=? o) && (o <? off + m)
    then nth (Z.to_nat (o - off)) chunk 0 mod 256 else file_byte st ip o.
Proof.
  intros ((Hs & Hb) & Hinj & _) Hoff Hm Hend Hin Hlen Hic Hv o Ho.
  unfold file_byte. rewrite Hic, Hv.
  pose proof (Z.div_mod off BSIZE ltac:(discriminate)) as Hdm.
  pose proof (Z.div_mod o BSIZE ltac:(discriminate)) as Hdo.
  pose proof (Z.mod_pos_bound off BSIZE ltac:(reflexivity)) as Hmo.
  pose proof (Z.mod_pos_bound o BSIZE ltac:(reflexivity)) as Hmm.
  assert (Hbo : 0 <= o / BSIZE) by (apply Z.div_pos; [lia|reflexivity]).
  assert (Hbf : 0 <= off / BSIZE) by (apply Z.div_pos; [lia|reflexivity]).
  change BSIZE with 1024 in *.
  destruct (Z.eqb_spec (addr_of (icache st ip) (o / 1024)) (addr_of (icache st ip) (off / 1024)))
    as [Heq|Hne].
  - apply Hinj in Heq; try lia. rewrite store_bytes_spec, Hlen.
    destruct (Z.leb_spec (off mod 1024) (o mod 1024)),
             (Z.ltb_spec (o mod 1024) (off mod 1024 + m)),
             (Z.leb_spec off o), (Z.ltb_spec o (off + m)); cbn [andb]; try lia.
    + do 3 f_equal. lia.
    + now rewrite Heq.
    + now rewrite Heq.
  - destruct (Z.leb_spec off o), (Z.ltb_spec o (off + m)); cbn [andb]; try reflexivity.
    exfalso. apply Hne. f_equal.
    assert (Hlo : 1024 * (off / 1024) <= o < 1024 * (off / 1024) + 1024) by lia.
    lia.
Qed.

Lemma sound_file_same st s1 ip :
  icache s1 = icache st -> (forall x, bheld s1 x = bheld st x) -> sb s1 = sb st ->
  sound_file st ip -> sound_file s1 ip.
Proof.
  intros Hic Hh Hsb ((Hs & Hb) & Hinj & Hblk & Hfree). unfold sound_file, direct_file.
  rewrite Hic, Hsb, Hh. split; [split; [exact Hs|]|now split].
  intros bn H0 H1. rewrite Hh. now apply Hb.
Qed.

(** The loop of [writei] over blocks that are already mapped. *)
Lemma writei_loop_bytes ip u n data fuel : forall tot off src st k,
  sound_file st ip ->
  (forall a l, either_copy_ok st u a l = true) ->
  0 <= tot <= n -> 0 <= off -> off + (n - tot) <= Ino.size (icache st ip) ->
  n - tot <= Z.of_nat fuel -> n <= Z.of_nat (List.length data) ->
  log_fits k (log st) -> 1 <= k ->
  (tot < n -> (n - tot) + off mod BSIZE <= (k - 1) * BSIZE) ->
  exists st' k',
    writei_loop fuel ip u n tot off src data st = Ret ((n, off + (n - tot)), st') /\
    log_fits k' (log st') /\ 1 <= k' /\
    (forall o, 0 <= o < Ino.size (icache st ip) ->
       file_byte st' ip o =
       if (off <=? o) && (o <? off + (n - tot)) then new_byte data (tot + (o - off))
       else file_byte st ip o) /\
    icache st' = icache st /\ (forall x, bheld st' x = bheld st x) /\
    disk st' = disk st /\ writes st' = writes st /\ sb st' = sb st /\
    user_ok st' = user_ok st.
Proof.
  induction fuel as [|fuel IH]; intros tot off src st k Hfile Hok Htot Hoff Hend Hfuel Hdata
                                       Hfit Hk Hroom.
  - assert (tot = n) by lia. subst tot.
    rewrite writei_loop_done by (apply Z.ltb_irrefl).
    exists st, k. rewrite Z.sub_diag, Z.add_0_r. split; [reflexivity|].
    split; [exact Hfit|]. split; [exact Hk|]. split; [|repeat split].
    intros o Ho. destruct (Z.leb_spec off o), (Z.ltb_spec o off); cbn [andb]; try reflexivity; lia.
  - destruct (Z.ltb_spec tot n) as [Hlt|Hge].
    2:{ assert (tot = n) by lia. subst tot.
        rewrite writei_loop_done by (apply Z.ltb_irrefl).
        exists st, k. rewrite Z.sub_diag, Z.add_0_r. split; [reflexivity|].
        split; [exact Hfit|]. split; [exact Hk|]. split; [|repeat split].
        intros o Ho.
        destruct (Z.leb_spec off o), (Z.ltb_spec o off); cbn [andb]; try reflexivity; lia. }
    specialize (Hroom Hlt).
    rewrite writei_loop_step by (apply Z.ltb_lt; exact Hlt).
    cbv zeta. rewrite bind_get.
    pose proof Hfile as ((Hs & Hb) & Hinj & Hblk & Hfree).
    change (NDIRECT * BSIZE) with 11264 in Hs.
    pose proof (Z.mod_pos_bound off BSIZE ltac:(reflexivity)) as Hmod.
    pose proof (Z.div_mod off BSIZE ltac:(discriminate)) as Hdm.
    assert (Hbn : 0 <= off / BSIZE < NDIRECT).
    { change BSIZE with 1024 in *. change NDIRECT with 11. split; [apply Z.div_pos; lia|].
      apply Z.div_lt_upper_bound; lia. }
    destruct (Hb (off / BSIZE)) as (Hnz & Hnh); [lia|change BSIZE with 1024 in *; lia|].
    set (a := addr_of (icache st ip) (off / BSIZE)) in *.
    assert (Hmap : bmap ip (off / BSIZE) st = Ret (a, st)).
    { unfold bmap. rewrite bind_get.
      replace (off / BSIZE <? NDIRECT) with true by (symmetry; apply Z.ltb_lt; lia).
      fold a. apply Z.eqb_neq in Hnz. now rewrite Hnz. }
    rewrite (bind_ret _ _ _ _ _ Hmap).
    set (m := Z.min (n - tot) (BSIZE - off mod BSIZE)).
    assert (Hm : 1 <= m <= n - tot) by (unfold m; lia).
    set (chunk := firstn (Z.to_nat m) (skipn (Z.to_nat tot) data)).
    assert (Hlen : Z.of_nat (List.length chunk) = m).
    { unfold chunk. rewrite length_firstn, length_skipn. lia. }
    assert (Hk2 : 2 <= k) by (change BSIZE with 1024 in *; nia).
    destruct (update_block_user (Ino.dev (icache st ip)) a
                (fun d => store_bytes d (off mod BSIZE) chunk) k st
                (fun _ => writei_loop fuel ip u n (tot + m) (off + m) (src + m) data)
                Hnh Hfit ltac:(lia)) as (s1 & Eu & Hw1 & Hu1).
    destruct (bread_spec st (Ino.dev (icache st ip)) a Hnh)
      as (s0 & Eb & _ & _ & _ & _ & _ & _ & He0).
    rewrite (bind_ret _ _ _ _ _ Eb) in Eu.
    rewrite (bind_ret _ _ _ _ _ Eb), bind_get.
    assert (Hok0 : either_copy_ok s0 u src m = true).
    { destruct He0 as (_ & _ & _ & Hu & _). unfold either_copy_ok. rewrite Hu. apply Hok. }
    rewrite Hok0. cbn [negb]. fold chunk. rewrite Eu.
    destruct Hw1 as (Hv1 & Hh1 & Hfit1 & _ & _ & _ & Hd1 & Hwr1 & Hic1 & Hsb1).
    destruct (IH (tot + m) (off + m) (src + m) s1 (k - 1)) as (s2 & k2 & E2 & Hfit2 & Hk2' & Hbytes2 & Hic2 & Hh2 & Hd2 & Hwr2 & Hsb2 & Hu2).
    + now apply (sound_file_same st).
    + intros x l0. unfold either_copy_ok. rewrite Hu1. apply Hok.
    + lia.
    + lia.
    + rewrite Hic1. lia.
    + lia.
    + exact Hdata.
    + exact Hfit1.
    + lia.
    + intros Hlt2.
      assert (Hfull : m = BSIZE - off mod BSIZE) by (unfold m in *; lia).
      assert (Hz : (off + m) mod BSIZE = 0).
      { rewrite Hfull. replace (off + (BSIZE - off mod BSIZE))
          with (off mod BSIZE + (BSIZE - off mod BSIZE) + off / BSIZE * BSIZE) by lia.
        rewrite Z.mod_add by discriminate. replace (off mod BSIZE + (BSIZE - off mod BSIZE))
          with (1 * BSIZE) by lia. apply Z.mod_mul. discriminate. }
      rewrite Hz. change BSIZE with 1024 in *. lia.
    + exists s2, k2. split; [rewrite E2; do 3 f_equal; lia|].
      split; [exact Hfit2|]. split; [exact Hk2'|].
      split; [|repeat split; try congruence; intros x; now rewrite Hh2, Hh1].
      intros o Ho. rewrite Hic1 in Hbytes2. rewrite (Hbytes2 o Ho).
      rewrite (file_byte_chunk st s1 ip off m chunk Hfile Hoff ltac:(lia) ltac:(lia)
                 ltac:(unfold m; lia) Hlen Hic1 Hv1 o Ho).
      destruct (Z.leb_spec (off + m) o), (Z.ltb_spec o (off + m + (n - (tot + m)))),
               (Z.leb_spec off o), (Z.ltb_spec o (off + m)), (Z.ltb_spec o (off + (n - tot)));
        cbn [andb]; try lia; try reflexivity.
      * unfold new_byte. do 2 f_equal. lia.
      * unfold new_byte, chunk. rewrite nth_firstn.
        replace (Z.to_nat (o - off) <? Z.to_nat m)%nat with true
          by (symmetry; apply Nat.ltb_lt; lia).
        rewrite nth_skipn. do 2 f_equal. lia.
Qed.

(** [writei] over bytes that the file already has. *)
Lemma writei_run st ip u src data off n K :
  sound_file st ip ->
  (forall a l, either_copy_ok st u a l = true) ->
  0 <= off -> 0 <= n -> off + n <= Ino.size (icache st ip) ->
  n <= Z.of_nat (List.length data) ->
  log_fits K (log st) -> 1 <= K -> n + off mod BSIZE <= (K - 1) * BSIZE ->
  exists st',
    writei ip u src data off n st = Ret (n, st') /\
    (forall o, 0 <= o < Ino.size (icache st ip) ->
       file_byte st' ip o =
       if (off <=? o) && (o <? off + n) then new_byte data (o - off)
       else file_byte st ip o) /\
    icache st' = icache st /\ (forall x, bheld st' x = bheld st x) /\
    disk st' = disk st /\ writes st' = writes st /\ sb st' = sb st /\
    user_ok st' = user_ok st.
Proof.
  intros Hfile Hok Hoff Hn Hend Hdata Hfit HK Hroom.
  pose proof Hfile as ((Hs & _) & _ & Hblk & Hfree).
  change (NDIRECT * BSIZE) with 11264 in Hs.
  unfold writei. rewrite bind_get.
  replace (off >? Ino.size (icache st ip)) with false
    by (symmetry; rewrite Z.gtb_ltb; apply Z.ltb_ge; lia).
  rewrite (u32_small (off + n)) by lia.
  replace (off + n <? off) with false by (symmetry; apply Z.ltb_ge; lia).
  replace (off + n >? MAXFILE * BSIZE) with false
    by (symmetry; rewrite Z.gtb_ltb; apply Z.ltb_ge; change (MAXFILE * BSIZE) with 67382272; lia).
  cbn [orb].
  destruct (writei_loop_bytes ip u n data (Z.to_nat n) 0 off src st K)
    as (s1 & k1 & E1 & Hfit1 & Hk1 & Hbytes1 & Hic1 & Hh1 & Hd1 & Hw1 & Hsb1 & Hu1);
    try assumption; try lia.
  rewrite (bind_ret _ _ _ _ _ E1), bind_get. cbn [fst snd].
  rewrite Hic1.
  replace (off + (n - 0) >? Ino.size (icache st ip)) with false
    by (symmetry; rewrite Z.gtb_ltb; apply Z.ltb_ge; lia).
  rewrite bind_ret_l.
  destruct (iupdate_wrote ip k1 s1) as (s2 & E2 & Hv2 & Hh2 & _ & _ & _ & _ & Hd2 & Hw2 & Hic2 & Hsb2).
  { rewrite Hic1, Hsb1, Hh1. exact Hfree. }
  { exact Hfit1. }
  { exact Hk1. }
  pose proof (iupdate_env ip s1 tt s2 E2) as (_ & Hu2 & _).
  rewrite (bind_ret _ _ _ _ _ E2).
  exists s2. split; [unfold ret; do 2 f_equal; apply s32_small; lia|].
  split; [|repeat split; try congruence; intros x; now rewrite Hh2, Hh1].
  intros o Ho. specialize (Hbytes1 o Ho).
  replace (off + (n - 0)) with (off + n) in Hbytes1 by lia.
  replace (0 + (o - off)) with (o - off) in Hbytes1 by lia.
  rewrite <- Hbytes1.
  unfold file_byte. rewrite Hic2, Hic1, Hv2, Hic1, Hsb1.
  assert (Hbo : 0 <= o / BSIZE) by (apply Z.div_pos; [lia|reflexivity]).
  destruct (Z.eqb_spec (addr_of (icache st ip) (o / BSIZE))
              (IBLOCK (Ino.inum (icache st ip)) (sb st))) as [Heq|Hne]; [|reflexivity].
  exfalso. apply (Hblk (o / BSIZE)); [exact Hbo| |exact Heq].
  pose proof (Z.mul_div_le o BSIZE ltac:(reflexivity)). lia.
Qed.

Lemma map_zrange_shift {A} (f g : Z -> A) k : forall a b,
  (forall j, 0 <= j < Z.of_nat k -> f (a + j) = g (b + j)) ->
  map f (zrange a k) = map g (zrange b k).
Proof.
  induction k as [|k IH]; intros a b H; cbn [zrange map]; [reflexivity|].
  f_equal.
  - specialize (H 0 ltac:(lia)). now rewrite !Z.add_0_r in H.
  - apply IH. intros j Hj. specialize (H (j + 1) ltac:(lia)).
    now replace (a + 1 + j) with (a + (j + 1)) by lia;
        replace (b + 1 + j) with (b + (j + 1)) by lia.
Qed.


Lemma read_sample_sound : sound_file read_sample 0.
Proof.
  assert (Hbn : forall bn, 0 <= bn -> bn * BSIZE < Ino.size (icache read_sample 0) ->
                  bn = 0 \/ bn = 1).
  { intros bn H0 H1. change (Ino.size (icache read_sample 0)) with 2048 in H1.
    change BSIZE with 1024 in H1. lia. }
  split; [|split; [|split]].
  - split; [vm_compute; split; discriminate|].
    intros bn H0 H1. destruct (Hbn bn H0 H1) as [-> | ->]; split; first [discriminate|reflexivity].
  - intros b1 b2 H0 H1 H2 H3.
    destruct (Hbn b1 H0 H1) as [-> | ->], (Hbn b2 H2 H3) as [-> | ->];
      vm_compute; congruence.
  - intros bn H0 H1. destruct (Hbn bn H0 H1) as [-> | ->]; vm_compute; discriminate.
  - reflexivity.
Qed.


(** ** Adding a directory entry *)

(** Modelled from the spec: [strncpy] of string.c (not in the sources), the
    C routine that copies the string up to its null byte and fills the
    rest of the [n] bytes with nulls. *)
Fixpoint strncpy (s : list Z) (n : nat) : list Z :=
  match n with
  | O => []
  | S n' =>
      match s with
      | [] => 0 :: strncpy [] n'
      | c :: t => if c =? 0 then 0 :: strncpy [] n' else c :: strncpy t n'
      end
  end.

(** The loop of [dirlink] that looks for an empty entry: the offset at
    which it stops. [off] is an [int], compared with the size as a [uint]. *)
Fixpoint dirlink_scan (k : nat) (dp : nat) (off : Z) : M Z :=
  st <- get_state ;;
  if u32 off <? Ino.size (icache st dp) then
    match k with
    | O => fun _ => OutOfFuel
    | S k' =>
        r <- readi dp 0 0 off DIRENT_SIZE ;;
        if negb (fst r =? DIRENT_SIZE) then panic "dirlink read"
        else if de_inum (snd r) =? 0 then ret off
        else dirlink_scan k' dp (s32 (off + DIRENT_SIZE))
    end
  else ret off.

(** The [struct dirent] that [dirlink] writes: [inum] as a [ushort], then
    the name. *)
Definition new_dirent (name : list Z) (inum : Z) : list Z :=
  [inum mod 256; inum / 256 mod 256] ++ strncpy name (Z.to_nat DIRSIZ).

(** [dirlink]: write a new directory entry [(name, inum)] into [dp]. *)
Definition dirlink (dp : nat) (name : list Z) (inum : Z) : M Z :=
  r <- dirlookup dp name ;;
  match r with
  | Some (ip, _) => iput ip ;; ret (-1)
  | None =>
      st <- get_state ;;
      off <- dirlink_scan (S (Z.to_nat (Ino.size (icache st dp) / DIRENT_SIZE))) dp 0 ;;
      w <- writei dp 0 0 (new_dirent name inum) (u32 off) DIRENT_SIZE ;;
      if negb (w =? DIRENT_SIZE) then panic "dirlink" else ret 0
  end.

(** Bytes as [unsigned char]. *)
Definition is_bytes (l : list Z) : Prop := Forall (fun c => 0 <= c < 256) l.

Lemma length_strncpy n : forall s, List.length (strncpy s n) = n.
Proof.
  induction n as [|n IH]; intros s; cbn [strncpy List.length]; [reflexivity|].
  destruct s as [|c t]; [cbn; now rewrite IH|].
  destruct (c =? 0); cbn; now rewrite IH.
Qed.

Lemma strncpy_bytes n : forall s, is_bytes s -> is_bytes (strncpy s n).
Proof.
  induction n as [|n IH]; intros s Hs; cbn [strncpy]; [constructor|].
  destruct s as [|c t].
  - constructor; [lia|]. apply IH. constructor.
  - inversion_clear Hs as [|? ? Hc Ht]. destruct (c =? 0).
    + constructor; [lia|]. apply IH. constructor.
    + constructor; [exact Hc|]. now apply IH.
Qed.

(** A name compares equal to its copy. *)
Lemma strncmp_strncpy n : forall s, strncmp s (strncpy s n) n = 0.
Proof.
  induction n as [|n IH]; intros s; cbn [strncmp strncpy]; [reflexivity|].
  destruct s as [|c t]; cbn [hd tl]; [reflexivity|].
  destruct (c =? 0) eqn:Ec; cbn [hd tl negb andb].
  - apply Z.eqb_eq in Ec. subst c. reflexivity.
  - rewrite Z.eqb_refl. apply IH.
Qed.

Lemma map_zrange_list (f : Z -> Z) (l : list Z) : forall a,
  (forall j, (j < List.length l)%nat -> f (a + Z.of_nat j) = nth j l 0) ->
  map f (zrange a (List.length l)) = l.
Proof.
  induction l as [|x t IH]; intros a H; cbn [List.length zrange map]; [reflexivity|].
  f_equal.
  - specialize (H 0%nat ltac:(cbn; lia)). now rewrite Z.add_0_r in H.
  - apply IH. intros j Hj. specialize (H (S j) ltac:(cbn; lia)). cbn [nth] in H.
    rewrite <- H. f_equal. lia.
Qed.

Lemma new_bytes l :
  is_bytes l -> map (new_byte l) (zseq (Z.of_nat (List.length l))) = l.
Proof.
  intros Hl. unfold zseq. rewrite Nat2Z.id. apply map_zrange_list.
  intros j Hj. unfold new_byte. rewrite Z.add_0_l, Nat2Z.id.
  apply Z.mod_small. unfold is_bytes in Hl. rewrite Forall_forall in Hl.
  apply Hl. now apply nth_In.
Qed.

Lemma dirlink_scan_step k dp off st :
  (u32 off <? Ino.size (icache st dp)) = true ->
  dirlink_scan (S k) dp off st =
  (r <- readi dp 0 0 off DIRENT_SIZE ;;
   if negb (fst r =? DIRENT_SIZE) then panic "dirlink read"
   else if de_inum (snd r) =? 0 then ret off
   else dirlink_scan k dp (s32 (off + DIRENT_SIZE))) st.
Proof. intros H. cbn [dirlink_scan]. rewrite bind_get. now rewrite H. Qed.

(** The scan of [dirlink] stops at the first entry whose [inum] is 0. *)
Lemma dirlink_scan_finds dp t k : forall off st,
  small_dir st dp -> 0 <= off <= t -> t < Ino.size (icache st dp) ->
  off mod DIRENT_SIZE = 0 -> t mod DIRENT_SIZE = 0 ->
  t - off < DIRENT_SIZE * Z.of_nat k ->
  de_inum (dirent_at st dp t) = 0 ->
  (forall o, off <= o < t -> o mod DIRENT_SIZE = 0 -> de_inum (dirent_at st dp o) <> 0) ->
  exists s1, dirlink_scan k dp off st = Ret (t, s1) /\ unchanged st s1.
Proof.
  induction k as [|k IH]; intros off st Hdir Hoff Ht Ha Hta Hfuel Hfree Hused.
  - change DIRENT_SIZE with 16 in *. lia.
  - assert (Hs : 0 <= Ino.size (icache st dp) <= 11264) by apply Hdir.
    rewrite dirlink_scan_step by (rewrite u32_small by lia; apply Z.ltb_lt; lia).
    destruct (readi_dirent st dp 0 off Hdir ltac:(lia) Ha) as (s1 & Er & Hun).
    rewrite (bind_ret _ _ _ _ _ Er). cbn [fst snd]. rewrite Z.eqb_refl. cbn [negb].
    destruct (Z.eq_dec off t) as [->|Hne].
    + rewrite Hfree. cbn [Z.eqb]. exists s1. split; [reflexivity|exact Hun].
    + specialize (Hused off ltac:(lia) Ha) as Hu. apply Z.eqb_neq in Hu. rewrite Hu.
      assert (Hnext : off + DIRENT_SIZE <= t).
      { change DIRENT_SIZE with 16 in *. apply Z.mod_divide in Ha, Hta; try lia.
        destruct Ha as (x & ->), Hta as (y & ->). lia. }
      assert (Hic : icache s1 = icache st) by apply Hun.
      rewrite s32_small by (change DIRENT_SIZE with 16 in *; lia).
      destruct (IH (off + DIRENT_SIZE) s1) as (s2 & E2 & Hun2).
      * now apply (small_dir_unchanged st).
      * change DIRENT_SIZE with 16 in *. lia.
      * now rewrite Hic.
      * change DIRENT_SIZE with 16 in *. rewrite <- Zplus_mod_idemp_l, Ha. reflexivity.
      * exact Hta.
      * change DIRENT_SIZE with 16 in *. lia.
      * now rewrite (dirent_at_unchanged st).
      * intros o Ho Hoa. rewrite (dirent_at_unchanged st) by exact Hun.
        apply Hused; [change DIRENT_SIZE with 16 in *; lia|exact Hoa].
      * exists s2. split; [exact E2|eapply frame_trans; eassumption].
Qed.

(** An entry is sixteen bytes of the file. *)
Lemma dirent_bytes st dp o :
  0 <= o -> o mod DIRENT_SIZE = 0 ->
  dirent_at st dp o = map (file_byte st dp) (zrange o 16).
Proof.
  intros Ho Ha. unfold dirent_at. change (Z.to_nat DIRENT_SIZE) with 16%nat.
  apply bytes_from_map. intros j Hj. unfold file_byte.
  change DIRENT_SIZE with 16 in Ha. change BSIZE with 1024.
  apply Z.mod_divide in Ha; [|lia]. destruct Ha as (x & ->).
  assert (Hq : (x * 16 + j) / 1024 = x * 16 / 1024 /\
               (x * 16 + j) mod 1024 = (x * 16) mod 1024 + j).
  { pose proof (Z.div_mod (x * 16) 1024 ltac:(lia)) as Hd.
    pose proof (Z.mod_pos_bound (x * 16) 1024 ltac:(lia)) as Hm.
    assert (Hm16 : (x * 16) mod 1024 <= 1008).
    { replace 1024 with (16 * 64) by reflexivity. rewrite Z.mul_comm, Zmult_mod_distr_l.
      pose proof (Z.mod_pos_bound x 64 ltac:(lia)). lia. }
    rewrite Hd at 1 3. rewrite <- Z.add_assoc, (Z.mul_comm 1024). split.
    - rewrite Z.add_comm, Z.div_add by lia. rewrite Z.div_small by lia. lia.
    - rewrite Z.add_comm, Z.mod_add by lia. apply Z.mod_small. lia. }
  destruct Hq as (-> & ->). reflexivity.
Qed.

Lemma de_inum_new name inum : 0 <= inum < 65536 -> de_inum (new_dirent name inum) = inum.
Proof.
  intros H. unfold de_inum, new_dirent. cbn [app nth].
  rewrite (Z.mod_small (inum / 256)) by (split; [apply Z.div_pos|apply Z.div_lt_upper_bound]; lia).
  pose proof (Z.div_mod inum 256 ltac:(lia)). lia.
Qed.

Lemma de_name_new name inum :
  de_name (new_dirent name inum) = strncpy name (Z.to_nat DIRSIZ).
Proof.
  unfold de_name, new_dirent. cbn [app skipn].
  rewrite <- (length_strncpy (Z.to_nat DIRSIZ) name) at 1. apply firstn_all.
Qed.

Lemma new_dirent_bytes name inum : is_bytes name -> is_bytes (new_dirent name inum).
Proof.
  intros Hn. unfold new_dirent. cbn [app].
  constructor; [apply Z.mod_pos_bound; lia|].
  constructor; [apply Z.mod_pos_bound; lia|]. now apply strncpy_bytes.
Qed.

Lemma length_new_dirent name inum : List.length (new_dirent name inum) = 16%nat.
Proof. unfold new_dirent. cbn [app List.length]. now rewrite length_strncpy. Qed.


(** The root directory of [dir_sample] with room for a second entry, which
    is free. *)
Definition link_sample : kstate :=
  set_icache dir_sample
    (fun i => match i with
              | O => Ino.mkinode 1 1 1 1 true T_DIR 0 0 1 32 (59 :: repeat 0 12)
              | _ => free_inode
              end).

Lemma link_sample_block bn :
  0 <= bn -> bn * BSIZE < Ino.size (icache link_sample 0) -> bn = 0.
Proof.
  change (Ino.size (icache link_sample 0)) with 32. change BSIZE with 1024. lia.
Qed.

Lemma link_sample_entries o :
  0 <= o < Ino.size (icache link_sample 0) -> o mod DIRENT_SIZE = 0 -> o = 0 \/ o = 16.
Proof.
  change (Ino.size (icache link_sample 0)) with 32. change DIRENT_SIZE with 16.
  intros Ho Hm. apply Z.mod_divide in Hm; [|lia]. destruct Hm as (x & ->). lia.
Qed.



